(** * MailDeck / ClawMail3: sync daemon, outbox and shared utilities

    A shallow embedding of the TypeScript sources of the local e-mail
    client (packages/shared and packages/sync-daemon) together with the
    properties of its specification that concern them.

    Conventions of the embedding.
    - A JavaScript string is the list of its UTF-16 code units, each a
      number in [N]; [js "abc"] is the string written with ASCII characters.
    - [undefined] is [None]; a function that throws returns an error value.
    - The file system is a finite map from paths to file contents.
    - Built-in services that are not code of the repository (Unicode
      normalisation, lower-casing, the WHATWG URL parser, the header scan
      of a raw message) are parameters of the definitions that call them. *)

From Stdlib Require Import ZArith NArith Lia List Ascii String Bool Sorted Permutation.
From stdpp Require Import base option list gmap.

Import ListNotations.
Local Open Scope N_scope.
Set Warnings "-register-all".

(* ===================================================================== *)
(** * Part I. Definitions                                                  *)
(* ===================================================================== *)

(** ** JavaScript strings and the built-ins used by the sources *)

Module JS.

Abbreviation jsstring := (list N).

(** The string whose code units are the bytes of an ASCII literal. *)
Definition js (s : string) : jsstring :=
  map N_of_ascii (list_ascii_of_string s).

Definition DQUOTE : N := 34.      (* the double-quote character *)
Definition BACKSLASH : N := 92.
Definition SPACE : N := 32.
Definition SLASH : N := 47.
Definition DOT : N := 46.
Definition LF : N := 10.

Definition jsstring_eqb (a b : jsstring) : bool := bool_decide (a = b).

(** [WhiteSpace] and [LineTerminator] of ECMAScript: the class [\s] of
    regular expressions and the characters removed by [trim]. *)
Definition is_space (c : N) : bool :=
  ((9 <=? c) && (c <=? 13)) || (c =? 32) || (c =? 160) || (c =? 5760)
  || ((8192 <=? c) && (c <=? 8202)) || (c =? 8232) || (c =? 8233)
  || (c =? 8239) || (c =? 8287) || (c =? 12288) || (c =? 65279).

(** [LineTerminator]: the characters the regular-expression dot refuses. *)
Definition is_line_terminator (c : N) : bool :=
  (c =? 10) || (c =? 13) || (c =? 8232) || (c =? 8233).

Definition is_digit (c : N) : bool := (48 <=? c) && (c <=? 57).

Fixpoint drop_while (p : N -> bool) (s : jsstring) : jsstring :=
  match s with
  | [] => []
  | c :: r => if p c then drop_while p r else s
  end.

Definition trimStart (s : jsstring) : jsstring := drop_while is_space s.
Definition trimEnd (s : jsstring) : jsstring := rev (drop_while is_space (rev s)).
Definition trim (s : jsstring) : jsstring := trimEnd (trimStart s).

(** [s.startsWith(p)] *)
Fixpoint startsWith (s p : jsstring) : bool :=
  match p, s with
  | [], _ => true
  | _ :: _, [] => false
  | a :: p', b :: s' => (a =? b) && startsWith s' p'
  end.

(** [s.endsWith(p)] *)
Definition endsWith (s p : jsstring) : bool := startsWith (rev s) (rev p).

(** [s.includes(c)] for a one-character needle. *)
Definition includes_char (s : jsstring) (c : N) : bool :=
  existsb (N.eqb c) s.

(** [s.replace(/c/g, r)] for a one-character pattern. *)
Definition replace_char (c : N) (r : jsstring) (s : jsstring) : jsstring :=
  flat_map (fun x => if x =? c then r else [x]) s.

(** [s.replace(/\s+/g, " ")]: [in_run] tells that the previous character
    belonged to the run of white space already replaced. *)
Fixpoint collapse_spaces_from (in_run : bool) (s : jsstring) : jsstring :=
  match s with
  | [] => []
  | c :: r =>
      if is_space c
      then (if in_run then collapse_spaces_from true r
            else SPACE :: collapse_spaces_from true r)
      else c :: collapse_spaces_from false r
  end.
Definition collapse_spaces (s : jsstring) : jsstring :=
  collapse_spaces_from false s.

(** [s.lastIndexOf(c)], -1 when [c] does not occur. *)
Fixpoint lastIndexOf_from (c : N) (s : jsstring) (i : Z) (found : Z) : Z :=
  match s with
  | [] => found
  | x :: r => lastIndexOf_from c r (i + 1)%Z (if x =? c then i else found)
  end.
Definition lastIndexOf (s : jsstring) (c : N) : Z :=
  lastIndexOf_from c s 0%Z (-1)%Z.

(** [s.slice(0, n)] for [0 <= n]. *)
Definition slice0 (s : jsstring) (n : nat) : jsstring := take n s.

(** [lines.join(sep)] *)
Fixpoint join (sep : jsstring) (parts : list jsstring) : jsstring :=
  match parts with
  | [] => []
  | [p] => p
  | p :: rest => p ++ sep ++ join sep rest
  end.

(** [s.split(c)] for a one-character separator: never the empty list. *)
Fixpoint split (c : N) (s : jsstring) : list jsstring :=
  match s with
  | [] => [[]]
  | x :: r =>
      if x =? c then [] :: split c r
      else match split c r with
           | [] => [[x]]
           | seg :: segs => (x :: seg) :: segs
           end
  end.

(** Digits of [n.toString(radix)] for a natural number, [2 <= radix <= 36]:
    0-9 then a-z. *)
Definition digit_char (d : N) : N := if d <? 10 then 48 + d else 87 + d.

Fixpoint toString_fuel (fuel : nat) (radix n : N) (acc : jsstring) : jsstring :=
  match fuel with
  | O => acc
  | S f =>
      let acc' := digit_char (n mod radix) :: acc in
      if n / radix =? 0 then acc' else toString_fuel f radix (n / radix) acc'
  end.
Definition toString_radix (radix n : N) : jsstring :=
  toString_fuel (S (N.to_nat (N.log2 n))) radix n [].

(** [String(z)] for an integer. *)
Definition Z_toString (z : Z) : jsstring :=
  if (z <? 0)%Z then js "-" ++ toString_radix 10 (Z.to_N (- z))
  else toString_radix 10 (Z.to_N z).

(** [s.padStart(n, "0")] *)
Definition padStart0 (n : nat) (s : jsstring) : jsstring :=
  repeat 48 (n - length s)%nat ++ s.

(** The value of a run of decimal digits. *)
Definition digits_value (s : jsstring) : N :=
  fold_left (fun acc c => 10 * acc + (c - 48)) s 0.

End JS.
Export JS.

(** ** Values produced by [JSON.parse] *)

Module Json.

(** Numbers are observed by the sources only through [typeof],
    truthiness and conversion to a string; the embedding keeps the
    integer-valued ones. *)
Inductive json : Type :=
| JNull
| JBool (b : bool)
| JNum (n : Z)
| JStr (s : jsstring)
| JArr (items : list json)
| JObj (fields : list (jsstring * json)).

Fixpoint assoc (k : jsstring) (fields : list (jsstring * json)) : option json :=
  match fields with
  | [] => None
  | (k', v) :: rest => if jsstring_eqb k k' then Some v else assoc k rest
  end.

(** [obj[k] = v] on the property list: replaces in place or appends. *)
Fixpoint set_field (k : jsstring) (v : json) (fields : list (jsstring * json))
  : list (jsstring * json) :=
  match fields with
  | [] => [(k, v)]
  | (k', v') :: rest =>
      if jsstring_eqb k k' then (k, v) :: rest else (k', v') :: set_field k v rest
  end.

(** [{ ...a, ...b }] *)
Definition spread (a b : list (jsstring * json)) : list (jsstring * json) :=
  fold_left (fun acc kv => set_field (fst kv) (snd kv) acc) b a.

(** [data.k] for a property name that is neither an array index nor
    [length]: [None] is [undefined]. *)
Definition get (data : json) (k : jsstring) : option json :=
  match data with
  | JObj fields => assoc k fields
  | _ => None
  end.

(** ToBoolean *)
Definition truthy (v : option json) : bool :=
  match v with
  | None | Some JNull => false
  | Some (JBool b) => b
  | Some (JNum n) => negb (n =? 0)%Z
  | Some (JStr s) => negb (jsstring_eqb s [])
  | Some (JArr _) | Some (JObj _) => true
  end.

(** [typeof v === "string"] *)
Definition is_string (v : option json) : bool :=
  match v with Some (JStr _) => true | _ => false end.

(** [typeof v === "object"]: [null], arrays and objects. *)
Definition typeof_object (v : option json) : bool :=
  match v with
  | Some JNull | Some (JArr _) | Some (JObj _) => true
  | _ => false
  end.

(** ToString, as applied by template literals and property keys. *)
Fixpoint ToString (v : json) : jsstring :=
  match v with
  | JNull => js "null"
  | JBool true => js "true"
  | JBool false => js "false"
  | JNum n => Z_toString n
  | JStr s => s
  | JArr items =>
      JS.join (js ",")
        (map (fun x => match x with JNull => [] | _ => ToString x end) items)
  | JObj _ => js "[object Object]"
  end.

Definition ToString_opt (v : option json) : jsstring :=
  match v with
  | None => js "undefined"
  | Some x => ToString x
  end.

End Json.
Export Json.

(** ** packages/shared/src/constants.ts *)

Module Constants.

(** [OUTBOX_STATUSES] *)
Definition OUTBOX_STATUSES : list jsstring :=
  [js "pending_review"; js "ready_to_send"; js "sending"; js "sent"; js "failed"].

(** [OUTBOX_TRANSITIONS]: the own properties of the object literal. *)
Definition OUTBOX_TRANSITIONS : list (jsstring * list jsstring) :=
  [ (js "pending_review", [js "ready_to_send"]);
    (js "ready_to_send", [js "sending"]);
    (js "sending", [js "sent"; js "failed"]) ].

(** Property names every object literal inherits from [Object.prototype];
    reading one of them from [OUTBOX_TRANSITIONS] yields a function or an
    object that has no [includes] method. *)
Definition Object_prototype_keys : list jsstring :=
  [ js "constructor"; js "__proto__"; js "hasOwnProperty"; js "isPrototypeOf";
    js "propertyIsEnumerable"; js "toLocaleString"; js "toString"; js "valueOf";
    js "__defineGetter__"; js "__defineSetter__";
    js "__lookupGetter__"; js "__lookupSetter__" ].

Definition ACCOUNT_DIRS_index := js "index".
Definition ACCOUNT_DIRS_threads := js "threads".
Definition ACCOUNT_DIRS_outbox := js "outbox".
Definition ACCOUNT_DIRS_sent := js "sent".
Definition ACCOUNT_DIRS_failed := js "failed".
Definition INDEX_FILES_threads := js "threads.jsonl".
Definition INDEX_FILES_contacts := js "contacts.jsonl".
Definition INDEX_FILES_commitments := js "commitments.jsonl".

End Constants.
Export Constants.

(** ** node:path (POSIX flavour), as used by paths.ts *)

Module NodePath.

Definition isAbsolute (p : jsstring) : bool :=
  match p with c :: _ => c =? SLASH | [] => false end.

Definition hasTrailingSeparator (p : jsstring) : bool :=
  match rev p with c :: _ => c =? SLASH | [] => false end.

Definition DOTDOT : jsstring := [DOT; DOT].

(** [normalizeString]: the segments between separators are visited from
    left to right; [res] is the stack of kept segments, last one first.
    Empty segments and [.] are dropped; [..] removes the last kept segment
    unless there is none or it is [..] itself, in which case it is kept
    for a relative path and dropped for an absolute one. *)
Fixpoint normalizeSegments (allowAboveRoot : bool) (segs : list jsstring)
         (res : list jsstring) : list jsstring :=
  match segs with
  | [] => rev res
  | s :: rest =>
      if jsstring_eqb s [] || jsstring_eqb s [DOT] then
        normalizeSegments allowAboveRoot rest res
      else if jsstring_eqb s DOTDOT then
        match res with
        | top :: below =>
            if jsstring_eqb top DOTDOT
            then normalizeSegments allowAboveRoot rest
                   (if allowAboveRoot then DOTDOT :: res else res)
            else normalizeSegments allowAboveRoot rest below
        | [] =>
            normalizeSegments allowAboveRoot rest
              (if allowAboveRoot then [DOTDOT] else [])
        end
      else normalizeSegments allowAboveRoot rest (s :: res)
  end.

Definition normalizeString (path : jsstring) (allowAboveRoot : bool) : jsstring :=
  JS.join [SLASH] (normalizeSegments allowAboveRoot (split SLASH path) []).

(** [path.normalize] *)
Definition normalize (path : jsstring) : jsstring :=
  match path with
  | [] => [DOT]
  | _ =>
      let abs := isAbsolute path in
      let trailing := hasTrailingSeparator path in
      let p := normalizeString path (negb abs) in
      match p with
      | [] => if abs then [SLASH] else if trailing then [DOT; SLASH] else [DOT]
      | _ =>
          let p' := if trailing then p ++ [SLASH] else p in
          if abs then SLASH :: p' else p'
      end
  end.

(** [path.join(...args)] *)
Definition join (args : list jsstring) : jsstring :=
  match filter (fun a => a <> []) args with
  | [] => [DOT]
  | parts => normalize (JS.join [SLASH] parts)
  end.

(** The named segments of a path: what remains when separators, empty
    segments and [.] are taken away. *)
Definition segments (p : jsstring) : list jsstring :=
  filter (fun s => s <> [] /\ s <> [DOT]) (split SLASH p).

Fixpoint strip_prefix (pre l : list jsstring) : option (list jsstring) :=
  match pre, l with
  | [], _ => Some l
  | _ :: _, [] => None
  | a :: pre', b :: l' => if jsstring_eqb a b then strip_prefix pre' l' else None
  end.

(** [inside dir p]: the normalised path [p] is [dir] or lies below it:
    both are absolute or both relative, the segments of [dir] begin the
    segments of [p], and what follows never steps up with [..]. *)
Definition inside (dir p : jsstring) : bool :=
  bool_decide (isAbsolute dir = isAbsolute p) &&
  match strip_prefix (segments dir) (segments p) with
  | Some rest => forallb (fun s => negb (jsstring_eqb s DOTDOT)) rest
  | None => false
  end.

End NodePath.

(** ** packages/shared/src/utils/paths.ts *)

Module Paths.
Section WithHome.

(** [os.homedir()] *)
Variable homedir : jsstring.

Definition MAILDECK_BASE_DIR : jsstring := NodePath.join [homedir; js ".clawmail3"].

Definition baseDir (override : option jsstring) : jsstring :=
  match override with Some b => b | None => MAILDECK_BASE_DIR end.

Definition accountDir (email : jsstring) (base : option jsstring) : jsstring :=
  NodePath.join [baseDir base; js "accounts"; email].

Definition accountMetaPath (email : jsstring) (base : option jsstring) :=
  NodePath.join [accountDir email base; js "account.json"].

Definition indexDir (email : jsstring) (base : option jsstring) :=
  NodePath.join [accountDir email base; ACCOUNT_DIRS_index].

Definition threadsIndexPath (email : jsstring) (base : option jsstring) :=
  NodePath.join [indexDir email base; INDEX_FILES_threads].

Definition threadDir (email threadId : jsstring) (base : option jsstring) :=
  NodePath.join [accountDir email base; ACCOUNT_DIRS_threads; threadId].

Definition threadMetaPath (email threadId : jsstring) (base : option jsstring) :=
  NodePath.join [threadDir email threadId base; js "thread.json"].

Definition messagesDir (email threadId : jsstring) (base : option jsstring) :=
  NodePath.join [threadDir email threadId base; js "messages"].

Definition attachmentsDir (email threadId : jsstring) (base : option jsstring) :=
  NodePath.join [threadDir email threadId base; js "attachments"].

Definition outboxDir (email : jsstring) (base : option jsstring) :=
  NodePath.join [accountDir email base; ACCOUNT_DIRS_outbox].

Definition sentDir (email : jsstring) (base : option jsstring) :=
  NodePath.join [accountDir email base; ACCOUNT_DIRS_sent].

Definition failedDir (email : jsstring) (base : option jsstring) :=
  NodePath.join [accountDir email base; ACCOUNT_DIRS_failed].

Definition configPath (base : option jsstring) :=
  NodePath.join [baseDir base; js "config.json"].

Definition logsDir (base : option jsstring) :=
  NodePath.join [baseDir base; js "logs"].

Definition labelsPath (email : jsstring) (base : option jsstring) :=
  NodePath.join [accountDir email base; js "labels.json"].

Definition contactsIndexPath (email : jsstring) (base : option jsstring) :=
  NodePath.join [indexDir email base; INDEX_FILES_contacts].

Definition commitmentsIndexPath (email : jsstring) (base : option jsstring) :=
  NodePath.join [indexDir email base; INDEX_FILES_commitments].

End WithHome.
End Paths.

(** ** packages/sync-daemon/src/storage/attachment-writer.ts *)

Module AttachmentWriter.

Definition UNDERSCORE : N := 95.

(** The class of the first replacement: slash, backslash, colon, star,
    question mark, double quote, the angle brackets and the bar. *)
Definition reserved (c : N) : bool :=
  (c =? SLASH) || (c =? BACKSLASH) || (c =? 58) || (c =? 42) || (c =? 63)
  || (c =? DQUOTE) || (c =? 60) || (c =? 62) || (c =? 124).

(** The first [replace]: every character of the class becomes [_]. *)
Definition replace_reserved (s : jsstring) : jsstring :=
  map (fun c => if reserved c then UNDERSCORE else c) s.

(** The second [replace], of two dots by [_]: matches are taken left to
    right and do not overlap. *)
Fixpoint replace_dotdot (s : jsstring) : jsstring :=
  match s with
  | c1 :: ((c2 :: rest) as tl) =>
      if (c1 =? DOT) && (c2 =? DOT)
      then UNDERSCORE :: replace_dotdot rest
      else c1 :: replace_dotdot tl
  | _ => s
  end.

Definition sanitizeFilename (name : jsstring) : jsstring :=
  match trim (replace_dotdot (replace_reserved name)) with
  | [] => js "attachment"
  | safe => safe
  end.

(** The [filePath] of [writeAttachments]:
    [join(attachmentsDir(email, threadId, base), sanitizeFilename(att.filename))]. *)
Definition filePath (homedir email threadId filename : jsstring)
           (base : option jsstring) : jsstring :=
  NodePath.join [Paths.attachmentsDir homedir email threadId base;
                 sanitizeFilename filename].

End AttachmentWriter.

(** ** packages/sync-daemon/src/storage/thread-writer.ts *)

Module ThreadWriter.

Record MessageFrontmatter := {
  fm_id : jsstring;
  fm_gmail_message_id : jsstring;
  fm_thread_id : jsstring;
  fm_rfc822_message_id : option jsstring;
  fm_in_reply_to : option jsstring;
  fm_references : option (list jsstring);
  fm_from : jsstring;
  fm_from_name : jsstring;
  fm_to : jsstring;
  fm_cc : option jsstring;
  fm_date : jsstring;
  fm_uid : option Z
}.

(** The class [[:#\[\]{}|>&*!']] of the test in [yamlSafeValue]. *)
Definition yaml_special : jsstring := js ":#[]{}|>&*!'".

Definition has_yaml_special (value : jsstring) : bool :=
  existsb (fun c => includes_char yaml_special c) value.

Definition needs_quoting (value : jsstring) : bool :=
  has_yaml_special value || startsWith value (js "-") || startsWith value (js " ").

(** [value.replace(/\\/g, "\\\\").replace(/"/g, '\\"')] *)
Definition yaml_escape (value : jsstring) : jsstring :=
  replace_char DQUOTE [BACKSLASH; DQUOTE]
    (replace_char BACKSLASH [BACKSLASH; BACKSLASH] value).

Definition yamlSafeValue (value : jsstring) : jsstring :=
  if needs_quoting value
  then [DQUOTE] ++ yaml_escape value ++ [DQUOTE]
  else value.

(** Truthiness of an optional string property. *)
Definition present (o : option jsstring) : option jsstring :=
  match o with
  | Some [] | None => None
  | Some s => Some s
  end.

Section Render.
(** [JSON.stringify] on an array of strings. *)
Variable JSON_stringify : list jsstring -> jsstring.

Definition frontmatter_lines (fm : MessageFrontmatter) : list jsstring :=
  [js "---"]
  ++ [js "id: " ++ fm_id fm]
  ++ [js "gmail_message_id: " ++ fm_gmail_message_id fm]
  ++ [js "thread_id: " ++ fm_thread_id fm]
  ++ match present (fm_rfc822_message_id fm) with
     | Some m => [js "rfc822_message_id: " ++ [DQUOTE] ++ m ++ [DQUOTE]]
     | None => []
     end
  ++ match present (fm_in_reply_to fm) with
     | Some m => [js "in_reply_to: " ++ [DQUOTE] ++ m ++ [DQUOTE]]
     | None => []
     end
  ++ match fm_references fm with
     | Some (r :: rs) => [js "references: " ++ JSON_stringify (r :: rs)]
     | _ => []
     end
  ++ [js "from: " ++ yamlSafeValue (fm_from fm)]
  ++ [js "from_name: " ++ yamlSafeValue (fm_from_name fm)]
  ++ [js "to: " ++ yamlSafeValue (fm_to fm)]
  ++ match present (fm_cc fm) with
     | Some c => [js "cc: " ++ yamlSafeValue c]
     | None => []
     end
  ++ [js "date: " ++ fm_date fm]
  ++ match fm_uid fm with
     | Some u => [js "uid: " ++ Z_toString u]
     | None => []
     end.

Definition renderMessageMd (fm : MessageFrontmatter) (body : jsstring) : jsstring :=
  JS.join [LF] (frontmatter_lines fm ++ [js "---"; []; body; []]).
End Render.

End ThreadWriter.

(** ** packages/sync-daemon/src/cleaning/snippet-generator.ts *)

Module SnippetGenerator.

Definition DEFAULT_MAX_LENGTH : nat := 300.

(** The test [lastSpace > maxLength * 0.7] is written in integers,
    [10 * lastSpace > 7 * maxLength]; for the default cap the product
    [300 * 0.7] of the source is the double 210 exactly. *)
Definition generateSnippet_cap (body : jsstring) (maxLength : nat) : jsstring :=
  let collapsed := trim (collapse_spaces body) in
  if (length collapsed <=? maxLength)%nat then collapsed
  else
    let truncated := slice0 collapsed maxLength in
    let lastSpace := lastIndexOf truncated SPACE in
    if (7 * Z.of_nat maxLength <? 10 * lastSpace)%Z
    then slice0 truncated (Z.to_nat lastSpace) ++ js "..."
    else truncated ++ js "...".

Definition generateSnippet (body : jsstring) : jsstring :=
  generateSnippet_cap body DEFAULT_MAX_LENGTH.

(** The same function for any cap that is a natural number, with the
    comparison of the source left as it is written there;
    [slice(0, lastSpace)] counts a negative end from the end. *)
Section WithDoubles.
(** [lastSpace > maxLength * 0.7], the product and the comparison taken
    in doubles. *)
Variable above_cut : Z -> nat -> bool.

Definition generateSnippet_with (body : jsstring) (maxLength : nat) : jsstring :=
  let collapsed := trim (collapse_spaces body) in
  if (length collapsed <=? maxLength)%nat then collapsed
  else
    let truncated := slice0 collapsed maxLength in
    let lastSpace := lastIndexOf truncated SPACE in
    if above_cut lastSpace maxLength
    then (if (lastSpace <? 0)%Z
          then take (length truncated - Z.to_nat (- lastSpace)) truncated
          else slice0 truncated (Z.to_nat lastSpace)) ++ js "..."
    else truncated ++ js "...".

End WithDoubles.

End SnippetGenerator.

(** ** packages/sync-daemon/src/outbox/validator.ts *)

Module Validator.

Record ValidationResult := { valid : bool; errors : list jsstring }.

(** [arr.includes(v)] for an array of strings and any value [v]. *)
Definition includes_value (arr : list jsstring) (v : option json) : bool :=
  match v with
  | Some (JStr s) => existsb (jsstring_eqb s) arr
  | _ => false
  end.

Definition is_reply (v : option json) : bool :=
  match v with Some (JStr s) => jsstring_eqb s (js "reply") | _ => false end.

(** [typeof addr !== "string" || !addr.includes("@")] *)
Definition bad_address (addr : json) : bool :=
  match addr with
  | JStr s => negb (includes_char s 64)
  | _ => true
  end.

Definition action_errors (draft : json) : list jsstring :=
  if negb (truthy (get draft (js "action")))
     || negb (includes_value [js "reply"; js "compose"] (get draft (js "action")))
  then [js "action must be " ++ [DQUOTE] ++ js "reply" ++ [DQUOTE] ++ js " or "
          ++ [DQUOTE] ++ js "compose" ++ [DQUOTE]]
  else [].

Definition thread_id_errors (draft : json) : list jsstring :=
  if is_reply (get draft (js "action"))
  then if negb (truthy (get draft (js "thread_id")))
          || negb (is_string (get draft (js "thread_id")))
       then [js "thread_id is required for replies"]
       else []
  else [].

Definition to_errors (draft : json) : list jsstring :=
  match get draft (js "to") with
  | Some (JArr (a :: rest)) =>
      flat_map (fun addr =>
                  if bad_address addr
                  then [js "Invalid email address in to: " ++ ToString addr]
                  else [])
               (a :: rest)
  | _ => [js "to must be a non-empty array of email addresses"]
  end.

Definition subject_errors (draft : json) : list jsstring :=
  if negb (truthy (get draft (js "subject")))
     || negb (is_string (get draft (js "subject")))
  then [js "subject is required"] else [].

Definition body_errors (draft : json) : list jsstring :=
  if negb (truthy (get draft (js "body")))
     || negb (is_string (get draft (js "body")))
  then [js "body is required"] else [].

Definition status_errors (draft : json) : list jsstring :=
  if truthy (get draft (js "status"))
     && negb (includes_value OUTBOX_STATUSES (get draft (js "status")))
  then [js "Invalid status: " ++ ToString_opt (get draft (js "status"))
          ++ js ". Must be one of: " ++ JS.join (js ", ") OUTBOX_STATUSES]
  else [].

Definition validateDraft (data : json) : ValidationResult :=
  if negb (truthy (Some data)) || negb (typeof_object (Some data))
  then {| valid := false; errors := [js "Draft must be a JSON object"] |}
  else
    let errs := action_errors data ++ thread_id_errors data ++ to_errors data
                ++ subject_errors data ++ body_errors data ++ status_errors data in
    {| valid := bool_decide (length errs = 0%nat); errors := errs |}.

(** [parseDraft] *)
Definition parseDraft (data : json) : option json :=
  if valid (validateDraft data) then Some data else None.

End Validator.

(** ** The file system seen by the writers

    A file that holds JSON is kept as the value [JSON.parse] returns for
    it; [atomicWriteJson] (write a temporary sibling, then rename) leaves
    the target path bound to the new value. *)

Module Fs.

Abbreviation store := (gmap (list N) json).

Definition atomicWriteJson (fs : store) (filePath : jsstring) (data : json) : store :=
  <[filePath := data]> fs.

Definition unlink (fs : store) (filePath : jsstring) : store :=
  delete filePath fs.

End Fs.

(** ** packages/sync-daemon/src/outbox/state-machine.ts *)

Module StateMachine.

Inductive error : Type :=
| ENOENT (path : jsstring)
| InvalidTransitionError (from to : jsstring)
| TypeError.

(** What [OUTBOX_TRANSITIONS[key]] evaluates to. *)
Inductive transitions_entry : Type :=
| Own (allowed : list jsstring)
| Inherited
| Undefined.

Fixpoint own_transitions (key : jsstring) (table : list (jsstring * list jsstring))
  : option (list jsstring) :=
  match table with
  | [] => None
  | (k, v) :: rest => if jsstring_eqb key k then Some v else own_transitions key rest
  end.

Definition transitions_lookup (key : jsstring) : transitions_entry :=
  match own_transitions key OUTBOX_TRANSITIONS with
  | Some allowed => Own allowed
  | None =>
      if existsb (jsstring_eqb key) Object_prototype_keys then Inherited else Undefined
  end.

Section WithEnv.
Variable homedir : jsstring.
(** [new Date().toISOString()] at the time of the call. *)
Variable now : jsstring.

(** The result is the error thrown, if any, and the file system the
    call leaves behind. A draft that is not a JSON object has no
    [status] property: reading it from [null] throws, and any other
    value yields [undefined], which no transition allows. *)
Definition transitionDraft (fs : Fs.store)
           (email draftFilename newStatus : jsstring)
           (extra : option (list (jsstring * json)))
           (base : option jsstring) : option error * Fs.store :=
  let outbox := Paths.outboxDir homedir email base in
  let filePath := NodePath.join [outbox; draftFilename] in
  match fs !! filePath with
  | None => (Some (ENOENT filePath), fs)
  | Some JNull => (Some TypeError, fs)
  | Some draft =>
      let status := ToString_opt (get draft (js "status")) in
      match transitions_lookup status with
      | Undefined => (Some (InvalidTransitionError status newStatus), fs)
      | Inherited => (Some TypeError, fs)
      | Own allowed =>
          if negb (existsb (jsstring_eqb newStatus) allowed)
          then (Some (InvalidTransitionError status newStatus), fs)
          else
            let fields := match draft with JObj f => f | _ => [] end in
            let updated :=
              spread (set_field (js "status") (JStr newStatus) fields)
                     (match extra with Some e => e | None => [] end) in
            if jsstring_eqb newStatus (js "sent") then
              let destPath := NodePath.join [Paths.sentDir homedir email base; draftFilename] in
              let fs1 := Fs.atomicWriteJson fs destPath
                           (JObj (set_field (js "sent_at") (JStr now) updated)) in
              (None, Fs.unlink fs1 filePath)
            else if jsstring_eqb newStatus (js "failed") then
              let destPath := NodePath.join [Paths.failedDir homedir email base; draftFilename] in
              let fs1 := Fs.atomicWriteJson fs destPath
                           (JObj (set_field (js "failed_at") (JStr now) updated)) in
              (None, Fs.unlink fs1 filePath)
            else
              (None, Fs.atomicWriteJson fs filePath (JObj updated))
      end
  end.

(** [autoPromote] *)
Definition autoPromote (fs : Fs.store) (email draftFilename : jsstring)
           (base : option jsstring) : option error * Fs.store :=
  transitionDraft fs email draftFilename (js "ready_to_send") None base.

End WithEnv.

(** The four transitions of the specification. *)
Definition allowed_transition (s t : jsstring) : Prop :=
  (s = js "pending_review" /\ t = js "ready_to_send")
  \/ (s = js "ready_to_send" /\ t = js "sending")
  \/ (s = js "sending" /\ t = js "sent")
  \/ (s = js "sending" /\ t = js "failed").

End StateMachine.

(** ** packages/sync-daemon/src/sync/imap-sync.ts *)

Module ImapSync.

Record ImapMessage := {
  uid : Z;
  raw : jsstring;
  flags : list jsstring
}.

Record QuickHeaders := {
  messageId : jsstring;
  inReplyTo : jsstring;
  references : list jsstring;
  subject : jsstring
}.

(** Case-insensitive match of an ASCII pattern written in lower case:
    under the [i] flag a letter of the pattern matches itself and its
    upper-case form only. *)
Definition lower_ascii (c : N) : N :=
  if (65 <=? c) && (c <=? 90) then c + 32 else c.

Fixpoint strip_ci (pattern s : jsstring) : option jsstring :=
  match pattern, s with
  | [], _ => Some s
  | _ :: _, [] => None
  | p :: pattern', c :: s' =>
      if lower_ascii c =? p then strip_ci pattern' s' else None
  end.

(** [s.replace(/^(re|fw|fwd):\s*/gi, "")]: the pattern is anchored at the
    start of the string, so at most one occurrence is replaced. *)
Definition strip_reply_prefix (s : jsstring) : jsstring :=
  match strip_ci (js "re:") s with
  | Some rest => drop_while is_space rest
  | None =>
      match strip_ci (js "fw:") s with
      | Some rest => drop_while is_space rest
      | None =>
          match strip_ci (js "fwd:") s with
          | Some rest => drop_while is_space rest
          | None => s
          end
      end
  end.

(** ToInt32 *)
Definition to_int32 (z : Z) : Z :=
  ((z + 2147483648) mod 4294967296 - 2147483648)%Z.

(** One turn of the loop of [hashString]:
    [hash = ((hash << 5) - hash) + chr; hash |= 0]. *)
Definition hash_step (hash : Z) (chr : N) : Z :=
  to_int32 (to_int32 (hash * 32) - hash + Z.of_N chr)%Z.

Definition hashString (str : jsstring) : jsstring :=
  let hash := fold_left hash_step str 0%Z in
  padStart0 8 (toString_radix 36 (Z.to_N (Z.abs hash))).

Section WithBuiltins.
(** [String.prototype.toLowerCase] *)
Variable toLowerCase : jsstring -> jsstring.
(** [parseQuickHeaders]: the regular-expression scan of the first 8 KiB
    of the raw message. *)
Variable parseQuickHeaders : jsstring -> QuickHeaders.

Definition normalizeSubject (subject : jsstring) : jsstring :=
  toLowerCase (trim (strip_reply_prefix (strip_reply_prefix subject))).

(** [a || b] on strings. *)
Definition or_else (a b : jsstring) : jsstring :=
  match a with [] => b | _ => a end.

(** The thread id given to [msg] when the map of the batch is [msgIdToThread]. *)
Definition threadIdOf (msgIdToThread : gmap (list N) (list N)) (msg : ImapMessage)
  : jsstring :=
  let headers := parseQuickHeaders (raw msg) in
  let msgId := messageId headers in
  let byReply : jsstring :=
    match inReplyTo headers with
    | [] => []
    | irt => default [] (msgIdToThread !! irt)
    end in
  let byRefs : jsstring :=
    match byReply with
    | [] =>
        match list_find (fun r => is_Some (msgIdToThread !! r)) (references headers) with
        | Some (_, r) => default [] (msgIdToThread !! r)
        | None => []
        end
    | t => t
    end in
  match byRefs with
  | [] =>
      let normalizedSubject := normalizeSubject (subject headers) in
      hashString (or_else normalizedSubject
                    (or_else msgId (js "uid-" ++ Z_toString (uid msg))))
  | t => t
  end.

(** [threads.get(threadId).push(msg)], creating the entry at the end. *)
Fixpoint push_thread (threadId : jsstring) (msg : ImapMessage)
         (threads : list (jsstring * list ImapMessage))
  : list (jsstring * list ImapMessage) :=
  match threads with
  | [] => [(threadId, [msg])]
  | (t, msgs) :: rest =>
      if jsstring_eqb t threadId then (t, msgs ++ [msg]) :: rest
      else (t, msgs) :: push_thread threadId msg rest
  end.

(** The state of the loop: the threads in insertion order and the map
    from message ids to thread ids. *)
Definition group_step
           (st : list (jsstring * list ImapMessage) * gmap (list N) (list N))
           (msg : ImapMessage)
  : list (jsstring * list ImapMessage) * gmap (list N) (list N) :=
  let '(threads, msgIdToThread) := st in
  let threadId := threadIdOf msgIdToThread msg in
  let msgId := messageId (parseQuickHeaders (raw msg)) in
  let msgIdToThread' :=
    match msgId with
    | [] => msgIdToThread
    | _ => <[msgId := threadId]> msgIdToThread
    end in
  (push_thread threadId msg threads, msgIdToThread').

Definition group_loop (messages : list ImapMessage)
  : list (jsstring * list ImapMessage) * gmap (list N) (list N) :=
  fold_left group_step messages ([], ∅).

Definition groupIntoThreads (messages : list ImapMessage)
  : list (jsstring * list ImapMessage) :=
  fst (group_loop messages).

(** The result of [imapFullSync] on the messages [fetchRecent] returned:
    [Math.max(...uids)], or 0 for an empty batch. *)
Definition fullSync_lastUid (messages : list ImapMessage) : Z :=
  match messages with
  | [] => 0%Z
  | m :: rest => fold_left Z.max (map uid rest) (uid m)
  end.

End WithBuiltins.

(** [toLowerCase] on strings of ASCII characters. *)
Definition ascii_toLowerCase (s : jsstring) : jsstring := map lower_ascii s.

(** The normalisation the specification words: every leading
    [re:], [fw:] or [fwd:] is taken away, however many there are. *)
Fixpoint strip_all_reply_prefixes (fuel : nat) (s : jsstring) : jsstring :=
  match fuel with
  | O => s
  | S f =>
      let s' := strip_reply_prefix s in
      if jsstring_eqb s' s then s else strip_all_reply_prefixes f s'
  end.

Definition normalizeSubject_spec (toLowerCase : jsstring -> jsstring)
           (subject : jsstring) : jsstring :=
  toLowerCase (trim (strip_all_reply_prefixes (length subject) subject)).

End ImapSync.

(** ** packages/shared/src/utils/jsonl.ts and storage/index-writer.ts *)

Module IndexWriter.

Record ThreadIndexEntry := {
  id : jsstring;
  subject : jsstring;
  from : jsstring;
  from_name : jsstring;
  participants : list jsstring;
  labels : list jsstring;
  unread : bool;
  starred : bool;
  msg_count : Z;
  last_date : jsstring;
  first_date : jsstring;
  snippet : jsstring;
  has_attachments : bool;
  size_bytes : Z
}.

(** A JSONL file is kept as the list of the records of its lines;
    [readJsonl] returns the empty list for a missing file. *)
Abbreviation jsonl_store := (gmap (list N) (list ThreadIndexEntry)).

Definition readJsonl (fs : jsonl_store) (filePath : jsstring) : list ThreadIndexEntry :=
  default [] (fs !! filePath).

Definition writeJsonl (fs : jsonl_store) (filePath : jsstring)
           (items : list ThreadIndexEntry) : jsonl_store :=
  <[filePath := items]> fs.

(** [upsertJsonl] with the key field [id]: the array after the update. *)
Definition upsert (items : list ThreadIndexEntry) (item : ThreadIndexEntry)
  : list ThreadIndexEntry :=
  match list_find (fun existing => id existing = id item) items with
  | Some (idx, _) => <[idx := item]> items
  | None => items ++ [item]
  end.

Definition upsertJsonl (fs : jsonl_store) (filePath : jsstring) (item : ThreadIndexEntry)
  : jsonl_store * list ThreadIndexEntry :=
  let items := upsert (readJsonl fs filePath) item in
  (writeJsonl fs filePath items, items).

Section WithDate.
Variable homedir : jsstring.
(** [new Date(s).getTime()]; [None] is [NaN]. *)
Variable Date_getTime : jsstring -> option Z.

(** The comparator
    [(a, b) => new Date(b.last_date).getTime() - new Date(a.last_date).getTime()]
    asks for [a] before [b] when its value is not positive; a [NaN]
    counts as zero. *)
Definition keeps_before (a b : ThreadIndexEntry) : bool :=
  match Date_getTime (last_date b), Date_getTime (last_date a) with
  | Some tb, Some ta => (tb - ta <=? 0)%Z
  | _, _ => true
  end.

(** [Array.prototype.sort] is stable: an element is placed before the
    first element it may precede. *)
Fixpoint sort_insert (x : ThreadIndexEntry) (sorted : list ThreadIndexEntry)
  : list ThreadIndexEntry :=
  match sorted with
  | [] => [x]
  | y :: rest => if keeps_before x y then x :: sorted else y :: sort_insert x rest
  end.

Definition sort_by_last_date (items : list ThreadIndexEntry) : list ThreadIndexEntry :=
  foldr sort_insert [] items.

Definition upsertThreadIndex (fs : jsonl_store) (email : jsstring)
           (entry : ThreadIndexEntry) (base : option jsstring) : jsonl_store :=
  let filePath := Paths.threadsIndexPath homedir email base in
  let '(fs1, items) := upsertJsonl fs filePath entry in
  writeJsonl fs1 filePath (sort_by_last_date items).

Definition readThreadIndex (fs : jsonl_store) (email : jsstring)
           (base : option jsstring) : list ThreadIndexEntry :=
  readJsonl fs (Paths.threadsIndexPath homedir email base).

End WithDate.

End IndexWriter.

(** ** packages/sync-daemon/src/cli/maildeck.ts: the [sync] command *)

Module Cli.

Record AccountMeta := {
  email : jsstring;
  sync_state : jsstring;
  last_sync : option jsstring;
  history_id : option jsstring;
  last_uid : option Z;
  sync_depth_days : Z;
  poll_interval_seconds : Z
}.

Record SyncResult := { lastUid : Z; threadCount : Z }.

(** The pass [cmdSync] selected. *)
Inductive pass : Type := UnreadOnly | Incremental | Full.

Fixpoint flag (name : jsstring) (flags : list (jsstring * jsstring)) : option jsstring :=
  match flags with
  | [] => None
  | (k, v) :: rest => if jsstring_eqb name k then Some v else flag name rest
  end.

Definition flag_is_true (name : jsstring) (flags : list (jsstring * jsstring)) : bool :=
  match flag name flags with
  | Some v => jsstring_eqb v (js "true")
  | None => false
  end.

Section WithEnv.
Variable toLowerCase : jsstring -> jsstring.
Variable parseQuickHeaders : jsstring -> ImapSync.QuickHeaders.
(** [parseInt(s, 10)] *)
Variable parseInt : jsstring -> Z.
(** What [client.fetchRecent(depthDays, maxMessages)] returns. *)
Variable fetchRecent : Z -> Z -> list ImapSync.ImapMessage.
(** [imapIncrementalSync(client, { email, lastUid })] and
    [imapUnreadSync(client, { email })]: the sources of these two
    passes are not part of the files at hand; their results are taken
    as they come. *)
Variable imapIncrementalSync : jsstring -> Z -> SyncResult.
Variable imapUnreadSync : jsstring -> SyncResult.
(** [new Date().toISOString()] *)
Variable now : jsstring.

Definition imapFullSync (depthDays maxMessages : Z) : SyncResult :=
  let messages := fetchRecent depthDays maxMessages in
  {| lastUid := ImapSync.fullSync_lastUid messages;
     threadCount :=
       Z.of_nat (length (ImapSync.groupIntoThreads toLowerCase parseQuickHeaders messages)) |}.

(** [meta.last_uid && meta.last_uid > 0] *)
Definition has_last_uid (meta : AccountMeta) : bool :=
  match last_uid meta with
  | Some u => (0 <? u)%Z
  | None => false
  end.

(** [keytar] look-up of the application password. *)
Variable getAppPassword : jsstring -> option jsstring.

(** [loadAccountMeta]: the parsed [account.json], or the defaults when
    the file cannot be read. The store is keyed by account. *)
Definition loadAccountMeta (disk : gmap (list N) AccountMeta) (account : jsstring)
  : AccountMeta :=
  match disk !! account with
  | Some meta => meta
  | None =>
      {| email := account; sync_state := js "idle"; last_sync := None;
         history_id := None; last_uid := None;
         sync_depth_days := 30; poll_interval_seconds := 60 |}
  end.

Definition select_pass (flags : list (jsstring * jsstring)) (meta : AccountMeta) : pass :=
  if flag_is_true (js "unread") flags then UnreadOnly
  else if negb (flag_is_true (js "full") flags) && has_last_uid meta then Incremental
  else Full.

Definition run_pass (account : jsstring) (flags : list (jsstring * jsstring))
           (meta : AccountMeta) : SyncResult :=
  match select_pass flags meta with
  | UnreadOnly => imapUnreadSync account
  | Incremental => imapIncrementalSync account (default 0%Z (last_uid meta))
  | Full =>
      let depthDays :=
        match flag (js "days") flags with
        | Some (c :: d) => parseInt (c :: d)
        | _ => 7%Z
        end in
      let maxMessages :=
        match flag (js "max") flags with
        | Some (c :: d) => parseInt (c :: d)
        | _ => 200%Z
        end in
      imapFullSync depthDays maxMessages
  end.

(** [cmdSync]: [inl] is the message of [fail]; otherwise the store of
    [account.json] files after the command and the result reported. *)
Definition cmdSync (config_accounts : list jsstring)
           (disk : gmap (list N) AccountMeta)
           (flags : list (jsstring * jsstring))
  : jsstring + (gmap (list N) AccountMeta * SyncResult) :=
  match (match flag (js "account") flags with
         | Some a => Some a
         | None => head config_accounts
         end) with
  | None => inl (js "No accounts configured. Run: maildeck setup")
  | Some account =>
      match getAppPassword account with
      | None | Some [] =>
          inl (js "No credentials found for " ++ account ++ js ". Run: maildeck setup")
      | Some _ =>
          let meta := loadAccountMeta disk account in
          let result := run_pass account flags meta in
          let meta' :=
            {| email := email meta;
               sync_state := js "idle";
               last_sync := Some now;
               history_id := history_id meta;
               last_uid := Some (lastUid result);
               sync_depth_days := sync_depth_days meta;
               poll_interval_seconds := poll_interval_seconds meta |} in
          inr (<[account := meta']> disk, result)
      end
  end.

End WithEnv.

(** The order on stored high-water marks: [null] is below every value. *)
Definition last_uid_le (a b : option Z) : Prop :=
  match a, b with
  | None, _ => True
  | Some _, None => False
  | Some x, Some y => (x <= y)%Z
  end.

End Cli.

(** ** packages/sync-daemon/src/cli/maildeck.ts and sync/imap-sync.ts:
    [cmdSync] and [imapFullSync] with the calls that can throw *)

Module CliSync.
Import Cli.

(** How the command ends when it stores no mark: [fail] prints the
    message and exits; an error thrown on the way reaches [main]. *)
Inductive failure : Type :=
| Fail (message : jsstring)
| Thrown (err : jsstring).

Section WithEnv.
Variable toLowerCase : jsstring -> jsstring.
Variable parseQuickHeaders : jsstring -> ImapSync.QuickHeaders.
(** [parseInt(s, 10)]; [None] is [NaN]. *)
Variable parseInt : jsstring -> option Z.
(** The calls of [imapFullSync] that can throw, each with the error it
    throws, if any: [initAccountDirs(email)], [client.connect()],
    [client.fetchRecent(depthDays, maxMessages)],
    [processThread(email, threadId, threadMsgs)] and
    [client.disconnect()]. *)
Variable initAccountDirs : jsstring -> option jsstring.
Variable connect : option jsstring.
Variable fetchRecent : option Z -> option Z -> jsstring + list ImapSync.ImapMessage.
Variable processThread : jsstring -> jsstring -> list ImapSync.ImapMessage -> option jsstring.
Variable disconnect : option jsstring.
(** [imapIncrementalSync(client, { email, lastUid })] and
    [imapUnreadSync(client, { email })] *)
Variable imapIncrementalSync : jsstring -> Z -> jsstring + SyncResult.
Variable imapUnreadSync : jsstring -> jsstring + SyncResult.
(** [new Date().toISOString()] *)
Variable now : jsstring.
(** [keytar] look-up of the application password. *)
Variable getAppPassword : jsstring -> option jsstring.

(** The error of the first thread the loop cannot process. *)
Definition first_thrown (email : jsstring) (threads : list (jsstring * list ImapSync.ImapMessage))
  : option jsstring :=
  head (omap (fun th => processThread email (fst th) (snd th)) threads).

(** [imapFullSync]: the error it throws, or its result. An error inside
    the [try] block is thrown again after the client is disconnected. *)
Definition imapFullSync (email : jsstring) (depthDays maxMessages : option Z)
  : jsstring + SyncResult :=
  match initAccountDirs email with
  | Some err => inl err
  | None =>
  match connect with
  | Some err => inl err
  | None =>
  match fetchRecent depthDays maxMessages with
  | inl err => inl err
  | inr messages =>
      let threads := ImapSync.groupIntoThreads toLowerCase parseQuickHeaders messages in
      match first_thrown email threads with
      | Some err => inl err
      | None =>
          match disconnect with
          | Some err => inl err
          | None =>
              inr {| lastUid := ImapSync.fullSync_lastUid messages;
                     threadCount := Z.of_nat (length threads) |}
          end
      end
  end end end.

Definition run_pass (account : jsstring) (flags : list (jsstring * jsstring))
           (meta : AccountMeta) : jsstring + SyncResult :=
  match select_pass flags meta with
  | UnreadOnly => imapUnreadSync account
  | Incremental => imapIncrementalSync account (default 0%Z (last_uid meta))
  | Full =>
      let depthDays :=
        match flag (js "days") flags with
        | Some (c :: d) => parseInt (c :: d)
        | _ => Some 7%Z
        end in
      let maxMessages :=
        match flag (js "max") flags with
        | Some (c :: d) => parseInt (c :: d)
        | _ => Some 200%Z
        end in
      imapFullSync account depthDays maxMessages
  end.

(** [cmdSync]: [config] is the list of accounts of the configuration
    file, [None] when [loadConfig] cannot read it. The result is the
    store of [account.json] files after the command and how it ended. *)
Definition cmdSync (config : option (list jsstring))
           (disk : gmap (list N) AccountMeta)
           (flags : list (jsstring * jsstring))
  : gmap (list N) AccountMeta * (failure + SyncResult) :=
  match config with
  | None => (disk, inl (Fail (js "No config found. Run: maildeck setup")))
  | Some accounts =>
  match (match flag (js "account") flags with
         | Some a => Some a
         | None => head accounts
         end) with
  | None => (disk, inl (Fail (js "No accounts configured. Run: maildeck setup")))
  | Some account =>
      match getAppPassword account with
      | None | Some [] =>
          (disk, inl (Fail (js "No credentials found for " ++ account
                            ++ js ". Run: maildeck setup")))
      | Some _ =>
          let meta := loadAccountMeta disk account in
          match run_pass account flags meta with
          | inl err => (disk, inl (Thrown err))
          | inr result =>
              let meta' :=
                {| email := email meta;
                   sync_state := js "idle";
                   last_sync := Some now;
                   history_id := history_id meta;
                   last_uid := Some (lastUid result);
                   sync_depth_days := sync_depth_days meta;
                   poll_interval_seconds := poll_interval_seconds meta |} in
              (<[account := meta']> disk, inr result)
          end
      end
  end end.

End WithEnv.
End CliSync.

(** ** packages/sync-daemon/src/cleaning/noise-normalizer.ts *)

Module Url.

(** The parts of a parsed [URL] the normaliser reads: [searchParams] is
    the list of decoded name-value pairs in the order of the query. *)
Record URL := {
  origin : jsstring;
  pathname : jsstring;
  searchParams : list (jsstring * jsstring);
  hash : jsstring
}.

Definition with_searchParams (u : URL) (ps : list (jsstring * jsstring)) : URL :=
  {| origin := origin u; pathname := pathname u; searchParams := ps; hash := hash u |}.

(** [searchParams.keys()] *)
Definition keys (u : URL) : list jsstring := map fst (searchParams u).

(** [searchParams.delete(key)] removes every pair named [key]. *)
Definition delete_key (key : jsstring) (u : URL) : URL :=
  with_searchParams u
    (filter (fun p => fst p <> key) (searchParams u)).

Definition is_word_char (c : N) : bool :=
  ((48 <=? c) && (c <=? 57)) || ((65 <=? c) && (c <=? 90))
  || ((97 <=? c) && (c <=? 122)) || (c =? 95).

Fixpoint take_while (p : N -> bool) (s : jsstring) : jsstring :=
  match s with
  | [] => []
  | c :: r => if p c then c :: take_while p r else []
  end.

(** A match of [\bhttps?:\/\/[^\s)]+] that starts at the head of [s];
    [prev_word] tells that the character before is a word character. *)
Definition url_at (prev_word : bool) (s : jsstring) : option jsstring :=
  if prev_word then None
  else
    let scheme :=
      if startsWith s (js "https://") then Some (js "https://")
      else if startsWith s (js "http://") then Some (js "http://")
      else None in
    match scheme with
    | None => None
    | Some sch =>
        match take_while (fun c => negb (is_space c || (c =? 41)))
                         (drop (length sch) s) with
        | [] => None
        | run => Some (sch ++ run)
        end
    end.

(** [text.replace(/(\bhttps?:\/\/[^\s)]+)/g, f)]: [skip] counts the
    characters of the current match still to be passed over. *)
Fixpoint replace_urls_from (f : jsstring -> jsstring) (prev_word : bool) (skip : nat)
         (s : jsstring) : jsstring :=
  match s with
  | [] => []
  | c :: r =>
      match skip with
      | S k => replace_urls_from f (is_word_char c) k r
      | O =>
          match url_at prev_word s with
          | Some url => f url ++ replace_urls_from f (is_word_char c) (length url - 1) r
          | None => c :: replace_urls_from f (is_word_char c) 0 r
          end
      end
  end.

Definition replace_urls (f : jsstring -> jsstring) (s : jsstring) : jsstring :=
  replace_urls_from f false 0 s.



(** [text.replace(/\n{3,}/g, "\n\n")]: [run] counts the line feeds just seen. *)
Fixpoint collapse_newlines_from (run : nat) (s : jsstring) : jsstring :=
  match s with
  | [] => []
  | c :: r =>
      if c =? LF
      then (if (run <? 2)%nat then LF :: collapse_newlines_from (S run) r
            else collapse_newlines_from (S run) r)
      else c :: collapse_newlines_from 0 r
  end.

Definition collapse_newlines (s : jsstring) : jsstring := collapse_newlines_from 0 s.

End Url.

(** The normaliser of packages/sync-daemon/src/cleaning/noise-normalizer.ts. *)

Module NoiseNormalizer.
Import Url.
Section WithBuiltins.
(** [text.normalize("NFC")] *)
Variable normalizeNFC : jsstring -> jsstring.
(** [new URL(url)]; [None] when the constructor throws. *)
Variable URL_parse : jsstring -> option URL.
(** [parsed.toString()] *)
Variable URL_toString : URL -> jsstring.

Definition is_tracking_key (key : jsstring) : bool :=
  startsWith key (js "utm_").

(** The two loops of [stripUtmParams] on the parsed URL. *)
Definition strip_params (parsed : URL) : URL :=
  let keysToDelete := filter (fun k => is_tracking_key k = true) (keys parsed) in
  fold_left (fun u key => delete_key key u) keysToDelete parsed.

Definition stripUtmParams (url : jsstring) : jsstring :=
  match URL_parse url with
  | None => url
  | Some parsed =>
      let result := URL_toString (strip_params parsed) in
      if endsWith result (js "?") then take (length result - 1) result else result
  end.

Definition normalizeNoise (text : jsstring) : jsstring :=
  let result := normalizeNFC text in
  let result := replace_urls stripUtmParams result in
  let result := collapse_newlines result in
  trim result.

End WithBuiltins.
End NoiseNormalizer.

(** A reader and printer for URLs of the plain shape
    [scheme://host/path?name=value&...#fragment], written with unreserved
    ASCII characters only: on these the WHATWG parser decodes nothing and
    the serialiser encodes nothing. Used to run the normaliser on examples. *)

Module PlainUrl.
Import Url.

Definition HASH : N := 35.
Definition QUESTION : N := 63.
Definition AMP : N := 38.
Definition EQUALS : N := 61.

Definition cut_at (c : N) (s : jsstring) : jsstring * jsstring :=
  (take_while (fun x => negb (x =? c)) s,
   drop (length (take_while (fun x => negb (x =? c)) s)) s).

Definition parse_pair (s : jsstring) : jsstring * jsstring :=
  let '(k, v) := cut_at EQUALS s in (k, drop 1 v).

Definition parse_query (q : jsstring) : list (jsstring * jsstring) :=
  map parse_pair (filter (fun s => s <> []) (split AMP q)).

Definition parse (url : jsstring) : option URL :=
  let '(before_hash, frag) := cut_at HASH url in
  let '(before_query, query) := cut_at QUESTION before_hash in
  let scheme_len :=
    if startsWith before_query (js "https://") then 8%nat
    else if startsWith before_query (js "http://") then 7%nat else 0%nat in
  let '(host, path) := cut_at SLASH (drop scheme_len before_query) in
  match scheme_len, host with
  | O, _ | _, [] => None
  | _, _ =>
      Some {| origin := take scheme_len before_query ++ host;
              pathname := match path with [] => [SLASH] | _ => path end;
              searchParams := parse_query (drop 1 query);
              hash := frag |}
  end.

Definition print_query (ps : list (jsstring * jsstring)) : jsstring :=
  JS.join [AMP] (map (fun p => fst p ++ [EQUALS] ++ snd p) ps).

Definition toString (u : URL) : jsstring :=
  origin u ++ pathname u
  ++ match searchParams u with [] => [] | ps => QUESTION :: print_query ps end
  ++ hash u.

End PlainUrl.

(** ** The [Date] built-in: time values and their UTC fields

    A valid [Date] is its time value, the milliseconds since the epoch.
    The UTC fields follow the definitions of ECMAScript: [Day],
    [DayFromYear], [DaysInYear], [YearFromTime] (the year whose first day
    is the last one not after the day), the month and the date read from
    the day within the year, and [MakeDay] for the way back. *)

Module JsDate.
Local Open Scope Z_scope.

Definition msPerDay : Z := 86400000.

Definition Day (t : Z) : Z := t / msPerDay.
Definition TimeWithinDay (t : Z) : Z := t mod msPerDay.

Definition DayFromYear (y : Z) : Z :=
  365 * (y - 1970) + (y - 1969) / 4 - (y - 1901) / 100 + (y - 1601) / 400.

Definition DaysInYear (y : Z) : Z :=
  if negb (y mod 4 =? 0) then 365
  else if negb (y mod 100 =? 0) then 366
  else if negb (y mod 400 =? 0) then 365 else 366.

Definition InLeapYear (y : Z) : Z := if DaysInYear y =? 366 then 1 else 0.

(** The year of a day: an estimate from the mean length of a year, put
    right by at most one. *)
Definition year_estimate (day : Z) : Z := 1970 + (400 * day) / 146097.

Definition YearFromDay (day : Z) : Z :=
  let y0 := year_estimate day in
  if day <? DayFromYear y0 then y0 - 1
  else if DayFromYear (y0 + 1) <=? day then y0 + 1
  else y0.

Definition DayWithinYear (day : Z) : Z := day - DayFromYear (YearFromDay day).

(** The day within the year on which month [m] (from 0) starts. *)
Definition month_start (m leap : Z) : Z :=
  if m <=? 0 then 0
  else if m =? 1 then 31
  else if m =? 2 then 59 + leap
  else if m =? 3 then 90 + leap
  else if m =? 4 then 120 + leap
  else if m =? 5 then 151 + leap
  else if m =? 6 then 181 + leap
  else if m =? 7 then 212 + leap
  else if m =? 8 then 243 + leap
  else if m =? 9 then 273 + leap
  else if m =? 10 then 304 + leap
  else 334 + leap.

(** [MonthFromTime], months counted from 0. *)
Definition MonthFromDay (day : Z) : Z :=
  let d := DayWithinYear day in
  let leap := InLeapYear (YearFromDay day) in
  if d <? 31 then 0
  else if d <? 59 + leap then 1
  else if d <? 90 + leap then 2
  else if d <? 120 + leap then 3
  else if d <? 151 + leap then 4
  else if d <? 181 + leap then 5
  else if d <? 212 + leap then 6
  else if d <? 243 + leap then 7
  else if d <? 273 + leap then 8
  else if d <? 304 + leap then 9
  else if d <? 334 + leap then 10
  else 11.

(** [DateFromTime] *)
Definition DateFromDay (day : Z) : Z :=
  DayWithinYear day
  - month_start (MonthFromDay day) (InLeapYear (YearFromDay day)) + 1.

Definition getUTCFullYear (t : Z) : Z := YearFromDay (Day t).
Definition getUTCMonth (t : Z) : Z := MonthFromDay (Day t).
Definition getUTCDate (t : Z) : Z := DateFromDay (Day t).
Definition getUTCHours (t : Z) : Z := TimeWithinDay t / 3600000.
Definition getUTCMinutes (t : Z) : Z := (TimeWithinDay t / 60000) mod 60.
Definition getUTCSeconds (t : Z) : Z := (TimeWithinDay t / 1000) mod 60.
Definition getUTCMilliseconds (t : Z) : Z := t mod 1000.

(** [MakeDay] for a month within the year, counted from 0. *)
Definition MakeDay (year month date : Z) : Z :=
  DayFromYear year + month_start month (InLeapYear year) + date - 1.

(** [new Date("YYYY-MM-DDTHH:mm:ssZ")] from the values of the six fields,
    as Node reads it: the month lies in 1..12, the day in 1..31 (a day
    past the end of the month runs into the next one), the time of day
    is at most 24:00:00; anything else is an invalid date, [None]. *)
Definition utc_from_fields (year month day hour minute second : Z) : option Z :=
  if (1 <=? month) && (month <=? 12) && (1 <=? day) && (day <=? 31)
     && (minute <=? 59) && (second <=? 59)
     && ((hour <=? 23) || ((hour =? 24) && (minute =? 0) && (second =? 0)))
  then Some ((MakeDay year (month - 1) day * 86400
              + hour * 3600 + minute * 60 + second) * 1000)
  else None.

End JsDate.

(** ** packages/shared/src/utils/message-filename.ts *)

Module MessageFilename.
Import JsDate.

Definition pad2 (n : Z) : jsstring := padStart0 2 (Z_toString n).

Definition toIsoBasic (date : Z) : jsstring :=
  let y := getUTCFullYear date in
  let mo := pad2 (getUTCMonth date + 1) in
  let d := pad2 (getUTCDate date) in
  let h := pad2 (getUTCHours date) in
  let mi := pad2 (getUTCMinutes date) in
  let s := pad2 (getUTCSeconds date) in
  Z_toString y ++ mo ++ d ++ js "T" ++ h ++ mi ++ s ++ js "Z".

Definition messageFilename (date : Z) (gmailMessageId : jsstring) : jsstring :=
  toIsoBasic date ++ js "__msg" ++ gmailMessageId ++ js ".md".

(** [\d{n}] at the head of [s]: the digits and what follows. *)
Definition digits (n : nat) (s : jsstring) : option (jsstring * jsstring) :=
  if bool_decide (length (take n s) = n) && forallb is_digit (take n s)
  then Some (take n s, drop n s) else None.

(** A literal at the head of [s]. *)
Definition literal (lit s : jsstring) : option jsstring :=
  if startsWith s lit then Some (drop (length lit) s) else None.

(** [(.+)\.md$] on what remains: the dot takes no line terminator and
    the match must reach the end of the name. *)
Definition id_and_extension (s : jsstring) : option jsstring :=
  let msgId := take (length s - 3) s in
  if endsWith s (js ".md") && negb (jsstring_eqb msgId [])
     && forallb (fun c => negb (is_line_terminator c)) msgId
  then Some msgId else None.

(** The result is [None] for [null]; the date of a match may still be an
    invalid date, [None] in the first component. *)
Definition parseMessageFilename (filename : jsstring)
  : option (option Z * jsstring) :=
  '(year, r) ← digits 4 filename;
  '(month, r) ← digits 2 r;
  '(day, r) ← digits 2 r;
  r ← literal (js "T") r;
  '(hour, r) ← digits 2 r;
  '(minute, r) ← digits 2 r;
  '(second, r) ← digits 2 r;
  r ← literal (js "Z__msg") r;
  msgId ← id_and_extension r;
  let v := fun s => Z.of_N (digits_value s) in
  Some (utc_from_fields (v year) (v month) (v day) (v hour) (v minute) (v second),
        msgId).

End MessageFilename.

(** ** packages/sync-daemon/src/outbox/sender.ts *)

Module Sender.

(** What the transport reports: the fields added to the draft that was
    sent, or the message of the error thrown on the way. *)
Inductive delivery : Type :=
| Delivered (fields : list (jsstring * json))
| Refused (message : jsstring).

(** The two kinds of [SendClient]. The OAuth client is given the draft to
    build the message and answers with [id] and [threadId]; the SMTP
    transport answers with [messageId]. The network is not part of the
    embedding: each client is the function from the draft to its answer. *)
Inductive SendClient : Type :=
| OAuth (sendMessage : json -> json * json + jsstring)
| Smtp (sendViaSMTP : json -> json + jsstring).

Definition deliver (sendClient : SendClient) (draft : json) : delivery :=
  match sendClient with
  | OAuth sendMessage =>
      match sendMessage draft with
      | inl (id, threadId) =>
          Delivered [(js "gmail_message_id", id); (js "gmail_thread_id", threadId)]
      | inr message => Refused message
      end
  | Smtp sendViaSMTP =>
      match sendViaSMTP draft with
      | inl messageId => Delivered [(js "smtp_message_id", messageId)]
      | inr message => Refused message
      end
  end.

(** What a call leaves behind: the error it throws, if any, the file
    system, and the drafts handed to the transport. *)
Record outcome := {
  thrown : option StateMachine.error;
  disk : Fs.store;
  handed_over : list json
}.

(** [draft.status === status] *)
Definition status_is (draft : json) (status : jsstring) : bool :=
  match get draft (js "status") with
  | Some (JStr s) => jsstring_eqb s status
  | _ => false
  end.

Section WithEnv.
Variable homedir : jsstring.
Variable now : jsstring.
(** [err.message ?? String(err)] *)
Variable message_of : StateMachine.error -> jsstring.

Definition sendDraft (sendClient : SendClient) (fs : Fs.store)
           (email draftFilename : jsstring) (base : option jsstring) : outcome :=
  let filePath := NodePath.join [Paths.outboxDir homedir email base; draftFilename] in
  let transition := StateMachine.transitionDraft homedir now in
  match fs !! filePath with
  | None => {| thrown := Some (StateMachine.ENOENT filePath); disk := fs; handed_over := [] |}
  | Some JNull => {| thrown := Some StateMachine.TypeError; disk := fs; handed_over := [] |}
  | Some draft =>
      if negb (status_is draft (js "ready_to_send"))
      then {| thrown := None; disk := fs; handed_over := [] |}
      else
        match transition fs email draftFilename (js "sending") None base with
        | (Some e, fs1) => {| thrown := Some e; disk := fs1; handed_over := [] |}
        | (None, fs1) =>
            let fail := fun (disk0 : Fs.store) (message : jsstring) =>
              let '(e, fs2) :=
                transition disk0 email draftFilename (js "failed")
                  (Some [(js "error", JStr message)]) base in
              {| thrown := e; disk := fs2; handed_over := [draft] |} in
            match deliver sendClient draft with
            | Delivered fields =>
                match transition fs1 email draftFilename (js "sent") (Some fields) base with
                | (None, fs2) => {| thrown := None; disk := fs2; handed_over := [draft] |}
                | (Some e, fs2) => fail fs2 (message_of e)
                end
            | Refused message => fail fs1 message
            end
        end
  end.

End WithEnv.
End Sender.

(** ** packages/sync-daemon/src/outbox/watcher.ts *)

Module Watcher.

(** The calls made to the callbacks of the options. *)
Inductive event : Type :=
| DraftDetected (filename : jsstring)
| DraftSent (filename : jsstring)
| InvalidDraft (filename : jsstring) (message : jsstring)
| Failed (filename : jsstring) (err : StateMachine.error).

Record OutboxWatcherOptions := {
  sendClient : Sender.SendClient;
  email : jsstring;
  base : option jsstring;
  reviewBeforeSend : bool
}.

(** [filePath.split(/[/\\]/).pop()]: what follows the last slash or
    backslash. *)
Definition basename (filePath : jsstring) : jsstring :=
  rev (Url.take_while (fun c => negb ((c =? SLASH) || (c =? BACKSLASH))) (rev filePath)).

Section WithEnv.
Variable homedir : jsstring.
Variable now : jsstring.
Variable message_of : StateMachine.error -> jsstring.

(** [handleFile]: the file system after the call, the drafts handed to
    the transport and the callbacks called, in order. *)
Definition handleFile (options : OutboxWatcherOptions) (fs : Fs.store) (filePath : jsstring)
  : Fs.store * list json * list event :=
  let filename := basename filePath in
  if negb (endsWith filename (js ".json")) || endsWith filename (js ".tmp")
  then (fs, [], [])
  else
    match fs !! filePath with
    | None => (fs, [], [Failed filename (StateMachine.ENOENT filePath)])
    | Some data =>
        let validation := Validator.validateDraft data in
        if negb (Validator.valid validation)
        then (fs, [],
              [InvalidDraft filename
                 (js "Invalid draft: " ++ JS.join (js ", ") (Validator.errors validation))])
        else
          let promote :=
            negb (reviewBeforeSend options) && Sender.status_is data (js "pending_review") in
          let promoted :=
            if promote
            then StateMachine.autoPromote homedir now fs (email options) filename (base options)
            else (None, fs) in
          match promoted with
          | (Some e, fs1) => (fs1, [], [DraftDetected filename; Failed filename e])
          | (None, fs1) =>
              if Sender.status_is data (js "ready_to_send") || promote
              then
                let sent :=
                  Sender.sendDraft homedir now message_of (sendClient options) fs1
                    (email options) filename (base options) in
                match Sender.thrown sent with
                | Some e =>
                    (Sender.disk sent, Sender.handed_over sent,
                     [DraftDetected filename; Failed filename e])
                | None =>
                    (Sender.disk sent, Sender.handed_over sent,
                     [DraftDetected filename; DraftSent filename])
                end
              else (fs1, [], [DraftDetected filename])
          end
    end.

End WithEnv.
End Watcher.

(** The values [yamlSafeValue] puts between double quotes, said without
    the test of the source: a character of the special class somewhere, or
    a leading dash or space. *)
Definition quoting_trigger (value : jsstring) : Prop :=
  (exists c, In c value /\ In c ThreadWriter.yaml_special)
  \/ (exists rest, value = 45 :: rest)
  \/ (exists rest, value = 32 :: rest).

(** [msg] was put in the thread [threadId]. *)
Definition in_thread (threadId : jsstring) (msg : ImapSync.ImapMessage)
           (threads : list (jsstring * list ImapSync.ImapMessage)) : Prop :=
  exists msgs, In (threadId, msgs) threads /\ In msg msgs.

(** A reading of [new Date(s).getTime()] for the two ISO forms the index
    holds, [YYYY-MM-DD] and [YYYY-MM-DDTHH:mm:ssZ]; used to run examples. *)
Definition iso_getTime (s : jsstring) : option Z :=
  '(year, r) ← MessageFilename.digits 4 s;
  r ← MessageFilename.literal (js "-") r;
  '(month, r) ← MessageFilename.digits 2 r;
  r ← MessageFilename.literal (js "-") r;
  '(day, r) ← MessageFilename.digits 2 r;
  let v := fun x => Z.of_N (digits_value x) in
  match r with
  | [] => JsDate.utc_from_fields (v year) (v month) (v day) 0 0 0
  | _ =>
      r ← MessageFilename.literal (js "T") r;
      '(hour, r) ← MessageFilename.digits 2 r;
      r ← MessageFilename.literal (js ":") r;
      '(minute, r) ← MessageFilename.digits 2 r;
      r ← MessageFilename.literal (js ":") r;
      '(second, r) ← MessageFilename.digits 2 r;
      match r with
      | [90] => JsDate.utc_from_fields (v year) (v month) (v day)
                  (v hour) (v minute) (v second)
      | _ => None
      end
  end.



(** What [path.normalize] prints for a stack of kept segments. *)
Definition render (abs trailing : bool) (stack : list jsstring) : jsstring :=
  match JS.join [SLASH] stack with
  | [] => if abs then [SLASH] else if trailing then [DOT; SLASH] else [DOT]
  | p =>
      let p' := if trailing then p ++ [SLASH] else p in
      if abs then SLASH :: p' else p'
  end.

(** A segment a normalised path may keep: not empty, not [.], no separator. *)
Definition clean_segment (s : jsstring) : Prop :=
  s <> [] /\ s <> [DOT] /\ ~ In SLASH s.

(** A segment that names an entry: clean and not [..]. *)
Definition plain_segment (s : jsstring) : Prop :=
  clean_segment s /\ s <> NodePath.DOTDOT.

(** The stacks [normalizeSegments] builds, last segment first: a [..] is
    only ever kept on a stack of [..], and only for a relative path. *)
Fixpoint stack_ok (allowAboveRoot : bool) (res : list jsstring) : Prop :=
  match res with
  | [] => True
  | top :: below =>
      clean_segment top
      /\ (top = NodePath.DOTDOT ->
          allowAboveRoot = true /\ Forall (fun s => s = NodePath.DOTDOT) below)
      /\ stack_ok allowAboveRoot below
  end.

(** The paths [path.join] returns. *)
Definition normal_path (abs : bool) (stack : list jsstring) (p : jsstring) : Prop :=
  stack_ok (negb abs) (rev stack) /\ exists trailing, p = render abs trailing stack.

(** A digit of base 36 as [toString(36)] writes it: 0-9 or a-z. *)
Definition is_base36 (c : N) : bool :=
  is_digit c || ((97 <=? c) && (c <=? 122)).

(** ** packages/sync-daemon/src/cleaning/signature-stripper.ts *)

Module SignatureStripper.

(** A regular expression [/^(a|b|...)/i] on ASCII alternatives written in
    lower case: one of them starts the line, letters in either case. *)
Definition starts_with_ci (alternatives : list jsstring) (line : jsstring) : bool :=
  existsb (fun p => bool_decide (is_Some (ImapSync.strip_ci p line))) alternatives.

Definition devices : list jsstring :=
  [ js "iphone"; js "ipad"; js "android"; js "galaxy"; js "samsung"; js "pixel";
    js "outlook"; js "mobile" ].

(** [/^sent from (my )?(iphone|ipad|...)/i] *)
Definition sent_from (line : jsstring) : bool :=
  starts_with_ci (map (fun d => js "sent from my " ++ d) devices
                  ++ map (fun d => js "sent from " ++ d) devices) line.

(** The tests of the loop on a trimmed line, in the order of the source. *)
Definition is_signature_start (line : jsstring) : bool :=
  jsstring_eqb line (js "--") || jsstring_eqb line (js "-- ") || jsstring_eqb line (js "__")
  || sent_from line
  || starts_with_ci [js "get outlook for"] line
  || (starts_with_ci [ js "this email"; js "this message"; js "this communication";
                       js "confidentiality notice"; js "disclaimer" ] line
      && (80 <? length line)%nat)
  || existsb (startsWith line)
       [ js "CONFIDENTIAL"; js "DISCLAIMER"; js "LEGAL NOTICE"; js "IMPORTANT NOTICE" ].

(** The index at which the loop breaks, the number of lines when it does not. *)
Fixpoint cut_index (lines : list jsstring) : nat :=
  match lines with
  | [] => 0
  | line :: rest => if is_signature_start (trim line) then 0 else S (cut_index rest)
  end.

(** The test [stripped.length < text.trim().length * 0.2] is written in
    integers, [5 * stripped.length < text.trim().length]: the product of
    the source is computed in doubles, and for lengths it is below an
    integer exactly when the exact fifth is. *)
Definition stripSignature (text : jsstring) : jsstring :=
  let lines := split LF text in
  let cutIndex := cut_index lines in
  let stripped := trim (JS.join [LF] (take cutIndex lines)) in
  if (5 * length stripped <? length (trim text))%nat && (50 <? length (trim text))%nat
  then trim text
  else stripped.

End SignatureStripper.

(** ** packages/sync-daemon/src/cli/maildeck.ts: the arguments of a command *)

Module CliArgs.

Record parsed := {
  command : jsstring;
  args : list jsstring;
  flags : list (jsstring * jsstring);
  multiFlags : list (jsstring * list jsstring)
}.


(** [flags[key] = val] on the own properties of the object, in the order
    they were created. Assigning a string to [__proto__] creates none. *)
Fixpoint set_property {A : Type} (key : jsstring) (val : A) (props : list (jsstring * A))
  : list (jsstring * A) :=
  match props with
  | [] => [(key, val)]
  | (k, v) :: rest =>
      if jsstring_eqb key k then (k, val) :: rest else (k, v) :: set_property key val rest
  end.

Definition set_flag (key val : jsstring) (flags : list (jsstring * jsstring))
  : list (jsstring * jsstring) :=
  if jsstring_eqb key (js "__proto__") then flags else set_property key val flags.

Fixpoint own {A : Type} (key : jsstring) (props : list (jsstring * A)) : option A :=
  match props with
  | [] => None
  | (k, v) :: rest => if jsstring_eqb key k then Some v else own key rest
  end.






End CliArgs.

(** ** packages/sync-daemon/src/storage/directory-init.ts *)

Module DirectoryInit.

(** The disk: the files of the store, and the directories by path. *)
Record disk := { files : Fs.store; dirs : gset (list N) }.

(** The directories [mkdir] with [recursive] makes sure of: those above
    the path, outermost first, and the path itself. *)
Fixpoint path_prefixes (seen rest : jsstring) : list jsstring :=
  match rest with
  | [] => [seen]
  | c :: r =>
      (if (c =? SLASH) && negb (jsstring_eqb seen []) then [seen] else [])
      ++ path_prefixes (seen ++ [c]) r
  end.

Definition ancestors (d : jsstring) : list jsstring := path_prefixes [] d.

(** [mkdir(d, { recursive: true })]; it rejects when a file stands at the
    path or above it. *)
Definition mkdir_recursive (dk : disk) (d : jsstring) : option disk :=
  if existsb (fun p => bool_decide (is_Some (files dk !! p))) (ancestors d)
  then None
  else Some {| files := files dk; dirs := dirs dk ∪ list_to_set (ancestors d) |}.

Section WithEnv.
Variable homedir : jsstring.

Definition account_dirs (email : jsstring) (base : option jsstring) : list jsstring :=
  [ Paths.indexDir homedir email base;
    Paths.outboxDir homedir email base;
    Paths.sentDir homedir email base;
    Paths.failedDir homedir email base;
    Paths.logsDir homedir base ].

(** [initAccountDirs]: [None] when one of the calls of [mkdir] rejects. *)
Definition initAccountDirs (dk : disk) (email : jsstring) (base : option jsstring)
  : option disk :=
  foldl (fun acc d => acc ≫= fun dk' => mkdir_recursive dk' d) (Some dk)
        (account_dirs email base).

End WithEnv.
End DirectoryInit.

(** ** packages/sync-daemon/src/cli/maildeck.ts: the [compose] command *)

Module CliCompose.

Record AppConfig := {
  review_before_send : bool;
  accounts : list jsstring
}.

(** What [ok] prints. *)
Record composed := {
  filename : jsstring;
  status : jsstring;
  path : jsstring
}.

(** [s.split(",").map((x) => x.trim())] *)
Definition addresses (s : jsstring) : list jsstring := map trim (split 44 s).

(** [loadSignature]: the block appended to the body, empty when the
    signature file cannot be read or holds white space only. *)
Definition loadSignature (signature_txt : option jsstring) : jsstring :=
  match signature_txt with
  | Some sig =>
      match trim sig with
      | [] => []
      | t => [LF; LF] ++ js "-- " ++ [LF] ++ t
      end
  | None => []
  end.

(** A property whose value is [undefined] is left out by [JSON.stringify]. *)
Definition optional_field (key : jsstring) (value : option json) : list (jsstring * json) :=
  match value with Some v => [(key, v)] | None => [] end.

(** How the command ends when it writes no draft: [fail] prints the
    message and exits; a rejected [mkdir] is thrown to [main]. *)
Inductive failure : Type :=
| Fail (message : jsstring)
| MkdirError.

Section WithEnv.
Variable homedir : jsstring.
(** [config.json], when it can be read. *)
Variable config : option AppConfig.
(** [signature.txt] of an account, when it can be read. *)
Variable signature_txt : jsstring -> option jsstring.
(** [resolveAttachments]: the attachments of the paths given, or the path
    that cannot be accessed. *)
Variable resolveAttachments : list jsstring -> jsstring + list json.
(** [Date.now()] and [new Date().toISOString()] *)
Variable now_ms : Z.
Variable now : jsstring.

Definition truthy_flag (key : jsstring) (flags : list (jsstring * jsstring)) : option jsstring :=
  match CliArgs.own key flags with
  | Some (c :: s) => Some (c :: s)
  | _ => None
  end.

Definition cmdCompose (dk : DirectoryInit.disk) (flags : list (jsstring * jsstring))
           (multiFlags : list (jsstring * list jsstring))
  : failure + DirectoryInit.disk * composed :=
  match truthy_flag (js "to") flags with
  | None => inl (Fail (js "Missing --to flag"))
  | Some to =>
  match truthy_flag (js "subject") flags with
  | None => inl (Fail (js "Missing --subject flag"))
  | Some subject =>
  match truthy_flag (js "body") flags with
  | None => inl (Fail (js "Missing --body flag"))
  | Some body0 =>
  match config with
  | None => inl (Fail (js "No config found. Run: maildeck setup"))
  | Some cfg =>
  match (match CliArgs.own (js "account") flags with
         | Some a => Some a
         | None => head (accounts cfg)
         end) with
  | None => inl (Fail (js "No accounts configured. Run: maildeck setup"))
  | Some email =>
  match DirectoryInit.initAccountDirs homedir dk email None with
  | None => inl MkdirError
  | Some dk1 =>
  match (match CliArgs.own (js "attach") multiFlags with
         | Some paths =>
             match resolveAttachments paths with
             | inl missing => inl (js "Attachment not found: " ++ missing)
             | inr atts => inr (Some (JArr atts))
             end
         | None => inr None
         end) with
  | inl message => inl (Fail message)
  | inr attachments =>
      let body :=
        if negb (bool_decide (CliArgs.own (js "no-signature") flags = Some (js "true")))
        then body0 ++ loadSignature (signature_txt email)
        else body0 in
      let draftFilename := js "draft-" ++ Z_toString now_ms ++ js ".json" in
      let draft_status :=
        if review_before_send cfg then js "pending_review" else js "ready_to_send" in
      let draft :=
        JObj ([ (js "action", JStr (js "compose"));
                (js "to", JArr (map JStr (addresses to))) ]
              ++ optional_field (js "cc")
                   (match truthy_flag (js "cc") flags with
                    | Some cc => Some (JArr (map JStr (addresses cc)))
                    | None => None
                    end)
              ++ [ (js "subject", JStr subject); (js "body", JStr body) ]
              ++ optional_field (js "attachments") attachments
              ++ [ (js "created_at", JStr now);
                   (js "created_by", JStr (js "maildeck-cli"));
                   (js "status", JStr draft_status) ]) in
      let draftPath := NodePath.join [Paths.outboxDir homedir email None; draftFilename] in
      inr ({| DirectoryInit.files :=
                Fs.atomicWriteJson (DirectoryInit.files dk1) draftPath draft;
              DirectoryInit.dirs := DirectoryInit.dirs dk1 |},
           {| filename := draftFilename; status := draft_status; path := draftPath |})
  end end end end end end end.

End WithEnv.
End CliCompose.

(** ** packages/sync-daemon/src/cli/maildeck.ts: reading the message files *)

Module CliRead.

Definition COLON : N := 58.

(** The index of the first occurrence of [needle] in [s]. *)
Fixpoint find_sub (needle s : jsstring) : option nat :=
  match s with
  | [] => if startsWith [] needle then Some 0%nat else None
  | _ :: r => if startsWith s needle then Some 0%nat else S <$> find_sub needle r
  end.

(** The two groups of the expression [cmdRead] matches a file with: the
    text opens with a line of three dashes; the first group, a lazy one,
    runs up to the first line feed that a line of three dashes and a
    line feed follow; the second group is all that comes after. *)
Definition frontmatter_match (content : jsstring) : option (jsstring * jsstring) :=
  if startsWith content (js "---" ++ [LF]) then
    let rest := drop 4 content in
    i ← find_sub ([LF] ++ js "---" ++ [LF]) rest;
    Some (take i rest, drop (i + 5) rest)
  else None.

(** [line.indexOf(":")] *)
Fixpoint indexOf_char (c : N) (s : jsstring) : option nat :=
  match s with
  | [] => None
  | x :: r => if x =? c then Some 0%nat else S <$> indexOf_char c r
  end.

(** The quotes around a value are taken away: [val.slice(1, -1)]. *)
Definition strip_quotes (val : jsstring) : jsstring :=
  if startsWith val [DQUOTE] && endsWith val [DQUOTE]
  then take (length val - 2) (drop 1 val) else val.

(** One line of the front matter: [frontmatter[key] = val] when the line
    has a colon that is not its first character. *)
Definition read_line (frontmatter : list (jsstring * jsstring)) (line : jsstring)
  : list (jsstring * jsstring) :=
  match indexOf_char COLON line with
  | Some (S i) =>
      let colonIdx := S i in
      let key := trim (take colonIdx line) in
      let val := trim (drop (colonIdx + 1) line) in
      CliArgs.set_flag key (strip_quotes val) frontmatter
  | _ => frontmatter
  end.

(** The body of the loop of [cmdRead] over the message files: the front
    matter as an object and the body of one file. *)
Definition parse_message (content : jsstring) : list (jsstring * jsstring) * jsstring :=
  match frontmatter_match content with
  | Some (block, body) => (fold_left read_line (split LF block) [], body)
  | None => ([], content)
  end.

(** The group of the expression [cmdMarkRead] matches a file with: as
    above, but no line feed is asked for after the closing dashes. *)
Definition frontmatter_block (content : jsstring) : option jsstring :=
  if startsWith content (js "---" ++ [LF]) then
    let rest := drop 4 content in
    i ← find_sub ([LF] ++ js "---") rest;
    Some (take i rest)
  else None.

(** The multi-line expression for the uid tried where a line starts:
    [uid:], white space, digits (the group), the end of a line. The white
    space and the digits are taken as far as they go. *)
Definition uid_at (s : jsstring) : option jsstring :=
  if startsWith s (js "uid:") then
    let r := drop_while is_space (drop 4 s) in
    let digits := Url.take_while is_digit r in
    match digits, drop (length digits) r with
    | [], _ => None
    | _, [] => Some digits
    | _, c :: _ => if is_line_terminator c then Some digits else None
    end
  else None.

(** The first match of the expression in [s]; [line_start] tells whether
    a line starts at the head of [s]. *)
Fixpoint uid_match_from (line_start : bool) (s : jsstring) : option jsstring :=
  match s with
  | [] => None
  | c :: r =>
      match (if line_start then uid_at s else None) with
      | Some digits => Some digits
      | None => uid_match_from (is_line_terminator c) r
      end
  end.

(** The body of the loop of [cmdMarkRead] over the message files: the
    digits handed to [parseInt], when the file gives a uid. *)
Definition read_uid (content : jsstring) : option jsstring :=
  block ← frontmatter_block content;
  uid_match_from true block.

End CliRead.

(** ** packages/shared/src/utils/jsonl.ts: the text of a JSONL file *)

Module JsonlText.
Section WithJson.
Context {T : Type}.
(** [JSON.parse]; [None] when it throws. *)
Variable JSON_parse : jsstring -> option T.
(** [JSON.stringify] *)
Variable JSON_stringify : T -> jsstring.

(** The lines that are kept, each one parsed; a line that does not parse
    makes the whole reading fail. *)
Definition parse_lines (content : jsstring) : option (list T) :=
  mapM JSON_parse
       (filter (fun line => (0 <? length (trim line))%nat = true) (split LF content)).

(** [items.map((item) => JSON.stringify(item)).join("\n") + "\n"] *)
Definition render_lines (items : list T) : jsstring :=
  JS.join [LF] (map JSON_stringify items) ++ [LF].

(** Text files by path; a missing file is [ENOENT]. *)
Definition readJsonl (fs : gmap (list N) jsstring) (filePath : jsstring) : option (list T) :=
  match fs !! filePath with
  | None => Some []
  | Some content => parse_lines content
  end.

Definition writeJsonl (fs : gmap (list N) jsstring) (filePath : jsstring) (items : list T)
  : gmap (list N) jsstring :=
  <[filePath := render_lines items]> fs.

End WithJson.
End JsonlText.

(** ** packages/sync-daemon/src/cli/maildeck.ts: the [threads] command *)

Module CliThreads.

(** What [ok] prints. *)
Record listing := {
  account : jsstring;
  total : nat;
  threads : list IndexWriter.ThreadIndexEntry
}.

(** How the command ends when it prints no listing: [fail] prints the
    message and exits; [JSON.parse] throws on a line of the index. *)
Inductive failure : Type :=
| Fail (message : jsstring)
| SyntaxError.

(** [entries.slice(0, limit)]: [None] is [NaN], which counts as 0; a
    negative limit counts from the end. *)
Definition slice_to (limit : option Z) (entries : list IndexWriter.ThreadIndexEntry)
  : list IndexWriter.ThreadIndexEntry :=
  match limit with
  | None => []
  | Some k =>
      if (k <? 0)%Z then take (Z.to_nat (Z.of_nat (length entries) + k)) entries
      else take (Z.to_nat k) entries
  end.

Section WithEnv.
Variable homedir : jsstring.
(** [parseInt(s, 10)]; [None] is [NaN]. *)
Variable parseInt : jsstring -> option Z.
Variable Date_getTime : jsstring -> option Z.
(** [JSON.parse] on a line of the index, read as an entry; [None] when
    it throws. *)
Variable JSON_parse : jsstring -> option IndexWriter.ThreadIndexEntry.

(** [flags.account ?? getFirstAccount(config)] *)
Definition resolve_account (accounts : list jsstring) (flags : list (jsstring * jsstring))
  : option jsstring :=
  match Cli.flag (js "account") flags with
  | Some a => Some a
  | None => head accounts
  end.

(** [config] is the list of accounts of the configuration file, [None]
    when [loadConfig] cannot read or parse the file; [fs] holds the text
    files. *)
Definition cmdThreads (config : option (list jsstring))
           (fs : gmap (list N) jsstring) (flags : list (jsstring * jsstring))
  : failure + listing :=
  match config with
  | None => inl (Fail (js "No config found. Run: maildeck setup"))
  | Some accounts =>
      match resolve_account accounts flags with
      | None => inl (Fail (js "No accounts configured. Run: maildeck setup"))
      | Some email =>
          let limit :=
            match Cli.flag (js "limit") flags with
            | Some (c :: d) => parseInt (c :: d)
            | _ => Some 20%Z
            end in
          match JsonlText.readJsonl JSON_parse fs
                  (Paths.threadsIndexPath homedir email None) with
          | None => inl SyntaxError
          | Some entries =>
              let entries :=
                if Cli.flag_is_true (js "unread") flags
                then filter (fun e => IndexWriter.unread e = true) entries
                else entries in
              let entries := IndexWriter.sort_by_last_date Date_getTime entries in
              inr {| account := email; total := length entries;
                     threads := slice_to limit entries |}
          end
      end
  end.

End WithEnv.
End CliThreads.

(** ** packages/sync-daemon/src/sync/imap-scheduler.ts

    The scheduler runs on the event loop of Node: a method runs until it
    awaits, and what stands after the [await] runs later, as an event of
    its own. The state of the object and the work that is awaited are the
    state of the machine below; the events are the calls of [start] and
    [stop], the firing of an interval, the settling of a call of
    [imapFullSync], and the resumption of [start] after its [await].
    Events may come in any order. The callbacks [onSync] and [onError]
    are taken to return normally. *)

Module ImapScheduler.

Record ImapSchedulerOptions := {
  depthDays : Z;
  maxMessages : option Z
}.

(** A call of [imapFullSync] that has not settled yet. *)
Record sync_call := {
  call_id : nat;
  call_depthDays : Z;
  call_maxMessages : option Z
}.

(** What the callbacks were given. *)
Inductive report : Type :=
| OnSync (incremental : bool) (threadsUpdated : Z)
| OnError (err : jsstring).

Record state := {
  running : bool;
  syncing : bool;
  firstSyncDone : bool;
  (** [this.timer] *)
  timer : option nat;
  (** the intervals that were set and not cleared *)
  intervals : list nat;
  next_timer : nat;
  (** the calls of [imapFullSync] awaited by [runSync] *)
  in_flight : list sync_call;
  next_call : nat;
  (** the calls of [start] that stand at their [await]: the call of
      [imapFullSync] their [runSync] waits for, [None] when it waits for
      none (any more) *)
  starting : list (option nat);
  reports : list report
}.

Inductive event : Type :=
| Start
| Stop
| Tick (interval : nat)
| Settled (call : nat) (outcome : Z + jsstring)
| Resumed (i : nat).

Definition initial : state :=
  {| running := false; syncing := false; firstSyncDone := false;
     timer := None; intervals := []; next_timer := 0;
     in_flight := []; next_call := 0; starting := []; reports := [] |}.

Section WithOptions.
Variable options : ImapSchedulerOptions.

(** [runSync] up to its [await]: the state, and the call it waits for. *)
Definition runSync (st : state) : state * option nat :=
  if negb (running st) || syncing st then (st, None)
  else
    let call :=
      {| call_id := next_call st;
         call_depthDays := if firstSyncDone st then 2%Z else depthDays options;
         call_maxMessages := if firstSyncDone st then Some 100%Z else maxMessages options |} in
    ({| running := running st; syncing := true; firstSyncDone := firstSyncDone st;
        timer := timer st; intervals := intervals st; next_timer := next_timer st;
        in_flight := in_flight st ++ [call]; next_call := S (next_call st);
        starting := starting st; reports := reports st |},
     Some (call_id call)).

Definition step (st : state) (ev : event) : state :=
  match ev with
  | Start =>
      if running st then st
      else
        let '(st', awaited) :=
          runSync {| running := true; syncing := syncing st;
                     firstSyncDone := firstSyncDone st;
                     timer := timer st; intervals := intervals st;
                     next_timer := next_timer st;
                     in_flight := in_flight st; next_call := next_call st;
                     starting := starting st; reports := reports st |} in
        {| running := running st'; syncing := syncing st';
           firstSyncDone := firstSyncDone st';
           timer := timer st'; intervals := intervals st'; next_timer := next_timer st';
           in_flight := in_flight st'; next_call := next_call st';
           starting := starting st' ++ [awaited]; reports := reports st' |}
  | Stop =>
      {| running := false; syncing := syncing st; firstSyncDone := firstSyncDone st;
         timer := None;
         intervals := match timer st with
                      | Some t => filter (fun i => i <> t) (intervals st)
                      | None => intervals st
                      end;
         next_timer := next_timer st;
         in_flight := in_flight st; next_call := next_call st;
         starting := starting st; reports := reports st |}
  | Tick interval =>
      if bool_decide (interval ∈ intervals st) then fst (runSync st) else st
  | Settled call outcome =>
      if existsb (fun c => call_id c =? call)%nat (in_flight st) then
        {| running := running st; syncing := false; firstSyncDone := firstSyncDone st;
           timer := timer st; intervals := intervals st; next_timer := next_timer st;
           in_flight := filter (fun c => call_id c <> call) (in_flight st);
           next_call := next_call st;
           starting := map (fun awaited => if bool_decide (awaited = Some call)
                                           then None else awaited) (starting st);
           reports := reports st
                      ++ [match outcome with
                          | inl threadCount => OnSync (firstSyncDone st) threadCount
                          | inr err => OnError err
                          end] |}
      else st
  | Resumed i =>
      match starting st !! i with
      | Some None =>
          {| running := running st; syncing := syncing st; firstSyncDone := true;
             timer := Some (next_timer st);
             intervals := intervals st ++ [next_timer st];
             next_timer := S (next_timer st);
             in_flight := in_flight st; next_call := next_call st;
             starting := delete i (starting st); reports := reports st |}
      | _ => st
      end
  end.

Definition run (events : list event) : state := fold_left step events initial.

End WithOptions.
End ImapScheduler.

(** ** packages/sync-daemon/src/sync/incremental-sync.ts (kept in
    imap-scheduler.ts): the threads that changed *)

Module IncrementalSync.

(** A record of the history: for each of its three lists, when present,
    the thread ids of its messages ([None] where the message or its
    thread id is missing). *)
Record HistoryRecord := {
  messagesAdded : option (list (option jsstring));
  labelsAdded : option (list (option jsstring));
  labelsRemoved : option (list (option jsstring))
}.

(** [changedThreadIds.add(threadId)] on a [Set], kept in insertion order. *)
Definition set_add (s : list jsstring) (threadId : jsstring) : list jsstring :=
  if bool_decide (threadId ∈ s) then s else s ++ [threadId].

(** [if (threadId) changedThreadIds.add(threadId)] over one list. *)
Definition add_all (s : list jsstring) (messages : option (list (option jsstring)))
  : list jsstring :=
  match messages with
  | None => s
  | Some l =>
      fold_left (fun s threadId =>
                   match threadId with
                   | Some (c :: r) => set_add s (c :: r)
                   | _ => s
                   end) l s
  end.

Definition collect (history : option (list HistoryRecord)) : list jsstring :=
  match history with
  | None => []
  | Some entries =>
      fold_left (fun s entry =>
                   add_all (add_all (add_all s (messagesAdded entry)) (labelsAdded entry))
                           (labelsRemoved entry))
                entries []
  end.

Inductive listed : Type :=
| History (history : option (list HistoryRecord))
| NotFound                  (* an error whose response has status 404 *)
| Failure (err : jsstring).

Inductive outcome : Type :=
| Synced (newHistoryId : jsstring) (threadsUpdated : nat)
| HistoryExpiredError
| Thrown (err : jsstring).

Section WithClient.
(** [client.getProfile()]: the [historyId] of the profile, [None] for
    [null] or [undefined]; or the error thrown *)
Variable getProfile : option jsstring + jsstring.
(** [client.listHistory] *)
Variable listHistory : jsstring -> listed.
(** [syncThread]: the error it throws, if any *)
Variable syncThread : jsstring -> option jsstring.

(** The loop over the set: the calls of [syncThread] made, and the error
    that ended the loop, if any. *)
Fixpoint sync_each (threadIds : list jsstring) : list jsstring * option jsstring :=
  match threadIds with
  | [] => ([], None)
  | t :: rest =>
      match syncThread t with
      | Some err => ([t], Some err)
      | None => let '(calls, err) := sync_each rest in (t :: calls, err)
      end
  end.

(** The result, with the calls of [listHistory] and of [syncThread] made. *)
Definition incrementalSync (lastHistoryId : jsstring)
  : outcome * list jsstring * list jsstring :=
  match getProfile with
  | inr err => (Thrown err, [], [])
  | inl profile_historyId =>
      let currentHistoryId := default lastHistoryId profile_historyId in
      if jsstring_eqb currentHistoryId lastHistoryId
      then (Synced currentHistoryId 0, [], [])
      else
        match listHistory lastHistoryId with
        | NotFound => (HistoryExpiredError, [lastHistoryId], [])
        | Failure err => (Thrown err, [lastHistoryId], [])
        | History history =>
            let changedThreadIds := collect history in
            match sync_each changedThreadIds with
            | (calls, Some err) => (Thrown err, [lastHistoryId], calls)
            | (calls, None) =>
                (Synced currentHistoryId (length changedThreadIds), [lastHistoryId], calls)
            end
        end
  end.

End WithClient.
End IncrementalSync.

(** ** packages/sync-daemon/src/sync/imap-sync.ts: writing the threads

    The storage functions are called for their effects; a pass is kept
    as the list of these calls, in order, for a pass in which none of
    them throws (one that throws ends the pass there). [writeAttachments]
    is the one whose result is used: the metadata of what it was given.
    The messages of the array are taken to be different objects, so that
    [messages.indexOf(msg)] is the position of [msg]. *)

Module ImapFullSync.
Import ImapSync.

Definition MAX_ATTACHMENT_BYTES : Z := 10 * 1024 * 1024.

Record ParsedAttachment := {
  filename : jsstring;
  contentType : jsstring;
  size : Z;
  content : jsstring
}.

Record AttachmentMeta := {
  meta_filename : jsstring;
  mime : jsstring;
  size_bytes : Z;
  skipped : bool
}.

(** What [writeAttachments] returns. *)
Definition attachment_meta (att : ParsedAttachment) : AttachmentMeta :=
  {| meta_filename := AttachmentWriter.sanitizeFilename (filename att);
     mime := contentType att;
     size_bytes := size att;
     skipped := (MAX_ATTACHMENT_BYTES <? size att)%Z |}.

Record CleanedEmail := {
  frontmatter : ThreadWriter.MessageFrontmatter;
  body : jsstring;
  snippet : jsstring;
  attachments : list ParsedAttachment
}.

Inductive role : Type := Self | External.

Record ThreadMeta := {
  tm_id : jsstring;
  tm_subject : jsstring;
  tm_labels : list jsstring;
  tm_unread : bool;
  tm_starred : bool;
  tm_participants : list (jsstring * (jsstring * role));
  tm_message_count : nat;
  tm_first_date : jsstring;
  tm_last_date : jsstring;
  tm_has_attachments : bool;
  tm_attachments : list AttachmentMeta
}.

Record ContactEntry := {
  c_email : jsstring;
  c_name : jsstring;
  c_first_seen : jsstring;
  c_last_seen : jsstring;
  c_msg_count : Z;
  c_labels_common : list jsstring;
  c_is_frequent : bool
}.

Inductive call : Type :=
| WriteMessage (threadId : jsstring) (fm : ThreadWriter.MessageFrontmatter) (body : jsstring)
| WriteAttachments (threadId : jsstring) (atts : list ParsedAttachment)
| WriteThreadMeta (meta : ThreadMeta)
| UpsertThreadIndex (entry : IndexWriter.ThreadIndexEntry)
| UpsertContactIndex (contact : ContactEntry).

(** The variables of the loop of [processThread]. *)
Record loop_state := {
  participants : list (jsstring * (jsstring * role));
  allAttachmentMeta : list AttachmentMeta;
  totalSize : Z;
  subject_ : jsstring;
  firstDate : jsstring;
  lastDate : jsstring;
  lastSnippet : jsstring;
  isUnread : bool;
  calls : list call
}.

Section WithBuiltins.
Variable parseQuickHeaders : jsstring -> QuickHeaders.
(** [cleanEmail(raw, threadId, msgId)] *)
Variable cleanEmail : jsstring -> jsstring -> jsstring -> CleanedEmail.
(** [new Date().toISOString()] *)
Variable now : jsstring.

Definition has_flag (flag : jsstring) (msg : ImapMessage) : bool :=
  existsb (jsstring_eqb flag) (flags msg).

(** One turn of the loop, for the message at position [i]. *)
Definition process_message (email threadId : jsstring) (st : loop_state)
           (i : nat) (msg : ImapMessage) : loop_state :=
  let cleaned := cleanEmail (raw msg) threadId (js "uid" ++ Z_toString (uid msg)) in
  let fm := frontmatter cleaned in
  let written :=
    [WriteMessage threadId fm (body cleaned)]
    ++ match attachments cleaned with
       | [] => []
       | atts => [WriteAttachments threadId atts]
       end in
  let allAttachmentMeta' :=
    match attachments cleaned with
    | [] => allAttachmentMeta st
    | atts => allAttachmentMeta st ++ map attachment_meta atts
    end in
  let participants' :=
    match ThreadWriter.fm_from fm with
    | [] => participants st
    | fromAddr =>
        CliArgs.set_property fromAddr
          (ThreadWriter.fm_from_name fm,
           if jsstring_eqb fromAddr email then Self else External)
          (participants st)
    end in
  let subject1 :=
    match ThreadWriter.fm_thread_id fm with
    | [] => or_else (subject (parseQuickHeaders (raw msg))) (subject_ st)
    | _ => subject_ st
    end in
  let first := bool_decide (i = 0%nat) in
  {| participants := participants';
     allAttachmentMeta := allAttachmentMeta';
     totalSize := (totalSize st + Z.of_nat (length (raw msg)))%Z;
     subject_ := if first then or_else (subject (parseQuickHeaders (raw msg))) subject1
                 else subject1;
     firstDate := if first then ThreadWriter.fm_date fm else firstDate st;
     lastDate := ThreadWriter.fm_date fm;
     lastSnippet := snippet cleaned;
     isUnread := isUnread st || negb (has_flag (js "\Seen") msg);
     calls := calls st ++ written |}.

Fixpoint process_messages (email threadId : jsstring) (st : loop_state)
         (i : nat) (messages : list ImapMessage) : loop_state :=
  match messages with
  | [] => st
  | msg :: rest =>
      process_messages email threadId (process_message email threadId st i msg) (S i) rest
  end.

(** [s.split("T")[0]] *)
Definition date_part (s : jsstring) : jsstring := default [] (head (split 84 s)).

Definition processThread (email threadId : jsstring) (messages : list ImapMessage)
  : list call :=
  let labels := [js "INBOX"] in
  let st :=
    process_messages email threadId
      {| participants := []; allAttachmentMeta := []; totalSize := 0;
         subject_ := js "(no subject)"; firstDate := now; lastDate := now;
         lastSnippet := []; isUnread := false; calls := [] |}
      0 messages in
  let isStarred := existsb (has_flag (js "\Flagged")) messages in
  let has_atts := negb (bool_decide (allAttachmentMeta st = [])) in
  let threadMeta :=
    {| tm_id := threadId; tm_subject := subject_ st; tm_labels := labels;
       tm_unread := isUnread st; tm_starred := isStarred;
       tm_participants := participants st;
       tm_message_count := length messages;
       tm_first_date := firstDate st; tm_last_date := lastDate st;
       tm_has_attachments := has_atts;
       tm_attachments := allAttachmentMeta st |} in
  let firstParticipant := head (participants st) in
  let indexEntry :=
    {| IndexWriter.id := threadId;
       IndexWriter.subject := subject_ st;
       IndexWriter.from := default [] (fst <$> firstParticipant);
       IndexWriter.from_name := default [] ((fun p => fst (snd p)) <$> firstParticipant);
       IndexWriter.participants := map fst (participants st);
       IndexWriter.labels := labels;
       IndexWriter.unread := isUnread st;
       IndexWriter.starred := isStarred;
       IndexWriter.msg_count := Z.of_nat (length messages);
       IndexWriter.last_date := lastDate st;
       IndexWriter.first_date := firstDate st;
       IndexWriter.snippet := lastSnippet st;
       IndexWriter.has_attachments := has_atts;
       IndexWriter.size_bytes := totalSize st |} in
  calls st
  ++ [WriteThreadMeta threadMeta; UpsertThreadIndex indexEntry]
  ++ omap (fun p =>
             match snd (snd p) with
             | External =>
                 Some (UpsertContactIndex
                         {| c_email := fst p; c_name := fst (snd p);
                            c_first_seen := date_part (firstDate st);
                            c_last_seen := date_part (lastDate st);
                            c_msg_count := 1; c_labels_common := labels;
                            c_is_frequent := false |})
             | Self => None
             end) (participants st).

Variable toLowerCase : jsstring -> jsstring.

(** The storage calls of [imapFullSync] on the messages fetched, and its
    result. *)
Definition imapFullSync (email : jsstring) (messages : list ImapMessage)
  : list call * (Z * nat) :=
  let threads := groupIntoThreads toLowerCase parseQuickHeaders messages in
  (flat_map (fun th => processThread email (fst th) (snd th)) threads,
   (fullSync_lastUid messages, length threads)).

End WithBuiltins.
End ImapFullSync.

(** ** src/unnamed/part_003 (the later noise-normalizer.ts): the footer

    The tests of [isFooterBoundary] and [isFooterLine] are regular
    expressions on the trimmed, lower-cased line; they and [toLowerCase]
    are parameters. The products by 0.4 and 0.2 are compared in whole
    numbers: [x > n * 0.2] as [5 * x > n], [x > n * 0.4] as
    [5 * x > 2 * n], and [Math.floor(n * 0.4)] is [2 * n / 5]. *)

Module Footer.
Section WithTests.
Variable toLowerCase : jsstring -> jsstring.
Variable isFooterBoundary : jsstring -> bool.
Variable isFooterLine : jsstring -> bool.

(** [lines[i].trim().toLowerCase()] *)
Definition lowered (line : jsstring) : jsstring := toLowerCase (trim line).

(** The first loop, at index [i] with the lines from [i] on still to
    visit: the text returned, if any. *)
Fixpoint boundary_cut (text : jsstring) (lines : list jsstring) (i : nat)
         (rest : list jsstring) : option jsstring :=
  match rest with
  | [] => None
  | line :: rest' =>
      let stripped := trim (JS.join [LF] (take i lines)) in
      if isFooterBoundary (lowered line)
         && (length (trim text) <? 5 * length stripped)%nat
      then Some stripped
      else boundary_cut text lines (S i) rest'
  end.

Definition blank_or_footer (line : jsstring) : bool :=
  jsstring_eqb (lowered line) [] || isFooterLine (lowered line).

(** The second loop walks up from the last line: the number of lines
    at the end that are blank or footer lines. *)
Fixpoint trailing_run (reversed : list jsstring) : nat :=
  match reversed with
  | [] => 0
  | line :: rest => if blank_or_footer line then S (trailing_run rest) else 0
  end.

Definition stripFooter (text : jsstring) : jsstring :=
  let lines := split LF text in
  let halfwayPoint := (2 * length lines / 5)%nat in
  match boundary_cut text lines halfwayPoint (drop halfwayPoint lines) with
  | Some stripped => stripped
  | None =>
      let cutIndex := (length lines - trailing_run (rev lines))%nat in
      if (cutIndex <? length lines)%nat && (2 * length lines <? 5 * cutIndex)%nat
      then JS.join [LF] (take cutIndex lines)
      else text
  end.

End WithTests.
End Footer.

(** The file of a draft in the outbox, and the file it is moved to when
    it reaches the status [sent] or [failed]. *)
Definition outbox_file (homedir email draftFilename : jsstring) (base : option jsstring)
  : jsstring :=
  NodePath.join [Paths.outboxDir homedir email base; draftFilename].

Definition terminal_file (homedir email draftFilename newStatus : jsstring)
           (base : option jsstring) : jsstring :=
  NodePath.join [ (if jsstring_eqb newStatus (js "sent")
                   then Paths.sentDir homedir email base
                   else Paths.failedDir homedir email base);
                  draftFilename ].

(** The property that records the time of the move. *)
Definition stamp_key (newStatus : jsstring) : jsstring :=
  if jsstring_eqb newStatus (js "sent") then js "sent_at" else js "failed_at".

(** The properties of the draft after a step to [newStatus] with the
    additions [extra], read against the properties [fields] before it:
    the status is the new one, the additions are there, and every other
    property is as it was. *)
Definition stepped (fields fields' : list (jsstring * json)) (newStatus : jsstring)
           (extra : list (jsstring * json)) (stamp : option jsstring) : Prop :=
  (assoc (js "status") extra = None -> assoc (js "status") fields' = Some (JStr newStatus))
  /\ (NoDup (map fst extra) ->
      forall k v, In (k, v) extra -> Some k <> stamp -> assoc k fields' = Some v)
  /\ (forall k, k <> js "status" -> Some k <> stamp -> assoc k extra = None ->
                assoc k fields' = assoc k fields).

(** A text in which white space occurs as single spaces only:
    [prev_space] tells that the character before is a space. *)
Fixpoint single_spaced (prev_space : bool) (s : jsstring) : bool :=
  match s with
  | [] => true
  | c :: r =>
      if is_space c then (c =? SPACE) && negb prev_space && single_spaced true r
      else single_spaced false r
  end.

(** A text without three line feeds in a row, [run] of them (at most two)
    coming just before it. *)
Fixpoint at_most_two_lf (run : nat) (s : jsstring) : bool :=
  match s with
  | [] => true
  | c :: r =>
      if c =? LF then (run <? 2)%nat && at_most_two_lf (S run) r
      else at_most_two_lf 0 r
  end.

(** A text that neither starts nor ends with white space. *)
Definition trimmed (s : jsstring) : Prop :=
  (forall c r, s = c :: r -> is_space c = false)
  /\ (forall c r, s = r ++ [c] -> is_space c = false).

(** The arguments of a command line as they are meant: a positional
    argument, a flag without a value, a flag with its value. *)
Inductive cli_token : Type :=
| Positional (arg : jsstring)
| Switch (key : jsstring)
| Valued (key value : jsstring).

Definition written (t : cli_token) : list jsstring :=
  match t with
  | Positional arg => [arg]
  | Switch key => [js "--" ++ key]
  | Valued key value => [js "--" ++ key; value]
  end.




(** The order of [Array.prototype.sort] without a comparator, and of [<]
    on strings: code unit by code unit, a proper prefix first. *)
Fixpoint sorts_before (a b : jsstring) : bool :=
  match a, b with
  | _, [] => false
  | [], _ :: _ => true
  | x :: a', y :: b' => (x <? y) || ((x =? y) && sorts_before a' b')
  end.

(** A value that is read back from the front matter as it was written:
    no white space at its ends, no double quote and no backslash. *)
Definition reads_back (v : jsstring) : Prop :=
  trimmed v /\ ~ In DQUOTE v /\ ~ In BACKSLASH v.

(** A line of the front matter as it is searched for the closing dashes:
    it holds no line feed and does not start with a dash. *)
Definition plain_line (l : jsstring) : Prop :=
  ~ In LF l /\ forall r, l <> 45 :: r.

(** The fields of the front matter in the order they are written, each
    with the text written after its key when the field is written. *)
Definition written_fields (JSON_stringify : list jsstring -> jsstring)
           (fm : ThreadWriter.MessageFrontmatter) : list (jsstring * option jsstring) :=
  [ (js "id", Some (ThreadWriter.fm_id fm));
    (js "gmail_message_id", Some (ThreadWriter.fm_gmail_message_id fm));
    (js "thread_id", Some (ThreadWriter.fm_thread_id fm));
    (js "rfc822_message_id",
     (fun m => [DQUOTE] ++ m ++ [DQUOTE])
       <$> ThreadWriter.present (ThreadWriter.fm_rfc822_message_id fm));
    (js "in_reply_to",
     (fun m => [DQUOTE] ++ m ++ [DQUOTE])
       <$> ThreadWriter.present (ThreadWriter.fm_in_reply_to fm));
    (js "references",
     match ThreadWriter.fm_references fm with
     | Some (r :: rs) => Some (JSON_stringify (r :: rs))
     | _ => None
     end);
    (js "from", Some (ThreadWriter.yamlSafeValue (ThreadWriter.fm_from fm)));
    (js "from_name", Some (ThreadWriter.yamlSafeValue (ThreadWriter.fm_from_name fm)));
    (js "to", Some (ThreadWriter.yamlSafeValue (ThreadWriter.fm_to fm)));
    (js "cc", ThreadWriter.yamlSafeValue <$> ThreadWriter.present (ThreadWriter.fm_cc fm));
    (js "date", Some (ThreadWriter.fm_date fm));
    (js "uid", Z_toString <$> ThreadWriter.fm_uid fm) ].

(** The line of a field: the key, a colon, a space, the text. *)
Definition field_line (field : jsstring * option jsstring) : option jsstring :=
  (fun v => fst field ++ js ": " ++ v) <$> snd field.

(** The keys of the front matter. *)
Definition field_keys : list jsstring :=
  [ js "id"; js "gmail_message_id"; js "thread_id"; js "rfc822_message_id";
    js "in_reply_to"; js "references"; js "from"; js "from_name"; js "to"; js "cc";
    js "date"; js "uid" ].

(** A key that is read back as it stands: it does not start with a dash,
    holds no colon and no white space at its ends, and is not [__proto__]. *)
Definition key_ok (k : jsstring) : bool :=
  match k with [] => false | c :: _ => negb (c =? 45) end
  && negb (includes_char k CliRead.COLON)
  && jsstring_eqb (trim k) k
  && negb (jsstring_eqb k (js "__proto__")).

(** The object the reader builds from the fields that were written. *)
Definition read_field (obj : list (jsstring * jsstring)) (field : jsstring * option jsstring)
  : list (jsstring * jsstring) :=
  match snd field with
  | Some v => CliArgs.set_property (fst field) (CliRead.strip_quotes (trim v)) obj
  | None => obj
  end.

(** A message as the synchronisation writes it. *)
Definition written_message : ThreadWriter.MessageFrontmatter :=
  {| ThreadWriter.fm_id := js "msg_001";
     ThreadWriter.fm_gmail_message_id := js "18d4a7f2b3c1e001";
     ThreadWriter.fm_thread_id := js "00to5x38";
     ThreadWriter.fm_rfc822_message_id := Some (js "<abc@mail.example>");
     ThreadWriter.fm_in_reply_to := None;
     ThreadWriter.fm_references := None;
     ThreadWriter.fm_from := js "mike@acme.com";
     ThreadWriter.fm_from_name := js "Chen: Mike";
     ThreadWriter.fm_to := js "me@gmail.com";
     ThreadWriter.fm_cc := None;
     ThreadWriter.fm_date := js "2026-02-17T09:30:00.000Z";
     ThreadWriter.fm_uid := Some 4711%Z |}.

(** A line that gives no uid, whatever follows it. *)
Definition no_uid_line (l : jsstring) : Prop :=
  forallb (fun c => negb (is_line_terminator c)) l = true
  /\ forall rest, CliRead.uid_at (l ++ rest) = None.

(** An item whose text is one line that is not blank and parses back
    into the item. *)
Definition line_safe {T : Type} (JSON_parse : jsstring -> option T)
           (JSON_stringify : T -> jsstring) (item : T) : Prop :=
  JSON_parse (JSON_stringify item) = Some item
  /\ ~ In LF (JSON_stringify item)
  /\ trim (JSON_stringify item) <> [].

(** What holds of the scheduler whatever happened: at most one call of
    [imapFullSync] is awaited, and [syncing] tells whether one is; the
    calls awaited were numbered before; an interval is set only after the
    first sync was done; before the first call nothing was started; and
    the call numbered 0 asks for what the options say. *)
Definition scheduler_inv (options : ImapScheduler.ImapSchedulerOptions)
           (st : ImapScheduler.state) : Prop :=
  (length (ImapScheduler.in_flight st) <= 1)%nat
  /\ (ImapScheduler.syncing st = true <-> ImapScheduler.in_flight st <> [])
  /\ (forall c, In c (ImapScheduler.in_flight st) ->
                (ImapScheduler.call_id c < ImapScheduler.next_call st)%nat)
  /\ (ImapScheduler.intervals st <> [] -> ImapScheduler.firstSyncDone st = true)
  /\ (ImapScheduler.next_call st = 0%nat ->
      ImapScheduler.firstSyncDone st = false /\ ImapScheduler.starting st = [])
  /\ (forall c, In c (ImapScheduler.in_flight st) -> ImapScheduler.call_id c = 0%nat ->
                ImapScheduler.call_depthDays c = ImapScheduler.depthDays options
                /\ ImapScheduler.call_maxMessages c = ImapScheduler.maxMessages options).

(** The thread ids named by the records of a history, empty ones left out. *)
Definition named_threads (history : option (list IncrementalSync.HistoryRecord))
  : list jsstring :=
  flat_map (fun entry =>
              flat_map (fun messages =>
                          omap (fun threadId => match threadId with
                                                | Some (c :: r) => Some (c :: r)
                                                | _ => None
                                                end)
                               (default [] messages))
                       [IncrementalSync.messagesAdded entry;
                        IncrementalSync.labelsAdded entry;
                        IncrementalSync.labelsRemoved entry])
           (default [] history).

(** The messages written by a list of storage calls, in order. *)
Definition message_writes (calls : list ImapFullSync.call)
  : list (jsstring * ThreadWriter.MessageFrontmatter * jsstring) :=
  omap (fun c => match c with
                 | ImapFullSync.WriteMessage t fm b => Some (t, fm, b)
                 | _ => None
                 end) calls.

(** The entries given to the thread index, the metadata files written
    and the contacts given to the contact index. *)
Definition index_upserts (calls : list ImapFullSync.call)
  : list IndexWriter.ThreadIndexEntry :=
  omap (fun c => match c with ImapFullSync.UpsertThreadIndex e => Some e | _ => None end)
       calls.

Definition meta_writes (calls : list ImapFullSync.call) : list ImapFullSync.ThreadMeta :=
  omap (fun c => match c with ImapFullSync.WriteThreadMeta m => Some m | _ => None end) calls.

Definition contact_upserts (calls : list ImapFullSync.call)
  : list ImapFullSync.ContactEntry :=
  omap (fun c => match c with ImapFullSync.UpsertContactIndex k => Some k | _ => None end)
       calls.

(** [cleanEmail] as [processThread] calls it for a message of a thread,
    and the sender it gives. *)
Definition cleaned (cleanEmail : jsstring -> jsstring -> jsstring -> ImapFullSync.CleanedEmail)
           (threadId : jsstring) (msg : ImapSync.ImapMessage) : ImapFullSync.CleanedEmail :=
  cleanEmail (ImapSync.raw msg) threadId (js "uid" ++ Z_toString (ImapSync.uid msg)).

Definition sender (cleanEmail : jsstring -> jsstring -> jsstring -> ImapFullSync.CleanedEmail)
           (threadId : jsstring) (msg : ImapSync.ImapMessage) : jsstring :=
  ThreadWriter.fm_from (ImapFullSync.frontmatter (cleaned cleanEmail threadId msg)).

(** The participants of a thread: the senders of its messages, each
    once, the account itself marked as such. *)
Definition participants_ok
           (cleanEmail : jsstring -> jsstring -> jsstring -> ImapFullSync.CleanedEmail)
           (email threadId : jsstring) (messages : list ImapSync.ImapMessage)
           (participants : list (jsstring * (jsstring * ImapFullSync.role))) : Prop :=
  NoDup (map fst participants)
  /\ Forall (fun p =>
               fst p <> []
               /\ (exists msg, In msg messages /\ sender cleanEmail threadId msg = fst p)
               /\ snd (snd p) = (if jsstring_eqb (fst p) email
                                 then ImapFullSync.Self else ImapFullSync.External))
            participants
  /\ forall msg, In msg messages -> sender cleanEmail threadId msg <> [] ->
                 In (sender cleanEmail threadId msg) (map fst participants).

(* ===================================================================== *)
(** * Part II. Properties                                                  *)
(* ===================================================================== *)

(** ** Strings *)

Lemma includes_char_In (s : jsstring) (c : N) :
  includes_char s c = true <-> In c s.
Proof.
  unfold includes_char. rewrite existsb_exists. split.
  - intros (x & Hx & Heq). apply N.eqb_eq in Heq. now subst.
  - intros H. exists c. split; [assumption | apply N.eqb_refl].
Qed.

Lemma startsWith_one (s : jsstring) (c : N) :
  startsWith s [c] = true <-> exists rest, s = c :: rest.
Proof.
  destruct s as [|x r]; simpl.
  - split; [discriminate | intros (rest & H); discriminate].
  - destruct (N.eqb_spec c x) as [->|Hne]; destruct r; simpl; split;
      try discriminate; try (intros _; eexists; reflexivity);
      intros (rest & H); inversion H; congruence.
Qed.

Lemma jsstring_eqb_eq (a b : jsstring) : jsstring_eqb a b = true <-> a = b.
Proof. unfold jsstring_eqb. apply bool_decide_eq_true. Qed.

Lemma jsstring_eqb_neq (a b : jsstring) : jsstring_eqb a b = false <-> a <> b.
Proof. unfold jsstring_eqb. apply bool_decide_eq_false. Qed.

Lemma jsstring_eqb_refl (a : jsstring) : jsstring_eqb a a = true.
Proof. now apply jsstring_eqb_eq. Qed.

(** ** thread-writer.ts: quoting of front-matter values *)

Lemma needs_quoting_trigger (value : jsstring) :
  ThreadWriter.needs_quoting value = true <-> quoting_trigger value.
Proof.
  unfold ThreadWriter.needs_quoting, quoting_trigger, ThreadWriter.has_yaml_special.
  rewrite !orb_true_iff, existsb_exists.
  change (js "-") with [45]. change (js " ") with [32].
  rewrite !startsWith_one.
  split.
  - intros [[(c & Hin & Hc) | H] | H]; [left | right; left | right; right]; try assumption.
    exists c. split; [assumption | now apply includes_char_In].
  - intros [(c & Hin & Hc) | [H | H]]; [left; left | left; right | right]; try assumption.
    exists c. split; [assumption | now apply includes_char_In].
Qed.

(** A sender name such as [Bob "Bobby" Tables]: a double quote inside,
    none of the triggers. *)
Definition quoted_nickname : jsstring :=
  js "Bob " ++ [DQUOTE] ++ js "Bobby" ++ [DQUOTE] ++ js " Tables".

Lemma quoted_nickname_no_trigger : ThreadWriter.needs_quoting quoted_nickname = false.
Proof. vm_compute. reflexivity. Qed.

Lemma from_line_in_frontmatter stringify (fm : ThreadWriter.MessageFrontmatter) :
  In (js "from: " ++ ThreadWriter.yamlSafeValue (ThreadWriter.fm_from fm))
     (ThreadWriter.frontmatter_lines stringify fm).
Proof.
  unfold ThreadWriter.frontmatter_lines.
  do 7 (apply in_or_app; right).
  apply in_or_app. left. now left.
Qed.

(** C10. [yamlSafeValue] quotes a value (escaping backslashes and double
    quotes) exactly when the value holds one of the characters
    [:#[]{}|>&*!'] or starts with a dash or a space, and leaves every other
    value as it is; hence a value with a double quote and no trigger, such
    as [Bob "Bobby" Tables], reaches the [from:] line of the front matter
    bare, its quotes unescaped. *)
Theorem yamlSafeValue_bare_double_quote :
  (forall value,
      (quoting_trigger value
       /\ ThreadWriter.yamlSafeValue value
          = [DQUOTE] ++ ThreadWriter.yaml_escape value ++ [DQUOTE])
      \/ (~ quoting_trigger value /\ ThreadWriter.yamlSafeValue value = value))
  /\ exists value,
      In DQUOTE value
      /\ ~ quoting_trigger value
      /\ ThreadWriter.yamlSafeValue value = value
      /\ forall stringify fm,
          ThreadWriter.fm_from fm = value ->
          In (js "from: " ++ value) (ThreadWriter.frontmatter_lines stringify fm).
Proof.
  split.
  - intros value. unfold ThreadWriter.yamlSafeValue.
    destruct (ThreadWriter.needs_quoting value) eqn:E.
    + left. split; [now apply needs_quoting_trigger | reflexivity].
    + right. split; [| reflexivity].
      intros H. apply needs_quoting_trigger in H. congruence.
  - exists quoted_nickname.
    assert (Hbare : ThreadWriter.yamlSafeValue quoted_nickname = quoted_nickname).
    { unfold ThreadWriter.yamlSafeValue. now rewrite quoted_nickname_no_trigger. }
    split; [| split; [| split]].
    + vm_compute. tauto.
    + intros H. apply needs_quoting_trigger in H.
      rewrite quoted_nickname_no_trigger in H. discriminate.
    + exact Hbare.
    + intros stringify fm Hfrom.
      rewrite <- Hbare at 1. rewrite <- Hfrom.
      apply from_line_in_frontmatter.
Qed.

(** ** snippet-generator.ts *)

Lemma lastIndexOf_from_range (c : N) (s : jsstring) (i found : Z) :
  JS.lastIndexOf_from c s i found = found
  \/ (i <= JS.lastIndexOf_from c s i found < i + Z.of_nat (length s))%Z.
Proof.
  revert i found. induction s as [|x r IH]; intros i found; simpl.
  - now left.
  - destruct (IH (i + 1)%Z (if x =? c then i else found)) as [H | H].
    + rewrite H. destruct (x =? c); [right; lia | now left].
    + right. lia.
Qed.

Lemma lastIndexOf_range (s : jsstring) (c : N) :
  lastIndexOf s c = (-1)%Z \/ (0 <= lastIndexOf s c < Z.of_nat (length s))%Z.
Proof.
  unfold lastIndexOf.
  destruct (lastIndexOf_from_range c s 0 (-1)) as [H | H]; [now left | right; lia].
Qed.

(** The character at the index [lastIndexOf] returns is the one looked for. *)
Lemma lastIndexOf_from_hit (c : N) (s : jsstring) (i found : Z) :
  (i <= JS.lastIndexOf_from c s i found)%Z ->
  (found < i)%Z ->
  s !! Z.to_nat (JS.lastIndexOf_from c s i found - i) = Some c.
Proof.
  revert i found. induction s as [|x r IH]; intros i found Hle Hlt; simpl in *.
  - lia.
  - destruct (N.eqb_spec x c) as [-> | Hne].
    + destruct (lastIndexOf_from_range c r (i + 1) i) as [H | H].
      * rewrite H. now replace (i - i)%Z with 0%Z by lia.
      * specialize (IH (i + 1)%Z i ltac:(lia) ltac:(lia)).
        replace (Z.to_nat (JS.lastIndexOf_from c r (i + 1) i - i))
          with (S (Z.to_nat (JS.lastIndexOf_from c r (i + 1) i - (i + 1)))) by lia.
        exact IH.
    + destruct (lastIndexOf_from_range c r (i + 1) found) as [H | H].
      * rewrite H in Hle. lia.
      * specialize (IH (i + 1)%Z found ltac:(lia) ltac:(lia)).
        replace (Z.to_nat (JS.lastIndexOf_from c r (i + 1) found - i))
          with (S (Z.to_nat (JS.lastIndexOf_from c r (i + 1) found - (i + 1)))) by lia.
        exact IH.
Qed.

Lemma lastIndexOf_hit (s : jsstring) (c : N) :
  (0 <= lastIndexOf s c)%Z -> s !! Z.to_nat (lastIndexOf s c) = Some c.
Proof.
  intros H. unfold lastIndexOf in *.
  pose proof (lastIndexOf_from_hit c s 0 (-1) H ltac:(lia)) as Hhit.
  now rewrite Z.sub_0_r in Hhit.
Qed.

(** White space after the replacement of its runs: only single spaces. *)
Lemma collapse_spaces_from_only_spaces (b : bool) (s : jsstring) (c : N) :
  In c (JS.collapse_spaces_from b s) -> is_space c = true -> c = SPACE.
Proof.
  revert b. induction s as [|x r IH]; intros b Hin Hsp; simpl in Hin.
  - contradiction.
  - destruct (is_space x) eqn:Ex.
    + destruct b.
      * eapply IH; eassumption.
      * destruct Hin as [<- | Hin]; [reflexivity | eapply IH; eassumption].
    + destruct Hin as [<- | Hin]; [congruence | eapply IH; eassumption].
Qed.

(** The other characters are kept, in their order. *)
Lemma collapse_spaces_from_keeps_text (b : bool) (s : jsstring) :
  List.filter (fun c => negb (is_space c)) (JS.collapse_spaces_from b s)
  = List.filter (fun c => negb (is_space c)) s.
Proof.
  revert b. induction s as [|x r IH]; intros b; simpl; [reflexivity |].
  destruct (is_space x) eqn:Ex; simpl.
  - destruct b; simpl; [apply IH |].
    change (is_space SPACE) with true. simpl. apply IH.
  - rewrite Ex. simpl. now rewrite IH.
Qed.

(** C7, as the code has it. With [collapsed] the body after every run of
    white space became one space and the ends were trimmed:
    when [collapsed] has at most 300 characters the snippet is [collapsed];
    otherwise it is a prefix of [collapsed] of at most 300 characters
    followed by the three characters of the ellipsis, so at most 303
    characters long; the prefix stops at the last space of the first 300
    characters when that space lies strictly beyond index 210, and is the
    first 300 characters otherwise. *)
Theorem generateSnippet_shape (body : jsstring) :
  let collapsed := trim (collapse_spaces body) in
  let lastSpace := lastIndexOf (take 300 collapsed) SPACE in
  ((length collapsed <= 300)%nat ->
   SnippetGenerator.generateSnippet body = collapsed)
  /\ ((300 < length collapsed)%nat ->
      (length (SnippetGenerator.generateSnippet body) <= 303)%nat
      /\ exists cut : nat,
          (cut <= 300)%nat
          /\ SnippetGenerator.generateSnippet body = take cut collapsed ++ js "..."
          /\ ((210 < lastSpace)%Z ->
              Z.of_nat cut = lastSpace /\ collapsed !! cut = Some SPACE)
          /\ ((lastSpace <= 210)%Z -> cut = 300%nat)).
Proof.
  intros collapsed lastSpace.
  unfold SnippetGenerator.generateSnippet, SnippetGenerator.generateSnippet_cap,
    SnippetGenerator.DEFAULT_MAX_LENGTH, slice0.
  fold collapsed. fold lastSpace.
  split.
  - intros Hle. apply Nat.leb_le in Hle. now rewrite Hle.
  - intros Hgt.
    assert (Hleb : (length collapsed <=? 300)%nat = false) by (apply Nat.leb_gt; lia).
    rewrite Hleb.
    assert (Hlen300 : length (take 300 collapsed) = 300%nat)
      by (rewrite length_take; lia).
    pose proof (lastIndexOf_range (take 300 collapsed) SPACE) as Hrange.
    fold lastSpace in Hrange. rewrite Hlen300 in Hrange.
    destruct (7 * Z.of_nat 300 <? 10 * lastSpace)%Z eqn:Ecut.
    + apply Z.ltb_lt in Ecut.
      assert (Hk : (Z.to_nat lastSpace <= 300)%nat) by lia.
      assert (Htake : take (Z.to_nat lastSpace) (take 300 collapsed)
                      = take (Z.to_nat lastSpace) collapsed).
      { rewrite take_take. f_equal. lia. }
      rewrite Htake. split.
      * rewrite length_app, length_take. simpl. lia.
      * exists (Z.to_nat lastSpace). split; [exact Hk |]. split; [reflexivity |].
        split; [| lia].
        intros _. split; [lia |].
        pose proof (lastIndexOf_hit (take 300 collapsed) SPACE ltac:(fold lastSpace; lia)) as Hhit.
        fold lastSpace in Hhit.
        rewrite lookup_take_lt in Hhit by lia. exact Hhit.
    + apply Z.ltb_ge in Ecut. split.
      * rewrite length_app, Hlen300. simpl. lia.
      * exists 300%nat. split; [lia |]. split; [reflexivity |].
        split; [lia | reflexivity].
Qed.

(** C7 as stated fails twice. A word of 301 letters gives a snippet of 303
    characters, more than 300. And when the last space of the first 300
    characters stands at index 210, exactly 70% of the cap, the snippet is
    not cut there: it keeps all 300 characters. *)
Lemma generateSnippet_exceeds_cap :
  length (trim (collapse_spaces (repeat 97 301))) = 301%nat
  /\ length (SnippetGenerator.generateSnippet (repeat 97 301)) = 303%nat
  /\ lastIndexOf (take 300 (repeat 97 210 ++ [SPACE] ++ repeat 98 100)) SPACE = 210%Z
  /\ SnippetGenerator.generateSnippet (repeat 97 210 ++ [SPACE] ++ repeat 98 100)
     = repeat 97 210 ++ [SPACE] ++ repeat 98 89 ++ js "...".
Proof. vm_compute. repeat split. Qed.

(** ** validator.ts *)





















(** ** state-machine.ts *)

Lemma transitions_lookup_pending :
  StateMachine.transitions_lookup (js "pending_review")
  = StateMachine.Own [js "ready_to_send"].
Proof. vm_compute. reflexivity. Qed.

Lemma transitions_lookup_ready :
  StateMachine.transitions_lookup (js "ready_to_send") = StateMachine.Own [js "sending"].
Proof. vm_compute. reflexivity. Qed.

Lemma transitions_lookup_sending :
  StateMachine.transitions_lookup (js "sending")
  = StateMachine.Own [js "sent"; js "failed"].
Proof. vm_compute. reflexivity. Qed.

Lemma transitions_lookup_sent :
  StateMachine.transitions_lookup (js "sent") = StateMachine.Undefined.
Proof. vm_compute. reflexivity. Qed.

Lemma transitions_lookup_failed :
  StateMachine.transitions_lookup (js "failed") = StateMachine.Undefined.
Proof. vm_compute. reflexivity. Qed.




(** A pending draft of the account [test@gmail.com]. *)
Definition pending_draft : json :=
  JObj [ (js "action", JStr (js "compose"));
         (js "to", JArr [JStr (js "a@b.com")]);
         (js "subject", JStr (js "Test"));
         (js "body", JStr (js "Hello"));
         (js "status", JStr (js "pending_review"));
         (js "created_by", JStr (js "agent")) ].

Definition outbox_with_pending_draft : gmap (list N) json :=
  {[ js "/tmp/base/accounts/test@gmail.com/outbox/draft_005.json" := pending_draft ]}.





(** ** maildeck.ts: the high-water mark written by [sync] *)

Definition synced_account : jsstring := js "me@gmail.com".

(** An account whose last sync left the high-water mark at 100. *)
Definition meta_at_100 : Cli.AccountMeta :=
  {| Cli.email := synced_account; Cli.sync_state := js "idle";
     Cli.last_sync := Some (js "2026-02-17T09:30:00.000Z");
     Cli.history_id := None; Cli.last_uid := Some 100%Z;
     Cli.sync_depth_days := 30; Cli.poll_interval_seconds := 60 |}.

(** C2 at a failing input. [sync --full] on an account whose stored
    [last_uid] is 100, when the server returns no message for the window:
    [imapFullSync] reports [lastUid] 0 and [cmdSync] writes it, so the
    stored mark falls from 100 to 0. With [--unread] the same assignment
    stores whatever the unread pass reports: the pass does write the mark. *)
Theorem cmdSync_lowers_last_uid
        (toLowerCase : jsstring -> jsstring)
        (parseQuickHeaders : jsstring -> ImapSync.QuickHeaders)
        (parseInt : jsstring -> Z)
        (imapIncrementalSync : jsstring -> Z -> Cli.SyncResult)
        (imapUnreadSync : jsstring -> Cli.SyncResult)
        (now : jsstring) :
  let run := Cli.cmdSync toLowerCase parseQuickHeaders parseInt (fun _ _ => [])
               imapIncrementalSync imapUnreadSync now
               (fun _ => Some (js "app-password")) [synced_account]
               {[ synced_account := meta_at_100 ]} in
  (exists disk result,
      run [(js "full", js "true")] = inr (disk, result)
      /\ Cli.last_uid <$> disk !! synced_account = Some (Some 0%Z)
      /\ ~ Cli.last_uid_le (Some 100%Z) (Some 0%Z))
  /\ (exists disk result,
      run [(js "unread", js "true")] = inr (disk, result)
      /\ Cli.last_uid <$> disk !! synced_account
         = Some (Some (Cli.lastUid (imapUnreadSync synced_account)))).
Proof.
  intros run. split.
  - eexists _, _. split; [reflexivity |]. split.
    + rewrite lookup_insert_eq. reflexivity.
    + simpl. lia.
  - eexists _, _. split; [reflexivity |].
    rewrite lookup_insert_eq. reflexivity.
Qed.

(** ** imap-sync.ts: the hash of a thread key *)

Lemma toString_fuel_length (fuel : nat) (radix n : N) (acc : jsstring) (k : nat) :
  1 < radix -> (1 <= k)%nat -> n < radix ^ N.of_nat k ->
  (length (JS.toString_fuel fuel radix n acc) <= length acc + k)%nat.
Proof.
  revert n acc k. induction fuel as [|f IH]; intros n acc k Hr Hk Hn; simpl.
  - lia.
  - destruct (N.eqb_spec (n / radix) 0) as [Hz | Hnz].
    + simpl. lia.
    + assert (Hk2 : (2 <= k)%nat).
      { destruct k as [|[|k]]; [lia | | lia].
        exfalso. apply Hnz. apply N.div_small. simpl in Hn.
        now rewrite N.pow_1_r in Hn. }
      specialize (IH (n / radix) (digit_char (n mod radix) :: acc) (k - 1)%nat Hr ltac:(lia)).
      simpl in IH.
      assert (Hdiv : n / radix < radix ^ N.of_nat (k - 1)).
      { apply N.Div0.div_lt_upper_bound.
        replace (radix * radix ^ N.of_nat (k - 1)) with (radix ^ N.of_nat k); [exact Hn |].
        replace (N.of_nat k) with (N.succ (N.of_nat (k - 1))) by lia.
        now rewrite N.pow_succ_r'. }
      specialize (IH Hdiv). lia.
Qed.

Lemma to_int32_range (z : Z) :
  (-2147483648 <= ImapSync.to_int32 z < 2147483648)%Z.
Proof.
  unfold ImapSync.to_int32.
  pose proof (Z.mod_pos_bound (z + 2147483648) 4294967296 ltac:(lia)). lia.
Qed.

Lemma hash_fold_range (str : jsstring) (h : Z) :
  (-2147483648 <= h < 2147483648)%Z ->
  (-2147483648 <= fold_left ImapSync.hash_step str h < 2147483648)%Z.
Proof.
  revert h. induction str as [|c r IH]; intros h Hh; simpl; [exact Hh |].
  apply IH. unfold ImapSync.hash_step. apply to_int32_range.
Qed.

(** The thread key is always eight characters long. *)
Lemma hashString_length (str : jsstring) : length (ImapSync.hashString str) = 8%nat.
Proof.
  unfold ImapSync.hashString, padStart0.
  pose proof (hash_fold_range str 0 ltac:(lia)) as Hrange.
  set (h := fold_left ImapSync.hash_step str 0%Z) in *.
  assert (Hlen : (length (toString_radix 36 (Z.to_N (Z.abs h))) <= 8)%nat).
  { unfold toString_radix.
    apply (toString_fuel_length _ 36 _ [] 8); [lia | lia |].
    change (36 ^ N.of_nat 8) with 2821109907456. lia. }
  rewrite length_app, repeat_length. lia.
Qed.

Lemma hashString_nonempty (str : jsstring) : ImapSync.hashString str <> [].
Proof.
  intros H. pose proof (hashString_length str) as Hl. rewrite H in Hl. discriminate.
Qed.

Lemma digit_char_base36 (d : N) : d < 36 -> is_base36 (digit_char d) = true.
Proof.
  intros Hd. unfold is_base36, is_digit, digit_char.
  destruct (N.ltb_spec d 10).
  - apply orb_true_intro. left. apply andb_true_intro. split; apply N.leb_le; lia.
  - apply orb_true_intro. right. apply andb_true_intro. split; apply N.leb_le; lia.
Qed.

Lemma toString_fuel_base36 (fuel : nat) (n : N) (acc : jsstring) :
  forallb is_base36 acc = true ->
  forallb is_base36 (JS.toString_fuel fuel 36 n acc) = true.
Proof.
  revert n acc. induction fuel as [|f IH]; intros n acc Hacc; simpl; [exact Hacc |].
  assert (Hcons : forallb is_base36 (digit_char (n mod 36) :: acc) = true).
  { simpl. rewrite Hacc, digit_char_base36; [reflexivity |].
    apply N.mod_upper_bound. lia. }
  destruct (n / 36 =? 0); [exact Hcons | now apply IH].
Qed.

(** The thread key is written with the digits of base 36. *)
Lemma hashString_base36 (str : jsstring) :
  forallb is_base36 (ImapSync.hashString str) = true.
Proof.
  unfold ImapSync.hashString, padStart0, toString_radix.
  rewrite forallb_app. apply andb_true_intro. split.
  - apply forallb_forall. intros c Hc. apply repeat_spec in Hc. now subst.
  - now apply toString_fuel_base36.
Qed.

(** ** imap-sync.ts: the thread grouper *)

Section Grouper.
Variable toLowerCase : jsstring -> jsstring.
Variable parseQuickHeaders : jsstring -> ImapSync.QuickHeaders.

Local Abbreviation threadIdOf := (ImapSync.threadIdOf toLowerCase parseQuickHeaders).
Local Abbreviation group_step := (ImapSync.group_step toLowerCase parseQuickHeaders).
Local Abbreviation group_loop := (ImapSync.group_loop toLowerCase parseQuickHeaders).
Local Abbreviation groupIntoThreads := (ImapSync.groupIntoThreads toLowerCase parseQuickHeaders).

(** The key hashed when no header leads to a thread. *)
Definition fallback_key (msg : ImapSync.ImapMessage) : jsstring :=
  let headers := parseQuickHeaders (ImapSync.raw msg) in
  ImapSync.or_else
    (ImapSync.normalizeSubject toLowerCase (ImapSync.subject headers))
    (ImapSync.or_else (ImapSync.messageId headers)
                      (js "uid-" ++ Z_toString (ImapSync.uid msg))).

(** Every thread id kept in the map is non-empty. *)
Definition ids_nonempty (m : gmap (list N) (list N)) : Prop :=
  forall k t, m !! k = Some t -> t <> [].

Lemma threadIdOf_nonempty (m : gmap (list N) (list N)) (msg : ImapSync.ImapMessage) :
  threadIdOf m msg <> [].
Proof.
  unfold ImapSync.threadIdOf.
  repeat match goal with
         | |- context [match ?x with _ => _ end] => destruct x eqn:?
         end; try discriminate; try apply hashString_nonempty.
Qed.

Lemma group_step_ids_nonempty st (msg : ImapSync.ImapMessage) :
  ids_nonempty (snd st) -> ids_nonempty (snd (group_step st msg)).
Proof.
  destruct st as [threads m]. unfold ImapSync.group_step. simpl. intros Hinv.
  destruct (ImapSync.messageId (parseQuickHeaders (ImapSync.raw msg))) eqn:E; simpl;
    [exact Hinv |].
  intros k t Hk. destruct (decide (n :: l = k)) as [<- | Hne].
  - rewrite lookup_insert_eq in Hk. inversion Hk; subst. apply threadIdOf_nonempty.
  - rewrite lookup_insert_ne in Hk by assumption. eapply Hinv; eassumption.
Qed.

Lemma fold_group_step_ids_nonempty (msgs : list ImapSync.ImapMessage) st :
  ids_nonempty (snd st) -> ids_nonempty (snd (fold_left group_step msgs st)).
Proof.
  revert st. induction msgs as [|x r IH]; intros st H; simpl; [exact H |].
  apply IH. now apply group_step_ids_nonempty.
Qed.

Lemma group_loop_ids_nonempty (msgs : list ImapSync.ImapMessage) :
  ids_nonempty (snd (group_loop msgs)).
Proof.
  apply fold_group_step_ids_nonempty. intros k t H. simpl in H.
  rewrite lookup_empty in H. discriminate.
Qed.

(** The three cases of the assignment, for a map whose ids are non-empty. *)
Lemma threadIdOf_cases (m : gmap (list N) (list N)) (msg : ImapSync.ImapMessage) :
  ids_nonempty m ->
  let headers := parseQuickHeaders (ImapSync.raw msg) in
  let replied := ImapSync.inReplyTo headers <> []
                 /\ is_Some (m !! ImapSync.inReplyTo headers) in
  (replied -> m !! ImapSync.inReplyTo headers = Some (threadIdOf m msg))
  /\ (~ replied ->
      forall i r, list_find (fun r => is_Some (m !! r)) (ImapSync.references headers)
                  = Some (i, r) ->
                  m !! r = Some (threadIdOf m msg))
  /\ (~ replied ->
      list_find (fun r => is_Some (m !! r)) (ImapSync.references headers) = None ->
      threadIdOf m msg = ImapSync.hashString (fallback_key msg)).
Proof.
  intros Hinv headers replied. subst replied.
  unfold ImapSync.threadIdOf, fallback_key. fold headers.
  destruct (ImapSync.inReplyTo headers) as [|c irt] eqn:Eirt.
  - split; [intros [H _]; congruence |].
    split.
    + intros _ i r Hfind. rewrite Hfind.
      apply list_find_Some in Hfind as (_ & [t Ht] & _).
      rewrite Ht. simpl. destruct t eqn:Et; [exfalso; eapply Hinv; eauto | reflexivity].
    + intros _ Hfind. now rewrite Hfind.
  - destruct (m !! (c :: irt)) as [t|] eqn:Em; simpl.
    + assert (Ht : t <> []) by (eapply Hinv; eauto).
      destruct t as [|a t']; [congruence |].
      split; [reflexivity |].
      split; intros Hn; exfalso; apply Hn; (split; [discriminate | eauto]).
    + split; [intros [_ [x Hx]]; discriminate |].
      split.
      * intros _ i r Hfind. rewrite Hfind.
        apply list_find_Some in Hfind as (_ & [t Ht] & _).
        rewrite Ht. simpl. destruct t eqn:Et; [exfalso; eapply Hinv; eauto | reflexivity].
      * intros _ Hfind. now rewrite Hfind.
Qed.

Lemma push_thread_adds (tid : jsstring) (msg : ImapSync.ImapMessage) threads :
  in_thread tid msg (ImapSync.push_thread tid msg threads).
Proof.
  unfold in_thread. induction threads as [|[t msgs] rest IH]; simpl.
  - exists [msg]. split; now left.
  - destruct (jsstring_eqb t tid) eqn:E.
    + apply jsstring_eqb_eq in E. subst. exists (msgs ++ [msg]).
      split; [now left | apply in_or_app; right; now left].
    + destruct IH as (ms & Hin & Hm). exists ms. split; [now right | assumption].
Qed.

Lemma push_thread_keeps (tid tid' : jsstring) (msg msg' : ImapSync.ImapMessage) threads :
  in_thread tid msg threads -> in_thread tid msg (ImapSync.push_thread tid' msg' threads).
Proof.
  unfold in_thread. induction threads as [|[t msgs] rest IH]; simpl.
  - intros (ms & [] & _).
  - intros (ms & [Heq | Hin] & Hm).
    + inversion Heq; subst. destruct (jsstring_eqb tid tid').
      * exists (ms ++ [msg']). split; [now left | apply in_or_app; now left].
      * exists ms. split; [now left | assumption].
    + destruct (IH (ex_intro _ ms (conj Hin Hm))) as (ms' & Hin' & Hm').
      destruct (jsstring_eqb t tid').
      * exists ms. split; [right; exact Hin | exact Hm].
      * exists ms'. split; [right; exact Hin' | exact Hm'].
Qed.

Lemma fold_group_step_keeps (msgs : list ImapSync.ImapMessage) st tid msg :
  in_thread tid msg (fst st) -> in_thread tid msg (fst (fold_left group_step msgs st)).
Proof.
  revert st. induction msgs as [|x r IH]; intros st H; simpl; [exact H |].
  apply IH. destruct st as [threads m]. unfold ImapSync.group_step. simpl.
  now apply push_thread_keeps.
Qed.

Lemma group_loop_app (pre post : list ImapSync.ImapMessage) :
  group_loop (pre ++ post) = fold_left group_step post (group_loop pre).
Proof. unfold ImapSync.group_loop. apply fold_left_app. Qed.

(** C9, as the code has it. When the loop reaches [msg], with [m] the map
    built from the messages before it: the message gets the thread id the
    map gives for its in-reply-to header, when the header is there and in
    the map; else the thread id of the first entry of its references that
    is in the map; else the hash of the fall-back key, the subject with at
    most two leading [re:], [fw:] or [fwd:] stripped, trimmed and put in
    lower case, or the message id or [uid-<UID>] when that is empty. The
    hash is eight characters long, in the digits of base 36. The message
    lands in the thread of that id, and its own message id, when it has
    one, maps to the id afterwards. *)
Theorem groupIntoThreads_assignment (pre post : list ImapSync.ImapMessage)
        (msg : ImapSync.ImapMessage) :
  let m := snd (group_loop pre) in
  let headers := parseQuickHeaders (ImapSync.raw msg) in
  let threadId := threadIdOf m msg in
  let replied := ImapSync.inReplyTo headers <> []
                 /\ is_Some (m !! ImapSync.inReplyTo headers) in
  let first_reference :=
    list_find (fun r => is_Some (m !! r)) (ImapSync.references headers) in
  (replied -> m !! ImapSync.inReplyTo headers = Some threadId)
  /\ (~ replied -> forall i r, first_reference = Some (i, r) -> m !! r = Some threadId)
  /\ (~ replied -> first_reference = None ->
      threadId = ImapSync.hashString (fallback_key msg))
  /\ fallback_key msg
     = ImapSync.or_else
         (toLowerCase (trim (ImapSync.strip_reply_prefix
                               (ImapSync.strip_reply_prefix (ImapSync.subject headers)))))
         (ImapSync.or_else (ImapSync.messageId headers)
                           (js "uid-" ++ Z_toString (ImapSync.uid msg)))
  /\ length (ImapSync.hashString (fallback_key msg)) = 8%nat
  /\ forallb is_base36 (ImapSync.hashString (fallback_key msg)) = true
  /\ in_thread threadId msg (groupIntoThreads (pre ++ msg :: post))
  /\ (ImapSync.messageId headers <> [] ->
      snd (group_loop (pre ++ [msg])) !! ImapSync.messageId headers = Some threadId).
Proof.
  intros m headers threadId replied first_reference.
  pose proof (threadIdOf_cases m msg (group_loop_ids_nonempty pre)) as (H1 & H2 & H3).
  split; [exact H1 |]. split; [exact H2 |]. split; [exact H3 |].
  split; [reflexivity |]. split; [apply hashString_length |].
  split; [apply hashString_base36 |].
  assert (Hstep : group_step (group_loop pre) msg
                  = (ImapSync.push_thread threadId msg (fst (group_loop pre)),
                     match ImapSync.messageId headers with
                     | [] => m
                     | _ => <[ImapSync.messageId headers := threadId]> m
                     end)).
  { subst m threadId headers. destruct (group_loop pre) as [threads m0]. reflexivity. }
  split.
  - unfold ImapSync.groupIntoThreads.
    rewrite group_loop_app.
    change (fold_left group_step (msg :: post) (group_loop pre))
      with (fold_left group_step post (group_step (group_loop pre) msg)).
    apply fold_group_step_keeps. rewrite Hstep. simpl.
    apply push_thread_adds.
  - intros Hid. rewrite group_loop_app.
    change (fold_left group_step [msg] (group_loop pre))
      with (group_step (group_loop pre) msg).
    rewrite Hstep. simpl.
    destruct (ImapSync.messageId headers) eqn:E; [congruence |].
    apply lookup_insert_eq.
Qed.

End Grouper.

(** A message whose subject carries three reply marks. *)
Definition thrice_replied : ImapSync.ImapMessage :=
  {| ImapSync.uid := 7; ImapSync.raw := js "Subject: Re: Re: Re: hi"; ImapSync.flags := [] |}.

Definition thrice_replied_headers (raw : jsstring) : ImapSync.QuickHeaders :=
  {| ImapSync.messageId := []; ImapSync.inReplyTo := []; ImapSync.references := [];
     ImapSync.subject := js "Re: Re: Re: hi" |}.

(** C9 as stated fails: only two leading reply marks are stripped. The
    subject [Re: Re: Re: hi] is hashed as [re: hi], not as [hi], the
    subject without all its leading marks. *)
Lemma groupIntoThreads_third_prefix_kept :
  ImapSync.normalizeSubject ImapSync.ascii_toLowerCase (js "Re: Re: Re: hi") = js "re: hi"
  /\ ImapSync.normalizeSubject_spec ImapSync.ascii_toLowerCase (js "Re: Re: Re: hi") = js "hi"
  /\ ImapSync.groupIntoThreads ImapSync.ascii_toLowerCase thrice_replied_headers
       [thrice_replied]
     = [(js "00fhe5k6", [thrice_replied])]
  /\ ImapSync.hashString (js "hi") = js "000002kh".
Proof. vm_compute. repeat split. Qed.

(** ** index-writer.ts: the threads index *)

Section ThreadIndex.
Variable homedir : jsstring.
Variable Date_getTime : jsstring -> option Z.

Local Abbreviation keeps_before := (IndexWriter.keeps_before Date_getTime).
Local Abbreviation sort_insert := (IndexWriter.sort_insert Date_getTime).
Local Abbreviation sort_by_last_date := (IndexWriter.sort_by_last_date Date_getTime).

(** [a] is at least as recent as [b]. *)
Definition not_older (a b : IndexWriter.ThreadIndexEntry) : Prop :=
  exists ta tb, Date_getTime (IndexWriter.last_date a) = Some ta
                /\ Date_getTime (IndexWriter.last_date b) = Some tb
                /\ (tb <= ta)%Z.

(** Newest first: every entry is at least as recent as those after it. *)
Definition newest_first (items : list IndexWriter.ThreadIndexEntry) : Prop :=
  StronglySorted not_older items.

Definition dated (e : IndexWriter.ThreadIndexEntry) : Prop :=
  is_Some (Date_getTime (IndexWriter.last_date e)).

Lemma sort_insert_perm x (l : list IndexWriter.ThreadIndexEntry) :
  Permutation (sort_insert x l) (x :: l).
Proof.
  induction l as [|y r IH]; simpl; [reflexivity |].
  destruct (keeps_before x y); [reflexivity |].
  rewrite IH. apply perm_swap.
Qed.

Lemma sort_by_last_date_perm (l : list IndexWriter.ThreadIndexEntry) :
  Permutation (sort_by_last_date l) l.
Proof.
  induction l as [|x r IH]; simpl; [reflexivity |].
  unfold IndexWriter.sort_by_last_date in *. simpl.
  rewrite sort_insert_perm. now rewrite IH.
Qed.

Lemma keeps_before_true a b :
  dated a -> dated b -> keeps_before a b = true -> not_older a b.
Proof.
  intros [ta Ha] [tb Hb]. unfold IndexWriter.keeps_before. rewrite Ha, Hb.
  intros H. apply Z.leb_le in H. exists ta, tb. repeat split; try assumption. lia.
Qed.

Lemma keeps_before_false a b :
  dated a -> dated b -> keeps_before a b = false -> not_older b a.
Proof.
  intros [ta Ha] [tb Hb]. unfold IndexWriter.keeps_before. rewrite Ha, Hb.
  intros H. apply Z.leb_gt in H. exists tb, ta. repeat split; try assumption. lia.
Qed.

Lemma not_older_trans a b c : not_older a b -> not_older b c -> not_older a c.
Proof.
  intros (ta & tb & Ha & Hb & Hab) (tb' & tc & Hb' & Hc & Hbc).
  rewrite Hb in Hb'. inversion Hb'; subst.
  exists ta, tc. repeat split; try assumption. lia.
Qed.

Lemma sort_insert_sorted x (l : list IndexWriter.ThreadIndexEntry) :
  dated x -> Forall dated l -> newest_first l -> newest_first (sort_insert x l).
Proof.
  unfold newest_first. intros Hx Hl Hs.
  induction Hs as [|y r Hr IH Hy]; simpl.
  - repeat constructor.
  - inversion Hl as [|? ? Hdy Hdr]; subst.
    destruct (keeps_before x y) eqn:E.
    + pose proof (keeps_before_true x y Hx Hdy E) as Hxy.
      constructor; [now constructor |].
      constructor; [exact Hxy |].
      eapply Forall_impl; [exact Hy |]. intros z Hz. eapply not_older_trans; eassumption.
    + pose proof (keeps_before_false x y Hx Hdy E) as Hyx.
      constructor; [now apply IH |].
      rewrite (sort_insert_perm x r). constructor; assumption.
Qed.

Lemma sort_by_last_date_sorted (l : list IndexWriter.ThreadIndexEntry) :
  Forall dated l -> newest_first (sort_by_last_date l).
Proof.
  induction l as [|x r IH]; intros Hl.
  - constructor.
  - inversion Hl; subst. unfold IndexWriter.sort_by_last_date in *. simpl.
    apply sort_insert_sorted; [assumption | | now apply IH].
    rewrite (sort_by_last_date_perm r). assumption.
Qed.

(** The ids after an upsert: the same when the id was there, one more otherwise. *)
Lemma upsert_ids (items : list IndexWriter.ThreadIndexEntry) item :
  (In (IndexWriter.id item) (map IndexWriter.id items)
   /\ map IndexWriter.id (IndexWriter.upsert items item) = map IndexWriter.id items)
  \/ (~ In (IndexWriter.id item) (map IndexWriter.id items)
      /\ IndexWriter.upsert items item = items ++ [item]).
Proof.
  unfold IndexWriter.upsert.
  destruct (list_find _ items) as [[idx e]|] eqn:E.
  - left. apply list_find_Some in E as (Hidx & Heq & _). split.
    + rewrite <- Heq. apply in_map. apply list_elem_of_In.
      eapply list_elem_of_lookup_2; eassumption.
    + rewrite list_fmap_insert. rewrite <- Heq.
      apply list_insert_id. now rewrite list_lookup_fmap, Hidx.
  - right. split; [| reflexivity].
    apply list_find_None in E. intros Hin.
    apply in_map_iff in Hin as (e & Heq & Hin).
    apply list_elem_of_In in Hin.
    rewrite Forall_forall in E. now apply (E e Hin).
Qed.

Lemma upsert_members (items : list IndexWriter.ThreadIndexEntry) item e :
  In e (IndexWriter.upsert items item) -> e = item \/ In e items.
Proof.
  unfold IndexWriter.upsert.
  destruct (list_find _ items) as [[idx x]|] eqn:E.
  - intros Hin. apply list_elem_of_In, list_elem_of_lookup in Hin as [i Hi].
    destruct (decide (idx = i)) as [-> | Hne].
    + apply list_find_Some in E as (Hidx & _).
      rewrite list_lookup_insert_eq in Hi by (eapply lookup_lt_Some; eassumption).
      left. congruence.
    + rewrite list_lookup_insert_ne in Hi by assumption.
      right. apply list_elem_of_In. eapply list_elem_of_lookup_2; eassumption.
  - intros Hin. apply in_app_or in Hin as [H | [<- | []]]; [now right | now left].
Qed.

Lemma upsert_has_item (items : list IndexWriter.ThreadIndexEntry) item :
  In item (IndexWriter.upsert items item).
Proof.
  unfold IndexWriter.upsert.
  destruct (list_find _ items) as [[idx x]|] eqn:E.
  - apply list_find_Some in E as (Hidx & _).
    apply list_elem_of_In. apply list_elem_of_lookup. exists idx.
    apply list_lookup_insert_eq. eapply lookup_lt_Some; eassumption.
  - apply in_or_app. right. now left.
Qed.

(** C3. On an index whose entries have distinct ids and carry dates,
    [upsertThreadIndex] leaves an index that holds the new entry, has the
    ids it had before together with the id of the entry, each once, and
    is ordered newest first by [last_date]. *)
Theorem upsertThreadIndex_sorted_unique
        (fs : gmap (list N) (list IndexWriter.ThreadIndexEntry))
        (email : jsstring) (entry : IndexWriter.ThreadIndexEntry)
        (base : option jsstring) :
  let before := IndexWriter.readThreadIndex homedir fs email base in
  let after :=
    IndexWriter.readThreadIndex homedir
      (IndexWriter.upsertThreadIndex homedir Date_getTime fs email entry base)
      email base in
  NoDup (map IndexWriter.id before) ->
  Forall dated (entry :: before) ->
  NoDup (map IndexWriter.id after)
  /\ (forall i, In i (map IndexWriter.id after)
                <-> i = IndexWriter.id entry \/ In i (map IndexWriter.id before))
  /\ In entry after
  /\ newest_first after.
Proof.
  intros before after Hnodup Hdated.
  assert (Hafter : after = sort_by_last_date (IndexWriter.upsert before entry)).
  { subst after before.
    unfold IndexWriter.readThreadIndex, IndexWriter.upsertThreadIndex,
      IndexWriter.upsertJsonl, IndexWriter.readJsonl, IndexWriter.writeJsonl.
    now rewrite lookup_insert_eq. }
  pose proof (sort_by_last_date_perm (IndexWriter.upsert before entry)) as Hperm.
  rewrite <- Hafter in Hperm.
  assert (Hids : Permutation (map IndexWriter.id after)
                             (map IndexWriter.id (IndexWriter.upsert before entry)))
    by now apply Permutation_map.
  split; [| split; [| split]].
  - rewrite Hids.
    destruct (upsert_ids before entry) as [[_ Heq] | [Hnot Heq]]; rewrite Heq.
    + exact Hnodup.
    + rewrite map_app. simpl.
      apply NoDup_app. split; [exact Hnodup |]. split.
      * intros x Hx Hx'. apply list_elem_of_In in Hx.
        apply list_elem_of_singleton in Hx'. subst. contradiction.
      * apply NoDup_singleton.
  - intros i.
    assert (Hiff : In i (map IndexWriter.id after)
                   <-> In i (map IndexWriter.id (IndexWriter.upsert before entry))).
    { split; apply Permutation_in; [exact Hids | now apply Permutation_sym]. }
    rewrite Hiff.
    destruct (upsert_ids before entry) as [[Hin Heq] | [Hnot Heq]]; rewrite Heq.
    + split; [now right | intros [-> | H]; assumption].
    + rewrite map_app, in_app_iff. simpl. intuition.
  - apply (Permutation_in _ (Permutation_sym Hperm)). apply upsert_has_item.
  - rewrite Hafter. apply sort_by_last_date_sorted.
    apply Forall_forall. intros e He.
    apply list_elem_of_In, upsert_members in He.
    rewrite Forall_forall in Hdated. apply Hdated.
    apply list_elem_of_In. destruct He as [-> | He]; [now left | now right].
Qed.

End ThreadIndex.

(** An index entry with the given id and [last_date]. *)
Definition index_entry (i d : jsstring) : IndexWriter.ThreadIndexEntry :=
  {| IndexWriter.id := i; IndexWriter.subject := js "Johnson deal pricing";
     IndexWriter.from := js "mike@acme.com"; IndexWriter.from_name := js "Mike Chen";
     IndexWriter.participants := [js "mike@acme.com"]; IndexWriter.labels := [js "INBOX"];
     IndexWriter.unread := true; IndexWriter.starred := false; IndexWriter.msg_count := 1;
     IndexWriter.last_date := d; IndexWriter.first_date := d;
     IndexWriter.snippet := js "Can we revisit the implementation fees?";
     IndexWriter.has_attachments := false; IndexWriter.size_bytes := 3200 |}.

(** The index after the entries dated 2026-02-10 and 2026-02-20 were upserted. *)
Definition index_after_two : gmap (list N) (list IndexWriter.ThreadIndexEntry) :=
  IndexWriter.upsertThreadIndex (js "/home/u") iso_getTime
    (IndexWriter.upsertThreadIndex (js "/home/u") iso_getTime ∅ (js "me@gmail.com")
       (index_entry (js "t1") (js "2026-02-10")) None)
    (js "me@gmail.com") (index_entry (js "t2") (js "2026-02-20")) None.

(** The scenario of the specification: a third entry dated 2026-02-15
    lands between the two. *)
Lemma upsertThreadIndex_three_dates :
  map IndexWriter.last_date
      (IndexWriter.readThreadIndex (js "/home/u")
         (IndexWriter.upsertThreadIndex (js "/home/u") iso_getTime index_after_two
            (js "me@gmail.com") (index_entry (js "t3") (js "2026-02-15")) None)
         (js "me@gmail.com") None)
  = [js "2026-02-20"; js "2026-02-15"; js "2026-02-10"]
  /\ NoDup (map IndexWriter.id
              (IndexWriter.readThreadIndex (js "/home/u")
                 (IndexWriter.upsertThreadIndex (js "/home/u") iso_getTime index_after_two
                    (js "me@gmail.com") (index_entry (js "t3") (js "2026-02-15")) None)
                 (js "me@gmail.com") None))
  /\ newest_first iso_getTime
       (IndexWriter.readThreadIndex (js "/home/u")
          (IndexWriter.upsertThreadIndex (js "/home/u") iso_getTime index_after_two
             (js "me@gmail.com") (index_entry (js "t3") (js "2026-02-15")) None)
          (js "me@gmail.com") None).
Proof.
  split; [vm_compute; reflexivity |].
  destruct (upsertThreadIndex_sorted_unique (js "/home/u") iso_getTime index_after_two
              (js "me@gmail.com") (index_entry (js "t3") (js "2026-02-15")) None)
    as (Hnodup & _ & _ & Hsorted).
  - apply (bool_decide_unpack _). vm_compute. exact I.
  - constructor; [eexists; vm_compute; reflexivity |].
    match goal with
    | |- Forall _ ?l => let l' := eval vm_compute in l in change l with l'
    end.
    repeat (constructor; [eexists; vm_compute; reflexivity |]).
    constructor.
  - split; assumption.
Defined.

(** ** noise-normalizer.ts: tracking parameters *)



Lemma startsWith_app (s p : jsstring) :
  startsWith s p = true <-> exists rest, s = p ++ rest.
Proof.
  revert s. induction p as [|a p IH]; intros s; simpl.
  - destruct s; split; eauto.
  - destruct s as [|b s]; [split; [discriminate | intros (r & H); discriminate] |].
    destruct (N.eq_dec a b) as [-> | Hne].
    + simpl. rewrite N.eqb_refl, andb_true_l, IH. split.
      * intros (r & ->). now exists r.
      * intros (r & H). inversion H; subst. now exists r.
    + simpl. rewrite (proj2 (N.eqb_neq a b) Hne). simpl.
      split; [discriminate | intros (r & H); inversion H; congruence].
Qed.








(** ** paths.ts: where the resolved paths lie *)

Lemma split_not_nil (c : N) (s : jsstring) : split c s <> [].
Proof.
  destruct s as [|x r]; simpl; [discriminate |].
  destruct (x =? c); [discriminate |]. destruct (split c r); discriminate.
Qed.

Lemma split_app_sep (c : N) (x y : jsstring) :
  split c (x ++ c :: y) = split c x ++ split c y.
Proof.
  induction x as [|a x IH]; simpl.
  - now rewrite N.eqb_refl.
  - destruct (a =? c); [now rewrite IH |].
    rewrite IH. pose proof (split_not_nil c x) as Hne.
    destruct (split c x) as [|seg segs]; [contradiction | reflexivity].
Qed.

Lemma split_no_sep (c : N) (s : jsstring) : ~ In c s -> split c s = [s].
Proof.
  induction s as [|x r IH]; intros Hnot; simpl; [reflexivity |].
  destruct (N.eqb_spec x c) as [-> | Hne]; [exfalso; apply Hnot; now left |].
  rewrite IH; [reflexivity |]. intros H. apply Hnot. now right.
Qed.

Lemma split_segments_no_sep (c : N) (s : jsstring) :
  Forall (fun seg => ~ In c seg) (split c s).
Proof.
  induction s as [|x r IH]; simpl.
  - constructor; [intros [] | constructor].
  - destruct (N.eqb_spec x c) as [-> | Hne].
    + constructor; [intros [] | exact IH].
    + destruct (split c r) as [|seg segs]; [repeat constructor; intros [H | []]; congruence |].
      inversion IH; subst. constructor; [| assumption].
      intros [H | H]; [congruence | contradiction].
Qed.

Lemma split_join (l : list jsstring) :
  l <> [] -> Forall (fun seg => ~ In SLASH seg) l ->
  split SLASH (JS.join [SLASH] l) = l.
Proof.
  induction l as [|p rest IH]; intros Hne Hall; [congruence |].
  inversion Hall as [|? ? Hp Hrest]; subst.
  destruct rest as [|q rest'].
  - simpl. now apply split_no_sep.
  - change (JS.join [SLASH] (p :: q :: rest'))
      with (p ++ SLASH :: JS.join [SLASH] (q :: rest')).
    rewrite split_app_sep, (split_no_sep _ _ Hp), IH by (congruence || assumption).
    reflexivity.
Qed.

Lemma join_not_nil (sep : jsstring) (p : jsstring) (rest : list jsstring) :
  p <> [] -> JS.join sep (p :: rest) <> [].
Proof.
  intros Hp. destruct rest; simpl; [exact Hp |].
  destruct p; [congruence | discriminate].
Qed.

(** Empty segments and [.] play no part in the normalisation. *)
Lemma normalizeSegments_segments (allow : bool) (segs res : list jsstring) :
  NodePath.normalizeSegments allow segs res
  = NodePath.normalizeSegments allow
      (filter (fun s => s <> [] /\ s <> [DOT]) segs) res.
Proof.
  revert res. induction segs as [|s rest IH]; intros res; [reflexivity |].
  rewrite filter_cons. simpl.
  destruct (decide (s <> [] /\ s <> [DOT])) as [[H1 H2] | Hno].
  - apply jsstring_eqb_neq in H1, H2. simpl. rewrite H1, H2. simpl.
    destruct (jsstring_eqb s NodePath.DOTDOT).
    + destruct res as [|top below]; [apply IH |].
      destruct (jsstring_eqb top NodePath.DOTDOT); apply IH.
    + apply IH.
  - assert (Hskip : jsstring_eqb s [] || jsstring_eqb s [DOT] = true).
    { destruct (jsstring_eqb s []) eqn:E1; [reflexivity |].
      destruct (jsstring_eqb s [DOT]) eqn:E2; [reflexivity |].
      apply jsstring_eqb_neq in E1, E2. exfalso. apply Hno. now split. }
    rewrite Hskip. apply IH.
Qed.

Lemma stack_ok_suffix (allow : bool) (l1 l2 : list jsstring) :
  stack_ok allow (l1 ++ l2) -> stack_ok allow l2.
Proof.
  induction l1 as [|x l1 IH]; simpl; [trivial |].
  intros (_ & _ & H). now apply IH.
Qed.

Lemma stack_ok_clean (allow : bool) (res : list jsstring) :
  stack_ok allow res -> Forall clean_segment res.
Proof.
  induction res as [|x r IH]; simpl; [constructor |].
  intros (Hc & _ & H). constructor; [exact Hc | now apply IH].
Qed.

Lemma dotdot_clean : clean_segment NodePath.DOTDOT.
Proof.
  unfold clean_segment, NodePath.DOTDOT. repeat split; try discriminate.
  intros [H | [H | []]]; discriminate.
Qed.

(** The stack stays well formed along [normalizeSegments]. *)
Lemma normalizeSegments_stack_ok (allow : bool) (segs res : list jsstring) :
  Forall (fun seg => ~ In SLASH seg) segs ->
  stack_ok allow res ->
  stack_ok allow (rev (NodePath.normalizeSegments allow segs res)).
Proof.
  revert res. induction segs as [|s rest IH]; intros res Hsegs Hres; simpl.
  - now rewrite rev_involutive.
  - inversion Hsegs as [|? ? Hs Hrest]; subst.
    destruct (jsstring_eqb s [] || jsstring_eqb s [DOT]) eqn:Eskip; [now apply IH |].
    apply orb_false_elim in Eskip as [E1 E2]. apply jsstring_eqb_neq in E1, E2.
    destruct (jsstring_eqb s NodePath.DOTDOT) eqn:Edd.
    + apply jsstring_eqb_eq in Edd. subst s.
      destruct res as [|top below].
      * apply IH; [assumption |]. destruct allow; simpl; [| trivial].
        split; [apply dotdot_clean |]. split; [| trivial].
        intros _. split; [reflexivity | constructor].
      * destruct (jsstring_eqb top NodePath.DOTDOT) eqn:Etop.
        -- apply jsstring_eqb_eq in Etop. subst top.
           apply IH; [assumption |]. destruct allow; [| exact Hres].
           simpl in Hres. destruct Hres as (Hc & Hdd & Hbelow).
           destruct (Hdd eq_refl) as [_ Hall].
           simpl. split; [apply dotdot_clean |]. split.
           ++ intros _. split; [reflexivity |]. constructor; [reflexivity | exact Hall].
           ++ split; [exact Hc |]. split; [exact Hdd | exact Hbelow].
        -- apply IH; [assumption |]. simpl in Hres. tauto.
    + apply jsstring_eqb_neq in Edd.
      apply IH; [assumption |]. simpl.
      split; [repeat split; assumption |]. split; [congruence | exact Hres].
Qed.

(** A well-formed stack read again comes out as it is. *)
Lemma normalizeSegments_idem (allow : bool) (segs res : list jsstring) :
  stack_ok allow (rev segs ++ res) ->
  NodePath.normalizeSegments allow segs res = rev res ++ segs.
Proof.
  revert res. induction segs as [|s rest IH]; intros res Hok; simpl.
  - now rewrite app_nil_r.
  - simpl in Hok. rewrite <- app_assoc in Hok. simpl in Hok.
    pose proof (stack_ok_suffix _ _ _ Hok) as Hs. simpl in Hs.
    destruct Hs as ((H1 & H2 & _) & Hdd & _).
    apply jsstring_eqb_neq in H1, H2. rewrite H1, H2. simpl.
    destruct (jsstring_eqb s NodePath.DOTDOT) eqn:Edd.
    + apply jsstring_eqb_eq in Edd. subst s.
      destruct (Hdd eq_refl) as [-> Hall].
      destruct res as [|top below].
      * rewrite (IH [NodePath.DOTDOT]) by exact Hok. reflexivity.
      * inversion Hall as [|? ? Htop _]; subst.
        rewrite jsstring_eqb_refl.
        rewrite (IH (NodePath.DOTDOT :: NodePath.DOTDOT :: below)) by exact Hok.
        simpl. now rewrite <- !app_assoc.
    + rewrite (IH (s :: res)) by exact Hok. simpl. now rewrite <- app_assoc.
Qed.

Lemma filter_kept_segments (l : list jsstring) :
  Forall clean_segment l -> filter (fun s => s <> [] /\ s <> [DOT]) l = l.
Proof.
  induction 1 as [|s l (H1 & H2 & _) _ IH]; [reflexivity |].
  rewrite filter_cons_True by (split; assumption). now rewrite IH.
Qed.

Lemma clean_no_slash (l : list jsstring) :
  Forall clean_segment l -> Forall (fun seg => ~ In SLASH seg) l.
Proof.
  intros H. eapply Forall_impl; [exact H |]. intros s (_ & _ & Hs). exact Hs.
Qed.

Lemma segments_render (abs trailing : bool) (stack : list jsstring) :
  Forall clean_segment stack -> NodePath.segments (render abs trailing stack) = stack.
Proof.
  intros Hclean. destruct stack as [|p rest].
  - destruct abs, trailing; vm_compute; reflexivity.
  - assert (Hp : p <> []) by (inversion Hclean as [|? ? (H & _) _]; exact H).
    pose proof (join_not_nil [SLASH] p rest Hp) as Hj.
    pose proof (split_join (p :: rest) ltac:(discriminate) (clean_no_slash _ Hclean)) as Hsplit.
    unfold render, NodePath.segments.
    destruct (JS.join [SLASH] (p :: rest)) as [|c j] eqn:Ej; [contradiction |].
    assert (Hend : split SLASH ((c :: j) ++ [SLASH]) = (p :: rest) ++ [[]]).
    { rewrite split_app_sep, Hsplit. reflexivity. }
    assert (Hhead : forall x, split SLASH (SLASH :: x) = [] :: split SLASH x).
    { intros x. reflexivity. }
    assert (Hno : ~ ((@nil N) <> [] /\ (@nil N) <> [DOT])) by (intros [H _]; congruence).
    pose proof (filter_kept_segments _ Hclean) as Hkept.
    assert (Hdrop : forall l : list jsstring,
               filter (fun s => s <> [] /\ s <> [DOT]) ([] :: l)
               = filter (fun s => s <> [] /\ s <> [DOT]) l).
    { intros l. now rewrite filter_cons_False by exact Hno. }
    destruct abs, trailing; cbv zeta.
    + rewrite Hhead, Hend, Hdrop, filter_app, Hkept, Hdrop. apply app_nil_r.
    + rewrite Hhead, Hsplit, Hdrop. exact Hkept.
    + rewrite Hend, filter_app, Hkept, Hdrop. apply app_nil_r.
    + rewrite Hsplit. exact Hkept.
Qed.

Lemma join_head (sep p : jsstring) (rest : list jsstring) :
  exists tail, JS.join sep (p :: rest) = p ++ tail.
Proof.
  destruct rest as [|q rest'].
  - exists []. simpl. now rewrite app_nil_r.
  - eexists. reflexivity.
Qed.

Lemma isAbsolute_render (abs trailing : bool) (stack : list jsstring) :
  Forall clean_segment stack -> NodePath.isAbsolute (render abs trailing stack) = abs.
Proof.
  intros Hclean. destruct stack as [|p rest].
  - destruct abs, trailing; reflexivity.
  - inversion Hclean as [|? ? (Hp & _ & Hslash) _]; subst.
    destruct (join_head [SLASH] p rest) as (tail & Hj).
    unfold render. rewrite Hj.
    destruct p as [|c p']; [congruence |].
    assert (Hc : (c =? SLASH) = false).
    { apply N.eqb_neq. intros ->. apply Hslash. now left. }
    destruct abs, trailing; simpl; try reflexivity; exact Hc.
Qed.

Lemma render_not_nil (abs trailing : bool) (stack : list jsstring) :
  render abs trailing stack <> [].
Proof.
  unfold render. destruct (JS.join [SLASH] stack) as [|c j].
  - destruct abs, trailing; discriminate.
  - destruct abs, trailing; simpl; try discriminate.
Qed.

Lemma normalize_render (path : jsstring) :
  path <> [] ->
  NodePath.normalize path
  = render (NodePath.isAbsolute path) (NodePath.hasTrailingSeparator path)
      (NodePath.normalizeSegments (negb (NodePath.isAbsolute path)) (split SLASH path) []).
Proof.
  intros Hne. destruct path as [|c path']; [congruence |].
  unfold NodePath.normalize, NodePath.normalizeString, render. cbv zeta.
  destruct (JS.join [SLASH]
              (NodePath.normalizeSegments (negb (NodePath.isAbsolute (c :: path')))
                 (split SLASH (c :: path')) [])); reflexivity.
Qed.

(** Every path [path.join] returns is in normal form. *)
Lemma join_normal (args : list jsstring) :
  exists abs stack, normal_path abs stack (NodePath.join args).
Proof.
  unfold NodePath.join.
  destruct (filter (fun a => a <> []) args) as [|p parts] eqn:E.
  - exists false, []. split; [exact I |]. now exists false.
  - assert (Hp : p <> []).
    { assert (Hin : p ∈ filter (fun a => a <> []) args) by (rewrite E; left).
      now apply list_elem_of_filter in Hin as [H _]. }
    pose proof (join_not_nil [SLASH] p parts Hp) as Hj.
    rewrite (normalize_render _ Hj).
    exists (NodePath.isAbsolute (JS.join [SLASH] (p :: parts))),
      (NodePath.normalizeSegments
         (negb (NodePath.isAbsolute (JS.join [SLASH] (p :: parts))))
         (split SLASH (JS.join [SLASH] (p :: parts))) []).
    split; [| eexists; reflexivity].
    apply normalizeSegments_stack_ok; [apply split_segments_no_sep | exact I].
Qed.

Lemma plain_is_clean (l : list jsstring) : Forall plain_segment l -> Forall clean_segment l.
Proof.
  intros H. eapply Forall_impl; [exact H |]. intros s [Hs _]. exact Hs.
Qed.

Lemma stack_ok_push_plain (allow : bool) (stack l : list jsstring) :
  Forall plain_segment l -> stack_ok allow (rev stack) -> stack_ok allow (rev (stack ++ l)).
Proof.
  revert stack. induction l as [|x l IH]; intros stack Hl Hok.
  - now rewrite app_nil_r.
  - inversion Hl as [|? ? [Hc Hdd] Hl']; subst.
    replace (stack ++ x :: l) with ((stack ++ [x]) ++ l) by now rewrite <- app_assoc.
    apply IH; [assumption |]. rewrite rev_app_distr. simpl.
    split; [exact Hc |]. split; [congruence | exact Hok].
Qed.

Lemma join_last_char (l : list jsstring) :
  l <> [] -> Forall plain_segment l ->
  forall x, NodePath.hasTrailingSeparator (x ++ JS.join [SLASH] l) = false.
Proof.
  induction l as [|p rest IH]; intros Hne Hall x; [congruence |].
  inversion Hall as [|? ? [(Hp & _ & Hslash) _] Hrest]; subst.
  destruct rest as [|q rest'].
  - simpl. unfold NodePath.hasTrailingSeparator. rewrite rev_app_distr.
    destruct (rev p) as [|c rp] eqn:Erev.
    + apply (f_equal (@rev N)) in Erev. rewrite rev_involutive in Erev. now subst.
    + simpl. apply N.eqb_neq. intros ->. apply Hslash.
      apply in_rev. rewrite Erev. now left.
  - change (JS.join [SLASH] (p :: q :: rest'))
      with (p ++ SLASH :: JS.join [SLASH] (q :: rest')).
    replace (x ++ p ++ SLASH :: JS.join [SLASH] (q :: rest'))
      with ((x ++ p ++ [SLASH]) ++ JS.join [SLASH] (q :: rest'))
      by (rewrite <- !app_assoc; reflexivity).
    apply IH; [discriminate | assumption].
Qed.

(** Joining plain segments to a normal path appends them to its stack. *)
Lemma join_extend (abs : bool) (stack l : list jsstring) (A : jsstring) :
  normal_path abs stack A -> Forall plain_segment l -> l <> [] ->
  normal_path abs (stack ++ l) (NodePath.join (A :: l)).
Proof.
  intros [Hok [trailing ->]] Hl Hne.
  pose proof (stack_ok_clean _ _ Hok) as Hclean.
  apply Forall_rev in Hclean. rewrite rev_involutive in Hclean.
  set (A := render abs trailing stack).
  assert (HA : A <> []) by apply render_not_nil.
  assert (Hparts : filter (fun a : jsstring => a <> []) (A :: l) = A :: l).
  { rewrite filter_cons_True by exact HA. f_equal.
    clear Hne. induction Hl as [|s l [(H1 & _) _] _ IH]; [reflexivity |].
    rewrite filter_cons_True by exact H1. now rewrite IH. }
  assert (Hjoined : JS.join [SLASH] (A :: l) = A ++ SLASH :: JS.join [SLASH] l).
  { destruct l; [congruence | reflexivity]. }
  unfold NodePath.join. rewrite Hparts.
  destruct l as [|s0 l0] eqn:El; [congruence |]. rewrite <- El in *.
  assert (Hpath : JS.join [SLASH] (A :: l) <> []).
  { rewrite Hjoined. destruct A; discriminate. }
  replace (match A :: l with
           | [] => [DOT]
           | _ :: _ => NodePath.normalize (JS.join [SLASH] (A :: l))
           end) with (NodePath.normalize (JS.join [SLASH] (A :: l))) by reflexivity.
  rewrite (normalize_render _ Hpath), Hjoined.
  assert (Habs : NodePath.isAbsolute (A ++ SLASH :: JS.join [SLASH] l) = abs).
  { rewrite <- (isAbsolute_render abs trailing stack Hclean). fold A.
    destruct A; [congruence | reflexivity]. }
  assert (Htr : NodePath.hasTrailingSeparator (A ++ SLASH :: JS.join [SLASH] l) = false).
  { replace (A ++ SLASH :: JS.join [SLASH] l) with ((A ++ [SLASH]) ++ JS.join [SLASH] l)
      by (rewrite <- app_assoc; reflexivity).
    apply join_last_char; assumption. }
  rewrite Habs, Htr.
  assert (Hstack : NodePath.normalizeSegments (negb abs)
                     (split SLASH (A ++ SLASH :: JS.join [SLASH] l)) []
                   = stack ++ l).
  { rewrite normalizeSegments_segments, split_app_sep, filter_app.
    change (filter (fun s => s <> [] /\ s <> [DOT]) (split SLASH A))
      with (NodePath.segments A).
    unfold A. rewrite segments_render by exact Hclean.
    rewrite split_join by (try assumption; apply clean_no_slash, plain_is_clean, Hl).
    rewrite (filter_kept_segments l) by (apply plain_is_clean, Hl).
    rewrite normalizeSegments_idem; [reflexivity |].
    rewrite app_nil_r. now apply stack_ok_push_plain. }
  rewrite Hstack. split; [now apply stack_ok_push_plain | now exists false].
Qed.

Lemma strip_prefix_app (pre l : list jsstring) :
  NodePath.strip_prefix pre (pre ++ l) = Some l.
Proof.
  induction pre as [|a pre IH]; simpl; [now destruct l |].
  now rewrite jsstring_eqb_refl.
Qed.

(** A normal path extended by plain segments lies inside the path it extends. *)
Lemma inside_extended (abs : bool) (stack l : list jsstring) (A B : jsstring) :
  normal_path abs stack A -> normal_path abs (stack ++ l) B ->
  Forall plain_segment l ->
  NodePath.inside A B = true.
Proof.
  intros [HokA [trA ->]] [HokB [trB ->]] Hl.
  pose proof (stack_ok_clean _ _ HokA) as HcA.
  apply Forall_rev in HcA. rewrite rev_involutive in HcA.
  pose proof (stack_ok_clean _ _ HokB) as HcB.
  apply Forall_rev in HcB. rewrite rev_involutive in HcB.
  unfold NodePath.inside.
  rewrite !isAbsolute_render, !segments_render, strip_prefix_app by assumption.
  rewrite bool_decide_eq_true_2 by reflexivity. simpl.
  apply forallb_forall. intros s Hs.
  rewrite Forall_forall in Hl. apply list_elem_of_In in Hs.
  destruct (Hl s Hs) as [_ Hdd].
  apply negb_true_iff, jsstring_eqb_neq. exact Hdd.
Qed.

Lemma literal_plain_threads : plain_segment ACCOUNT_DIRS_threads.
Proof.
  unfold plain_segment, clean_segment. repeat split; try discriminate.
  intros H. vm_compute in H. intuition discriminate.
Qed.

Lemma literal_plain (s : jsstring) :
  s = js "messages" \/ s = js "attachments" \/ s = js "thread.json" -> plain_segment s.
Proof.
  unfold plain_segment, clean_segment.
  intros [-> | [-> | ->]]; repeat split; try discriminate;
    intros H; vm_compute in H; intuition discriminate.
Qed.

(** C5, as the code has it. The resolver joins its arguments and does not
    look into them. For a thread id that is a plain segment (not empty,
    no path separator, neither [.] nor [..]) the thread directory, its
    [messages] and [attachments] directories and its [thread.json] lie
    inside the account directory, whatever the e-mail address and the
    base directory are. *)
Theorem thread_paths_inside_account
        (homedir email threadId : jsstring) (base : option jsstring) :
  plain_segment threadId ->
  NodePath.inside (Paths.accountDir homedir email base)
                  (Paths.threadDir homedir email threadId base) = true
  /\ NodePath.inside (Paths.accountDir homedir email base)
                     (Paths.messagesDir homedir email threadId base) = true
  /\ NodePath.inside (Paths.accountDir homedir email base)
                     (Paths.attachmentsDir homedir email threadId base) = true
  /\ NodePath.inside (Paths.accountDir homedir email base)
                     (Paths.threadMetaPath homedir email threadId base) = true.
Proof.
  intros Hplain.
  destruct (join_normal [Paths.baseDir homedir base; js "accounts"; email])
    as (abs & stack & Hacct).
  fold (Paths.accountDir homedir email base) in Hacct.
  assert (Hl : Forall plain_segment [ACCOUNT_DIRS_threads; threadId])
    by (constructor; [apply literal_plain_threads | constructor; [apply Hplain | constructor]]).
  pose proof (join_extend abs stack [ACCOUNT_DIRS_threads; threadId] _ Hacct Hl
                ltac:(discriminate)) as Hthread.
  fold (Paths.threadDir homedir email threadId base) in Hthread.
  assert (Hsub : forall leaf,
             leaf = js "messages" \/ leaf = js "attachments" \/ leaf = js "thread.json" ->
             NodePath.inside (Paths.accountDir homedir email base)
               (NodePath.join [Paths.threadDir homedir email threadId base; leaf]) = true).
  { intros leaf Hleaf. pose proof (literal_plain leaf Hleaf) as Hp.
    assert (Hone : Forall plain_segment [leaf]) by (constructor; [exact Hp | constructor]).
    pose proof (join_extend abs _ [leaf] _ Hthread Hone ltac:(discriminate)) as Hleafdir.
    rewrite <- app_assoc in Hleafdir.
    apply (inside_extended abs stack _ _ _ Hacct Hleafdir).
    apply Forall_app. split; assumption. }
  split; [exact (inside_extended abs stack _ _ _ Hacct Hthread Hl) |].
  split; [apply Hsub; auto |]. split; [apply Hsub; auto |].
  apply Hsub. auto.
Qed.

(** The thread id of the subject [hello world], as the grouper hashes it. *)
Lemma thread_paths_inside_account_hashed :
  plain_segment (js "00to5x38")
  /\ Paths.threadDir (js "/home/u") (js "me@gmail.com") (js "00to5x38") None
     = js "/home/u/.clawmail3/accounts/me@gmail.com/threads/00to5x38"
  /\ NodePath.inside (Paths.accountDir (js "/home/u") (js "me@gmail.com") None)
       (Paths.threadMetaPath (js "/home/u") (js "me@gmail.com") (js "00to5x38") None)
     = true.
Proof.
  assert (Hplain : plain_segment (js "00to5x38")).
  { unfold plain_segment, clean_segment. repeat split; try discriminate.
    intros H. vm_compute in H. intuition discriminate. }
  split; [exact Hplain |]. split; [vm_compute; reflexivity |].
  apply (thread_paths_inside_account (js "/home/u") (js "me@gmail.com")
           (js "00to5x38") None Hplain).
Defined.

(** C5 as stated fails: a thread id that steps up leaves the account
    directory. *)
Lemma threadDir_escapes_account :
  Paths.accountDir (js "/home/u") (js "me@gmail.com") None
  = js "/home/u/.clawmail3/accounts/me@gmail.com"
  /\ Paths.threadDir (js "/home/u") (js "me@gmail.com") (js "../../../etc") None
     = js "/home/u/.clawmail3/etc"
  /\ NodePath.inside (Paths.accountDir (js "/home/u") (js "me@gmail.com") None)
       (Paths.threadDir (js "/home/u") (js "me@gmail.com") (js "../../../etc") None)
     = false
  /\ Paths.threadMetaPath (js "/home/u") (js "me@gmail.com") (js "../../other@x.org") None
     = js "/home/u/.clawmail3/accounts/other@x.org/thread.json".
Proof. vm_compute. repeat split. Qed.

(** ** The calendar of [Date] *)

Section Calendar.
Local Open Scope Z_scope.
Import JsDate.

Lemma year_estimate_close (day : Z) :
  DayFromYear (year_estimate day - 1) <= day < DayFromYear (year_estimate day + 2).
Proof. unfold DayFromYear, year_estimate. Z.div_mod_to_equations. lia. Qed.

(** [YearFromDay] is the year the day lies in. *)
Lemma YearFromDay_spec (day : Z) :
  DayFromYear (YearFromDay day) <= day < DayFromYear (YearFromDay day + 1).
Proof.
  pose proof (year_estimate_close day) as H.
  unfold YearFromDay.
  destruct (Z.ltb_spec day (DayFromYear (year_estimate day))).
  - replace (year_estimate day - 1 + 1) with (year_estimate day) by lia. lia.
  - destruct (Z.leb_spec (DayFromYear (year_estimate day + 1)) day).
    + replace (year_estimate day + 1 + 1) with (year_estimate day + 2) by lia. lia.
    + lia.
Qed.

Lemma leap_step_4 (y : Z) :
  (y + 1 - 1969) / 4 - (y - 1969) / 4 = if y mod 4 =? 0 then 1 else 0.
Proof. destruct (Z.eqb_spec (y mod 4) 0); Z.div_mod_to_equations; lia. Qed.

Lemma leap_step_100 (y : Z) :
  (y + 1 - 1901) / 100 - (y - 1901) / 100 = if y mod 100 =? 0 then 1 else 0.
Proof. destruct (Z.eqb_spec (y mod 100) 0); Z.div_mod_to_equations; lia. Qed.

Lemma leap_step_400 (y : Z) :
  (y + 1 - 1601) / 400 - (y - 1601) / 400 = if y mod 400 =? 0 then 1 else 0.
Proof. destruct (Z.eqb_spec (y mod 400) 0); Z.div_mod_to_equations; lia. Qed.

Lemma mod_100_4 (y : Z) : y mod 100 = 0 -> y mod 4 = 0.
Proof. intros H. Z.div_mod_to_equations. lia. Qed.

Lemma mod_400_100 (y : Z) : y mod 400 = 0 -> y mod 100 = 0.
Proof. intros H. Z.div_mod_to_equations. lia. Qed.

(** The first day of the next year comes [DaysInYear] days later. *)
Lemma DayFromYear_step (y : Z) : DayFromYear (y + 1) - DayFromYear y = DaysInYear y.
Proof.
  unfold DayFromYear, DaysInYear.
  pose proof (leap_step_4 y) as H4. pose proof (leap_step_100 y) as H100.
  pose proof (leap_step_400 y) as H400.
  pose proof (mod_100_4 y) as Ha. pose proof (mod_400_100 y) as Hb.
  revert H4 H100 H400.
  destruct (Z.eqb_spec (y mod 4) 0); destruct (Z.eqb_spec (y mod 100) 0);
    destruct (Z.eqb_spec (y mod 400) 0); cbn [negb]; intros; lia.
Qed.

Lemma DaysInYear_leap (y : Z) :
  DaysInYear y = 365 + InLeapYear y /\ (InLeapYear y = 0 \/ InLeapYear y = 1).
Proof.
  unfold InLeapYear, DaysInYear.
  destruct (y mod 4 =? 0), (y mod 100 =? 0), (y mod 400 =? 0); cbn; auto.
Qed.

Lemma DayWithinYear_range (day : Z) :
  0 <= DayWithinYear day < 365 + InLeapYear (YearFromDay day).
Proof.
  pose proof (YearFromDay_spec day) as Hy.
  pose proof (DayFromYear_step (YearFromDay day)) as Hs.
  destruct (DaysInYear_leap (YearFromDay day)) as [Hl _].
  unfold DayWithinYear. lia.
Qed.

(** The month and the date read from a day within the year. *)
Lemma month_and_date_range (d leap : Z) :
  leap = 0 \/ leap = 1 -> 0 <= d < 365 + leap ->
  let m := if d <? 31 then 0
           else if d <? 59 + leap then 1
           else if d <? 90 + leap then 2
           else if d <? 120 + leap then 3
           else if d <? 151 + leap then 4
           else if d <? 181 + leap then 5
           else if d <? 212 + leap then 6
           else if d <? 243 + leap then 7
           else if d <? 273 + leap then 8
           else if d <? 304 + leap then 9
           else if d <? 334 + leap then 10
           else 11 in
  0 <= m <= 11 /\ 1 <= d - month_start m leap + 1 <= 31.
Proof.
  intros Hleap Hd.
  repeat match goal with
         | |- context [?a <? ?b] => destruct (Z.ltb_spec a b)
         end; cbv zeta; (split; [lia |]); unfold month_start; simpl; lia.
Qed.

Lemma MonthFromDay_DateFromDay_range (day : Z) :
  0 <= MonthFromDay day <= 11 /\ 1 <= DateFromDay day <= 31.
Proof.
  destruct (DaysInYear_leap (YearFromDay day)) as [_ Hleap].
  exact (month_and_date_range _ _ Hleap (DayWithinYear_range day)).
Qed.

(** [MakeDay] undoes the reading of year, month and date. *)
Lemma MakeDay_fields (day : Z) :
  MakeDay (YearFromDay day) (MonthFromDay day) (DateFromDay day) = day.
Proof. unfold MakeDay, DateFromDay, DayWithinYear. lia. Qed.

Lemma time_of_day_fields (t : Z) :
  t mod 1000 = 0 ->
  (Day t * 86400 + getUTCHours t * 3600 + getUTCMinutes t * 60 + getUTCSeconds t) * 1000 = t
  /\ 0 <= getUTCHours t <= 23 /\ 0 <= getUTCMinutes t <= 59 /\ 0 <= getUTCSeconds t <= 59.
Proof.
  unfold Day, getUTCHours, getUTCMinutes, getUTCSeconds, TimeWithinDay, msPerDay.
  intros H. Z.div_mod_to_equations. lia.
Qed.

(** A time value on a whole second is read back from its six UTC fields. *)
Lemma utc_from_fields_of_date (t : Z) :
  t mod 1000 = 0 ->
  utc_from_fields (getUTCFullYear t) (getUTCMonth t + 1) (getUTCDate t)
                  (getUTCHours t) (getUTCMinutes t) (getUTCSeconds t) = Some t.
Proof.
  intros Hms.
  destruct (time_of_day_fields t Hms) as (Ht & Hh & Hmi & Hs).
  destruct (MonthFromDay_DateFromDay_range (Day t)) as [Hm Hd].
  pose proof (MakeDay_fields (Day t)) as Hday.
  unfold utc_from_fields, getUTCFullYear, getUTCMonth, getUTCDate in *.
  replace (MonthFromDay (Day t) + 1 - 1) with (MonthFromDay (Day t)) by lia.
  rewrite Hday, Ht.
  replace (1 <=? MonthFromDay (Day t) + 1) with true by (symmetry; apply Z.leb_le; lia).
  replace (MonthFromDay (Day t) + 1 <=? 12) with true by (symmetry; apply Z.leb_le; lia).
  replace (1 <=? DateFromDay (Day t)) with true by (symmetry; apply Z.leb_le; lia).
  replace (DateFromDay (Day t) <=? 31) with true by (symmetry; apply Z.leb_le; lia).
  replace (getUTCMinutes t <=? 59) with true by (symmetry; apply Z.leb_le; lia).
  replace (getUTCSeconds t <=? 59) with true by (symmetry; apply Z.leb_le; lia).
  replace (getUTCHours t <=? 23) with true by (symmetry; apply Z.leb_le; lia).
  reflexivity.
Qed.

End Calendar.

(** ** message-filename.ts *)

(** A check of [f] on [n] consecutive integers from [lo]. *)
Fixpoint check_range (f : Z -> bool) (lo : Z) (n : nat) : bool :=
  match n with
  | O => true
  | S n' => f lo && check_range f (lo + 1)%Z n'
  end.

Lemma check_range_sound (f : Z -> bool) (n : nat) :
  forall lo, check_range f lo n = true ->
             forall z, (lo <= z < lo + Z.of_nat n)%Z -> f z = true.
Proof.
  induction n as [|n IH]; intros lo H z Hz; [lia |].
  simpl in H. apply andb_prop in H as [H1 H2].
  destruct (Z.eq_dec z lo) as [-> | Hne]; [exact H1 |].
  apply (IH (lo + 1)%Z); [exact H2 | lia].
Qed.

(** Two digits, and their value. *)
Definition two_digits_of (n : Z) (s : jsstring) : bool :=
  bool_decide (length s = 2%nat) && forallb is_digit s
  && (Z.of_N (digits_value s) =? n)%Z.

Lemma pad2_two_digits (n : Z) :
  (0 <= n <= 99)%Z -> two_digits_of n (MessageFilename.pad2 n) = true.
Proof.
  intros Hn.
  apply (check_range_sound (fun z => two_digits_of z (MessageFilename.pad2 z)) 100 0%Z);
    [vm_compute; reflexivity | lia].
Qed.

Lemma digit_char_mod (x : N) :
  digit_char (x mod 10) = 48 + x mod 10 /\ is_digit (digit_char (x mod 10)) = true.
Proof.
  pose proof (N.mod_upper_bound x 10 ltac:(lia)) as Hlt.
  unfold digit_char, is_digit.
  destruct (N.ltb_spec (x mod 10) 10); [| lia].
  split; [reflexivity |].
  apply andb_true_intro.
  split; apply N.leb_le; zify; Z.to_euclidean_division_equations; lia.
Qed.

(** The decimal form of a number of four digits. *)
Lemma toString_four_digits (n : N) :
  1000 <= n <= 9999 ->
  toString_radix 10 n
  = [digit_char (n / 10 / 10 / 10 mod 10); digit_char (n / 10 / 10 mod 10);
     digit_char (n / 10 mod 10); digit_char (n mod 10)].
Proof.
  intros Hn. unfold toString_radix.
  assert (Hlog : 9 <= N.log2 n).
  { change 9 with (N.log2 1000). apply N.log2_le_mono. lia. }
  replace (S (N.to_nat (N.log2 n))) with (4 + (N.to_nat (N.log2 n) - 3))%nat by lia.
  cbn [Nat.add toString_fuel].
  assert (H1 : (n / 10 =? 0) = false) by (apply N.eqb_neq; zify; Z.to_euclidean_division_equations; lia).
  assert (H2 : (n / 10 / 10 =? 0) = false) by (apply N.eqb_neq; zify; Z.to_euclidean_division_equations; lia).
  assert (H3 : (n / 10 / 10 / 10 =? 0) = false)
    by (apply N.eqb_neq; zify; Z.to_euclidean_division_equations; lia).
  assert (H4 : (n / 10 / 10 / 10 / 10 =? 0) = true)
    by (apply N.eqb_eq; zify; Z.to_euclidean_division_equations; lia).
  now rewrite H1, H2, H3, H4.
Qed.

Lemma year_four_digits (y : Z) :
  (1000 <= y <= 9999)%Z ->
  length (Z_toString y) = 4%nat
  /\ forallb is_digit (Z_toString y) = true
  /\ Z.of_N (digits_value (Z_toString y)) = y.
Proof.
  intros Hy. unfold Z_toString.
  destruct (Z.ltb_spec y 0) as [Hneg | _]; [lia |].
  rewrite (toString_four_digits (Z.to_N y)) by lia.
  set (n := Z.to_N y).
  destruct (digit_char_mod n) as [E0 D0].
  destruct (digit_char_mod (n / 10)) as [E1 D1].
  destruct (digit_char_mod (n / 10 / 10)) as [E2 D2].
  destruct (digit_char_mod (n / 10 / 10 / 10)) as [E3 D3].
  split; [reflexivity |]. split.
  - cbn [forallb]. now rewrite D0, D1, D2, D3.
  - unfold digits_value. cbn [fold_left]. rewrite E0, E1, E2, E3.
    assert (Hn : (1000 <= n <= 9999)%N) by (subst n; lia).
    assert (Hval : (10 * (10 * (10 * (10 * 0 + (48 + n / 10 / 10 / 10 mod 10 - 48))
                                + (48 + n / 10 / 10 mod 10 - 48))
                          + (48 + n / 10 mod 10 - 48))
                    + (48 + n mod 10 - 48) = n)%N).
    { zify. Z.to_euclidean_division_equations. lia. }
    rewrite Hval. subst n. lia.
Qed.

Lemma digits_app (n : nat) (a rest : jsstring) :
  length a = n -> forallb is_digit a = true ->
  MessageFilename.digits n (a ++ rest) = Some (a, rest).
Proof.
  intros Hlen Hdig. unfold MessageFilename.digits. subst n.
  rewrite take_app_length, drop_app_length, Hdig.
  rewrite bool_decide_eq_true_2 by reflexivity. reflexivity.
Qed.

Lemma two_digits_app (n : Z) (a rest : jsstring) :
  two_digits_of n a = true ->
  MessageFilename.digits 2 (a ++ rest) = Some (a, rest)
  /\ Z.of_N (digits_value a) = n.
Proof.
  unfold two_digits_of. intros H.
  apply andb_prop in H as [H Hval]. apply andb_prop in H as [Hlen Hdig].
  apply bool_decide_eq_true in Hlen. apply Z.eqb_eq in Hval.
  split; [now apply digits_app | exact Hval].
Qed.

Lemma literal_app (lit rest : jsstring) :
  MessageFilename.literal lit (lit ++ rest) = Some rest.
Proof.
  unfold MessageFilename.literal.
  rewrite (proj2 (startsWith_app (lit ++ rest) lit)) by (now exists rest).
  now rewrite drop_app_length.
Qed.

Lemma id_and_extension_app (msgId : jsstring) :
  msgId <> [] ->
  forallb (fun c => negb (is_line_terminator c)) msgId = true ->
  MessageFilename.id_and_extension (msgId ++ js ".md") = Some msgId.
Proof.
  intros Hne Hlt. unfold MessageFilename.id_and_extension.
  assert (Hends : endsWith (msgId ++ js ".md") (js ".md") = true).
  { unfold endsWith. rewrite rev_app_distr. apply startsWith_app. now eexists. }
  assert (Htake : take (length (msgId ++ js ".md") - 3) (msgId ++ js ".md") = msgId).
  { rewrite length_app. change (length (js ".md")) with 3%nat.
    replace (length msgId + 3 - 3)%nat with (length msgId) by lia.
    apply take_app_length. }
  rewrite Hends, Htake, Hlt.
  apply jsstring_eqb_neq in Hne. now rewrite Hne.
Qed.

(** A file name put together from its fields is read back field by field. *)
Lemma parse_assembled (year month day hour minute second msgId : jsstring)
      (mv dv hv miv sv : Z) :
  length year = 4%nat -> forallb is_digit year = true ->
  two_digits_of mv month = true -> two_digits_of dv day = true ->
  two_digits_of hv hour = true -> two_digits_of miv minute = true ->
  two_digits_of sv second = true ->
  msgId <> [] -> forallb (fun c => negb (is_line_terminator c)) msgId = true ->
  MessageFilename.parseMessageFilename
    (year ++ month ++ day ++ js "T" ++ hour ++ minute ++ second
          ++ js "Z__msg" ++ msgId ++ js ".md")
  = Some (JsDate.utc_from_fields (Z.of_N (digits_value year)) mv dv hv miv sv, msgId).
Proof.
  intros Hylen Hydig Hmo Hd Hh Hmi Hs Hne Hlt.
  unfold MessageFilename.parseMessageFilename.
  rewrite (digits_app 4 year _ Hylen Hydig). cbn [mbind option_bind].
  destruct (two_digits_app mv month
              (day ++ js "T" ++ hour ++ minute ++ second ++ js "Z__msg" ++ msgId ++ js ".md")
              Hmo) as [E1 V1].
  rewrite E1. cbn [mbind option_bind].
  destruct (two_digits_app dv day
              (js "T" ++ hour ++ minute ++ second ++ js "Z__msg" ++ msgId ++ js ".md")
              Hd) as [E2 V2].
  rewrite E2. cbn [mbind option_bind].
  rewrite literal_app. cbn [mbind option_bind].
  destruct (two_digits_app hv hour
              (minute ++ second ++ js "Z__msg" ++ msgId ++ js ".md") Hh) as [E3 V3].
  rewrite E3. cbn [mbind option_bind].
  destruct (two_digits_app miv minute (second ++ js "Z__msg" ++ msgId ++ js ".md") Hmi)
    as [E4 V4].
  rewrite E4. cbn [mbind option_bind].
  destruct (two_digits_app sv second (js "Z__msg" ++ msgId ++ js ".md") Hs) as [E5 V5].
  rewrite E5. cbn [mbind option_bind].
  rewrite literal_app. cbn [mbind option_bind].
  rewrite (id_and_extension_app msgId Hne Hlt). cbn [mbind option_bind]. cbv beta zeta.
  now rewrite V1, V2, V3, V4, V5.
Qed.

(** C4, as the code has it. A date on a whole second whose UTC year has
    four digits and a message id that is not empty and holds no line
    terminator: the file name built from them is parsed back into them. *)
Theorem parseMessageFilename_roundtrip (date : Z) (gmailMessageId : jsstring) :
  (1000 <= JsDate.getUTCFullYear date <= 9999)%Z ->
  (date mod 1000 = 0)%Z ->
  gmailMessageId <> [] ->
  forallb (fun c => negb (is_line_terminator c)) gmailMessageId = true ->
  MessageFilename.parseMessageFilename
    (MessageFilename.messageFilename date gmailMessageId)
  = Some (Some date, gmailMessageId).
Proof.
  intros Hyear Hms Hne Hlt.
  destruct (year_four_digits _ Hyear) as (Hylen & Hydig & Hyval).
  destruct (time_of_day_fields date Hms) as (_ & Hh & Hmi & Hs).
  destruct (MonthFromDay_DateFromDay_range (JsDate.Day date)) as [Hm Hd].
  pose proof (utc_from_fields_of_date date Hms) as Hback.
  unfold MessageFilename.messageFilename, MessageFilename.toIsoBasic. cbv zeta.
  rewrite <- !app_assoc.
  change (js "Z" ++ js "__msg" ++ gmailMessageId ++ js ".md")
    with (js "Z__msg" ++ gmailMessageId ++ js ".md").
  rewrite (parse_assembled _ _ _ _ _ _ gmailMessageId
             (JsDate.getUTCMonth date + 1) (JsDate.getUTCDate date)
             (JsDate.getUTCHours date) (JsDate.getUTCMinutes date)
             (JsDate.getUTCSeconds date));
    try assumption;
    try (apply pad2_two_digits; unfold JsDate.getUTCMonth, JsDate.getUTCDate in *; lia).
  now rewrite Hyval, Hback.
Qed.

(** A file name of the specification, built and read back. *)
Lemma parseMessageFilename_roundtrip_example :
  MessageFilename.messageFilename 1771320600000 (js "18d4a7f2b3c1e001_005")
  = js "20260217T093000Z__msg18d4a7f2b3c1e001_005.md"
  /\ MessageFilename.parseMessageFilename
       (MessageFilename.messageFilename 1771320600000 (js "18d4a7f2b3c1e001_005"))
     = Some (Some 1771320600000%Z, js "18d4a7f2b3c1e001_005").
Proof.
  split; [vm_compute; reflexivity |].
  apply (parseMessageFilename_roundtrip 1771320600000 (js "18d4a7f2b3c1e001_005")).
  - vm_compute. split; discriminate.
  - reflexivity.
  - discriminate.
  - vm_compute. reflexivity.
Defined.

(** C4 as stated fails: a message id with a line feed in it gives a file
    name the pattern does not match, and the parse returns [null]. *)
Lemma parseMessageFilename_line_feed :
  MessageFilename.messageFilename 1771320600000 [97; LF; 98]
  = js "20260217T093000Z__msga" ++ [LF] ++ js "b.md"
  /\ MessageFilename.parseMessageFilename
       (MessageFilename.messageFilename 1771320600000 [97; LF; 98])
     = None.
Proof. vm_compute. split; reflexivity. Qed.

(** ** The ids of the grouper as path segments *)

Lemma base36_plain (s : jsstring) :
  length s = 8%nat -> forallb is_base36 s = true -> plain_segment s.
Proof.
  intros Hlen Hall. unfold plain_segment, clean_segment, NodePath.DOTDOT.
  repeat split; try (intros ->; discriminate Hlen).
  intros Hin. rewrite forallb_forall in Hall. specialize (Hall SLASH Hin).
  vm_compute in Hall. discriminate.
Qed.

(** The thread directory of an id the grouper hashed lies inside the
    account directory. *)
Lemma threadDir_of_hashed_id_inside (homedir email key : jsstring) (base : option jsstring) :
  NodePath.inside (Paths.accountDir homedir email base)
                  (Paths.threadDir homedir email (ImapSync.hashString key) base) = true.
Proof.
  assert (Hplain : plain_segment (ImapSync.hashString key))
    by (apply base36_plain; [apply hashString_length | apply hashString_base36]).
  destruct (join_normal [Paths.baseDir homedir base; js "accounts"; email])
    as (abs & stack & Hacct).
  fold (Paths.accountDir homedir email base) in Hacct.
  assert (Hl : Forall plain_segment [ACCOUNT_DIRS_threads; ImapSync.hashString key])
    by (constructor; [apply literal_plain_threads | constructor; [apply Hplain | constructor]]).
  pose proof (join_extend abs stack _ _ Hacct Hl ltac:(discriminate)) as Hthread.
  exact (inside_extended abs stack _ _ _ Hacct Hthread Hl).
Qed.

(** ** The attachment writer *)

Lemma drop_while_suffix (p : N -> bool) (s : jsstring) :
  exists a, s = a ++ drop_while p s.
Proof.
  induction s as [|c r [a IH]]; [now exists [] |]. simpl.
  destruct (p c); [| now exists []].
  exists (c :: a). simpl. now rewrite <- IH.
Qed.

(** What [trim] keeps is a stretch of the string. *)
Lemma trim_infix (s : jsstring) : exists a b, s = a ++ trim s ++ b.
Proof.
  unfold trim, trimEnd, trimStart.
  destruct (drop_while_suffix is_space s) as [a Ha].
  destruct (drop_while_suffix is_space (rev (drop_while is_space s))) as [b Hb].
  exists a, (rev b). rewrite Ha at 1. f_equal.
  rewrite <- rev_app_distr, <- Hb. now rewrite rev_involutive.
Qed.

Lemma replace_reserved_no_slash (s : jsstring) :
  ~ In SLASH (AttachmentWriter.replace_reserved s).
Proof.
  unfold AttachmentWriter.replace_reserved. rewrite in_map_iff.
  intros (c & Hc & _).
  destruct (AttachmentWriter.reserved c) eqn:Ec; [discriminate |].
  subst c. discriminate.
Qed.

Lemma replace_dotdot_chars (s : jsstring) (c : N) :
  In c (AttachmentWriter.replace_dotdot s) -> c = AttachmentWriter.UNDERSCORE \/ In c s.
Proof.
  remember (length s) as n eqn:Hn. revert s Hn c.
  induction n as [n IH] using lt_wf_ind. intros s Hn c.
  destruct s as [|c1 [|c2 rest]]; simpl; [tauto | tauto |].
  destruct ((c1 =? DOT) && (c2 =? DOT)).
  - intros [<- | Hin]; [now left |].
    destruct (IH (length rest) ltac:(subst n; simpl; lia) rest eq_refl c Hin); tauto.
  - intros [<- | Hin]; [right; now left |].
    destruct (IH (length (c2 :: rest)) ltac:(subst n; simpl; lia) (c2 :: rest) eq_refl c Hin)
      as [H | H]; [now left | right; now right].
Qed.

(** The first character after the second replacement is a dot only when
    the string began with a dot. *)
Lemma replace_dotdot_head (c : N) (r out : jsstring) :
  AttachmentWriter.replace_dotdot (c :: r) = DOT :: out -> c = DOT.
Proof.
  destruct r as [|c2 rest]; simpl; [congruence |].
  destruct ((c =? DOT) && (c2 =? DOT)); [discriminate | congruence].
Qed.

(** No two dots in a row are left by the second replacement. *)
Lemma replace_dotdot_no_dotdot (s a b : jsstring) :
  AttachmentWriter.replace_dotdot s <> a ++ DOT :: DOT :: b.
Proof.
  remember (length s) as n eqn:Hn. revert s Hn a.
  induction n as [n IH] using lt_wf_ind. intros s Hn a.
  destruct s as [|c1 [|c2 rest]].
  - simpl. destruct a; discriminate.
  - simpl. destruct a as [|x [|y a']]; discriminate.
  - change (AttachmentWriter.replace_dotdot (c1 :: c2 :: rest))
      with (if (c1 =? DOT) && (c2 =? DOT)
            then AttachmentWriter.UNDERSCORE :: AttachmentWriter.replace_dotdot rest
            else c1 :: AttachmentWriter.replace_dotdot (c2 :: rest)).
    destruct ((c1 =? DOT) && (c2 =? DOT)) eqn:Edots.
    + destruct a as [|x a']; [discriminate |]. simpl. intros [= _ H].
      exact (IH (length rest) ltac:(subst n; simpl; lia) rest eq_refl a' H).
    + destruct a as [|x a']; simpl.
      * intros [= -> H]. apply replace_dotdot_head in H. subst c2.
        discriminate Edots.
      * intros [= _ H].
        exact (IH (length (c2 :: rest)) ltac:(subst n; simpl; lia) (c2 :: rest) eq_refl a' H).
Qed.

(** A sanitized file name is not empty, holds no path separator and is
    not [..]. *)
Lemma sanitizeFilename_safe (name : jsstring) :
  AttachmentWriter.sanitizeFilename name <> []
  /\ ~ In SLASH (AttachmentWriter.sanitizeFilename name)
  /\ AttachmentWriter.sanitizeFilename name <> NodePath.DOTDOT.
Proof.
  unfold AttachmentWriter.sanitizeFilename.
  destruct (trim_infix (AttachmentWriter.replace_dotdot
                          (AttachmentWriter.replace_reserved name))) as (a & b & Hinfix).
  destruct (trim _) as [|c safe] eqn:Etrim.
  - split; [discriminate |]. split; [| discriminate].
    intros H. vm_compute in H. intuition discriminate.
  - split; [discriminate |]. split.
    + intros Hin.
      assert (Hrep : In SLASH (AttachmentWriter.replace_dotdot
                                 (AttachmentWriter.replace_reserved name))).
      { rewrite Hinfix. apply in_or_app. right. apply in_or_app. now left. }
      apply replace_dotdot_chars in Hrep as [Hrep | Hrep]; [discriminate |].
      exact (replace_reserved_no_slash _ Hrep).
    + intros Hdd. rewrite Hdd in Hinfix.
      exact (replace_dotdot_no_dotdot _ _ _ Hinfix).
Qed.

(** Joining [.] to a normal path gives the path back, without a trailing
    separator. *)
Lemma join_dot (abs : bool) (stack : list jsstring) (A : jsstring) :
  normal_path abs stack A -> normal_path abs stack (NodePath.join [A; [DOT]]).
Proof.
  intros [Hok [trailing ->]].
  pose proof (stack_ok_clean _ _ Hok) as Hclean.
  apply Forall_rev in Hclean. rewrite rev_involutive in Hclean.
  set (A := render abs trailing stack).
  assert (HA : A <> []) by apply render_not_nil.
  unfold NodePath.join.
  rewrite filter_cons_True by exact HA.
  rewrite filter_cons_True by discriminate. rewrite filter_nil.
  change (JS.join [SLASH] [A; [DOT]]) with (A ++ SLASH :: [DOT]).
  assert (Hpath : A ++ SLASH :: [DOT] <> []) by (destruct A; discriminate).
  rewrite (normalize_render _ Hpath).
  assert (Habs : NodePath.isAbsolute (A ++ SLASH :: [DOT]) = abs).
  { rewrite <- (isAbsolute_render abs trailing stack Hclean). fold A.
    destruct A; [congruence | reflexivity]. }
  assert (Htr : NodePath.hasTrailingSeparator (A ++ SLASH :: [DOT]) = false).
  { unfold NodePath.hasTrailingSeparator. rewrite rev_app_distr. reflexivity. }
  rewrite Habs, Htr.
  assert (Hstack : NodePath.normalizeSegments (negb abs)
                     (split SLASH (A ++ SLASH :: [DOT])) [] = stack).
  { rewrite normalizeSegments_segments, split_app_sep, filter_app.
    change (filter (fun s => s <> [] /\ s <> [DOT]) (split SLASH A))
      with (NodePath.segments A).
    unfold A. rewrite segments_render by exact Hclean.
    change (split SLASH [DOT]) with [[DOT]].
    rewrite filter_cons_False by (intros [_ H]; congruence).
    rewrite filter_nil, app_nil_r.
    rewrite normalizeSegments_idem; [reflexivity |]. now rewrite app_nil_r. }
  rewrite Hstack. split; [exact Hok | now exists false].
Qed.

(** The sibling of the thread paths: the file an attachment is written to
    lies inside the account directory whatever the attachment is called,
    its name being sanitized before the join. *)
Theorem attachment_file_inside_account
        (homedir email threadId filename : jsstring) (base : option jsstring) :
  plain_segment threadId ->
  NodePath.inside (Paths.accountDir homedir email base)
                  (AttachmentWriter.filePath homedir email threadId filename base) = true.
Proof.
  intros Hplain.
  destruct (join_normal [Paths.baseDir homedir base; js "accounts"; email])
    as (abs & stack & Hacct).
  fold (Paths.accountDir homedir email base) in Hacct.
  assert (Hl : Forall plain_segment [ACCOUNT_DIRS_threads; threadId])
    by (constructor; [apply literal_plain_threads | constructor; [apply Hplain | constructor]]).
  pose proof (join_extend abs stack [ACCOUNT_DIRS_threads; threadId] _ Hacct Hl
                ltac:(discriminate)) as Hthread.
  fold (Paths.threadDir homedir email threadId base) in Hthread.
  assert (Hatt : Forall plain_segment [js "attachments"])
    by (constructor; [apply literal_plain; auto | constructor]).
  pose proof (join_extend abs _ [js "attachments"] _ Hthread Hatt ltac:(discriminate)) as Hdir.
  fold (Paths.attachmentsDir homedir email threadId base) in Hdir.
  assert (Hpre : Forall plain_segment ([ACCOUNT_DIRS_threads; threadId] ++ [js "attachments"]))
    by (apply Forall_app; split; assumption).
  rewrite <- app_assoc in Hdir.
  destruct (sanitizeFilename_safe filename) as (Hne & Hslash & Hdd).
  unfold AttachmentWriter.filePath.
  destruct (decide (AttachmentWriter.sanitizeFilename filename = [DOT])) as [-> | Hdot].
  - apply join_dot in Hdir.
    exact (inside_extended abs stack _ _ _ Hacct Hdir Hpre).
  - assert (Hname : Forall plain_segment [AttachmentWriter.sanitizeFilename filename]).
    { constructor; [| constructor]. repeat split; assumption. }
    pose proof (join_extend abs _ [AttachmentWriter.sanitizeFilename filename] _ Hdir Hname
                  ltac:(discriminate)) as Hfile.
    rewrite <- app_assoc in Hfile.
    apply (inside_extended abs stack _ _ _ Hacct Hfile).
    apply Forall_app. split; assumption.
Qed.

(** ** The tests of the repository, replayed on the embedding *)

(** message-filename.test.ts *)
Example test_messageFilename_format :
  MessageFilename.messageFilename 1771320600000 (js "18d4a7f2b3c1e001_005")
  = js "20260217T093000Z__msg18d4a7f2b3c1e001_005.md"
  /\ MessageFilename.messageFilename 1767574923000 (js "abc123")
     = js "20260105T010203Z__msgabc123.md".
Proof. vm_compute. split; reflexivity. Qed.

Example test_parseMessageFilename_invalid :
  MessageFilename.parseMessageFilename (js "random.md") = None
  /\ MessageFilename.parseMessageFilename [] = None
  /\ MessageFilename.parseMessageFilename (js "001.md") = None.
Proof. vm_compute. repeat split. Qed.

(** cleaning.test.ts *)
Example test_generateSnippet :
  SnippetGenerator.generateSnippet (js "Short message") = js "Short message"
  /\ SnippetGenerator.generateSnippet
       (js "Hello" ++ [LF; LF; SPACE; SPACE] ++ js "world" ++ [LF; LF] ++ js "foo")
     = js "Hello world foo"
  /\ SnippetGenerator.generateSnippet_cap (concat (repeat (js "word ") 100)) 50
     = js "word word word word word word word word word word...".
Proof. vm_compute. repeat split. Qed.

Example test_normalizeNoise :
  NoiseNormalizer.normalizeNoise (fun s => s) PlainUrl.parse PlainUrl.toString
    (js "Hello" ++ [LF; LF; LF; LF; LF] ++ js "World")
  = js "Hello" ++ [LF; LF] ++ js "World"
  /\ NoiseNormalizer.normalizeNoise (fun s => s) PlainUrl.parse PlainUrl.toString
       (js "Visit https://example.com/page?utm_source=email&utm_medium=link&id=42")
     = js "Visit https://example.com/page?id=42"
  /\ NoiseNormalizer.normalizeNoise (fun s => s) PlainUrl.parse PlainUrl.toString
       (js "  hello  ")
     = js "hello".
Proof. vm_compute. repeat split. Qed.

(** outbox.test.ts: the validator *)
Example test_validateDraft :
  Validator.valid
    (Validator.validateDraft
       (JObj [ (js "action", JStr (js "reply")); (js "thread_id", JStr (js "t1"));
               (js "to", JArr [JStr (js "mike@acme.com")]);
               (js "subject", JStr (js "Re: Test")); (js "body", JStr (js "Looks good!"));
               (js "status", JStr (js "pending_review")) ])) = true
  /\ Validator.valid (Validator.validateDraft JNull) = false
  /\ Validator.valid (Validator.validateDraft (JStr (js "string"))) = false
  /\ Validator.errors
       (Validator.validateDraft
          (JObj [ (js "action", JStr (js "reply")); (js "to", JArr [JStr (js "a@b.com")]);
                  (js "subject", JStr (js "Re: Hi")); (js "body", JStr (js "Ok")) ]))
     = [js "thread_id is required for replies"]
  /\ Validator.errors
       (Validator.validateDraft
          (JObj [ (js "action", JStr (js "compose")); (js "to", JArr [JStr (js "not-an-email")]);
                  (js "subject", JStr (js "Hi")); (js "body", JStr (js "Test")) ]))
     = [js "Invalid email address in to: not-an-email"]
  /\ Validator.errors
       (Validator.validateDraft
          (JObj [ (js "action", JStr (js "compose")); (js "to", JArr [JStr (js "a@b.com")]);
                  (js "subject", JStr (js "Hi")); (js "body", JStr (js "Test"));
                  (js "status", JStr (js "bogus")) ]))
     = [js "Invalid status: bogus. Must be one of: pending_review, ready_to_send, sending, sent, failed"]
  /\ Validator.parseDraft (JObj []) = None.
Proof. vm_compute. repeat split. Qed.

(** outbox.test.ts: the state machine. A draft written with the given status. *)
Definition test_draft (status : jsstring) : json :=
  JObj [ (js "action", JStr (js "compose")); (js "to", JArr [JStr (js "a@b.com")]);
         (js "subject", JStr (js "Test")); (js "body", JStr (js "Hello"));
         (js "status", JStr status); (js "created_by", JStr (js "agent")) ].

Definition test_outbox (name status : jsstring) : gmap (list N) json :=
  {[ js "/tmp/base/accounts/test@gmail.com/outbox/" ++ name := test_draft status ]}.

Definition test_transition (name status newStatus : jsstring)
           (extra : option (list (jsstring * json))) : option StateMachine.error * gmap (list N) json :=
  StateMachine.transitionDraft (js "/home/u") (js "2026-02-17T09:30:00.000Z")
    (test_outbox name status) (js "test@gmail.com") name newStatus extra
    (Some (js "/tmp/base")).

Example test_transition_in_place :
  let first := test_transition (js "draft_001.json") (js "pending_review")
                 (js "ready_to_send") None in
  let second := test_transition (js "draft_002.json") (js "ready_to_send")
                  (js "sending") None in
  fst first = None
  /\ snd first !! (js "/tmp/base/accounts/test@gmail.com/outbox/draft_001.json")
     = Some (test_draft (js "ready_to_send"))
  /\ fst second = None
  /\ snd second !! (js "/tmp/base/accounts/test@gmail.com/outbox/draft_002.json")
     = Some (test_draft (js "sending")).
Proof. vm_compute. repeat split. Qed.

Example test_transition_to_sent :
  let after := snd (test_transition (js "draft_003.json") (js "sending") (js "sent")
                      (Some [(js "gmail_message_id", JStr (js "m1"))])) in
  after !! (js "/tmp/base/accounts/test@gmail.com/outbox/draft_003.json") = None
  /\ after !! (js "/tmp/base/accounts/test@gmail.com/sent/draft_003.json")
     = Some (JObj [ (js "action", JStr (js "compose")); (js "to", JArr [JStr (js "a@b.com")]);
                    (js "subject", JStr (js "Test")); (js "body", JStr (js "Hello"));
                    (js "status", JStr (js "sent")); (js "created_by", JStr (js "agent"));
                    (js "gmail_message_id", JStr (js "m1"));
                    (js "sent_at", JStr (js "2026-02-17T09:30:00.000Z")) ]).
Proof. vm_compute. split; reflexivity. Qed.

Example test_transition_to_failed :
  let after := snd (test_transition (js "draft_004.json") (js "sending") (js "failed")
                      (Some [(js "error", JStr (js "API error"))])) in
  after !! (js "/tmp/base/accounts/test@gmail.com/outbox/draft_004.json") = None
  /\ (after !! (js "/tmp/base/accounts/test@gmail.com/failed/draft_004.json"))
       ≫= (fun d => get d (js "error"))
     = Some (JStr (js "API error")).
Proof. vm_compute. split; reflexivity. Qed.

Example test_transition_rejected :
  let result := test_transition (js "draft_006.json") (js "ready_to_send") (js "sent") None in
  fst result = Some (StateMachine.InvalidTransitionError (js "ready_to_send") (js "sent"))
  /\ snd result !! (js "/tmp/base/accounts/test@gmail.com/outbox/draft_006.json")
     = Some (test_draft (js "ready_to_send")).
Proof. vm_compute. split; reflexivity. Qed.

(** storage.test.ts: the threads index *)
Example test_upsertThreadIndex :
  let upsert := fun fs e =>
    IndexWriter.upsertThreadIndex (js "/home/u") iso_getTime fs (js "test@gmail.com") e
      (Some (js "/tmp/base")) in
  let read := fun fs =>
    IndexWriter.readThreadIndex (js "/home/u") fs (js "test@gmail.com") (Some (js "/tmp/base")) in
  map IndexWriter.id
      (read (upsert (upsert (upsert ∅ (index_entry (js "old") (js "2026-02-10T00:00:00Z")))
                            (index_entry (js "new") (js "2026-02-20T00:00:00Z")))
                    (index_entry (js "mid") (js "2026-02-15T00:00:00Z"))))
  = [js "new"; js "mid"; js "old"]
  /\ map IndexWriter.last_date
         (read (upsert (upsert ∅ (index_entry (js "t1") (js "2026-02-17T09:00:00Z")))
                       (index_entry (js "t1") (js "2026-02-18T09:00:00Z"))))
     = [js "2026-02-18T09:00:00Z"].
Proof. vm_compute. split; reflexivity. Qed.

(** storage.test.ts, the dangerous file name *)
Example test_sanitizeFilename :
  AttachmentWriter.sanitizeFilename (js "../../../etc/passwd") = js "______etc_passwd"
  /\ AttachmentWriter.sanitizeFilename (js "  ") = js "attachment"
  /\ AttachmentWriter.sanitizeFilename (js "...") = js "_."
  /\ AttachmentWriter.filePath (js "/home/u") (js "me@gmail.com") (js "00to5x38")
       (js "../../../etc/passwd") None
     = js "/home/u/.clawmail3/accounts/me@gmail.com/threads/00to5x38/attachments/______etc_passwd".
Proof. vm_compute. repeat split. Qed.




Section GrouperPartition.
Variable toLowerCase : jsstring -> jsstring.
Variable parseQuickHeaders : jsstring -> ImapSync.QuickHeaders.

Local Abbreviation threadIdOf := (ImapSync.threadIdOf toLowerCase parseQuickHeaders).
Local Abbreviation group_step := (ImapSync.group_step toLowerCase parseQuickHeaders).
Local Abbreviation group_loop := (ImapSync.group_loop toLowerCase parseQuickHeaders).
Local Abbreviation groupIntoThreads := (ImapSync.groupIntoThreads toLowerCase parseQuickHeaders).

(** What the loop has built after the messages [seen]: the thread ids are
    pairwise different, no thread is empty, the threads together hold the
    messages seen, each as often as it was seen, and every thread lists
    its messages in the order of the batch. *)
Definition grouped (seen : list ImapSync.ImapMessage)
           (threads : list (jsstring * list ImapSync.ImapMessage)) : Prop :=
  NoDup (map fst threads)
  /\ Forall (fun th => snd th <> []) threads
  /\ Permutation (concat (map snd threads)) seen
  /\ Forall (fun th => sublist (snd th) seen) threads.

Lemma push_thread_keys (tid : jsstring) (msg : ImapSync.ImapMessage) threads :
  (In tid (map fst threads)
   /\ map fst (ImapSync.push_thread tid msg threads) = map fst threads)
  \/ (~ In tid (map fst threads)
      /\ map fst (ImapSync.push_thread tid msg threads) = map fst threads ++ [tid]).
Proof.
  induction threads as [|[t msgs] rest IH]; simpl.
  - right. split; [tauto | reflexivity].
  - destruct (jsstring_eqb t tid) eqn:E.
    + apply jsstring_eqb_eq in E. subst. left. simpl. split; [now left | reflexivity].
    + apply jsstring_eqb_neq in E. simpl.
      destruct IH as [[Hin Heq] | [Hnot Heq]]; rewrite Heq.
      * left. split; [now right | reflexivity].
      * right. split; [| reflexivity]. intros [H | H]; [congruence | contradiction].
Qed.

Lemma push_thread_concat (tid : jsstring) (msg : ImapSync.ImapMessage) threads :
  Permutation (concat (map snd (ImapSync.push_thread tid msg threads)))
              (concat (map snd threads) ++ [msg]).
Proof.
  induction threads as [|[t msgs] rest IH]; simpl; [reflexivity |].
  destruct (jsstring_eqb t tid); simpl.
  - rewrite <- !app_assoc. apply Permutation_app_head. apply Permutation_app_comm.
  - rewrite IH. now rewrite app_assoc.
Qed.

Lemma push_thread_grouped (tid : jsstring) (msg : ImapSync.ImapMessage) seen threads :
  grouped seen threads -> grouped (seen ++ [msg]) (ImapSync.push_thread tid msg threads).
Proof.
  intros (Hkeys & Hne & Hperm & Hsub). repeat split.
  - destruct (push_thread_keys tid msg threads) as [[_ Heq] | [Hnot Heq]]; rewrite Heq.
    + exact Hkeys.
    + apply NoDup_app. split; [exact Hkeys |]. split; [| apply NoDup_singleton].
      intros x Hx Hx'. apply list_elem_of_singleton in Hx'. subst.
      apply Hnot. now apply list_elem_of_In.
  - clear Hkeys Hperm Hsub. induction Hne as [|[t msgs] rest Ht Hrest IH]; simpl.
    + constructor; [discriminate | constructor].
    + destruct (jsstring_eqb t tid); constructor; try assumption.
      simpl. destruct msgs; discriminate.
  - rewrite push_thread_concat. now rewrite Hperm.
  - clear Hkeys Hperm Hne. induction Hsub as [|[t msgs] rest Ht Hrest IH]; simpl.
    + constructor; [| constructor]. simpl. apply sublist_inserts_l. reflexivity.
    + destruct (jsstring_eqb t tid); constructor; simpl in *.
      * apply sublist_app; [exact Ht | reflexivity].
      * eapply Forall_impl; [exact Hrest |]. intros th Hth.
        now apply sublist_inserts_r.
      * now apply sublist_inserts_r.
      * exact IH.
Qed.

Lemma fold_group_step_grouped (post : list ImapSync.ImapMessage) st seen :
  grouped seen (fst st) -> grouped (seen ++ post) (fst (fold_left group_step post st)).
Proof.
  revert st seen. induction post as [|x r IH]; intros st seen H; simpl.
  - now rewrite app_nil_r.
  - replace (seen ++ x :: r) with ((seen ++ [x]) ++ r) by now rewrite <- app_assoc.
    apply IH. destruct st as [threads m]. unfold ImapSync.group_step. simpl.
    now apply push_thread_grouped.
Qed.

(** The grouper neither loses nor repeats a message: the threads it
    returns have pairwise different ids, none is empty, together they
    hold exactly the messages of the batch, and each thread lists its
    messages in the order of the batch. *)
Lemma groupIntoThreads_grouped (messages : list ImapSync.ImapMessage) :
  grouped messages (groupIntoThreads messages).
Proof.
  unfold ImapSync.groupIntoThreads, ImapSync.group_loop.
  apply (fold_group_step_grouped messages ([], ∅) []).
  repeat split; simpl; constructor.
Qed.

Lemma grouped_count seen threads :
  grouped seen threads -> (length threads <= length seen)%nat.
Proof.
  intros (_ & Hne & Hperm & _). rewrite <- (Permutation_length Hperm).
  clear Hperm. induction Hne as [|[t ms] rest Ht _ IH]; simpl; [lia |].
  rewrite length_app. destruct ms; [simpl in Ht; congruence | simpl; lia].
Qed.

(** The grouper neither loses nor repeats a message: the threads it
    returns have pairwise different ids, none is empty, together they
    hold exactly the messages of the batch, and each thread lists its
    messages in the order of the batch. *)
Theorem groupIntoThreads_partition (messages : list ImapSync.ImapMessage) :
  let threads := groupIntoThreads messages in
  NoDup (map fst threads)
  /\ Forall (fun th => snd th <> []) threads
  /\ Permutation (concat (map snd threads)) messages
  /\ Forall (fun th => sublist (snd th) messages) threads
  /\ (length threads <= length messages)%nat.
Proof.
  intros threads. subst threads.
  pose proof (groupIntoThreads_grouped messages) as Hg.
  pose proof (grouped_count _ _ Hg) as Hcount.
  destruct Hg as (H1 & H2 & H3 & H4). repeat split; assumption.
Qed.

(** Every thread id is a hash. *)
Definition ids_hashed (m : gmap (list N) (list N)) : Prop :=
  forall k t, m !! k = Some t -> exists key, t = ImapSync.hashString key.

Lemma threadIdOf_hashed (m : gmap (list N) (list N)) (msg : ImapSync.ImapMessage) :
  ids_hashed m -> exists key, threadIdOf m msg = ImapSync.hashString key.
Proof.
  intros Hinv. unfold ImapSync.threadIdOf.
  set (headers := parseQuickHeaders (ImapSync.raw msg)).
  assert (Hget : forall k, default [] (m !! k) = []
                           \/ exists key, default [] (m !! k) = ImapSync.hashString key).
  { intros k. destruct (m !! k) as [t|] eqn:E; simpl; [| now left].
    right. eapply Hinv; eassumption. }
  assert (Hfall : forall t fallback,
             (t = [] \/ exists key, t = ImapSync.hashString key) ->
             exists key, match t with [] => ImapSync.hashString fallback | _ => t end
                         = ImapSync.hashString key).
  { intros t fallback [-> | [key ->]]; [now eexists |].
    destruct (ImapSync.hashString key) eqn:E; [now eexists | exists key; now rewrite E]. }
  apply Hfall.
  destruct (ImapSync.inReplyTo headers) as [|c irt].
  - destruct (list_find _ _) as [[i r]|]; [apply Hget | now left].
  - destruct (Hget (c :: irt)) as [-> | [key ->]].
    + destruct (list_find _ _) as [[i r]|]; [apply Hget | now left].
    + destruct (ImapSync.hashString key) eqn:E.
      * destruct (list_find _ _) as [[i r]|]; [apply Hget | now left].
      * right. exists key. now rewrite E.
Qed.

Lemma fold_group_step_hashed (msgs : list ImapSync.ImapMessage) st :
  ids_hashed (snd st) ->
  Forall (fun th => exists key, fst th = ImapSync.hashString key) (fst st) ->
  Forall (fun th => exists key, fst th = ImapSync.hashString key)
         (fst (fold_left group_step msgs st)).
Proof.
  revert st. induction msgs as [|x r IH]; intros st Hm Hth; simpl; [exact Hth |].
  destruct st as [threads m]. simpl in *.
  destruct (threadIdOf_hashed m x Hm) as [key Hkey].
  apply IH.
  - unfold ImapSync.group_step. simpl.
    destruct (ImapSync.messageId (parseQuickHeaders (ImapSync.raw x))) eqn:E; [exact Hm |].
    intros k t Hk. destruct (decide (n :: l = k)) as [<- | Hne].
    + rewrite lookup_insert_eq in Hk. inversion Hk; subst. now exists key.
    + rewrite lookup_insert_ne in Hk by assumption. eapply Hm; eassumption.
  - unfold ImapSync.group_step. simpl.
    generalize (threadIdOf m x) Hkey. intros tid Htid.
    clear IH Hm Hkey. induction Hth as [|[t ms] rest Ht Hrest IHth]; simpl.
    + constructor; [now exists key | constructor].
    + destruct (jsstring_eqb t tid); constructor; assumption.
Qed.


(** The ids the grouper gives to threads are hashes: eight characters in
    the digits of base 36. Such an id names one directory entry, and the
    directory of the thread lies inside the directory of the account,
    whatever the headers of the messages hold. *)
Theorem groupIntoThreads_ids_hashed (messages : list ImapSync.ImapMessage)
        (homedir email : jsstring) (base : option jsstring) :
  Forall (fun th =>
            length (fst th) = 8%nat
            /\ forallb is_base36 (fst th) = true
            /\ plain_segment (fst th)
            /\ NodePath.inside (Paths.accountDir homedir email base)
                               (Paths.threadDir homedir email (fst th) base) = true)
         (groupIntoThreads messages).
Proof.
  assert (H : Forall (fun th => exists key, fst th = ImapSync.hashString key)
                     (groupIntoThreads messages)).
  { unfold ImapSync.groupIntoThreads, ImapSync.group_loop.
    apply fold_group_step_hashed; simpl; [| constructor].
    intros k t Hk. rewrite lookup_empty in Hk. discriminate. }
  eapply Forall_impl; [exact H |]. intros [t ms] [key Hkey]. simpl in *. subst t.
  split; [apply hashString_length |]. split; [apply hashString_base36 |].
  split; [apply base36_plain; [apply hashString_length | apply hashString_base36] |].
  apply threadDir_of_hashed_id_inside.
Qed.

End GrouperPartition.

(** ** The [sync] command: a full pass *)

(** When no call throws and the numbers given parse, the command is the
    one without the failing calls. *)
Lemma cmdSync_without_throws
      (toLowerCase : jsstring -> jsstring)
      (parseQuickHeaders : jsstring -> ImapSync.QuickHeaders)
      (parseInt : jsstring -> Z)
      (fetchRecent : Z -> Z -> list ImapSync.ImapMessage)
      (imapIncrementalSync : jsstring -> Z -> Cli.SyncResult)
      (imapUnreadSync : jsstring -> Cli.SyncResult)
      (now : jsstring) (getAppPassword : jsstring -> option jsstring)
      (accounts : list jsstring) (disk : gmap (list N) Cli.AccountMeta)
      (flags : list (jsstring * jsstring)) :
  CliSync.cmdSync toLowerCase parseQuickHeaders (fun s => Some (parseInt s))
    (fun _ => None) None
    (fun depthDays maxMessages =>
       inr (fetchRecent (default 0%Z depthDays) (default 0%Z maxMessages)))
    (fun _ _ _ => None) None
    (fun account lastUid => inr (imapIncrementalSync account lastUid))
    (fun account => inr (imapUnreadSync account))
    now getAppPassword (Some accounts) disk flags
  = match Cli.cmdSync toLowerCase parseQuickHeaders parseInt fetchRecent
            imapIncrementalSync imapUnreadSync now getAppPassword accounts disk flags with
    | inl message => (disk, inl (CliSync.Fail message))
    | inr (disk', result) => (disk', inr result)
    end.
Proof.
  unfold CliSync.cmdSync, Cli.cmdSync.
  destruct (match Cli.flag (js "account") flags with
            | Some a => Some a
            | None => head accounts
            end) as [account|]; [| reflexivity].
  destruct (getAppPassword account) as [[|c pw]|]; try reflexivity.
  unfold CliSync.run_pass, Cli.run_pass.
  destruct (Cli.select_pass flags (Cli.loadAccountMeta disk account)); try reflexivity.
  unfold CliSync.imapFullSync, Cli.imapFullSync.
  assert (Hnone : forall threads,
             CliSync.first_thrown (fun _ _ _ => None) account threads = None).
  { intros threads. unfold CliSync.first_thrown.
    induction threads as [|th threads IH]; [reflexivity | exact IH]. }
  rewrite Hnone.
  destruct (Cli.flag (js "days") flags) as [[|c1 d1]|];
    destruct (Cli.flag (js "max") flags) as [[|c2 d2]|]; reflexivity.
Qed.

Section FullPass.
Variable toLowerCase : jsstring -> jsstring.
Variable parseQuickHeaders : jsstring -> ImapSync.QuickHeaders.
Variable parseInt : jsstring -> option Z.
Variable initAccountDirs : jsstring -> option jsstring.
Variable connect : option jsstring.
Variable fetchRecent : option Z -> option Z -> jsstring + list ImapSync.ImapMessage.
Variable processThread : jsstring -> jsstring -> list ImapSync.ImapMessage -> option jsstring.
Variable disconnect : option jsstring.
Variable imapIncrementalSync : jsstring -> Z -> jsstring + Cli.SyncResult.
Variable imapUnreadSync : jsstring -> jsstring + Cli.SyncResult.
Variable now : jsstring.
Variable getAppPassword : jsstring -> option jsstring.

Local Abbreviation cmdSync :=
  (CliSync.cmdSync toLowerCase parseQuickHeaders parseInt initAccountDirs connect fetchRecent
     processThread disconnect imapIncrementalSync imapUnreadSync now getAppPassword).

Local Abbreviation imapFullSync :=
  (CliSync.imapFullSync toLowerCase parseQuickHeaders initAccountDirs connect fetchRecent
     processThread disconnect).




End FullPass.


(** ** paths.ts: the files of an account *)

Lemma ascii_literal_plain (s : string) :
  forallb (fun c => negb (c =? SLASH)) (js s) = true ->
  js s <> [] -> js s <> [DOT] -> js s <> NodePath.DOTDOT ->
  plain_segment (js s).
Proof.
  intros Hno H1 H2 H3. repeat split; try assumption.
  intros Hin. rewrite forallb_forall in Hno. specialize (Hno SLASH Hin).
  discriminate.
Qed.

(** The segments of a normal path extended by plain segments. *)
Lemma join_segments (abs : bool) (stack l : list jsstring) (A : jsstring) :
  normal_path abs stack A -> Forall plain_segment l -> l <> [] ->
  NodePath.segments (NodePath.join (A :: l)) = stack ++ l.
Proof.
  intros HA Hl Hne.
  destruct (join_extend abs stack l A HA Hl Hne) as [Hok [trailing ->]].
  apply segments_render.
  apply stack_ok_clean in Hok. apply Forall_rev in Hok. now rewrite rev_involutive in Hok.
Qed.

Lemma inside_self (abs : bool) (stack : list jsstring) (A : jsstring) :
  normal_path abs stack A -> NodePath.inside A A = true.
Proof.
  intros HA. apply (inside_extended abs stack [] A A HA); [| constructor].
  now rewrite app_nil_r.
Qed.

(** Every path the resolver gives for the files of an account itself (the
    account file, the labels, the index directory and its three index
    files, the outbox and the two directories drafts are moved to) lies
    inside the directory of the account, for every e-mail address and
    base directory. *)
Theorem account_paths_inside_account (homedir email : jsstring) (base : option jsstring) :
  let inside_account := NodePath.inside (Paths.accountDir homedir email base) in
  inside_account (Paths.accountDir homedir email base) = true
  /\ inside_account (Paths.accountMetaPath homedir email base) = true
  /\ inside_account (Paths.labelsPath homedir email base) = true
  /\ inside_account (Paths.indexDir homedir email base) = true
  /\ inside_account (Paths.threadsIndexPath homedir email base) = true
  /\ inside_account (Paths.contactsIndexPath homedir email base) = true
  /\ inside_account (Paths.commitmentsIndexPath homedir email base) = true
  /\ inside_account (Paths.outboxDir homedir email base) = true
  /\ inside_account (Paths.sentDir homedir email base) = true
  /\ inside_account (Paths.failedDir homedir email base) = true.
Proof.
  intros inside_account. subst inside_account.
  destruct (join_normal [Paths.baseDir homedir base; js "accounts"; email])
    as (abs & stack & Hacct).
  fold (Paths.accountDir homedir email base) in Hacct.
  assert (Hone : forall leaf : string,
             forallb (fun c => negb (c =? SLASH)) (js leaf) = true ->
             js leaf <> [] -> js leaf <> [DOT] -> js leaf <> NodePath.DOTDOT ->
             normal_path abs (stack ++ [js leaf])
               (NodePath.join [Paths.accountDir homedir email base; js leaf])
             /\ NodePath.inside (Paths.accountDir homedir email base)
                  (NodePath.join [Paths.accountDir homedir email base; js leaf]) = true).
  { intros leaf H0 H1 H2 H3.
    assert (Hl : Forall plain_segment [js leaf])
      by (constructor; [now apply ascii_literal_plain | constructor]).
    pose proof (join_extend abs stack [js leaf] _ Hacct Hl ltac:(discriminate)) as Hp.
    split; [exact Hp | exact (inside_extended abs stack _ _ _ Hacct Hp Hl)]. }
  assert (Htwo : forall dir leaf : string,
             forallb (fun c => negb (c =? SLASH)) (js dir) = true ->
             js dir <> [] -> js dir <> [DOT] -> js dir <> NodePath.DOTDOT ->
             forallb (fun c => negb (c =? SLASH)) (js leaf) = true ->
             js leaf <> [] -> js leaf <> [DOT] -> js leaf <> NodePath.DOTDOT ->
             NodePath.inside (Paths.accountDir homedir email base)
               (NodePath.join [NodePath.join [Paths.accountDir homedir email base; js dir];
                               js leaf]) = true).
  { intros dir leaf D0 D1 D2 D3 L0 L1 L2 L3.
    destruct (Hone dir D0 D1 D2 D3) as [Hdir _].
    assert (Hl : Forall plain_segment [js leaf])
      by (constructor; [now apply ascii_literal_plain | constructor]).
    pose proof (join_extend abs _ [js leaf] _ Hdir Hl ltac:(discriminate)) as Hp.
    rewrite <- app_assoc in Hp.
    apply (inside_extended abs stack _ _ _ Hacct Hp).
    constructor; [now apply ascii_literal_plain |]. exact Hl. }
  split; [exact (inside_self abs stack _ Hacct) |].
  repeat split;
    first [ apply (Hone "account.json"%string); first [reflexivity | discriminate]
          | apply (Hone "labels.json"%string); first [reflexivity | discriminate]
          | apply (Hone "index"%string); first [reflexivity | discriminate]
          | apply (Hone "outbox"%string); first [reflexivity | discriminate]
          | apply (Hone "sent"%string); first [reflexivity | discriminate]
          | apply (Hone "failed"%string); first [reflexivity | discriminate]
          | apply (Htwo "index"%string "threads.jsonl"%string); first [reflexivity | discriminate]
          | apply (Htwo "index"%string "contacts.jsonl"%string); first [reflexivity | discriminate]
          | apply (Htwo "index"%string "commitments.jsonl"%string);
            first [reflexivity | discriminate] ].
Qed.

(** ** state-machine.ts: the allowed steps *)

Lemma assoc_set_field_same (k : jsstring) (v : json) fields :
  assoc k (set_field k v fields) = Some v.
Proof.
  induction fields as [|[k' v'] rest IH]; simpl.
  - now rewrite jsstring_eqb_refl.
  - destruct (jsstring_eqb k k') eqn:E; simpl; rewrite ?jsstring_eqb_refl, ?E; auto.
Qed.

Lemma assoc_set_field_other (k k' : jsstring) (v : json) fields :
  k' <> k -> assoc k' (set_field k v fields) = assoc k' fields.
Proof.
  intros Hne. induction fields as [|[k0 v0] rest IH]; simpl.
  - now rewrite (proj2 (jsstring_eqb_neq k' k) Hne).
  - destruct (jsstring_eqb k k0) eqn:E; simpl.
    + apply jsstring_eqb_eq in E. subst k0.
      now rewrite (proj2 (jsstring_eqb_neq k' k) Hne).
    + destruct (jsstring_eqb k' k0); [reflexivity | exact IH].
Qed.

(** A property the spread object does not name keeps its value. *)
Lemma assoc_spread_absent (k : jsstring) (a b : list (jsstring * json)) :
  assoc k b = None -> assoc k (spread a b) = assoc k a.
Proof.
  unfold spread. revert a. induction b as [|[k' v'] rest IH]; intros a Hb; simpl; [reflexivity |].
  simpl in Hb. destruct (jsstring_eqb k k') eqn:E; [discriminate |].
  rewrite IH by exact Hb. apply assoc_set_field_other. now apply jsstring_eqb_neq.
Qed.

(** A property the spread object names once takes its value from there. *)
Lemma assoc_spread_present (k : jsstring) (v : json) (a b : list (jsstring * json)) :
  NoDup (map fst b) -> In (k, v) b -> assoc k (spread a b) = Some v.
Proof.
  unfold spread. revert a. induction b as [|[k' v'] rest IH]; intros a Hnd Hin; [destruct Hin |].
  simpl in *. apply NoDup_cons in Hnd as [Hk' Hnd].
  destruct Hin as [Heq | Hin].
  - inversion Heq; subst.
    assert (Habs : assoc k rest = None).
    { clear -Hk'. induction rest as [|[k0 v0] r IHr]; simpl; [reflexivity |].
      destruct (jsstring_eqb k k0) eqn:E.
      - apply jsstring_eqb_eq in E. subst. exfalso. apply Hk'. simpl. left.
      - apply IHr. intros H. apply Hk'. simpl. now right. }
    change (fold_left (fun acc kv => set_field (fst kv) (snd kv) acc) rest (set_field k v a))
      with (spread (set_field k v a) rest).
    rewrite assoc_spread_absent by exact Habs. apply assoc_set_field_same.
  - now apply IH.
Qed.

Section OutboxSteps.
Variable homedir : jsstring.
Variable now : jsstring.

Local Abbreviation transitionDraft := (StateMachine.transitionDraft homedir now).

(** The three places of a draft are three different files. *)
Lemma outbox_files_distinct (email name : jsstring) (base : option jsstring) :
  plain_segment name ->
  outbox_file homedir email name base <> terminal_file homedir email name (js "sent") base
  /\ outbox_file homedir email name base <> terminal_file homedir email name (js "failed") base
  /\ terminal_file homedir email name (js "sent") base
     <> terminal_file homedir email name (js "failed") base.
Proof.
  intros Hname.
  destruct (join_normal [Paths.baseDir homedir base; js "accounts"; email])
    as (abs & stack & Hacct).
  fold (Paths.accountDir homedir email base) in Hacct.
  assert (Hseg : forall dir : string,
             forallb (fun c => negb (c =? SLASH)) (js dir) = true ->
             js dir <> [] -> js dir <> [DOT] -> js dir <> NodePath.DOTDOT ->
             NodePath.segments
               (NodePath.join [NodePath.join [Paths.accountDir homedir email base; js dir]; name])
             = (stack ++ [js dir]) ++ [name]).
  { intros dir D0 D1 D2 D3.
    assert (Hl : Forall plain_segment [js dir])
      by (constructor; [now apply ascii_literal_plain | constructor]).
    pose proof (join_extend abs stack [js dir] _ Hacct Hl ltac:(discriminate)) as Hdir.
    apply (join_segments abs _ [name] _ Hdir); [| discriminate].
    constructor; [exact Hname | constructor]. }
  pose proof (Hseg "outbox"%string eq_refl ltac:(discriminate) ltac:(discriminate)
                ltac:(discriminate)) as Ho.
  pose proof (Hseg "sent"%string eq_refl ltac:(discriminate) ltac:(discriminate)
                ltac:(discriminate)) as Hs.
  pose proof (Hseg "failed"%string eq_refl ltac:(discriminate) ltac:(discriminate)
                ltac:(discriminate)) as Hf.
  unfold outbox_file, terminal_file.
  change (jsstring_eqb (js "sent") (js "sent")) with true.
  change (jsstring_eqb (js "failed") (js "sent")) with false. cbv iota.
  repeat split; intros Heq; apply (f_equal NodePath.segments) in Heq;
    unfold Paths.outboxDir, Paths.sentDir, Paths.failedDir,
      ACCOUNT_DIRS_outbox, ACCOUNT_DIRS_sent, ACCOUNT_DIRS_failed in Heq;
    rewrite ?Ho, ?Hs, ?Hf in Heq;
    apply app_inv_tail in Heq; apply app_inv_head in Heq; discriminate.
Qed.

(** What an allowed step computes. *)
Lemma transitionDraft_allowed (fs : gmap (list N) json) (email name s t : jsstring)
      (extra : option (list (jsstring * json))) (base : option jsstring)
      (fields : list (jsstring * json)) :
  fs !! outbox_file homedir email name base = Some (JObj fields) ->
  assoc (js "status") fields = Some (JStr s) ->
  StateMachine.allowed_transition s t ->
  let updated := spread (set_field (js "status") (JStr t) fields) (default [] extra) in
  transitionDraft fs email name t extra base
  = (None,
     if jsstring_eqb t (js "sent") || jsstring_eqb t (js "failed")
     then Fs.unlink
            (Fs.atomicWriteJson fs (terminal_file homedir email name t base)
               (JObj (set_field (stamp_key t) (JStr now) updated)))
            (outbox_file homedir email name base)
     else Fs.atomicWriteJson fs (outbox_file homedir email name base) (JObj updated)).
Proof.
  intros Hfile Hstatus Hallowed updated. subst updated.
  unfold StateMachine.transitionDraft.
  fold (outbox_file homedir email name base). rewrite Hfile.
  cbn [get]. rewrite Hstatus. cbn [ToString_opt ToString].
  assert (Hextra : match extra with Some e => e | None => [] end = default [] extra)
    by now destruct extra.
  rewrite Hextra.
  destruct Hallowed as [[-> ->] | [[-> ->] | [[-> ->] | [-> ->]]]].
  - rewrite transitions_lookup_pending. reflexivity.
  - rewrite transitions_lookup_ready. reflexivity.
  - rewrite transitions_lookup_sending. reflexivity.
  - rewrite transitions_lookup_sending. reflexivity.
Qed.

Lemma stepped_updated (fields : list (jsstring * json)) (t : jsstring)
      (extra : list (jsstring * json)) :
  stepped fields (spread (set_field (js "status") (JStr t) fields) extra) t extra None.
Proof.
  repeat split.
  - intros Hnone. rewrite assoc_spread_absent by exact Hnone. apply assoc_set_field_same.
  - intros Hnd k v Hin _. now apply assoc_spread_present.
  - intros k Hk _ Hnone. rewrite assoc_spread_absent by exact Hnone.
    now apply assoc_set_field_other.
Qed.

Lemma stepped_stamped (fields : list (jsstring * json)) (t stamp : jsstring) (v : json)
      (extra : list (jsstring * json)) :
  stamp <> js "status" ->
  stepped fields
    (set_field stamp v (spread (set_field (js "status") (JStr t) fields) extra))
    t extra (Some stamp).
Proof.
  intros Hstamp. destruct (stepped_updated fields t extra) as (H1 & H2 & H3).
  repeat split.
  - intros Hnone. rewrite assoc_set_field_other by congruence. now apply H1.
  - intros Hnd k w Hin Hk. rewrite assoc_set_field_other by congruence.
    apply (H2 Hnd k w Hin). discriminate.
  - intros k Hk Hk' Hnone. rewrite assoc_set_field_other by congruence.
    apply H3; [assumption | discriminate | assumption].
Qed.

(** A step from [pending_review] to [ready_to_send], or from
    [ready_to_send] to [sending], rewrites the draft where it is: the
    call does not throw, the file in the outbox holds the draft with the
    new status and the additions, every other property as before, and no
    other file changes. *)
Lemma in_place_step (fs : gmap (list N) json)
        (email name s t : jsstring) (extra : option (list (jsstring * json)))
        (base : option jsstring) (fields : list (jsstring * json)) :
  fs !! outbox_file homedir email name base = Some (JObj fields) ->
  assoc (js "status") fields = Some (JStr s) ->
  (s = js "pending_review" /\ t = js "ready_to_send")
  \/ (s = js "ready_to_send" /\ t = js "sending") ->
  exists fields',
    transitionDraft fs email name t extra base
    = (None, <[outbox_file homedir email name base := JObj fields']> fs)
    /\ stepped fields fields' t (default [] extra) None.
Proof.
  intros Hfile Hstatus Hstep.
  exists (spread (set_field (js "status") (JStr t) fields) (default [] extra)).
  split; [| apply stepped_updated].
  rewrite (transitionDraft_allowed fs email name s t extra base fields Hfile Hstatus).
  - destruct Hstep as [[_ ->] | [_ ->]]; reflexivity.
  - unfold StateMachine.allowed_transition. tauto.
Qed.

(** A step from [sending] to [sent] or [failed] moves the draft: the call
    does not throw, the file leaves the outbox, the file of the same name
    in [sent/] or [failed/] holds the draft with the new status, the
    additions and the time of the move, and no other file changes. *)
Lemma moving_step (fs : gmap (list N) json)
        (email name t : jsstring) (extra : option (list (jsstring * json)))
        (base : option jsstring) (fields : list (jsstring * json)) :
  plain_segment name ->
  fs !! outbox_file homedir email name base = Some (JObj fields) ->
  assoc (js "status") fields = Some (JStr (js "sending")) ->
  t = js "sent" \/ t = js "failed" ->
  exists fs' fields',
    transitionDraft fs email name t extra base = (None, fs')
    /\ fs' !! outbox_file homedir email name base = None
    /\ fs' !! terminal_file homedir email name t base = Some (JObj fields')
    /\ assoc (stamp_key t) fields' = Some (JStr now)
    /\ stepped fields fields' t (default [] extra) (Some (stamp_key t))
    /\ (forall p, p <> outbox_file homedir email name base ->
                  p <> terminal_file homedir email name t base ->
                  fs' !! p = fs !! p).
Proof.
  intros Hname Hfile Hstatus Ht.
  destruct (outbox_files_distinct email name base Hname) as (Hos & Hof & _).
  assert (Hallowed : StateMachine.allowed_transition (js "sending") t).
  { unfold StateMachine.allowed_transition. destruct Ht as [-> | ->]; tauto. }
  rewrite (transitionDraft_allowed fs email name _ t extra base fields Hfile Hstatus Hallowed).
  assert (Hterm : jsstring_eqb t (js "sent") || jsstring_eqb t (js "failed") = true)
    by (destruct Ht as [-> | ->]; reflexivity).
  rewrite Hterm.
  assert (Hdest : outbox_file homedir email name base <> terminal_file homedir email name t base)
    by (destruct Ht as [-> | ->]; assumption).
  eexists _, _. split; [reflexivity |].
  unfold Fs.unlink, Fs.atomicWriteJson.
  split; [apply lookup_delete_eq |].
  split; [rewrite lookup_delete_ne by exact Hdest; apply lookup_insert_eq |].
  split; [apply assoc_set_field_same |].
  split.
  - apply stepped_stamped. destruct Ht as [-> | ->]; discriminate.
  - intros p Hp Hp'. rewrite lookup_delete_ne by congruence.
    now rewrite lookup_insert_ne by congruence.
Qed.

End OutboxSteps.

(** ** sender.ts *)

Section SendDraft.
Variable homedir : jsstring.
Variable now : jsstring.
Variable message_of : StateMachine.error -> jsstring.

Local Abbreviation transitionDraft := (StateMachine.transitionDraft homedir now).
Local Abbreviation sendDraft := (Sender.sendDraft homedir now message_of).

(** The fields a transport adds are its own: they do not name the status,
    the error or a time stamp, and each is named once. *)
Lemma deliver_fields (sendClient : Sender.SendClient) (draft : json)
      (fields : list (jsstring * json)) :
  Sender.deliver sendClient draft = Sender.Delivered fields ->
  NoDup (map fst fields)
  /\ assoc (js "status") fields = None
  /\ assoc (js "sent_at") fields = None
  /\ Forall (fun kv => fst kv <> js "status" /\ fst kv <> js "sent_at") fields.
Proof.
  unfold Sender.deliver.
  destruct sendClient as [sendMessage | sendViaSMTP].
  - destruct (sendMessage draft) as [[id threadId] | message]; [| discriminate].
    intros [= <-]. split.
    + simpl. apply NoDup_cons. split; [| apply NoDup_singleton].
      intros H. apply list_elem_of_singleton in H. discriminate.
    + repeat split; try reflexivity.
      repeat constructor; simpl; discriminate.
  - destruct (sendViaSMTP draft) as [messageId | message]; [| discriminate].
    intros [= <-]. split; [apply NoDup_singleton |].
    repeat split; try reflexivity. repeat constructor; simpl; discriminate.
Qed.

(** A draft that is ready to send is handed to the transport once and
    leaves the outbox: when the transport delivers it, the draft is in
    [sent/] with the status [sent], the fields the transport reported and
    the time; when the transport refuses it, the draft is in [failed/]
    with the status [failed], the message of the error and the time. The
    call does not throw, the other properties of the draft are kept, and
    no file besides these three is touched. *)
Lemma ready_draft_sent (sendClient : Sender.SendClient) (fs : gmap (list N) json)
        (email name : jsstring) (base : option jsstring) (fields : list (jsstring * json)) :
  plain_segment name ->
  fs !! outbox_file homedir email name base = Some (JObj fields) ->
  assoc (js "status") fields = Some (JStr (js "ready_to_send")) ->
  let result := sendDraft sendClient fs email name base in
  let after := Sender.disk result in
  Sender.thrown result = None
  /\ Sender.handed_over result = [JObj fields]
  /\ after !! outbox_file homedir email name base = None
  /\ (forall p, p <> outbox_file homedir email name base ->
                p <> terminal_file homedir email name (js "sent") base ->
                p <> terminal_file homedir email name (js "failed") base ->
                after !! p = fs !! p)
  /\ match Sender.deliver sendClient (JObj fields) with
     | Sender.Delivered reported =>
         after !! terminal_file homedir email name (js "failed") base
         = fs !! terminal_file homedir email name (js "failed") base
         /\ exists fields',
             after !! terminal_file homedir email name (js "sent") base = Some (JObj fields')
             /\ assoc (js "status") fields' = Some (JStr (js "sent"))
             /\ assoc (js "sent_at") fields' = Some (JStr now)
             /\ (forall k v, In (k, v) reported -> assoc k fields' = Some v)
             /\ (forall k, k <> js "status" -> k <> js "sent_at" ->
                           assoc k reported = None -> assoc k fields' = assoc k fields)
     | Sender.Refused message =>
         after !! terminal_file homedir email name (js "sent") base
         = fs !! terminal_file homedir email name (js "sent") base
         /\ exists fields',
             after !! terminal_file homedir email name (js "failed") base = Some (JObj fields')
             /\ assoc (js "status") fields' = Some (JStr (js "failed"))
             /\ assoc (js "failed_at") fields' = Some (JStr now)
             /\ assoc (js "error") fields' = Some (JStr message)
             /\ (forall k, k <> js "status" -> k <> js "failed_at" -> k <> js "error" ->
                           assoc k fields' = assoc k fields)
     end.
Proof.
  intros Hname Hfile Hstatus result after.
  destruct (outbox_files_distinct homedir email name base Hname) as (Hos & Hof & Hsf).
  (* the step to [sending] *)
  destruct (in_place_step homedir now fs email name
              (js "ready_to_send") (js "sending") None base fields Hfile Hstatus
              ltac:(right; split; reflexivity))
    as (fields1 & Hstep1 & (Hst1 & _ & Hkeep1)).
  set (fs1 := <[outbox_file homedir email name base := JObj fields1]> fs) in *.
  assert (Hfile1 : fs1 !! outbox_file homedir email name base = Some (JObj fields1))
    by apply lookup_insert_eq.
  assert (Hstatus1 : assoc (js "status") fields1 = Some (JStr (js "sending")))
    by (apply Hst1; reflexivity).
  assert (Hresult : result
                    = match Sender.deliver sendClient (JObj fields) with
                      | Sender.Delivered reported =>
                          match transitionDraft fs1 email name (js "sent") (Some reported) base with
                          | (None, fs2) =>
                              {| Sender.thrown := None; Sender.disk := fs2;
                                 Sender.handed_over := [JObj fields] |}
                          | (Some e, fs2) =>
                              let '(e', fs3) :=
                                transitionDraft fs2 email name (js "failed")
                                  (Some [(js "error", JStr (message_of e))]) base in
                              {| Sender.thrown := e'; Sender.disk := fs3;
                                 Sender.handed_over := [JObj fields] |}
                          end
                      | Sender.Refused message =>
                          let '(e', fs2) :=
                            transitionDraft fs1 email name (js "failed")
                              (Some [(js "error", JStr message)]) base in
                          {| Sender.thrown := e'; Sender.disk := fs2;
                             Sender.handed_over := [JObj fields] |}
                      end).
  { subst result. unfold Sender.sendDraft.
    fold (outbox_file homedir email name base). rewrite Hfile.
    unfold Sender.status_is. cbn [get]. rewrite Hstatus.
    change (jsstring_eqb (js "ready_to_send") (js "ready_to_send")) with true.
    cbn [negb]. cbv iota. rewrite Hstep1. reflexivity. }
  assert (Hframe1 : forall p, p <> outbox_file homedir email name base -> fs1 !! p = fs !! p).
  { intros p Hp. subst fs1. now rewrite lookup_insert_ne by congruence. }
  destruct (Sender.deliver sendClient (JObj fields)) as [reported | message] eqn:Edel.
  - destruct (deliver_fields _ _ _ Edel) as (Hnd & Hnostatus & Hnostamp & Hkeys).
    destruct (moving_step homedir now fs1 email name (js "sent")
                (Some reported) base fields1 Hname Hfile1 Hstatus1 ltac:(now left))
      as (fs2 & fields2 & Hstep2 & Hgone & Hdest & Hstamp & (Hst2 & Hext2 & Hkeep2) & Hframe2).
    rewrite Hstep2 in Hresult. subst after. rewrite Hresult. simpl.
    split; [reflexivity |]. split; [reflexivity |]. split; [exact Hgone |].
    split.
    { intros p Hp Hps Hpf. rewrite Hframe2 by assumption. now apply Hframe1. }
    split.
    { rewrite Hframe2 by congruence. apply Hframe1. congruence. }
    exists fields2. split; [exact Hdest |].
    split; [apply Hst2; exact Hnostatus |]. split; [exact Hstamp |].
    split.
    + intros k v Hin. apply (Hext2 Hnd k v Hin).
      rewrite Forall_forall in Hkeys. apply list_elem_of_In in Hin.
      destruct (Hkeys _ Hin) as [_ Hk]. simpl in Hk.
      change (stamp_key (js "sent")) with (js "sent_at"). congruence.
    + intros k Hk Hk' Hnone.
      rewrite Hkeep2; [| assumption | change (stamp_key (js "sent")) with (js "sent_at"); congruence
                       | exact Hnone].
      apply Hkeep1; [assumption | discriminate | reflexivity].
  - destruct (moving_step homedir now fs1 email name (js "failed")
                (Some [(js "error", JStr message)]) base fields1 Hname Hfile1 Hstatus1
                ltac:(now right))
      as (fs2 & fields2 & Hstep2 & Hgone & Hdest & Hstamp & (Hst2 & Hext2 & Hkeep2) & Hframe2).
    rewrite Hstep2 in Hresult. subst after. rewrite Hresult. simpl.
    split; [reflexivity |]. split; [reflexivity |]. split; [exact Hgone |].
    split.
    { intros p Hp Hps Hpf. rewrite Hframe2 by assumption. now apply Hframe1. }
    split.
    { rewrite Hframe2 by congruence. apply Hframe1. congruence. }
    exists fields2. split; [exact Hdest |].
    split; [apply Hst2; reflexivity |]. split; [exact Hstamp |].
    split.
    + apply (Hext2 ltac:(apply NoDup_singleton) _ _ ltac:(left; reflexivity)).
      change (stamp_key (js "failed")) with (js "failed_at"). discriminate.
    + intros k Hk Hk' Hk''.
      rewrite Hkeep2; [| assumption
                       | change (stamp_key (js "failed")) with (js "failed_at"); congruence
                       | simpl; now rewrite (proj2 (jsstring_eqb_neq k (js "error")) Hk'')].
      apply Hkeep1; [assumption | discriminate | reflexivity].
Qed.

End SendDraft.

(** ** watcher.ts *)

(** Joining plain segments to a normal path: the path that results. *)
Lemma join_extend_render (abs : bool) (stack l : list jsstring) (A : jsstring) :
  normal_path abs stack A -> Forall plain_segment l -> l <> [] ->
  NodePath.join (A :: l) = render abs false (stack ++ l).
Proof.
  intros [Hok [trailing ->]] Hl Hne.
  pose proof (stack_ok_clean _ _ Hok) as Hclean.
  apply Forall_rev in Hclean. rewrite rev_involutive in Hclean.
  set (A := render abs trailing stack).
  assert (HA : A <> []) by apply render_not_nil.
  assert (Hparts : filter (fun a : jsstring => a <> []) (A :: l) = A :: l).
  { rewrite filter_cons_True by exact HA. f_equal.
    clear Hne. induction Hl as [|s l [(H1 & _) _] _ IH]; [reflexivity |].
    rewrite filter_cons_True by exact H1. now rewrite IH. }
  assert (Hjoined : JS.join [SLASH] (A :: l) = A ++ SLASH :: JS.join [SLASH] l).
  { destruct l; [congruence | reflexivity]. }
  unfold NodePath.join. rewrite Hparts.
  assert (Hpath : JS.join [SLASH] (A :: l) <> []).
  { rewrite Hjoined. destruct A; discriminate. }
  rewrite (normalize_render _ Hpath), Hjoined.
  assert (Habs : NodePath.isAbsolute (A ++ SLASH :: JS.join [SLASH] l) = abs).
  { rewrite <- (isAbsolute_render abs trailing stack Hclean). fold A.
    destruct A; [congruence | reflexivity]. }
  assert (Htr : NodePath.hasTrailingSeparator (A ++ SLASH :: JS.join [SLASH] l) = false).
  { replace (A ++ SLASH :: JS.join [SLASH] l) with ((A ++ [SLASH]) ++ JS.join [SLASH] l)
      by (rewrite <- app_assoc; reflexivity).
    apply join_last_char; assumption. }
  rewrite Habs, Htr. f_equal.
  rewrite normalizeSegments_segments, split_app_sep, filter_app.
  change (filter (fun s => s <> [] /\ s <> [DOT]) (split SLASH A))
    with (NodePath.segments A).
  unfold A. rewrite segments_render by exact Hclean.
  rewrite split_join by (try assumption; apply clean_no_slash, plain_is_clean, Hl).
  rewrite (filter_kept_segments l) by (apply plain_is_clean, Hl).
  rewrite normalizeSegments_idem; [reflexivity |].
  rewrite app_nil_r. now apply stack_ok_push_plain.
Qed.

Lemma join_snoc (sep : jsstring) (l : list jsstring) (x : jsstring) :
  JS.join sep (l ++ [x]) = match l with [] => x | _ => JS.join sep l ++ sep ++ x end.
Proof.
  induction l as [|a l IH]; [reflexivity |].
  destruct l as [|b l']; [reflexivity |].
  change (JS.join sep ((a :: b :: l') ++ [x]))
    with (a ++ sep ++ JS.join sep ((b :: l') ++ [x])).
  rewrite IH.
  change (JS.join sep (a :: b :: l')) with (a ++ sep ++ JS.join sep (b :: l')).
  now rewrite <- !app_assoc.
Qed.

Lemma take_while_all (p : N -> bool) (l rest : jsstring) :
  forallb p l = true ->
  match rest with [] => True | c :: _ => p c = false end ->
  Url.take_while p (l ++ rest) = l.
Proof.
  intros Hl Hrest. induction l as [|a l IH]; simpl.
  - destruct rest as [|c r]; [reflexivity |]. simpl. now rewrite Hrest.
  - simpl in Hl. apply andb_prop in Hl as [Ha Hl]. rewrite Ha. f_equal. now apply IH.
Qed.

(** The name the watcher reads from the path of a file in the outbox. *)
Lemma basename_outbox_file (homedir email name : jsstring) (base : option jsstring) :
  plain_segment name -> ~ In BACKSLASH name ->
  Watcher.basename (outbox_file homedir email name base) = name.
Proof.
  intros Hname Hback.
  destruct (join_normal [Paths.baseDir homedir base; js "accounts"; email])
    as (abs & stack & Hacct).
  fold (Paths.accountDir homedir email base) in Hacct.
  assert (Hl : Forall plain_segment [js "outbox"])
    by (constructor; [now apply (ascii_literal_plain "outbox") | constructor]).
  pose proof (join_extend abs stack [js "outbox"] _ Hacct Hl ltac:(discriminate)) as Hdir.
  change (NodePath.join [Paths.accountDir homedir email base; js "outbox"])
    with (Paths.outboxDir homedir email base) in Hdir.
  unfold outbox_file.
  assert (Hn : Forall plain_segment [name]) by (constructor; [exact Hname | constructor]).
  rewrite (join_extend_render abs _ [name] _ Hdir Hn ltac:(discriminate)).
  unfold render. rewrite join_snoc.
  destruct Hname as [(Hne & _ & Hslash) _].
  assert (Hchars : forallb (fun c => negb ((c =? SLASH) || (c =? BACKSLASH))) (rev name) = true).
  { apply forallb_forall. intros c Hc. apply in_rev in Hc.
    apply negb_true_iff, orb_false_intro; apply N.eqb_neq; intros ->; contradiction. }
  assert (Hbase : forall pre, match rev pre with [] => True | c :: _ => c = SLASH end ->
                              Watcher.basename (pre ++ name) = name).
  { intros pre Hpre. unfold Watcher.basename. rewrite rev_app_distr.
    rewrite take_while_all; [apply rev_involutive | exact Hchars |].
    destruct (rev pre) as [|c r]; [exact I |]. subst c. reflexivity. }
  destruct (stack ++ [js "outbox"]) as [|s0 st] eqn:Est.
  { destruct stack; discriminate. }
  set (dir := JS.join [SLASH] (s0 :: st)).
  destruct (dir ++ [SLASH] ++ name) as [|c p] eqn:Ep.
  { destruct dir; discriminate. }
  rewrite <- Ep. destruct abs.
  - replace (SLASH :: dir ++ [SLASH] ++ name) with ((SLASH :: dir ++ [SLASH]) ++ name)
      by (simpl; now rewrite <- app_assoc).
    apply Hbase. simpl. rewrite rev_app_distr. reflexivity.
  - replace (dir ++ [SLASH] ++ name) with ((dir ++ [SLASH]) ++ name)
      by now rewrite <- app_assoc.
    apply Hbase. rewrite rev_app_distr. reflexivity.
Qed.

Section Watching.
Variable homedir : jsstring.
Variable now : jsstring.
Variable message_of : StateMachine.error -> jsstring.

Local Abbreviation handleFile := (Watcher.handleFile homedir now message_of).

Lemma status_is_object (data : json) (s : jsstring) :
  Sender.status_is data s = true ->
  exists fields, data = JObj fields /\ assoc (js "status") fields = Some (JStr s).
Proof.
  unfold Sender.status_is. destruct data as [| b | n | t | items | fields]; try discriminate.
  cbn [get]. destruct (assoc (js "status") fields) as [[| | | st | |]|] eqn:E;
    try discriminate.
  intros H. apply jsstring_eqb_eq in H. subst st. now exists fields.
Qed.

(** The watcher acts on approved drafts only. For a file of the outbox
    whose name is a plain segment without a backslash, either no file is
    touched and nothing is handed to the transport, or the file is a
    [.json] file that holds a valid draft which is ready to send, or
    pending while the review is switched off; and what is handed to the
    transport is that draft, with the status [ready_to_send] and every
    other property as it is in the file. *)
Theorem handleFile_acts_on_approved_drafts (options : Watcher.OutboxWatcherOptions)
        (fs : gmap (list N) json) (name : jsstring) :
  plain_segment name -> ~ In BACKSLASH name ->
  let filePath := outbox_file homedir (Watcher.email options) name (Watcher.base options) in
  let '(after, handed, events) := handleFile options fs filePath in
  (after = fs /\ handed = [])
  \/ (exists fields,
        fs !! filePath = Some (JObj fields)
        /\ endsWith name (js ".json") = true
        /\ Validator.valid (Validator.validateDraft (JObj fields)) = true
        /\ (assoc (js "status") fields = Some (JStr (js "ready_to_send"))
            \/ (Watcher.reviewBeforeSend options = false
                /\ assoc (js "status") fields = Some (JStr (js "pending_review"))))
        /\ forall d, In d handed ->
             exists sent,
               d = JObj sent
               /\ assoc (js "status") sent = Some (JStr (js "ready_to_send"))
               /\ forall k, k <> js "status" -> assoc k sent = assoc k fields).
Proof.
  intros Hname Hback filePath. subst filePath.
  unfold Watcher.handleFile.
  rewrite (basename_outbox_file _ _ _ _ Hname Hback).
  destruct (endsWith name (js ".json")) eqn:Ejson; [| left; split; reflexivity].
  cbn [negb orb].
  destruct (endsWith name (js ".tmp")); [left; split; reflexivity |].
  destruct (fs !! outbox_file homedir (Watcher.email options) name (Watcher.base options))
    as [data|] eqn:Efile; [| left; split; reflexivity].
  destruct (Validator.valid (Validator.validateDraft data)) eqn:Evalid;
    [| left; split; reflexivity].
  cbn [negb].
  assert (Hready : forall fields,
             data = JObj fields ->
             assoc (js "status") fields = Some (JStr (js "ready_to_send")) ->
             let sent := Sender.sendDraft homedir now message_of (Watcher.sendClient options)
                           fs (Watcher.email options) name (Watcher.base options) in
             Sender.handed_over sent = [JObj fields]).
  { intros fields -> Hst.
    destruct (ready_draft_sent homedir now message_of (Watcher.sendClient options) fs
                (Watcher.email options) name (Watcher.base options) fields
                Hname Efile Hst) as (_ & Hh & _).
    exact Hh. }
  assert (Hcase_ready :
              Sender.status_is data (js "ready_to_send") = true ->
              let sent := Sender.sendDraft homedir now message_of (Watcher.sendClient options)
                            fs (Watcher.email options) name (Watcher.base options) in
              exists fields,
                Some data = Some (JObj fields)
                /\ true = true
                /\ Validator.valid (Validator.validateDraft (JObj fields)) = true
                /\ (assoc (js "status") fields = Some (JStr (js "ready_to_send"))
                    \/ (Watcher.reviewBeforeSend options = false
                        /\ assoc (js "status") fields = Some (JStr (js "pending_review"))))
                /\ forall d, In d (Sender.handed_over sent) ->
                     exists sent',
                       d = JObj sent'
                       /\ assoc (js "status") sent' = Some (JStr (js "ready_to_send"))
                       /\ forall k, k <> js "status" -> assoc k sent' = assoc k fields).
  { intros Hst sent.
    destruct (status_is_object _ _ Hst) as (fields & Hdata & Hstatus).
    exists fields. split; [now rewrite Hdata |]. split; [reflexivity |].
    split; [now rewrite <- Hdata |]. split; [now left |].
    intros d Hd. subst sent. rewrite (Hready fields Hdata Hstatus) in Hd.
    destruct Hd as [<- | []]. exists fields. now repeat split. }
  destruct (Watcher.reviewBeforeSend options) eqn:Ereview; cbn [negb andb].
  - destruct (Sender.status_is data (js "ready_to_send")) eqn:Eready; cbn [orb].
    + specialize (Hcase_ready eq_refl). cbv zeta in Hcase_ready.
      destruct (Sender.thrown _); right; exact Hcase_ready.
    + left. split; reflexivity.
  - destruct (Sender.status_is data (js "pending_review")) eqn:Epending.
    + destruct (status_is_object _ _ Epending) as (fields & -> & Hstatus).
      unfold StateMachine.autoPromote.
      destruct (in_place_step homedir now fs (Watcher.email options) name
                  (js "pending_review") (js "ready_to_send") None (Watcher.base options)
                  fields Efile Hstatus ltac:(left; split; reflexivity))
        as (fields' & Hstep & Hstepped).
      rewrite Hstep. rewrite orb_true_r.
      destruct Hstepped as (Hst' & _ & Hsame).
      specialize (Hst' eq_refl).
      set (fs1 := <[outbox_file homedir (Watcher.email options) name (Watcher.base options)
                    := JObj fields']> fs).
      assert (Hfile1 : fs1 !! outbox_file homedir (Watcher.email options) name
                               (Watcher.base options) = Some (JObj fields'))
        by apply lookup_insert_eq.
      destruct (ready_draft_sent homedir now message_of (Watcher.sendClient options) fs1
                  (Watcher.email options) name (Watcher.base options) fields'
                  Hname Hfile1 Hst') as (Hthrown & Hh & _).
      cbv zeta in Hthrown, Hh. rewrite Hthrown, Hh.
      right. exists fields. split; [reflexivity |]. split; [reflexivity |].
      split; [exact Evalid |]. split; [right; now split |].
      intros d [<- | []]. exists fields'. split; [reflexivity |]. split; [exact Hst' |].
      intros k Hk. apply Hsame; [exact Hk | discriminate | reflexivity].
    + cbn [orb]. rewrite orb_false_r.
      destruct (Sender.status_is data (js "ready_to_send")) eqn:Eready.
      * specialize (Hcase_ready eq_refl). cbv zeta in Hcase_ready.
        destruct (Sender.thrown _); right; exact Hcase_ready.
      * left. split; reflexivity.
Qed.

Lemma json_is_not_tmp (s : jsstring) :
  endsWith s (js ".json") = true -> endsWith s (js ".tmp") = false.
Proof.
  unfold endsWith. destruct (rev s) as [|c r]; [discriminate |].
  change (rev (js ".json")) with (110 :: rev (js ".jso")).
  change (rev (js ".tmp")) with (112 :: rev (js ".tm")).
  cbn [startsWith]. intros H. apply andb_prop in H as [H _].
  apply N.eqb_eq in H. subst c. reflexivity.
Qed.

(** With the review switched off, a valid pending draft that appears in
    the outbox is promoted and sent in one go: the draft handed to the
    transport is the draft with the status [ready_to_send], the file
    leaves the outbox for [sent/] when the transport delivers it and for
    [failed/], with the message of the error, when the transport refuses
    it. Both callbacks, for the draft detected and for the draft sent, are
    called in either case. *)
Theorem handleFile_sends_without_review (options : Watcher.OutboxWatcherOptions)
        (fs : gmap (list N) json) (name : jsstring) (fields : list (jsstring * json)) :
  Watcher.reviewBeforeSend options = false ->
  plain_segment name -> ~ In BACKSLASH name -> endsWith name (js ".json") = true ->
  let email := Watcher.email options in
  let base := Watcher.base options in
  let filePath := outbox_file homedir email name base in
  fs !! filePath = Some (JObj fields) ->
  Validator.valid (Validator.validateDraft (JObj fields)) = true ->
  assoc (js "status") fields = Some (JStr (js "pending_review")) ->
  let '(after, handed, events) := handleFile options fs filePath in
  events = [Watcher.DraftDetected name; Watcher.DraftSent name]
  /\ after !! filePath = None
  /\ exists promoted,
      handed = [JObj promoted]
      /\ assoc (js "status") promoted = Some (JStr (js "ready_to_send"))
      /\ (forall k, k <> js "status" -> assoc k promoted = assoc k fields)
      /\ match Sender.deliver (Watcher.sendClient options) (JObj promoted) with
         | Sender.Delivered reported =>
             exists fields',
               after !! terminal_file homedir email name (js "sent") base = Some (JObj fields')
               /\ assoc (js "status") fields' = Some (JStr (js "sent"))
               /\ (forall k v, In (k, v) reported -> assoc k fields' = Some v)
         | Sender.Refused message =>
             exists fields',
               after !! terminal_file homedir email name (js "failed") base
               = Some (JObj fields')
               /\ assoc (js "status") fields' = Some (JStr (js "failed"))
               /\ assoc (js "error") fields' = Some (JStr message)
         end.
Proof.
  intros Hreview Hname Hback Hjson email base filePath Hfile Hvalid Hstatus.
  unfold Watcher.handleFile. subst filePath email base.
  rewrite (basename_outbox_file _ _ _ _ Hname Hback), Hjson, (json_is_not_tmp _ Hjson).
  cbn [negb orb]. rewrite Hfile, Hvalid, Hreview. cbn [negb andb].
  assert (Hpending : Sender.status_is (JObj fields) (js "pending_review") = true).
  { unfold Sender.status_is. cbn [get]. now rewrite Hstatus. }
  rewrite Hpending. unfold StateMachine.autoPromote.
  destruct (in_place_step homedir now fs (Watcher.email options) name
              (js "pending_review") (js "ready_to_send") None (Watcher.base options)
              fields Hfile Hstatus ltac:(left; split; reflexivity))
    as (promoted & Hstep & (Hst & _ & Hkeep)).
  rewrite Hstep, orb_true_r.
  set (fs1 := <[outbox_file homedir (Watcher.email options) name (Watcher.base options)
                 := JObj promoted]> fs).
  assert (Hfile1 : fs1 !! outbox_file homedir (Watcher.email options) name (Watcher.base options)
                   = Some (JObj promoted)) by apply lookup_insert_eq.
  assert (Hready : assoc (js "status") promoted = Some (JStr (js "ready_to_send")))
    by (apply Hst; reflexivity).
  destruct (ready_draft_sent homedir now message_of (Watcher.sendClient options) fs1
              (Watcher.email options) name (Watcher.base options) promoted
              Hname Hfile1 Hready)
    as (Hthrown & Hhanded & Hgone & _ & Hcases).
  rewrite Hthrown, Hhanded.
  split; [reflexivity |]. split; [exact Hgone |].
  exists promoted. split; [reflexivity |]. split; [exact Hready |].
  split; [intros k Hk; apply Hkeep; [exact Hk | discriminate | reflexivity] |].
  destruct (Sender.deliver (Watcher.sendClient options) (JObj promoted)) as [reported | message].
  - destruct Hcases as (_ & fields' & Hdest & Hsent & _ & Hrep & _).
    exists fields'. repeat split; assumption.
  - destruct Hcases as (_ & fields' & Hdest & Hfailed & _ & Herr & _).
    exists fields'. repeat split; assumption.
Qed.

End Watching.

(** ** The outbox, step by step *)

Section OutboxTheorems.
Variable homedir : jsstring.
Variable now : jsstring.
Variable message_of : StateMachine.error -> jsstring.

(** An allowed step is carried out. For a draft in the outbox and one of
    the four steps, the call does not throw; a step to [ready_to_send] or
    [sending] rewrites the file where it is, a step to [sent] or [failed]
    removes it from the outbox and writes it under the same name in
    [sent/] or [failed/] with the time of the move. The draft written has
    the new status and the additions given, every other property is as
    before, and no other file changes. *)
Theorem transitionDraft_performs_allowed_step (fs : gmap (list N) json)
        (email name s t : jsstring) (extra : option (list (jsstring * json)))
        (base : option jsstring) (fields : list (jsstring * json)) :
  plain_segment name ->
  fs !! outbox_file homedir email name base = Some (JObj fields) ->
  assoc (js "status") fields = Some (JStr s) ->
  StateMachine.allowed_transition s t ->
  let terminal := jsstring_eqb t (js "sent") || jsstring_eqb t (js "failed") in
  let place :=
    if terminal then terminal_file homedir email name t base
    else outbox_file homedir email name base in
  exists fs' fields',
    StateMachine.transitionDraft homedir now fs email name t extra base = (None, fs')
    /\ fs' !! place = Some (JObj fields')
    /\ (terminal = true ->
        fs' !! outbox_file homedir email name base = None
        /\ assoc (stamp_key t) fields' = Some (JStr now))
    /\ stepped fields fields' t (default [] extra)
         (if terminal then Some (stamp_key t) else None)
    /\ (forall p, p <> outbox_file homedir email name base -> p <> place ->
                  fs' !! p = fs !! p).
Proof.
  intros Hname Hfile Hstatus Hallowed terminal place.
  destruct Hallowed as [[-> ->] | [[-> ->] | [[-> ->] | [-> ->]]]]; subst terminal place.
  - destruct (in_place_step homedir now fs email name _ (js "ready_to_send") extra base fields
                Hfile Hstatus ltac:(left; split; reflexivity)) as (fields' & Hrun & Hstepped).
    eexists _, fields'. split; [exact Hrun |].
    change (jsstring_eqb (js "ready_to_send") (js "sent")
            || jsstring_eqb (js "ready_to_send") (js "failed")) with false. cbv iota.
    split; [apply lookup_insert_eq |]. split; [discriminate |]. split; [exact Hstepped |].
    intros p Hp _. now rewrite lookup_insert_ne by congruence.
  - destruct (in_place_step homedir now fs email name _ (js "sending") extra base fields
                Hfile Hstatus ltac:(right; split; reflexivity)) as (fields' & Hrun & Hstepped).
    eexists _, fields'. split; [exact Hrun |].
    change (jsstring_eqb (js "sending") (js "sent")
            || jsstring_eqb (js "sending") (js "failed")) with false. cbv iota.
    split; [apply lookup_insert_eq |]. split; [discriminate |]. split; [exact Hstepped |].
    intros p Hp _. now rewrite lookup_insert_ne by congruence.
  - destruct (moving_step homedir now fs email name (js "sent") extra base fields
                Hname Hfile Hstatus ltac:(now left))
      as (fs' & fields' & Hrun & Hgone & Hdest & Hstamp & Hstepped & Hframe).
    exists fs', fields'. split; [exact Hrun |].
    change (jsstring_eqb (js "sent") (js "sent") || jsstring_eqb (js "sent") (js "failed"))
      with true. cbv iota.
    split; [exact Hdest |]. split; [intros _; split; assumption |].
    split; [exact Hstepped | exact Hframe].
  - destruct (moving_step homedir now fs email name (js "failed") extra base fields
                Hname Hfile Hstatus ltac:(now right))
      as (fs' & fields' & Hrun & Hgone & Hdest & Hstamp & Hstepped & Hframe).
    exists fs', fields'. split; [exact Hrun |].
    change (jsstring_eqb (js "failed") (js "sent") || jsstring_eqb (js "failed") (js "failed"))
      with true. cbv iota.
    split; [exact Hdest |]. split; [intros _; split; assumption |].
    split; [exact Hstepped | exact Hframe].
Qed.

(** [sendDraft] sends what is ready and nothing else. A draft of the
    outbox whose status is not [ready_to_send] is left alone: nothing is
    handed to the transport and no file changes. A draft that is ready is
    handed to the transport once and leaves the outbox, for [sent/] with
    the status [sent], the fields the transport reported and the time when
    it was delivered, for [failed/] with the status [failed], the message
    of the error and the time when it was refused. The call does not
    throw, and no file besides these three is touched. *)
Theorem sendDraft_sends_ready_drafts_only (sendClient : Sender.SendClient)
        (fs : gmap (list N) json) (email name : jsstring) (base : option jsstring)
        (fields : list (jsstring * json)) :
  plain_segment name ->
  fs !! outbox_file homedir email name base = Some (JObj fields) ->
  let result := Sender.sendDraft homedir now message_of sendClient fs email name base in
  let after := Sender.disk result in
  Sender.thrown result = None
  /\ (assoc (js "status") fields <> Some (JStr (js "ready_to_send")) ->
      after = fs /\ Sender.handed_over result = [])
  /\ (assoc (js "status") fields = Some (JStr (js "ready_to_send")) ->
      Sender.handed_over result = [JObj fields]
      /\ after !! outbox_file homedir email name base = None
      /\ (forall p, p <> outbox_file homedir email name base ->
                    p <> terminal_file homedir email name (js "sent") base ->
                    p <> terminal_file homedir email name (js "failed") base ->
                    after !! p = fs !! p)
      /\ match Sender.deliver sendClient (JObj fields) with
         | Sender.Delivered reported =>
             exists fields',
               after !! terminal_file homedir email name (js "sent") base = Some (JObj fields')
               /\ assoc (js "status") fields' = Some (JStr (js "sent"))
               /\ assoc (js "sent_at") fields' = Some (JStr now)
               /\ (forall k v, In (k, v) reported -> assoc k fields' = Some v)
               /\ (forall k, k <> js "status" -> k <> js "sent_at" ->
                             assoc k reported = None -> assoc k fields' = assoc k fields)
         | Sender.Refused message =>
             exists fields',
               after !! terminal_file homedir email name (js "failed") base
               = Some (JObj fields')
               /\ assoc (js "status") fields' = Some (JStr (js "failed"))
               /\ assoc (js "failed_at") fields' = Some (JStr now)
               /\ assoc (js "error") fields' = Some (JStr message)
               /\ (forall k, k <> js "status" -> k <> js "failed_at" -> k <> js "error" ->
                             assoc k fields' = assoc k fields)
         end).
Proof.
  intros Hname Hfile result after.
  assert (Hcase : assoc (js "status") fields = Some (JStr (js "ready_to_send"))
                  \/ assoc (js "status") fields <> Some (JStr (js "ready_to_send"))).
  { destruct (assoc (js "status") fields) as [[| | | st | |]|]; try (right; discriminate).
    destruct (decide (st = js "ready_to_send")) as [-> | Hne]; [now left | right; congruence]. }
  destruct Hcase as [Hready | Hnot].
  - destruct (ready_draft_sent homedir now message_of sendClient fs email name base fields
                Hname Hfile Hready) as (Hthrown & Hhanded & Hgone & Hframe & Hcases).
    split; [exact Hthrown |]. split; [intros H; contradiction |]. intros _.
    split; [exact Hhanded |]. split; [exact Hgone |]. split; [exact Hframe |].
    destruct (Sender.deliver sendClient (JObj fields)) as [reported | message].
    + destruct Hcases as (_ & fields' & H). now exists fields'.
    + destruct Hcases as (_ & fields' & H). now exists fields'.
  - assert (Hresult : result = {| Sender.thrown := None; Sender.disk := fs;
                                  Sender.handed_over := [] |}).
    { subst result. unfold Sender.sendDraft.
      fold (outbox_file homedir email name base). rewrite Hfile.
      unfold Sender.status_is. cbn [get].
      destruct (assoc (js "status") fields) as [[| | | st | |]|]; try reflexivity.
      destruct (jsstring_eqb st (js "ready_to_send")) eqn:E; [| reflexivity].
      apply jsstring_eqb_eq in E. subst st. contradiction. }
    subst after. rewrite Hresult. simpl.
    split; [reflexivity |]. split; [intros _; split; reflexivity |]. intros H. contradiction.
Qed.

End OutboxTheorems.

(** A draft of the account [test@gmail.com] that is being sent, and one
    that is ready to be sent. *)
Definition sending_draft_fields : list (jsstring * json) :=
  [ (js "action", JStr (js "compose")); (js "to", JArr [JStr (js "a@b.com")]);
    (js "subject", JStr (js "Test")); (js "body", JStr (js "Hello"));
    (js "status", JStr (js "sending")) ].

Definition ready_draft_fields : list (jsstring * json) :=
  [ (js "action", JStr (js "compose")); (js "to", JArr [JStr (js "a@b.com")]);
    (js "subject", JStr (js "Test")); (js "body", JStr (js "Hello"));
    (js "status", JStr (js "ready_to_send")) ].

Definition draft_005 : jsstring :=
  js "/tmp/base/accounts/test@gmail.com/outbox/draft_005.json".

Lemma draft_005_plain : plain_segment (js "draft_005.json").
Proof.
  apply (ascii_literal_plain "draft_005.json"); first [reflexivity | discriminate].
Qed.

Lemma draft_005_lookup (draft : json) :
  ({[ draft_005 := draft ]} : gmap (list N) json)
    !! outbox_file (js "/home/u") (js "test@gmail.com") (js "draft_005.json")
         (Some (js "/tmp/base"))
  = Some draft.
Proof.
  replace (outbox_file (js "/home/u") (js "test@gmail.com") (js "draft_005.json")
             (Some (js "/tmp/base"))) with draft_005 by (vm_compute; reflexivity).
  apply lookup_singleton_eq.
Qed.

(** The step from [sending] to [sent] on a draft of the outbox. *)
Lemma transitionDraft_moves_sent_draft :
  exists fs' fields',
    StateMachine.transitionDraft (js "/home/u") (js "2026-02-17T09:30:00.000Z")
      {[ draft_005 := JObj sending_draft_fields ]}
      (js "test@gmail.com") (js "draft_005.json") (js "sent")
      (Some [(js "smtp_message_id", JStr (js "m1"))]) (Some (js "/tmp/base"))
    = (None, fs')
    /\ fs' !! draft_005 = None
    /\ fs' !! js "/tmp/base/accounts/test@gmail.com/sent/draft_005.json" = Some (JObj fields')
    /\ assoc (js "status") fields' = Some (JStr (js "sent"))
    /\ assoc (js "sent_at") fields' = Some (JStr (js "2026-02-17T09:30:00.000Z")).
Proof.
  destruct (transitionDraft_performs_allowed_step (js "/home/u")
              (js "2026-02-17T09:30:00.000Z")
              {[ draft_005 := JObj sending_draft_fields ]}
              (js "test@gmail.com") (js "draft_005.json") (js "sending") (js "sent")
              (Some [(js "smtp_message_id", JStr (js "m1"))]) (Some (js "/tmp/base"))
              sending_draft_fields draft_005_plain (draft_005_lookup _) eq_refl
              (or_intror (or_intror (or_introl (conj eq_refl eq_refl)))))
    as (fs' & fields' & Hrun & Hdest & Hterminal & (Hstatus & _) & _).
  destruct (Hterminal eq_refl) as [Hgone Hstamp].
  exists fs', fields'. split; [exact Hrun |]. split; [exact Hgone |].
  split; [exact Hdest |]. split; [apply Hstatus; reflexivity | exact Hstamp].
Defined.

(** A ready draft sent over SMTP ends in [sent/] with the id the transport
    reported. *)
Lemma sendDraft_delivers_ready_draft :
  let result :=
    Sender.sendDraft (js "/home/u") (js "2026-02-17T09:30:00.000Z") (fun _ => js "error")
      (Sender.Smtp (fun _ => inl (JStr (js "m1"))))
      {[ draft_005 := JObj ready_draft_fields ]}
      (js "test@gmail.com") (js "draft_005.json") (Some (js "/tmp/base")) in
  Sender.thrown result = None
  /\ Sender.handed_over result = [JObj ready_draft_fields]
  /\ Sender.disk result !! draft_005 = None
  /\ exists fields',
      Sender.disk result !! js "/tmp/base/accounts/test@gmail.com/sent/draft_005.json"
      = Some (JObj fields')
      /\ assoc (js "status") fields' = Some (JStr (js "sent"))
      /\ assoc (js "smtp_message_id") fields' = Some (JStr (js "m1")).
Proof.
  destruct (sendDraft_sends_ready_drafts_only (js "/home/u")
              (js "2026-02-17T09:30:00.000Z") (fun _ => js "error")
              (Sender.Smtp (fun _ => inl (JStr (js "m1"))))
              {[ draft_005 := JObj ready_draft_fields ]}
              (js "test@gmail.com") (js "draft_005.json") (Some (js "/tmp/base"))
              ready_draft_fields draft_005_plain (draft_005_lookup _))
    as (Hthrown & _ & Hready).
  destruct (Hready eq_refl) as (Hhanded & Hgone & _ & fields' & Hdest & Hstatus & _ & Hrep & _).
  split; [exact Hthrown |]. split; [exact Hhanded |]. split; [exact Hgone |].
  exists fields'. split; [exact Hdest |]. split; [exact Hstatus |].
  apply Hrep. now left.
Defined.

(** The watcher with the review switched on, on the pending draft of the
    outbox. *)
Lemma handleFile_acts_on_approved_drafts_example :
  let options :=
    {| Watcher.sendClient := Sender.Smtp (fun _ => inl (JStr (js "m1")));
       Watcher.email := js "test@gmail.com";
       Watcher.base := Some (js "/tmp/base");
       Watcher.reviewBeforeSend := true |} in
  let filePath :=
    outbox_file (js "/home/u") (js "test@gmail.com") (js "draft_005.json")
      (Some (js "/tmp/base")) in
  let '(after, handed, events) :=
    Watcher.handleFile (js "/home/u") (js "2026-02-17T09:30:00.000Z") (fun _ => js "error")
      options outbox_with_pending_draft filePath in
  (after = outbox_with_pending_draft /\ handed = [])
  \/ (exists fields,
        outbox_with_pending_draft !! filePath = Some (JObj fields)
        /\ endsWith (js "draft_005.json") (js ".json") = true
        /\ Validator.valid (Validator.validateDraft (JObj fields)) = true
        /\ (assoc (js "status") fields = Some (JStr (js "ready_to_send"))
            \/ (Watcher.reviewBeforeSend options = false
                /\ assoc (js "status") fields = Some (JStr (js "pending_review"))))
        /\ forall d, In d handed ->
             exists sent,
               d = JObj sent
               /\ assoc (js "status") sent = Some (JStr (js "ready_to_send"))
               /\ forall k, k <> js "status" -> assoc k sent = assoc k fields).
Proof.
  exact (handleFile_acts_on_approved_drafts (js "/home/u") (js "2026-02-17T09:30:00.000Z")
           (fun _ => js "error")
           {| Watcher.sendClient := Sender.Smtp (fun _ => inl (JStr (js "m1")));
              Watcher.email := js "test@gmail.com";
              Watcher.base := Some (js "/tmp/base");
              Watcher.reviewBeforeSend := true |}
           outbox_with_pending_draft (js "draft_005.json") draft_005_plain
           ltac:(intros H; vm_compute in H; intuition discriminate)).
Defined.

(** The watcher without review on the pending draft of the outbox. *)
Lemma handleFile_sends_pending_draft :
  let '(after, handed, events) :=
    Watcher.handleFile (js "/home/u") (js "2026-02-17T09:30:00.000Z") (fun _ => js "error")
      {| Watcher.sendClient := Sender.Smtp (fun _ => inl (JStr (js "m1")));
         Watcher.email := js "test@gmail.com";
         Watcher.base := Some (js "/tmp/base");
         Watcher.reviewBeforeSend := false |}
      outbox_with_pending_draft draft_005 in
  events = [Watcher.DraftDetected (js "draft_005.json"); Watcher.DraftSent (js "draft_005.json")]
  /\ after !! draft_005 = None
  /\ length handed = 1%nat.
Proof.
  pose proof (handleFile_sends_without_review (js "/home/u")
                (js "2026-02-17T09:30:00.000Z") (fun _ => js "error")
                {| Watcher.sendClient := Sender.Smtp (fun _ => inl (JStr (js "m1")));
                   Watcher.email := js "test@gmail.com";
                   Watcher.base := Some (js "/tmp/base");
                   Watcher.reviewBeforeSend := false |}
                outbox_with_pending_draft (js "draft_005.json")
                [ (js "action", JStr (js "compose")); (js "to", JArr [JStr (js "a@b.com")]);
                  (js "subject", JStr (js "Test")); (js "body", JStr (js "Hello"));
                  (js "status", JStr (js "pending_review"));
                  (js "created_by", JStr (js "agent")) ]
                eq_refl draft_005_plain
                ltac:(intros H; vm_compute in H; intuition discriminate)
                eq_refl (draft_005_lookup _) ltac:(vm_compute; reflexivity) eq_refl) as H.
  cbv zeta in H.
  change (outbox_file (js "/home/u") (js "test@gmail.com") (js "draft_005.json")
            (Some (js "/tmp/base"))) with draft_005 in H.
  destruct (Watcher.handleFile _ _ _ _ _ _) as [[after handed] events].
  destruct H as (Hevents & Hgone & promoted & Hhanded & _).
  split; [exact Hevents |]. split; [exact Hgone |]. now rewrite Hhanded.
Defined.

(** The attachment [../../../etc/passwd] of a thread the grouper named. *)
Lemma attachment_file_inside_account_example :
  AttachmentWriter.filePath (js "/home/u") (js "me@gmail.com") (js "00to5x38")
    (js "../../../etc/passwd") None
  = js "/home/u/.clawmail3/accounts/me@gmail.com/threads/00to5x38/attachments/______etc_passwd"
  /\ NodePath.inside (Paths.accountDir (js "/home/u") (js "me@gmail.com") None)
       (AttachmentWriter.filePath (js "/home/u") (js "me@gmail.com") (js "00to5x38")
          (js "../../../etc/passwd") None) = true.
Proof.
  split; [vm_compute; reflexivity |].
  apply (attachment_file_inside_account (js "/home/u") (js "me@gmail.com") (js "00to5x38")
           (js "../../../etc/passwd") None).
  apply (ascii_literal_plain "00to5x38"); first [reflexivity | discriminate].
Defined.

(** ** jsonl.ts and index-writer.ts: upserts *)

(** [upsertJsonl] by the key [id]. An entry with a new id is appended.
    An entry whose id is in the file replaces the first entry with that
    id, at its place: the file is as long as before and every other line
    is as it was. The array returned is what the file holds afterwards,
    and no other file changes. *)
Theorem upsertJsonl_replaces_or_appends
        (fs : gmap (list N) (list IndexWriter.ThreadIndexEntry))
        (filePath : jsstring) (item : IndexWriter.ThreadIndexEntry) :
  let items := IndexWriter.readJsonl fs filePath in
  let '(after, items') := IndexWriter.upsertJsonl fs filePath item in
  IndexWriter.readJsonl after filePath = items'
  /\ (forall other, other <> filePath ->
                    IndexWriter.readJsonl after other = IndexWriter.readJsonl fs other)
  /\ (~ In (IndexWriter.id item) (map IndexWriter.id items) -> items' = items ++ [item])
  /\ (In (IndexWriter.id item) (map IndexWriter.id items) ->
      length items' = length items
      /\ exists i old,
          items !! i = Some old
          /\ IndexWriter.id old = IndexWriter.id item
          /\ (forall j e, (j < i)%nat -> items !! j = Some e ->
                          IndexWriter.id e <> IndexWriter.id item)
          /\ items' !! i = Some item
          /\ (forall j, j <> i -> items' !! j = items !! j)).
Proof.
  intros items. unfold IndexWriter.upsertJsonl. fold items.
  unfold IndexWriter.readJsonl at 1, IndexWriter.writeJsonl. rewrite lookup_insert_eq. simpl.
  split; [reflexivity |].
  split.
  { intros other Hother. unfold IndexWriter.readJsonl.
    now rewrite lookup_insert_ne by congruence. }
  unfold IndexWriter.upsert.
  destruct (list_find _ items) as [[idx old]|] eqn:E.
  - apply list_find_Some in E as (Hidx & Hid & Hfirst).
    assert (Hin : In (IndexWriter.id item) (map IndexWriter.id items)).
    { rewrite <- Hid. apply in_map, list_elem_of_In.
      eapply list_elem_of_lookup_2; eassumption. }
    split; [intros Hnot; contradiction |]. intros _.
    split; [apply length_insert |].
    exists idx, old. split; [exact Hidx |]. split; [exact Hid |].
    split; [intros j e Hj He; now apply (Hfirst j e) |].
    split; [apply list_lookup_insert_eq; eapply lookup_lt_Some; eassumption |].
    intros j Hj. now apply list_lookup_insert_ne.
  - apply list_find_None in E.
    split; [reflexivity |]. intros Hin. exfalso.
    apply in_map_iff in Hin as (e & Heq & Hin). apply list_elem_of_In in Hin.
    rewrite Forall_forall in E. now apply (E e Hin).
Qed.

Section IndexTwice.
Variable homedir : jsstring.
Variable Date_getTime : jsstring -> option Z.

Local Abbreviation sort_by_last_date := (IndexWriter.sort_by_last_date Date_getTime).
Local Abbreviation upsertThreadIndex := (IndexWriter.upsertThreadIndex homedir Date_getTime).

(** An index that is newest first is left as it is by the sort. *)
Lemma sort_by_last_date_sorted_id (l : list IndexWriter.ThreadIndexEntry) :
  newest_first Date_getTime l -> sort_by_last_date l = l.
Proof.
  unfold newest_first. induction 1 as [|x r Hr IH Hx]; [reflexivity |].
  unfold IndexWriter.sort_by_last_date in *. simpl. rewrite IH.
  destruct r as [|y r']; [reflexivity |]. simpl.
  inversion Hx as [|? ? (ta & tb & Ha & Hb & Hle) _]; subst.
  unfold IndexWriter.keeps_before. rewrite Ha, Hb.
  now rewrite (proj2 (Z.leb_le (tb - ta) 0)) by lia.
Qed.

Lemma upsert_same (items : list IndexWriter.ThreadIndexEntry) item :
  NoDup (map IndexWriter.id items) -> In item items -> IndexWriter.upsert items item = items.
Proof.
  intros Hnd Hin. unfold IndexWriter.upsert.
  destruct (list_find _ items) as [[idx old]|] eqn:E.
  - apply list_find_Some in E as (Hidx & Hid & _).
    apply list_insert_id. rewrite Hidx. f_equal.
    apply list_elem_of_In, list_elem_of_lookup in Hin as [j Hj].
    assert (Hij : idx = j).
    { eapply NoDup_lookup; [exact Hnd | |].
      - rewrite list_lookup_fmap, Hidx. reflexivity.
      - rewrite list_lookup_fmap, Hj. simpl. now rewrite Hid. }
    subst j. congruence.
  - apply list_find_None in E. rewrite Forall_forall in E.
    exfalso. apply (E item); [now apply list_elem_of_In | reflexivity].
Qed.

(** Writing the same entry twice is writing it once: on an index with
    distinct ids whose dates can be read, a second [upsertThreadIndex] of
    the entry leaves the file system as the first one left it. *)
Theorem upsertThreadIndex_idempotent
        (fs : gmap (list N) (list IndexWriter.ThreadIndexEntry))
        (email : jsstring) (entry : IndexWriter.ThreadIndexEntry) (base : option jsstring) :
  let before := IndexWriter.readThreadIndex homedir fs email base in
  NoDup (map IndexWriter.id before) ->
  Forall (dated Date_getTime) (entry :: before) ->
  upsertThreadIndex (upsertThreadIndex fs email entry base) email entry base
  = upsertThreadIndex fs email entry base.
Proof.
  intros before Hnd Hdated.
  set (path := Paths.threadsIndexPath homedir email base).
  set (once := sort_by_last_date (IndexWriter.upsert before entry)).
  assert (Hfirst : upsertThreadIndex fs email entry base = <[path := once]> fs).
  { unfold IndexWriter.upsertThreadIndex, IndexWriter.upsertJsonl, IndexWriter.writeJsonl.
    fold path. simpl. rewrite insert_insert_eq. reflexivity. }
  assert (Hperm : Permutation once (IndexWriter.upsert before entry))
    by apply sort_by_last_date_perm.
  assert (Hin : In entry once).
  { apply (Permutation_in _ (Permutation_sym Hperm)). apply upsert_has_item. }
  assert (Hids : NoDup (map IndexWriter.id once)).
  { rewrite (Permutation_map IndexWriter.id Hperm).
    destruct (upsert_ids before entry) as [[_ Heq] | [Hnot Heq]]; rewrite Heq.
    - exact Hnd.
    - rewrite map_app. simpl. apply NoDup_app. split; [exact Hnd |]. split.
      + intros x Hx Hx'. apply list_elem_of_In in Hx.
        apply list_elem_of_singleton in Hx'. subst. contradiction.
      + apply NoDup_singleton. }
  assert (Hsorted : newest_first Date_getTime once).
  { apply sort_by_last_date_sorted. apply Forall_forall. intros e He.
    apply list_elem_of_In, upsert_members in He.
    rewrite Forall_forall in Hdated. apply Hdated.
    apply list_elem_of_In. destruct He as [-> | He]; [now left | now right]. }
  rewrite Hfirst.
  unfold IndexWriter.upsertThreadIndex, IndexWriter.upsertJsonl, IndexWriter.writeJsonl,
    IndexWriter.readJsonl.
  fold path. rewrite lookup_insert_eq. simpl.
  rewrite (upsert_same once entry Hids Hin), (sort_by_last_date_sorted_id once Hsorted).
  now rewrite !insert_insert_eq.
Qed.

End IndexTwice.

(** ** maildeck.ts: the [threads] command *)

Lemma In_take {A : Type} (x : A) (n : nat) (l : list A) : In x (take n l) -> In x l.
Proof.
  intros H. rewrite <- (take_drop n l). apply in_or_app. now left.
Qed.

Lemma StronglySorted_take {A : Type} (R : A -> A -> Prop) (n : nat) (l : list A) :
  StronglySorted R l -> StronglySorted R (take n l).
Proof.
  intros H. revert n. induction H as [|x r Hr IH Hx]; intros n.
  - rewrite take_nil. constructor.
  - destruct n as [|n]; simpl; [constructor |].
    constructor; [apply IH |].
    apply Forall_forall. intros y Hy. rewrite Forall_forall in Hx. apply Hx.
    apply list_elem_of_In. apply list_elem_of_In in Hy. eapply In_take; eassumption.
Qed.

Section Threads.
Variable homedir : jsstring.
Variable parseInt : jsstring -> option Z.
Variable Date_getTime : jsstring -> option Z.
Variable JSON_parse : jsstring -> option IndexWriter.ThreadIndexEntry.

Local Abbreviation cmdThreads :=
  (CliThreads.cmdThreads homedir parseInt Date_getTime JSON_parse).

(** [maildeck threads]. The command fails when the configuration cannot
    be loaded, and when no [--account] is given and no account is
    configured; it throws when a line of the index of the account does
    not parse. In every other case it prints a listing: the threads
    listed are the first of the qualifying entries of the index (all
    entries, the unread ones when [--unread] is given) in the order of
    the sort, which is newest first when the dates of the index can be
    read; [total] counts all qualifying entries, listed or not; and the
    number listed is the limit or [total] if that is less (20 when no
    limit is given), [total] less the limit's size for a negative limit
    (none when that is negative), and none when the limit is not a
    number. *)
Theorem cmdThreads_listing (config : option (list jsstring))
        (fs : gmap (list N) jsstring) (flags : list (jsstring * jsstring)) :
  (config = None ->
   cmdThreads config fs flags
   = inl (CliThreads.Fail (js "No config found. Run: maildeck setup")))
  /\ (config = Some [] -> Cli.flag (js "account") flags = None ->
      cmdThreads config fs flags
      = inl (CliThreads.Fail (js "No accounts configured. Run: maildeck setup")))
  /\ (forall accounts email,
         config = Some accounts ->
         CliThreads.resolve_account accounts flags = Some email ->
         JsonlText.readJsonl JSON_parse fs (Paths.threadsIndexPath homedir email None) = None ->
         cmdThreads config fs flags = inl CliThreads.SyntaxError)
  /\ (forall accounts email index,
         config = Some accounts ->
         CliThreads.resolve_account accounts flags = Some email ->
         JsonlText.readJsonl JSON_parse fs (Paths.threadsIndexPath homedir email None)
         = Some index ->
         let unread_only := Cli.flag_is_true (js "unread") flags in
         let qualifying :=
           if unread_only then filter (fun e => IndexWriter.unread e = true) index
           else index in
         exists result rest,
           cmdThreads config fs flags = inr result
           /\ CliThreads.account result = email
           /\ CliThreads.total result = length qualifying
           /\ Permutation (CliThreads.threads result ++ rest) qualifying
           /\ Forall (fun e => In e index /\ (unread_only = true -> IndexWriter.unread e = true))
                     (CliThreads.threads result)
           /\ (Forall (dated Date_getTime) index ->
               newest_first Date_getTime (CliThreads.threads result ++ rest))
           /\ (match Cli.flag (js "limit") flags with
               | Some (c :: d) =>
                   match parseInt (c :: d) with
                   | Some k =>
                       if (k <? 0)%Z
                       then length (CliThreads.threads result)
                            = Z.to_nat (Z.of_nat (length qualifying) + k)
                       else length (CliThreads.threads result)
                            = Nat.min (Z.to_nat k) (length qualifying)
                   | None => CliThreads.threads result = []
                   end
               | _ => length (CliThreads.threads result) = Nat.min 20 (length qualifying)
               end)).
Proof.
  split; [intros ->; reflexivity |].
  split; [intros -> Hflag; unfold CliThreads.cmdThreads, CliThreads.resolve_account;
          now rewrite Hflag |].
  split.
  { intros accounts email -> Hacct Hread.
    unfold CliThreads.cmdThreads. now rewrite Hacct, Hread. }
  intros accounts email index -> Hacct Hread unread_only qualifying.
  unfold CliThreads.cmdThreads. rewrite Hacct, Hread. fold unread_only. fold qualifying.
  set (limit := match Cli.flag (js "limit") flags with
                | Some (c :: d) => parseInt (c :: d)
                | _ => Some 20%Z
                end).
  set (sorted := IndexWriter.sort_by_last_date Date_getTime qualifying).
  assert (Hperm : Permutation sorted qualifying) by apply sort_by_last_date_perm.
  assert (Hlen : length sorted = length qualifying) by apply (Permutation_length Hperm).
  assert (Hqual : forall e, In e qualifying ->
                            In e index /\ (unread_only = true -> IndexWriter.unread e = true)).
  { intros e He. subst qualifying. destruct unread_only.
    - apply list_elem_of_In, list_elem_of_filter in He as [Hu He].
      split; [now apply list_elem_of_In | intros _; exact Hu].
    - split; [exact He | discriminate]. }
  assert (Hslice : exists n, CliThreads.slice_to limit sorted = take n sorted).
  { unfold CliThreads.slice_to. destruct limit as [k|].
    - destruct (k <? 0)%Z; eexists; reflexivity.
    - exists 0%nat. now rewrite take_0. }
  destruct Hslice as (n & Hslice).
  eexists. exists (drop n sorted). split; [reflexivity |]. cbn [CliThreads.account
    CliThreads.total CliThreads.threads].
  split; [reflexivity |]. split; [exact Hlen |].
  rewrite Hslice, take_drop.
  split; [exact Hperm |].
  split.
  { apply Forall_forall. intros e He. apply Hqual.
    apply (Permutation_in _ Hperm). apply list_elem_of_In in He.
    eapply In_take; eassumption. }
  split.
  { intros Hdated. apply sort_by_last_date_sorted.
    apply Forall_forall. intros e He. rewrite Forall_forall in Hdated. apply Hdated.
    apply list_elem_of_In. apply Hqual. apply list_elem_of_In. exact He. }
  rewrite <- Hslice. subst limit. unfold CliThreads.slice_to.
  destruct (Cli.flag (js "limit") flags) as [[|c d] |].
  - change (20 <? 0)%Z with false. cbv iota. rewrite length_take. lia.
  - destruct (parseInt (c :: d)) as [k|]; [| reflexivity].
    destruct (k <? 0)%Z eqn:E.
    + apply Z.ltb_lt in E. rewrite length_take. lia.
    + apply Z.ltb_ge in E. rewrite length_take. lia.
  - change (20 <? 0)%Z with false. cbv iota. rewrite length_take. lia.
Qed.

End Threads.

(** ** Trimmed and collapsed texts *)

Lemma drop_while_head (p : N -> bool) (s : jsstring) (c : N) (r : jsstring) :
  drop_while p s = c :: r -> p c = false.
Proof.
  induction s as [|x s IH]; simpl; [discriminate |].
  destruct (p x) eqn:E; [exact IH |]. intros [= <- _]. exact E.
Qed.

Lemma drop_while_snoc (p : N -> bool) (s : jsstring) (c : N) :
  p c = false -> drop_while p (s ++ [c]) = drop_while p s ++ [c].
Proof.
  intros Hc. induction s as [|x s IH]; simpl; [now rewrite Hc |].
  destruct (p x); [exact IH | reflexivity].
Qed.

Lemma trim_trimmed (s : jsstring) : trimmed (trim s).
Proof.
  unfold trim, trimEnd, trimStart. split.
  - intros c r Heq.
    destruct (drop_while is_space s) as [|x rest] eqn:Estart.
    + simpl in Heq. discriminate.
    + pose proof (drop_while_head _ _ _ _ Estart) as Hx.
      simpl in Heq. rewrite (drop_while_snoc _ _ _ Hx), rev_app_distr in Heq.
      simpl in Heq. inversion Heq; subst. exact Hx.
  - intros c r Heq.
    apply (f_equal (@rev N)) in Heq. rewrite rev_involutive, rev_app_distr in Heq.
    simpl in Heq. eapply drop_while_head. exact Heq.
Qed.

Lemma single_spaced_weaken (s : jsstring) :
  single_spaced true s = true -> single_spaced false s = true.
Proof.
  destruct s as [|c r]; simpl; [trivial |].
  destruct (is_space c); [| trivial]. rewrite andb_false_r. discriminate.
Qed.

Lemma single_spaced_suffix (b : bool) (a s : jsstring) :
  single_spaced b (a ++ s) = true -> single_spaced false s = true.
Proof.
  revert b. induction a as [|c a IH]; intros b; simpl.
  - destruct b; [apply single_spaced_weaken | trivial].
  - destruct (is_space c).
    + intros H. apply andb_prop in H as [_ H]. now apply (IH true).
    + apply IH.
Qed.

Lemma single_spaced_prefix (b : bool) (s t : jsstring) :
  single_spaced b (s ++ t) = true -> single_spaced b s = true.
Proof.
  revert b. induction s as [|c s IH]; intros b; simpl; [trivial |].
  destruct (is_space c).
  - intros H. apply andb_prop in H as [H1 H2]. rewrite H1. simpl. now apply IH.
  - apply IH.
Qed.

Lemma single_spaced_app (b : bool) (s t : jsstring) :
  single_spaced b s = true -> (forall b', single_spaced b' t = true) ->
  single_spaced b (s ++ t) = true.
Proof.
  intros Hs Ht. revert b Hs. induction s as [|c s IH]; intros b Hs; simpl in *; [apply Ht |].
  destruct (is_space c).
  - apply andb_prop in Hs as [H1 H2]. rewrite H1. simpl. now apply IH.
  - now apply IH.
Qed.

Lemma collapse_spaces_single_spaced (b : bool) (s : jsstring) :
  single_spaced b (collapse_spaces_from b s) = true.
Proof.
  revert b. induction s as [|c s IH]; intros b; simpl; [reflexivity |].
  destruct (is_space c) eqn:E.
  - destruct b; [apply IH |].
    cbn [single_spaced]. change (is_space SPACE) with true. cbv iota.
    rewrite N.eqb_refl. cbn [negb andb]. apply IH.
  - cbn [single_spaced]. rewrite E. apply IH.
Qed.

(** What [single_spaced] says, in words. *)
Lemma single_spaced_spec (s : jsstring) :
  single_spaced false s = true ->
  (forall c, In c s -> is_space c = true -> c = SPACE)
  /\ (forall a b, s <> a ++ [SPACE; SPACE] ++ b).
Proof.
  intros H. split.
  - revert H. generalize false. induction s as [|x s IH]; intros b H c Hin Hc; [destruct Hin |].
    simpl in H. destruct Hin as [-> | Hin].
    + rewrite Hc in H. apply andb_prop in H as [H _]. apply andb_prop in H as [H _].
      now apply N.eqb_eq in H.
    + destruct (is_space x).
      * apply andb_prop in H as [_ H]. eapply IH; eassumption.
      * eapply IH; eassumption.
  - intros a b ->. apply single_spaced_suffix in H. simpl in H.
    change (is_space SPACE) with true in H. cbv iota in H. simpl in H. discriminate.
Qed.

Lemma at_most_two_lf_weaken (n m : nat) (s : jsstring) :
  (m <= n)%nat -> at_most_two_lf n s = true -> at_most_two_lf m s = true.
Proof.
  intros Hle. destruct s as [|c r]; simpl; [trivial |].
  destruct (c =? LF); [| trivial].
  intros H. apply andb_prop in H as [H1 H2]. apply Nat.ltb_lt in H1.
  rewrite (proj2 (Nat.ltb_lt m 2)) by lia. simpl.
  revert n m Hle H1 H2. induction r as [|x r IH]; intros n m Hle H1 H2; simpl in *; [trivial |].
  destruct (x =? LF); [| exact H2].
  apply andb_prop in H2 as [H2 H3]. apply Nat.ltb_lt in H2.
  rewrite (proj2 (Nat.ltb_lt (S m) 2)) by lia. simpl.
  apply (IH (S n) (S m)); [lia | lia | exact H3].
Qed.

Lemma at_most_two_lf_suffix (n : nat) (a s : jsstring) :
  at_most_two_lf n (a ++ s) = true -> at_most_two_lf 0 s = true.
Proof.
  revert n. induction a as [|c a IH]; intros n; simpl.
  - apply at_most_two_lf_weaken. lia.
  - destruct (c =? LF).
    + intros H. apply andb_prop in H as [_ H]. now apply (IH (S n)).
    + apply IH.
Qed.

Lemma at_most_two_lf_prefix (n : nat) (s t : jsstring) :
  at_most_two_lf n (s ++ t) = true -> at_most_two_lf n s = true.
Proof.
  revert n. induction s as [|c s IH]; intros n; simpl; [trivial |].
  destruct (c =? LF).
  - intros H. apply andb_prop in H as [H1 H2]. rewrite H1. simpl. now apply IH.
  - apply IH.
Qed.

Lemma collapse_newlines_at_most_two (run : nat) (s : jsstring) :
  at_most_two_lf (Nat.min run 2) (Url.collapse_newlines_from run s) = true.
Proof.
  revert run. induction s as [|c s IH]; intros run;
    cbn [Url.collapse_newlines_from]; [reflexivity |].
  destruct (c =? LF) eqn:E.
  - destruct (run <? 2)%nat eqn:Erun.
    + apply Nat.ltb_lt in Erun. cbn [at_most_two_lf].
      change (LF =? LF) with true. cbv iota.
      rewrite (proj2 (Nat.ltb_lt (Nat.min run 2) 2)) by lia. cbn [andb].
      replace (S (Nat.min run 2)) with (Nat.min (S run) 2) by lia. apply IH.
    + apply Nat.ltb_ge in Erun.
      replace (Nat.min run 2) with (Nat.min (S run) 2) by lia. apply IH.
  - cbn [at_most_two_lf]. rewrite E. apply (IH 0%nat).
Qed.

Lemma at_most_two_lf_spec (s : jsstring) :
  at_most_two_lf 0 s = true -> forall a b, s <> a ++ [LF; LF; LF] ++ b.
Proof.
  intros H a b ->. apply at_most_two_lf_suffix in H. simpl in H.
  change (LF =? LF) with true in H. cbv iota in H. simpl in H. discriminate.
Qed.

(** ** snippet-generator.ts: the shape of a snippet *)

(** With the comparison written in integers the function is the one
    that carries the default cap, for which the two comparisons agree. *)
Lemma generateSnippet_cap_with (body : jsstring) (cap : nat) :
  SnippetGenerator.generateSnippet_cap body cap
  = SnippetGenerator.generateSnippet_with
      (fun lastSpace maxLength => (7 * Z.of_nat maxLength <? 10 * lastSpace)%Z) body cap.
Proof.
  unfold SnippetGenerator.generateSnippet_cap, SnippetGenerator.generateSnippet_with.
  destruct (length (trim (collapse_spaces body)) <=? cap)%nat; [reflexivity |].
  destruct (7 * Z.of_nat cap <? 10 * _)%Z eqn:E; [| reflexivity].
  apply Z.ltb_lt in E.
  destruct (lastIndexOf _ SPACE <? 0)%Z eqn:En; [| reflexivity].
  apply Z.ltb_lt in En. lia.
Qed.

(** A snippet is one line of single-spaced text. Whatever the body, the
    cap (a natural number) and the outcome of the comparison
    [lastSpace > maxLength * 0.7] in doubles: the only white space in the
    snippet is the space character, never two in a row and never at the
    start (so no line break, no tab); the snippet has at most [cap + 3]
    characters; and when the collapsed body fits the cap the snippet does
    not end with a space either. *)
Theorem generateSnippet_single_line (above_cut : Z -> nat -> bool)
        (body : jsstring) (cap : nat) :
  let snippet := SnippetGenerator.generateSnippet_with above_cut body cap in
  (forall c, In c snippet -> is_space c = true -> c = SPACE)
  /\ (forall a b, snippet <> a ++ [SPACE; SPACE] ++ b)
  /\ (forall c r, snippet = c :: r -> is_space c = false)
  /\ (length snippet <= cap + 3)%nat
  /\ ((length (trim (collapse_spaces body)) <= cap)%nat -> trimmed snippet).
Proof.
  intros snippet.
  set (collapsed := trim (collapse_spaces body)).
  assert (Hspaced : single_spaced false collapsed = true).
  { destruct (trim_infix (collapse_spaces body)) as (a & b & Hinfix).
    pose proof (collapse_spaces_single_spaced false body) as H.
    fold (collapse_spaces body) in H. rewrite Hinfix in H.
    apply single_spaced_suffix in H. eapply single_spaced_prefix. exact H. }
  pose proof (trim_trimmed (collapse_spaces body)) as [Hlead _]. fold collapsed in Hlead.
  assert (Hdots : forall b', single_spaced b' (js "...") = true) by (intros b'; reflexivity).
  assert (Hcut : forall n, single_spaced false (take n collapsed ++ js "...") = true
                           /\ (forall c r, take n collapsed ++ js "..." = c :: r ->
                                           is_space c = false)).
  { intros n. split.
    - apply single_spaced_app; [| exact Hdots].
      apply (single_spaced_prefix false _ (drop n collapsed)). now rewrite take_drop.
    - intros c r Heq. destruct collapsed as [|x rest] eqn:Ec.
      + rewrite take_nil in Heq. inversion Heq. reflexivity.
      + destruct n as [|n]; simpl in Heq; inversion Heq; subst; [reflexivity |].
        eapply Hlead. reflexivity. }
  assert (Hshape : snippet = collapsed /\ (length collapsed <= cap)%nat
                   \/ (cap < length collapsed)%nat
                      /\ exists n, (n <= cap)%nat /\ snippet = take n collapsed ++ js "...").
  { subst snippet. unfold SnippetGenerator.generateSnippet_with. fold collapsed.
    destruct (length collapsed <=? cap)%nat eqn:E.
    - left. apply Nat.leb_le in E. now split.
    - right. apply Nat.leb_gt in E. split; [exact E |].
      unfold slice0. destruct (above_cut _ _).
      + destruct (_ <? 0)%Z.
        * eexists (Nat.min _ cap). split; [lia |]. now rewrite take_take.
        * eexists (Nat.min _ cap). split; [lia |]. now rewrite take_take.
      + exists cap. split; [lia | reflexivity]. }
  destruct Hshape as [[-> Hfit] | (Hlong & n & Hn & ->)].
  - destruct (single_spaced_spec collapsed Hspaced) as [H1 H2].
    split; [exact H1 |]. split; [exact H2 |]. split; [exact Hlead |].
    split; [lia |]. intros _. apply trim_trimmed.
  - destruct (Hcut n) as [Hs Hhead].
    destruct (single_spaced_spec _ Hs) as [H1 H2].
    split; [exact H1 |]. split; [exact H2 |]. split; [exact Hhead |].
    split; [rewrite length_app, length_take; simpl; lia |].
    fold collapsed. lia.
Qed.

(** ** noise-normalizer.ts: the shape of a normalised text *)

(** Whatever the text and whatever the URL parser does, the normalised
    text neither starts nor ends with white space and holds no three
    line feeds in a row. *)
Theorem normalizeNoise_normal_form (normalizeNFC : jsstring -> jsstring)
        (URL_parse : jsstring -> option Url.URL) (URL_toString : Url.URL -> jsstring)
        (text : jsstring) :
  let result := NoiseNormalizer.normalizeNoise normalizeNFC URL_parse URL_toString text in
  trimmed result /\ (forall a b, result <> a ++ [LF; LF; LF] ++ b).
Proof.
  intros result. subst result. unfold NoiseNormalizer.normalizeNoise.
  split; [apply trim_trimmed |].
  apply at_most_two_lf_spec.
  set (collapsed := Url.collapse_newlines _).
  destruct (trim_infix collapsed) as (a & b & Hinfix).
  pose proof (collapse_newlines_at_most_two 0 (Url.replace_urls
                (NoiseNormalizer.stripUtmParams URL_parse URL_toString)
                (normalizeNFC text))) as H.
  change (Nat.min 0 2) with 0%nat in H.
  fold (Url.collapse_newlines (Url.replace_urls
          (NoiseNormalizer.stripUtmParams URL_parse URL_toString) (normalizeNFC text))) in H.
  fold collapsed in H. rewrite Hinfix in H.
  apply at_most_two_lf_suffix in H. eapply at_most_two_lf_prefix. exact H.
Qed.

(** ** signature-stripper.ts *)

Lemma join_split (c : N) (s : jsstring) : JS.join [c] (split c s) = s.
Proof.
  induction s as [|x r IH]; [reflexivity |]. simpl.
  destruct (N.eqb_spec x c) as [-> | Hne].
  - destruct (split c r) as [|seg segs] eqn:E; [now destruct r |].
    change (JS.join [c] ([] :: seg :: segs)) with ([] ++ [c] ++ JS.join [c] (seg :: segs)).
    now rewrite IH.
  - destruct (split c r) as [|seg segs] eqn:E; [now destruct r |].
    destruct segs as [|seg' segs'].
    + simpl in *. now rewrite IH.
    + change (JS.join [c] ((x :: seg) :: seg' :: segs'))
        with (x :: (seg ++ [c] ++ JS.join [c] (seg' :: segs'))).
      change (JS.join [c] (seg :: seg' :: segs'))
        with (seg ++ [c] ++ JS.join [c] (seg' :: segs')) in IH.
      now rewrite IH.
Qed.

Lemma cut_index_le (lines : list jsstring) :
  (SignatureStripper.cut_index lines <= length lines)%nat.
Proof.
  induction lines as [|l r IH]; simpl; [lia |].
  destruct (SignatureStripper.is_signature_start (trim l)); lia.
Qed.

Lemma cut_index_none (lines : list jsstring) :
  Forall (fun line => SignatureStripper.is_signature_start (trim line) = false) lines ->
  SignatureStripper.cut_index lines = length lines.
Proof.
  induction 1 as [|l r Hl _ IH]; simpl; [reflexivity |]. now rewrite Hl, IH.
Qed.

Lemma cut_index_first (lines : list jsstring) :
  Forall (fun line => SignatureStripper.is_signature_start (trim line) = false)
         (take (SignatureStripper.cut_index lines) lines)
  /\ (forall line, lines !! SignatureStripper.cut_index lines = Some line ->
                   SignatureStripper.is_signature_start (trim line) = true).
Proof.
  induction lines as [|l r [IH1 IH2]]; simpl.
  - split; [constructor | discriminate].
  - destruct (SignatureStripper.is_signature_start (trim l)) eqn:E; simpl.
    + split; [constructor |]. now intros line [= <-].
    + split; [constructor; assumption | exact IH2].
Qed.

(** The signature stripper cuts at the first line that starts a
    signature and is conservative. The result is the text before that
    line, trimmed, or the whole text, trimmed; it neither starts nor ends
    with white space; for a text of more than 50 characters (trimmed) the
    result keeps at least a fifth of them; and a text without a line that
    starts a signature is returned whole, trimmed. *)
Theorem stripSignature_conservative (text : jsstring) :
  let result := SignatureStripper.stripSignature text in
  let lines := split LF text in
  trimmed result
  /\ (result = trim text
      \/ exists k line,
          lines !! k = Some line
          /\ SignatureStripper.is_signature_start (trim line) = true
          /\ Forall (fun l => SignatureStripper.is_signature_start (trim l) = false)
                    (take k lines)
          /\ result = trim (JS.join [LF] (take k lines)))
  /\ ((50 < length (trim text))%nat -> (length (trim text) <= 5 * length result)%nat)
  /\ (Forall (fun l => SignatureStripper.is_signature_start (trim l) = false) lines ->
      result = trim text).
Proof.
  intros result lines. subst result. unfold SignatureStripper.stripSignature. fold lines.
  set (k := SignatureStripper.cut_index lines).
  set (stripped := trim (JS.join [LF] (take k lines))).
  assert (Hwhole : k = length lines -> stripped = trim text).
  { intros Hk. subst stripped. rewrite Hk, firstn_all. subst lines. now rewrite join_split. }
  destruct (cut_index_first lines) as [Hbefore Hat]. fold k in Hbefore, Hat.
  assert (Hcut : stripped = trim text
                 \/ exists k0 line,
                     lines !! k0 = Some line
                     /\ SignatureStripper.is_signature_start (trim line) = true
                     /\ Forall (fun l => SignatureStripper.is_signature_start (trim l) = false)
                               (take k0 lines)
                     /\ stripped = trim (JS.join [LF] (take k0 lines))).
  { destruct (lines !! k) as [line|] eqn:E.
    - right. exists k, line. repeat split; auto.
    - left. apply Hwhole. apply lookup_ge_None in E.
      pose proof (cut_index_le lines). fold k in H. lia. }
  destruct ((5 * length stripped <? length (trim text))%nat
            && (50 <? length (trim text))%nat) eqn:Efall.
  - split; [apply trim_trimmed |]. split; [now left |]. split; [lia |]. reflexivity.
  - split; [apply trim_trimmed |]. split; [exact Hcut |]. split.
    + intros Hlong. apply andb_false_iff in Efall as [E | E].
      * apply Nat.ltb_ge in E. exact E.
      * apply Nat.ltb_ge in E. lia.
    + intros Hnone. apply Hwhole. now apply cut_index_none.
Qed.

(** cleaning.test.ts *)
Example test_stripSignature :
  SignatureStripper.stripSignature
    (js "Please review the contract." ++ [LF; LF] ++ js "--" ++ [LF] ++ js "John Smith"
       ++ [LF] ++ js "Senior Legal Counsel")
  = js "Please review the contract."
  /\ SignatureStripper.stripSignature
       (js "Can you send me the report?" ++ [LF; LF] ++ js "Sent from my iPhone")
     = js "Can you send me the report?"
  /\ SignatureStripper.stripSignature
       (js "Sent from my iPhone but this is actually important context and more text follows here to make the message longer than the threshold")
     = js "Sent from my iPhone but this is actually important context and more text follows here to make the message longer than the threshold".
Proof. vm_compute. repeat split. Qed.

(** ** maildeck.ts: reading the arguments *)

Lemma own_set_property_same {A : Type} (key : jsstring) (v : A) props :
  CliArgs.own key (CliArgs.set_property key v props) = Some v.
Proof.
  induction props as [|[k w] rest IH]; simpl.
  - now rewrite jsstring_eqb_refl.
  - destruct (jsstring_eqb key k) eqn:E; simpl; rewrite E; auto.
Qed.

Lemma own_set_property_other {A : Type} (key key' : jsstring) (v : A) props :
  key' <> key -> CliArgs.own key' (CliArgs.set_property key v props) = CliArgs.own key' props.
Proof.
  intros Hne. induction props as [|[k w] rest IH]; simpl.
  - now rewrite (proj2 (jsstring_eqb_neq key' key) Hne).
  - destruct (jsstring_eqb key k) eqn:E; simpl.
    + apply jsstring_eqb_eq in E. subst k.
      now rewrite (proj2 (jsstring_eqb_neq key' key) Hne).
    + destruct (jsstring_eqb key' k); [reflexivity | exact IH].
Qed.











(** ** maildeck.ts: the [compose] command *)

Lemma toString_fuel_digits (fuel : nat) (n : N) (acc : jsstring) :
  forallb is_base36 acc = true ->
  forallb is_base36 (JS.toString_fuel fuel 10 n acc) = true.
Proof.
  revert n acc. induction fuel as [|f IH]; intros n acc Hacc; simpl; [exact Hacc |].
  assert (Hcons : forallb is_base36 (digit_char (n mod 10) :: acc) = true).
  { simpl. rewrite Hacc, digit_char_base36; [reflexivity |].
    pose proof (N.mod_upper_bound n 10 ltac:(lia)). lia. }
  destruct (n / 10 =? 0); [exact Hcons | now apply IH].
Qed.

(** The characters of a file name [draft-<number>.json]. *)
Definition name_char (c : N) : bool := is_base36 c || (c =? 45) || (c =? DOT).

Lemma Z_toString_name_chars (z : Z) : forallb name_char (Z_toString z) = true.
Proof.
  assert (H : forall n, forallb name_char (toString_radix 10 n) = true).
  { intros n. apply forallb_forall. intros c Hc.
    pose proof (toString_fuel_digits (S (N.to_nat (N.log2 n))) n [] eq_refl) as Hd.
    rewrite forallb_forall in Hd. unfold name_char.
    now rewrite (Hd c Hc). }
  unfold Z_toString. destruct (z <? 0)%Z; [| apply H].
  rewrite forallb_app, H. reflexivity.
Qed.

Lemma draft_name_plain (ms : Z) :
  let name := js "draft-" ++ Z_toString ms ++ js ".json" in
  plain_segment name /\ ~ In BACKSLASH name /\ endsWith name (js ".json") = true.
Proof.
  intros name.
  assert (Hchars : forallb name_char name = true).
  { subst name. rewrite !forallb_app, Z_toString_name_chars. reflexivity. }
  assert (Hno : forall c, name_char c = false -> ~ In c name).
  { intros c Hc Hin. rewrite forallb_forall in Hchars. rewrite (Hchars c Hin) in Hc.
    discriminate. }
  split; [| split].
  - split; [split; [| split] |].
    + discriminate.
    + discriminate.
    + now apply Hno.
    + discriminate.
  - now apply Hno.
  - subst name. unfold endsWith. rewrite !rev_app_distr.
    apply startsWith_app. eexists. rewrite <- app_assoc. reflexivity.
Qed.

Lemma address_errors_count (l : list jsstring) :
  bool_decide
    (length (flat_map (fun addr => if Validator.bad_address addr
                                   then [js "Invalid email address in to: " ++ ToString addr]
                                   else [])
                      (map JStr l)) = 0%nat)
  = forallb (fun a => includes_char a 64) l.
Proof.
  induction l as [|x l IH]; [reflexivity |].
  cbn [map flat_map forallb Validator.bad_address].
  destruct (includes_char x 64); cbn [negb app andb]; [exact IH |].
  apply bool_decide_eq_false_2. cbn [length]. discriminate.
Qed.

Lemma to_errors_addresses (fields : list (jsstring * json)) (to : jsstring) :
  assoc (js "to") fields = Some (JArr (map JStr (CliCompose.addresses to))) ->
  bool_decide (length (Validator.to_errors (JObj fields)) = 0%nat)
  = forallb (fun a => includes_char a 64) (CliCompose.addresses to).
Proof.
  intros Hto. unfold Validator.to_errors. cbn [get]. rewrite Hto.
  assert (Hne : CliCompose.addresses to <> []).
  { unfold CliCompose.addresses. pose proof (split_not_nil 44 to) as H.
    destruct (split 44 to); [congruence | discriminate]. }
  destruct (CliCompose.addresses to) as [|a rest] eqn:E; [congruence |].
  exact (address_errors_count (a :: rest)).
Qed.

Lemma path_prefixes_self (seen rest : jsstring) :
  In (seen ++ rest) (DirectoryInit.path_prefixes seen rest).
Proof.
  revert seen. induction rest as [|c r IH]; intros seen.
  - rewrite app_nil_r. now left.
  - cbn [DirectoryInit.path_prefixes]. apply in_or_app. right.
    replace (seen ++ c :: r) with ((seen ++ [c]) ++ r) by now rewrite <- app_assoc.
    apply IH.
Qed.

Lemma mkdir_recursive_spec (dk dk' : DirectoryInit.disk) (d : jsstring) :
  DirectoryInit.mkdir_recursive dk d = Some dk' ->
  DirectoryInit.files dk' = DirectoryInit.files dk
  /\ DirectoryInit.dirs dk'
     = DirectoryInit.dirs dk ∪ list_to_set (DirectoryInit.ancestors d).
Proof.
  unfold DirectoryInit.mkdir_recursive. destruct (existsb _ _); [discriminate |].
  intros H. apply (inj Some) in H. subst dk'. split; reflexivity.
Qed.

Lemma initAccountDirs_spec (homedir : jsstring) (dk dk' : DirectoryInit.disk)
      (email : jsstring) (base : option jsstring) :
  DirectoryInit.initAccountDirs homedir dk email base = Some dk' ->
  DirectoryInit.files dk' = DirectoryInit.files dk
  /\ DirectoryInit.dirs dk'
     = DirectoryInit.dirs dk
       ∪ list_to_set (flat_map DirectoryInit.ancestors
                               (DirectoryInit.account_dirs homedir email base)).
Proof.
  unfold DirectoryInit.initAccountDirs.
  generalize (DirectoryInit.account_dirs homedir email base). intros l.
  revert dk. induction l as [|d l IH]; intros dk; cbn [foldl flat_map].
  - intros H. apply (inj Some) in H. subst dk'. split; [reflexivity |].
    rewrite list_to_set_nil. now rewrite (right_id_L ∅ (∪)).
  - cbn [mbind option_bind].
    destruct (DirectoryInit.mkdir_recursive dk d) as [dk1|] eqn:E.
    + intros H. destruct (IH dk1 H) as [Hf Hd].
      destruct (mkdir_recursive_spec _ _ _ E) as [Hf1 Hd1].
      split; [congruence |].
      rewrite Hd, Hd1, list_to_set_app_L. now rewrite (assoc_L (∪)).
    + intros H. exfalso. clear -H. induction l as [|x l IHl]; [discriminate |].
      apply IHl. exact H.
Qed.

Section Compose.
Variable homedir : jsstring.
Variable config : option CliCompose.AppConfig.
Variable signature_txt : jsstring -> option jsstring.
Variable resolveAttachments : list jsstring -> jsstring + list json.
Variable now_ms : Z.
Variable now : jsstring.

Local Abbreviation cmdCompose :=
  (CliCompose.cmdCompose homedir config signature_txt resolveAttachments now_ms now).

(** What [maildeck compose] leaves on disk. When the command succeeds
    it has made sure of the directories [index/], [outbox/], [sent/] and
    [failed/] of the resolved account and of [logs/], with those above
    them, removing none; and it has written one file, [draft-<time>.json]
    in the outbox of the account, and touched no other. The name is one
    the watcher reads (a [.json] name without separators); the draft is
    pending when the configuration asks for a review and ready to send
    otherwise; and the validator accepts the draft exactly when every
    address of [--to], cut at the commas and trimmed, holds an [@]: the
    command itself does not look at the addresses. *)
Theorem cmdCompose_writes_draft (dk dk' : DirectoryInit.disk)
        (flags : list (jsstring * jsstring)) (multiFlags : list (jsstring * list jsstring))
        (out : CliCompose.composed) :
  cmdCompose dk flags multiFlags = inr (dk', out) ->
  exists cfg email to draft,
    config = Some cfg
    /\ match CliArgs.own (js "account") flags with
       | Some a => Some a
       | None => head (CliCompose.accounts cfg)
       end = Some email
    /\ CliCompose.truthy_flag (js "to") flags = Some to
    /\ CliCompose.filename out = js "draft-" ++ Z_toString now_ms ++ js ".json"
    /\ CliCompose.path out = outbox_file homedir email (CliCompose.filename out) None
    /\ DirectoryInit.files dk' = <[CliCompose.path out := draft]> (DirectoryInit.files dk)
    /\ DirectoryInit.dirs dk'
       = DirectoryInit.dirs dk
         ∪ list_to_set (flat_map DirectoryInit.ancestors
                                 (DirectoryInit.account_dirs homedir email None))
    /\ (forall d, In d (DirectoryInit.account_dirs homedir email None) ->
                  d ∈ DirectoryInit.dirs dk')
    /\ plain_segment (CliCompose.filename out)
    /\ ~ In BACKSLASH (CliCompose.filename out)
    /\ endsWith (CliCompose.filename out) (js ".json") = true
    /\ CliCompose.status out
       = (if CliCompose.review_before_send cfg
          then js "pending_review" else js "ready_to_send")
    /\ Sender.status_is draft (CliCompose.status out) = true
    /\ Validator.valid (Validator.validateDraft draft)
       = forallb (fun a => includes_char a 64) (CliCompose.addresses to).
Proof.
  unfold CliCompose.cmdCompose.
  destruct (CliCompose.truthy_flag (js "to") flags) as [to|] eqn:Eto; [| discriminate].
  destruct (CliCompose.truthy_flag (js "subject") flags) as [subject|] eqn:Esub;
    [| discriminate].
  destruct (CliCompose.truthy_flag (js "body") flags) as [body0|] eqn:Ebody; [| discriminate].
  destruct config as [cfg|]; [| discriminate].
  destruct (match CliArgs.own (js "account") flags with
            | Some a => Some a
            | None => head (CliCompose.accounts cfg)
            end) as [email|] eqn:Eacct; [| discriminate].
  destruct (DirectoryInit.initAccountDirs homedir dk email None) as [dk1|] eqn:Einit;
    [| discriminate].
  destruct (initAccountDirs_spec _ _ _ _ _ Einit) as [Hfiles Hdirs].
  destruct (match CliArgs.own (js "attach") multiFlags with
            | Some paths =>
                match resolveAttachments paths with
                | inl missing => inl (js "Attachment not found: " ++ missing)
                | inr atts => inr (Some (JArr atts))
                end
            | None => inr None
            end) as [message | attachments]; [discriminate |].
  set (body := if negb (bool_decide (CliArgs.own (js "no-signature") flags = Some (js "true")))
               then body0 ++ CliCompose.loadSignature (signature_txt email) else body0).
  set (cc := match CliCompose.truthy_flag (js "cc") flags with
             | Some cc => Some (JArr (map JStr (CliCompose.addresses cc)))
             | None => None
             end).
  set (draft_status := if CliCompose.review_before_send cfg
                       then js "pending_review" else js "ready_to_send").
  intros [= <- <-].
  cbn [CliCompose.filename CliCompose.path CliCompose.status
       DirectoryInit.files DirectoryInit.dirs].
  destruct (draft_name_plain now_ms) as (Hplain & Hback & Hjson).
  assert (Hsubject : subject <> []).
  { unfold CliCompose.truthy_flag in Esub.
    destruct (CliArgs.own (js "subject") flags) as [[|c s]|]; inversion Esub. discriminate. }
  assert (Hbody : body <> []).
  { unfold CliCompose.truthy_flag in Ebody.
    destruct (CliArgs.own (js "body") flags) as [[|c s]|]; inversion Ebody; subst.
    subst body. destruct (negb _); discriminate. }
  eexists cfg, email, to, _.
  split; [reflexivity |]. split; [exact Eacct |].
  split; [reflexivity |]. split; [reflexivity |].
  split; [reflexivity |]. split; [rewrite Hfiles; reflexivity |].
  split; [exact Hdirs |].
  split.
  { intros d Hd. rewrite Hdirs. apply elem_of_union_r, elem_of_list_to_set.
    apply list_elem_of_In, in_flat_map. exists d. split; [exact Hd |].
    exact (path_prefixes_self [] d). }
  split; [exact Hplain |]. split; [exact Hback |]. split; [exact Hjson |].
  split; [reflexivity |].
  match goal with
  | |- context [JObj ?f] => set (fields := f)
  end.
  assert (Hfields : assoc (js "action") fields = Some (JStr (js "compose"))
                    /\ assoc (js "to") fields = Some (JArr (map JStr (CliCompose.addresses to)))
                    /\ assoc (js "subject") fields = Some (JStr subject)
                    /\ assoc (js "body") fields = Some (JStr body)
                    /\ assoc (js "status") fields = Some (JStr draft_status)).
  { subst fields. destruct cc, attachments; repeat split; reflexivity. }
  destruct Hfields as (Haction & Hto & Hsubj & Hbd & Hstatus).
  split.
  - unfold Sender.status_is. cbn [get]. rewrite Hstatus. apply jsstring_eqb_refl.
  - unfold Validator.validateDraft. cbn [truthy typeof_object negb orb].
    cbn [Validator.valid].
    assert (Hnil : Validator.action_errors (JObj fields) = []
                   /\ Validator.thread_id_errors (JObj fields) = []
                   /\ Validator.subject_errors (JObj fields) = []
                   /\ Validator.body_errors (JObj fields) = []
                   /\ Validator.status_errors (JObj fields) = []).
    { unfold Validator.action_errors, Validator.thread_id_errors, Validator.subject_errors,
        Validator.body_errors, Validator.status_errors, Validator.is_reply.
      cbn [get]. rewrite Haction, Hsubj, Hbd, Hstatus.
      cbn [truthy is_string Validator.includes_value].
      rewrite (proj2 (jsstring_eqb_neq subject []) Hsubject),
        (proj2 (jsstring_eqb_neq body []) Hbody).
      repeat split; try reflexivity.
      subst draft_status. destruct (CliCompose.review_before_send cfg); reflexivity. }
    destruct Hnil as (-> & -> & -> & -> & ->).
    rewrite app_nil_r. cbn [app]. now apply to_errors_addresses.
Qed.

End Compose.

(** A disk without files or directories. *)
Definition empty_disk : DirectoryInit.disk :=
  {| DirectoryInit.files := ∅; DirectoryInit.dirs := ∅ |}.

(** [maildeck compose --to a@b.com --subject Hi --body Hello] on an
    empty disk, with the review switched on. *)
Lemma cmdCompose_writes_draft_example :
  exists dk' out draft,
    CliCompose.cmdCompose (js "/home/u")
      (Some {| CliCompose.review_before_send := true;
               CliCompose.accounts := [js "test@gmail.com"] |})
      (fun _ => None) (fun _ => inr []) 7 (js "2026-02-17T09:30:00.000Z")
      empty_disk [(js "to", js "a@b.com"); (js "subject", js "Hi"); (js "body", js "Hello")] []
    = inr (dk', out)
    /\ CliCompose.filename out = js "draft-" ++ Z_toString 7 ++ js ".json"
    /\ CliCompose.status out = js "pending_review"
    /\ DirectoryInit.files dk' !! CliCompose.path out = Some draft
    /\ Paths.outboxDir (js "/home/u") (js "test@gmail.com") None ∈ DirectoryInit.dirs dk'
    /\ Validator.valid (Validator.validateDraft draft) = true.
Proof.
  destruct (CliCompose.cmdCompose (js "/home/u")
              (Some {| CliCompose.review_before_send := true;
                       CliCompose.accounts := [js "test@gmail.com"] |})
              (fun _ => None) (fun _ => inr []) 7 (js "2026-02-17T09:30:00.000Z")
              empty_disk
              [(js "to", js "a@b.com"); (js "subject", js "Hi"); (js "body", js "Hello")] [])
    as [message | [dk' out]] eqn:Erun.
  - exfalso. unfold CliCompose.cmdCompose in Erun.
    change (CliCompose.truthy_flag (js "to")
              [(js "to", js "a@b.com"); (js "subject", js "Hi"); (js "body", js "Hello")])
      with (Some (js "a@b.com")) in Erun.
    change (CliCompose.truthy_flag (js "subject")
              [(js "to", js "a@b.com"); (js "subject", js "Hi"); (js "body", js "Hello")])
      with (Some (js "Hi")) in Erun.
    change (CliCompose.truthy_flag (js "body")
              [(js "to", js "a@b.com"); (js "subject", js "Hi"); (js "body", js "Hello")])
      with (Some (js "Hello")) in Erun.
    cbn [CliArgs.own head CliCompose.accounts] in Erun.
    destruct (DirectoryInit.initAccountDirs (js "/home/u") empty_disk (js "test@gmail.com") None)
      eqn:Einit; [discriminate Erun |].
    clear Erun. unfold DirectoryInit.initAccountDirs, DirectoryInit.account_dirs in Einit.
    cbn [foldl] in Einit. unfold DirectoryInit.mkdir_recursive in Einit.
    cbn [DirectoryInit.files empty_disk mbind option_bind] in Einit.
    discriminate Einit.
  - destruct (cmdCompose_writes_draft _ _ _ _ _ _ _ _ _ _ _ Erun)
      as (cfg & email & to & draft & Hcfg & Hacct & Hto & Hname & _ & Hfs & _ & Hdirs
          & _ & _ & _ & Hstatus & _ & Hvalid).
    exists dk', out, draft. split; [reflexivity |]. split; [exact Hname |].
    inversion Hcfg; subst cfg. split; [exact Hstatus |].
    split; [rewrite Hfs; apply lookup_insert_eq |].
    split.
    { cbn [CliArgs.own head CliCompose.accounts] in Hacct.
      apply (inj Some) in Hacct. subst email.
      apply Hdirs. right. left. reflexivity. }
    rewrite Hvalid.
    change (CliCompose.truthy_flag (js "to")
              [(js "to", js "a@b.com"); (js "subject", js "Hi"); (js "body", js "Hello")])
      with (Some (js "a@b.com")) in Hto.
    inversion Hto; subst to. reflexivity.
Defined.

(** The thread [t1] of the index of two is reported again, with a newer
    date: the second write changes nothing. *)
Lemma upsertThreadIndex_idempotent_example :
  IndexWriter.upsertThreadIndex (js "/home/u") iso_getTime
    (IndexWriter.upsertThreadIndex (js "/home/u") iso_getTime index_after_two
       (js "me@gmail.com") (index_entry (js "t1") (js "2026-02-25")) None)
    (js "me@gmail.com") (index_entry (js "t1") (js "2026-02-25")) None
  = IndexWriter.upsertThreadIndex (js "/home/u") iso_getTime index_after_two
      (js "me@gmail.com") (index_entry (js "t1") (js "2026-02-25")) None.
Proof.
  apply upsertThreadIndex_idempotent.
  - apply (bool_decide_unpack _). vm_compute. exact I.
  - constructor; [eexists; vm_compute; reflexivity |].
    match goal with
    | |- Forall _ ?l => let l' := eval vm_compute in l in change l with l'
    end.
    repeat (constructor; [eexists; vm_compute; reflexivity |]).
    constructor.
Defined.

(** An index of four threads, one line for each, and a reader of these
    lines to run the example with. *)
Definition sample_threads : list IndexWriter.ThreadIndexEntry :=
  [ index_entry (js "t1") (js "2026-02-10"); index_entry (js "t2") (js "2026-02-20");
    index_entry (js "t3") (js "2026-02-15"); index_entry (js "t4") (js "2026-02-12") ].

Definition read_sample_line (line : jsstring) : option IndexWriter.ThreadIndexEntry :=
  List.find (fun e => jsstring_eqb (IndexWriter.id e) line) sample_threads.

Definition sample_index_file : gmap (list N) jsstring :=
  {[ Paths.threadsIndexPath (js "/home/u") (js "me@gmail.com") None
     := JsonlText.render_lines IndexWriter.id sample_threads ]}.

(** [maildeck threads --limit -1] on the index of four counts all four
    and lists three. *)
Lemma cmdThreads_listing_example :
  exists result,
    CliThreads.cmdThreads (js "/home/u") (fun _ => Some (-1)%Z) iso_getTime read_sample_line
      (Some [js "me@gmail.com"]) sample_index_file [(js "limit", js "-1")] = inr result
    /\ CliThreads.account result = js "me@gmail.com"
    /\ CliThreads.total result = 4%nat
    /\ length (CliThreads.threads result) = 3%nat.
Proof.
  destruct (cmdThreads_listing (js "/home/u") (fun _ => Some (-1)%Z) iso_getTime
              read_sample_line (Some [js "me@gmail.com"]) sample_index_file
              [(js "limit", js "-1")])
    as (_ & _ & _ & Hlist).
  destruct (Hlist [js "me@gmail.com"] (js "me@gmail.com") sample_threads eq_refl eq_refl)
    as (result & rest & Hrun & Hacct & Htotal & _ & _ & _ & Hlimit).
  { vm_compute. reflexivity. }
  exists result. split; [exact Hrun |]. split; [exact Hacct |].
  split; [exact Htotal | exact Hlimit].
Defined.

(** ** message-filename.ts: the names sort by date *)

Section FilenameOrder.
Import JsDate.
Local Open Scope Z_scope.

Lemma DayFromYear_mono (y1 y2 : Z) : y1 < y2 -> DayFromYear y1 < DayFromYear y2.
Proof. unfold DayFromYear. intros H. Z.div_mod_to_equations. lia. Qed.

Lemma YearFromDay_mono (d1 d2 : Z) : d1 <= d2 -> YearFromDay d1 <= YearFromDay d2.
Proof.
  intros H.
  pose proof (YearFromDay_spec d1) as H1. pose proof (YearFromDay_spec d2) as H2.
  destruct (Z.le_gt_cases (YearFromDay d1) (YearFromDay d2)) as [|Hgt]; [assumption |].
  assert (Hle : DayFromYear (YearFromDay d2 + 1) <= DayFromYear (YearFromDay d1)).
  { destruct (Z.eq_dec (YearFromDay d2 + 1) (YearFromDay d1)) as [-> | Hne]; [lia |].
    apply Z.lt_le_incl, DayFromYear_mono. lia. }
  lia.
Qed.

(** Year, month and date of a later day are later, in this order. *)
Lemma calendar_mono (d1 d2 : Z) :
  d1 < d2 ->
  YearFromDay d1 < YearFromDay d2
  \/ (YearFromDay d1 = YearFromDay d2
      /\ (MonthFromDay d1 < MonthFromDay d2
          \/ (MonthFromDay d1 = MonthFromDay d2 /\ DateFromDay d1 < DateFromDay d2))).
Proof.
  intros H.
  pose proof (YearFromDay_mono d1 d2 ltac:(lia)) as Hy.
  destruct (Z.eq_dec (YearFromDay d1) (YearFromDay d2)) as [E | Hne]; [| left; lia].
  right. split; [exact E |].
  assert (Hw : DayWithinYear d1 < DayWithinYear d2) by (unfold DayWithinYear; rewrite E; lia).
  pose proof (DayWithinYear_range d1) as R1. pose proof (DayWithinYear_range d2) as R2.
  destruct (DaysInYear_leap (YearFromDay d2)) as [_ Hleap].
  unfold DateFromDay, MonthFromDay. rewrite E in *.
  set (leap := InLeapYear (YearFromDay d2)) in *.
  set (a := DayWithinYear d1) in *. set (b := DayWithinYear d2) in *.
  clearbody a b leap. clear E Hy H R1 R2.
  repeat match goal with
         | |- context [?x <? ?y] => destruct (Z.ltb_spec x y)
         end; cbn [month_start Z.leb Z.eqb Z.compare Pos.compare Pos.compare_cont]; lia.
Qed.

(** The fields of the time of day of a later second of the same day. *)
Lemma time_of_day_mono (t1 t2 : Z) :
  Day t1 = Day t2 -> t1 / 1000 < t2 / 1000 ->
  getUTCHours t1 < getUTCHours t2
  \/ (getUTCHours t1 = getUTCHours t2
      /\ (getUTCMinutes t1 < getUTCMinutes t2
          \/ (getUTCMinutes t1 = getUTCMinutes t2
              /\ getUTCSeconds t1 < getUTCSeconds t2))).
Proof.
  unfold Day, getUTCHours, getUTCMinutes, getUTCSeconds, TimeWithinDay, msPerDay.
  intros Hd Hs. Z.div_mod_to_equations. lia.
Qed.

Lemma same_second_fields (t1 t2 : Z) :
  t1 / 1000 = t2 / 1000 ->
  Day t1 = Day t2 /\ getUTCHours t1 = getUTCHours t2
  /\ getUTCMinutes t1 = getUTCMinutes t2 /\ getUTCSeconds t1 = getUTCSeconds t2.
Proof.
  unfold Day, getUTCHours, getUTCMinutes, getUTCSeconds, TimeWithinDay, msPerDay.
  intros Hs. Z.div_mod_to_equations. lia.
Qed.

Lemma later_second_day (t1 t2 : Z) : t1 / 1000 < t2 / 1000 -> Day t1 <= Day t2.
Proof. unfold Day, msPerDay. intros Hs. Z.div_mod_to_equations. lia. Qed.

End FilenameOrder.

Lemma digits_value_from (s : jsstring) (acc : N) :
  fold_left (fun acc c => 10 * acc + (c - 48)) s acc
  = acc * 10 ^ N.of_nat (length s) + digits_value s.
Proof.
  unfold digits_value. revert acc. induction s as [|c r IH]; intros acc.
  - simpl. lia.
  - cbn [fold_left length]. rewrite IH, (IH (10 * 0 + (c - 48))).
    rewrite Nat2N.inj_succ, N.pow_succ_r'. lia.
Qed.

Lemma digits_value_cons (c : N) (s : jsstring) :
  digits_value (c :: s) = (c - 48) * 10 ^ N.of_nat (length s) + digits_value s.
Proof.
  unfold digits_value at 1. cbn [fold_left]. rewrite digits_value_from. lia.
Qed.

Lemma digits_value_bound (s : jsstring) :
  forallb is_digit s = true -> digits_value s < 10 ^ N.of_nat (length s).
Proof.
  induction s as [|c r IH]; intros H.
  - vm_compute. reflexivity.
  - cbn [forallb] in H. apply andb_prop in H as [Hc Hr]. specialize (IH Hr).
    rewrite digits_value_cons. cbn [length]. rewrite Nat2N.inj_succ, N.pow_succ_r'.
    unfold is_digit in Hc. apply andb_prop in Hc as [H1 H2].
    apply N.leb_le in H1, H2. nia.
Qed.

(** Runs of digits of one length sort as their values do. *)
Lemma sorts_before_digits (a b r1 r2 : jsstring) :
  length a = length b -> forallb is_digit a = true -> forallb is_digit b = true ->
  sorts_before (a ++ r1) (b ++ r2)
  = if digits_value a <? digits_value b then true
    else if digits_value a =? digits_value b then sorts_before r1 r2 else false.
Proof.
  revert b. induction a as [|x a IH]; intros [|y b] Hlen Ha Hb; try discriminate.
  - reflexivity.
  - cbn [forallb] in Ha, Hb. apply andb_prop in Ha as [Hx Ha], Hb as [Hy Hb].
    injection Hlen as Hlen.
    cbn [app sorts_before]. rewrite (IH b Hlen Ha Hb).
    rewrite !digits_value_cons, <- Hlen.
    pose proof (digits_value_bound a Ha) as Ba.
    pose proof (digits_value_bound b Hb) as Bb. rewrite <- Hlen in Bb.
    set (P := 10 ^ N.of_nat (length a)) in *.
    set (va := digits_value a) in *. set (vb := digits_value b) in *.
    unfold is_digit in Hx, Hy.
    apply andb_prop in Hx as [Hx1 Hx2], Hy as [Hy1 Hy2].
    apply N.leb_le in Hx1, Hx2, Hy1, Hy2.
    destruct (N.ltb_spec x y) as [Hxy | Hxy].
    + cbn [orb]. destruct (N.ltb_spec ((x - 48) * P + va) ((y - 48) * P + vb)); [reflexivity |].
      exfalso. nia.
    + cbn [orb]. destruct (N.eqb_spec x y) as [-> | Hne].
      * cbn [andb].
        destruct (N.ltb_spec va vb), (N.ltb_spec ((y - 48) * P + va) ((y - 48) * P + vb));
          try reflexivity; try (exfalso; nia).
        destruct (N.eqb_spec va vb), (N.eqb_spec ((y - 48) * P + va) ((y - 48) * P + vb));
          try reflexivity; exfalso; nia.
      * cbn [andb].
        destruct (N.ltb_spec ((x - 48) * P + va) ((y - 48) * P + vb)); [exfalso; nia |].
        destruct (N.eqb_spec ((x - 48) * P + va) ((y - 48) * P + vb)); [exfalso; nia |].
        reflexivity.
Qed.

Lemma sorts_before_fields (n1 n2 : Z) (s1 s2 r1 r2 : jsstring) :
  length s1 = length s2 -> forallb is_digit s1 = true -> forallb is_digit s2 = true ->
  Z.of_N (digits_value s1) = n1 -> Z.of_N (digits_value s2) = n2 ->
  sorts_before (s1 ++ r1) (s2 ++ r2)
  = if (n1 <? n2)%Z then true
    else if (n1 =? n2)%Z then sorts_before r1 r2 else false.
Proof.
  intros Hlen H1 H2 <- <-. rewrite (sorts_before_digits _ _ _ _ Hlen H1 H2).
  destruct (N.ltb_spec (digits_value s1) (digits_value s2)),
    (Z.ltb_spec (Z.of_N (digits_value s1)) (Z.of_N (digits_value s2)));
    try reflexivity; try lia.
  destruct (N.eqb_spec (digits_value s1) (digits_value s2)),
    (Z.eqb_spec (Z.of_N (digits_value s1)) (Z.of_N (digits_value s2)));
    try reflexivity; lia.
Qed.

Lemma sorts_before_pad2 (n1 n2 : Z) (r1 r2 : jsstring) :
  (0 <= n1 <= 99)%Z -> (0 <= n2 <= 99)%Z ->
  sorts_before (MessageFilename.pad2 n1 ++ r1) (MessageFilename.pad2 n2 ++ r2)
  = if (n1 <? n2)%Z then true
    else if (n1 =? n2)%Z then sorts_before r1 r2 else false.
Proof.
  intros H1 H2.
  pose proof (pad2_two_digits n1 H1) as P1. pose proof (pad2_two_digits n2 H2) as P2.
  unfold two_digits_of in P1, P2.
  apply andb_prop in P1 as [P1 V1], P2 as [P2 V2].
  apply andb_prop in P1 as [L1 D1], P2 as [L2 D2].
  apply bool_decide_eq_true in L1, L2. apply Z.eqb_eq in V1, V2.
  apply sorts_before_fields; congruence.
Qed.

Lemma sorts_before_literal (lit r1 r2 : jsstring) :
  sorts_before (lit ++ r1) (lit ++ r2) = sorts_before r1 r2.
Proof.
  induction lit as [|c lit IH]; [reflexivity |].
  cbn [app sorts_before]. now rewrite N.ltb_irrefl, N.eqb_refl, IH.
Qed.

Section FilenameSort.
Import JsDate.
Local Open Scope Z_scope.

(** Two file names compare as their six fields do, then as what follows
    the stamp does. *)
Lemma messageFilename_compare (d1 d2 : Z) (id1 id2 : jsstring) :
  1000 <= getUTCFullYear d1 <= 9999 -> 1000 <= getUTCFullYear d2 <= 9999 ->
  sorts_before (MessageFilename.messageFilename d1 id1)
               (MessageFilename.messageFilename d2 id2)
  = if getUTCFullYear d1 <? getUTCFullYear d2 then true
    else if getUTCFullYear d1 =? getUTCFullYear d2 then
      if getUTCMonth d1 + 1 <? getUTCMonth d2 + 1 then true
      else if getUTCMonth d1 + 1 =? getUTCMonth d2 + 1 then
        if getUTCDate d1 <? getUTCDate d2 then true
        else if getUTCDate d1 =? getUTCDate d2 then
          if getUTCHours d1 <? getUTCHours d2 then true
          else if getUTCHours d1 =? getUTCHours d2 then
            if getUTCMinutes d1 <? getUTCMinutes d2 then true
            else if getUTCMinutes d1 =? getUTCMinutes d2 then
              if getUTCSeconds d1 <? getUTCSeconds d2 then true
              else if getUTCSeconds d1 =? getUTCSeconds d2 then
                sorts_before (id1 ++ js ".md") (id2 ++ js ".md")
              else false
            else false
          else false
        else false
      else false
    else false.
Proof.
  intros Hy1 Hy2.
  destruct (year_four_digits _ Hy1) as (L1 & D1 & V1).
  destruct (year_four_digits _ Hy2) as (L2 & D2 & V2).
  destruct (MonthFromDay_DateFromDay_range (Day d1)) as [Hm1 Hd1].
  destruct (MonthFromDay_DateFromDay_range (Day d2)) as [Hm2 Hd2].
  assert (Ht : forall t, 0 <= getUTCHours t <= 23 /\ 0 <= getUTCMinutes t <= 59
                         /\ 0 <= getUTCSeconds t <= 59).
  { intros t. unfold getUTCHours, getUTCMinutes, getUTCSeconds, TimeWithinDay, msPerDay.
    Z.div_mod_to_equations. lia. }
  destruct (Ht d1) as (Hh1 & Hmi1 & Hs1). destruct (Ht d2) as (Hh2 & Hmi2 & Hs2).
  unfold MessageFilename.messageFilename, MessageFilename.toIsoBasic. cbv zeta.
  rewrite <- !app_assoc.
  rewrite (sorts_before_fields (getUTCFullYear d1) (getUTCFullYear d2)) by congruence.
  rewrite (sorts_before_pad2 (getUTCMonth d1 + 1) (getUTCMonth d2 + 1))
    by (unfold getUTCMonth; lia).
  rewrite (sorts_before_pad2 (getUTCDate d1) (getUTCDate d2)) by (unfold getUTCDate; lia).
  rewrite (sorts_before_literal (js "T")).
  rewrite (sorts_before_pad2 (getUTCHours d1) (getUTCHours d2)) by lia.
  rewrite (sorts_before_pad2 (getUTCMinutes d1) (getUTCMinutes d2)) by lia.
  rewrite (sorts_before_pad2 (getUTCSeconds d1) (getUTCSeconds d2)) by lia.
  rewrite (sorts_before_literal (js "Z")), (sorts_before_literal (js "__msg")).
  reflexivity.
Qed.

(** The message files of a thread sort by date. For two dates whose UTC
    years have four digits, the file name of the earlier second sorts
    before that of the later one, whatever the message ids are, and never
    after it; within one second the names sort as the ids followed by
    [.md] do. *)
Theorem messageFilename_sorts_by_date (d1 d2 : Z) (id1 id2 : jsstring) :
  1000 <= getUTCFullYear d1 <= 9999 -> 1000 <= getUTCFullYear d2 <= 9999 ->
  let name1 := MessageFilename.messageFilename d1 id1 in
  let name2 := MessageFilename.messageFilename d2 id2 in
  (d1 / 1000 < d2 / 1000 -> sorts_before name1 name2 = true /\ sorts_before name2 name1 = false)
  /\ (d1 / 1000 = d2 / 1000 ->
      sorts_before name1 name2 = sorts_before (id1 ++ js ".md") (id2 ++ js ".md")).
Proof.
  intros Hy1 Hy2 name1 name2. subst name1 name2.
  rewrite (messageFilename_compare d1 d2 id1 id2 Hy1 Hy2),
    (messageFilename_compare d2 d1 id2 id1 Hy2 Hy1).
  split.
  - intros Hlt. pose proof (later_second_day d1 d2 Hlt) as Hday.
    unfold getUTCFullYear, getUTCMonth, getUTCDate.
    destruct (Z.eq_dec (Day d1) (Day d2)) as [E | Hne].
    + pose proof (time_of_day_mono d1 d2 E Hlt) as Htime. rewrite E.
      rewrite !Z.ltb_irrefl, !Z.eqb_refl.
      repeat match goal with
             | |- context [?x <? ?y] => destruct (Z.ltb_spec x y)
             | |- context [?x =? ?y] => destruct (Z.eqb_spec x y)
             end; try (split; reflexivity); exfalso; lia.
    + pose proof (calendar_mono (Day d1) (Day d2) ltac:(lia)) as Hcal.
      repeat match goal with
             | |- context [YearFromDay ?a <? YearFromDay ?b] =>
                 destruct (Z.ltb_spec (YearFromDay a) (YearFromDay b))
             | |- context [YearFromDay ?a =? YearFromDay ?b] =>
                 destruct (Z.eqb_spec (YearFromDay a) (YearFromDay b))
             | |- context [MonthFromDay ?a + 1 <? MonthFromDay ?b + 1] =>
                 destruct (Z.ltb_spec (MonthFromDay a + 1) (MonthFromDay b + 1))
             | |- context [MonthFromDay ?a + 1 =? MonthFromDay ?b + 1] =>
                 destruct (Z.eqb_spec (MonthFromDay a + 1) (MonthFromDay b + 1))
             | |- context [DateFromDay ?a <? DateFromDay ?b] =>
                 destruct (Z.ltb_spec (DateFromDay a) (DateFromDay b))
             | |- context [DateFromDay ?a =? DateFromDay ?b] =>
                 destruct (Z.eqb_spec (DateFromDay a) (DateFromDay b))
             end; try (split; reflexivity); exfalso; lia.
  - intros Heq. destruct (same_second_fields d1 d2 Heq) as (Hd & Hh & Hmi & Hs).
    unfold getUTCFullYear, getUTCMonth, getUTCDate. rewrite Hd, Hh, Hmi, Hs.
    now rewrite !Z.ltb_irrefl, !Z.eqb_refl.
Qed.

End FilenameSort.

(** A reply written one second after the message it answers. *)
Lemma messageFilename_sorts_by_date_example :
  sorts_before (MessageFilename.messageFilename 1771320600000 (js "zz"))
               (MessageFilename.messageFilename 1771320601000 (js "aa")) = true.
Proof.
  apply (messageFilename_sorts_by_date 1771320600000 1771320601000 (js "zz") (js "aa")).
  - vm_compute. split; discriminate.
  - vm_compute. split; discriminate.
  - vm_compute. reflexivity.
Defined.

(** ** maildeck.ts: the message files are read as they were written *)

Lemma join_app (sep : jsstring) (l m : list jsstring) :
  l <> [] -> m <> [] -> JS.join sep (l ++ m) = JS.join sep l ++ sep ++ JS.join sep m.
Proof.
  intros Hl Hm. induction l as [|a l IH]; [congruence |].
  destruct l as [|b l].
  - destruct m as [|c m]; [congruence | reflexivity].
  - change (JS.join sep ((a :: b :: l) ++ m)) with (a ++ sep ++ JS.join sep ((b :: l) ++ m)).
    rewrite IH by discriminate.
    change (JS.join sep (a :: b :: l)) with (a ++ sep ++ JS.join sep (b :: l)).
    now rewrite <- !app_assoc.
Qed.

Lemma split_join_sep (c : N) (l : list jsstring) :
  l <> [] -> Forall (fun seg => ~ In c seg) l -> split c (JS.join [c] l) = l.
Proof.
  induction l as [|p rest IH]; intros Hne Hall; [congruence |].
  inversion Hall as [|? ? Hp Hrest]; subst.
  destruct rest as [|q rest'].
  - simpl. now apply split_no_sep.
  - change (JS.join [c] (p :: q :: rest')) with (p ++ c :: JS.join [c] (q :: rest')).
    rewrite split_app_sep, (split_no_sep c p Hp), IH by (discriminate || assumption).
    reflexivity.
Qed.

Lemma plain_lines_head (lines : list jsstring) (t p : jsstring) :
  lines <> [] -> Forall plain_line lines ->
  startsWith (JS.join [LF] lines ++ LF :: t) (45 :: p) = false.
Proof.
  intros Hne Hall. destruct lines as [|l rest]; [congruence |].
  inversion Hall as [|? ? [_ Hl] _]; subst.
  destruct l as [|c l].
  - destruct rest; reflexivity.
  - assert (Hc : c <> 45) by (intros ->; now apply (Hl l)).
    destruct rest; cbn [JS.join app startsWith];
      now rewrite (proj2 (N.eqb_neq 45 c)) by congruence.
Qed.

Lemma find_sub_skip (needle s : jsstring) (c : N) :
  startsWith (c :: s) needle = false ->
  CliRead.find_sub needle (c :: s) = S <$> CliRead.find_sub needle s.
Proof. intros H. cbn [CliRead.find_sub]. now rewrite H. Qed.

Lemma find_sub_line (needle l s : jsstring) :
  ~ In LF l ->
  CliRead.find_sub (LF :: needle) (l ++ s)
  = Nat.add (length l) <$> CliRead.find_sub (LF :: needle) s.
Proof.
  intros Hl. induction l as [|c l IH].
  - cbn [app length]. now destruct (CliRead.find_sub _ s).
  - cbn [app]. rewrite find_sub_skip.
    + rewrite IH by (intros H; apply Hl; now right).
      destruct (CliRead.find_sub _ s); reflexivity.
    + cbn [startsWith]. rewrite (proj2 (N.eqb_neq LF c)); [reflexivity |].
      intros <-. apply Hl. now left.
Qed.

(** The closing dashes are found right after the lines. *)
Lemma find_sub_block (X tail : jsstring) (lines : list jsstring) :
  lines <> [] -> Forall plain_line lines ->
  CliRead.find_sub (LF :: js "---" ++ X)
                   (JS.join [LF] lines ++ (LF :: js "---" ++ X) ++ tail)
  = Some (length (JS.join [LF] lines)).
Proof.
  intros Hne Hall. induction lines as [|l rest IH]; [congruence |].
  inversion Hall as [|? ? [Hl Hdash] Hrest]; subst.
  destruct rest as [|l2 rest].
  - cbn [JS.join]. rewrite find_sub_line by assumption.
    replace (CliRead.find_sub (LF :: js "---" ++ X) ((LF :: js "---" ++ X) ++ tail))
      with (Some 0%nat).
    + cbn. f_equal. lia.
    + symmetry. cbn [app CliRead.find_sub].
      replace (startsWith _ _) with true; [reflexivity |].
      symmetry. apply startsWith_app. now exists tail.
  - change (JS.join [LF] (l :: l2 :: rest)) with (l ++ LF :: JS.join [LF] (l2 :: rest)).
    rewrite <- app_assoc. rewrite find_sub_line by assumption.
    cbn [app]. rewrite find_sub_skip.
    + change (LF :: (js "---" ++ X) ++ tail) with ((LF :: js "---" ++ X) ++ tail).
      rewrite (IH ltac:(discriminate) Hrest). cbn. f_equal. rewrite length_app. cbn. lia.
    + cbn [startsWith]. rewrite N.eqb_refl. cbn [andb].
      change (js "---" ++ X) with (45 :: js "--" ++ X).
      apply (plain_lines_head (l2 :: rest) _ _ ltac:(discriminate) Hrest).
Qed.

Lemma frontmatter_lines_fields stringify (fm : ThreadWriter.MessageFrontmatter) :
  ThreadWriter.frontmatter_lines stringify fm
  = js "---" :: omap field_line (written_fields stringify fm).
Proof.
  unfold ThreadWriter.frontmatter_lines, written_fields.
  destruct (ThreadWriter.present (ThreadWriter.fm_rfc822_message_id fm)),
    (ThreadWriter.present (ThreadWriter.fm_in_reply_to fm)),
    (ThreadWriter.fm_references fm) as [[|r rs]|],
    (ThreadWriter.present (ThreadWriter.fm_cc fm)),
    (ThreadWriter.fm_uid fm); reflexivity.
Qed.

(** What [renderMessageMd] writes: the opening dashes, the lines of the
    fields, the closing dashes, and the body between two line feeds. *)
Lemma renderMessageMd_shape stringify (fm : ThreadWriter.MessageFrontmatter) (body : jsstring) :
  ThreadWriter.renderMessageMd stringify fm body
  = js "---" ++ [LF]
    ++ JS.join [LF] (omap field_line (written_fields stringify fm))
    ++ (LF :: js "---" ++ [LF]) ++ [LF] ++ body ++ [LF].
Proof.
  unfold ThreadWriter.renderMessageMd. rewrite frontmatter_lines_fields.
  set (lines := omap field_line (written_fields stringify fm)).
  assert (Hne : lines <> []) by (subst lines; discriminate).
  change ((js "---" :: lines) ++ [js "---"; []; body; []])
    with (js "---" :: (lines ++ [js "---"; []; body; []])).
  destruct (lines ++ [js "---"; []; body; []]) as [|x xs] eqn:E.
  { destruct lines; discriminate. }
  change (JS.join [LF] (js "---" :: x :: xs)) with (js "---" ++ [LF] ++ JS.join [LF] (x :: xs)).
  rewrite <- E, join_app by (assumption || discriminate).
  cbn [JS.join]. reflexivity.
Qed.

Lemma written_fields_keys stringify (fm : ThreadWriter.MessageFrontmatter) :
  map fst (written_fields stringify fm) = field_keys.
Proof. reflexivity. Qed.

Lemma field_keys_ok : forallb key_ok field_keys = true.
Proof. vm_compute. reflexivity. Qed.

Lemma field_keys_NoDup : NoDup field_keys.
Proof. apply (bool_decide_unpack _). vm_compute. exact I. Qed.

Lemma indexOf_char_app (c : N) (k r : jsstring) :
  ~ In c k -> CliRead.indexOf_char c (k ++ c :: r) = Some (length k).
Proof.
  intros Hk. induction k as [|x k IH]; cbn [app CliRead.indexOf_char length].
  - now rewrite N.eqb_refl.
  - rewrite (proj2 (N.eqb_neq x c)) by (intros ->; apply Hk; now left).
    rewrite IH by (intros H; apply Hk; now right). reflexivity.
Qed.

(** The line of a field is read as the key and the text, trimmed and
    without the quotes around it. *)
Lemma read_line_field (obj : list (jsstring * jsstring)) (k v : jsstring) :
  key_ok k = true ->
  CliRead.read_line obj (k ++ js ": " ++ v)
  = CliArgs.set_property k (CliRead.strip_quotes (trim v)) obj.
Proof.
  unfold key_ok. intros H.
  apply andb_prop in H as [H Hproto]. apply andb_prop in H as [H Htrim].
  apply andb_prop in H as [Hhead Hcolon].
  apply negb_true_iff in Hcolon, Hproto. apply jsstring_eqb_eq in Htrim.
  assert (Hnot : ~ In CliRead.COLON k).
  { intros Hin. apply includes_char_In in Hin. congruence. }
  destruct k as [|c k']; [discriminate |].
  unfold CliRead.read_line.
  change (js ": " ++ v) with (CliRead.COLON :: SPACE :: v).
  rewrite (indexOf_char_app _ _ _ Hnot).
  cbn [length]. cbv zeta.
  change (S (length k')) with (length (c :: k')).
  rewrite take_app_length, Htrim.
  replace (length (c :: k') + 1)%nat with (length ((c :: k') ++ [CliRead.COLON]))
    by (rewrite length_app; reflexivity).
  replace ((c :: k') ++ CliRead.COLON :: SPACE :: v)
    with (((c :: k') ++ [CliRead.COLON]) ++ SPACE :: v) by now rewrite <- app_assoc.
  rewrite drop_app_length.
  unfold CliArgs.set_flag. rewrite Hproto. reflexivity.
Qed.

Lemma fold_read_lines (fields : list (jsstring * option jsstring))
      (obj : list (jsstring * jsstring)) :
  forallb key_ok (map fst fields) = true ->
  fold_left CliRead.read_line (omap field_line fields) obj = fold_left read_field fields obj.
Proof.
  revert obj. induction fields as [|[k [v|]] rest IH]; intros obj Hk; [reflexivity | |];
    cbn [map fst forallb] in Hk; apply andb_prop in Hk as [Hk Hrest].
  - cbn [omap list_omap field_line fmap option_fmap option_map fst snd fold_left].
    rewrite (read_line_field obj k v Hk). unfold read_field at 2. cbn [fst snd].
    now apply IH.
  - cbn [omap list_omap field_line fmap option_fmap option_map fst snd fold_left].
    unfold read_field at 2. cbn [snd]. now apply IH.
Qed.

Lemma own_read_fields_other (fields : list (jsstring * option jsstring))
      (obj : list (jsstring * jsstring)) (k : jsstring) :
  ~ In k (map fst fields) ->
  CliArgs.own k (fold_left read_field fields obj) = CliArgs.own k obj.
Proof.
  revert obj. induction fields as [|[k' o] rest IH]; intros obj Hk; [reflexivity |].
  cbn [fold_left]. rewrite IH by (intros H; apply Hk; now right).
  unfold read_field. cbn [fst snd]. destruct o as [v|]; [| reflexivity].
  apply own_set_property_other. intros ->. apply Hk. now left.
Qed.

(** A field is read as it was written last; with distinct keys, as it
    was written. *)
Lemma own_read_fields (fields : list (jsstring * option jsstring))
      (obj : list (jsstring * jsstring)) (k : jsstring) (o : option jsstring) :
  NoDup (map fst fields) -> In (k, o) fields -> CliArgs.own k obj = None ->
  CliArgs.own k (fold_left read_field fields obj)
  = (fun v => CliRead.strip_quotes (trim v)) <$> o.
Proof.
  revert obj. induction fields as [|[k' o'] rest IH]; intros obj Hnd Hin Hobj; [contradiction |].
  cbn [map fst] in Hnd. apply NoDup_cons in Hnd as [Hk' Hnd].
  cbn [fold_left]. destruct Hin as [[= -> ->] | Hin].
  - rewrite own_read_fields_other.
    + unfold read_field. cbn [fst snd]. destruct o as [v|]; [| exact Hobj].
      apply own_set_property_same.
    + intros H. apply Hk'. now apply list_elem_of_In.
  - apply IH; [exact Hnd | exact Hin |].
    unfold read_field. cbn [fst snd]. destruct o' as [v|]; [| exact Hobj].
    rewrite own_set_property_other; [exact Hobj |].
    intros ->. apply Hk'. apply list_elem_of_In.
    change k' with (fst (k', o)). now apply in_map.
Qed.

Lemma field_lines_plain stringify (fm : ThreadWriter.MessageFrontmatter) :
  Forall (fun l => ~ In LF l) (ThreadWriter.frontmatter_lines stringify fm) ->
  Forall plain_line (omap field_line (written_fields stringify fm)).
Proof.
  rewrite frontmatter_lines_fields. intros H.
  apply Forall_cons in H as [_ H]. rewrite Forall_forall in H.
  apply Forall_forall. intros l Hl. split; [now apply H |].
  apply list_elem_of_omap in Hl as ([k o] & Hin & Hline).
  assert (Hk : key_ok k = true).
  { pose proof field_keys_ok as Hok. rewrite forallb_forall in Hok. apply Hok.
    rewrite <- (written_fields_keys stringify fm).
    apply list_elem_of_In in Hin. change k with (fst (k, o)). now apply in_map. }
  unfold field_line in Hline. cbn [fst snd] in Hline.
  destruct o as [v|]; [| discriminate]. injection Hline as <-.
  unfold key_ok in Hk. destruct k as [|c k]; [discriminate |].
  intros r [= -> _]. discriminate.
Qed.

(** The reader finds the front matter and the body of a rendered message. *)
Lemma parse_rendered stringify (fm : ThreadWriter.MessageFrontmatter) (body : jsstring) :
  Forall (fun l => ~ In LF l) (ThreadWriter.frontmatter_lines stringify fm) ->
  CliRead.parse_message (ThreadWriter.renderMessageMd stringify fm body)
  = (fold_left read_field (written_fields stringify fm) [], [LF] ++ body ++ [LF]).
Proof.
  intros Hlines. pose proof (field_lines_plain stringify fm Hlines) as Hplain.
  set (lines := omap field_line (written_fields stringify fm)) in *.
  assert (Hne : lines <> []) by (subst lines; discriminate).
  unfold CliRead.parse_message, CliRead.frontmatter_match.
  rewrite renderMessageMd_shape. fold lines.
  replace (startsWith _ (js "---" ++ [LF])) with true
    by (symmetry; apply startsWith_app; eexists; rewrite <- app_assoc; reflexivity).
  change (drop 4 (js "---" ++ [LF] ++ ?x)) with x.
  change ([LF] ++ js "---" ++ [LF]) with (LF :: js "---" ++ [LF]).
  rewrite (find_sub_block [LF] ([LF] ++ body ++ [LF]) lines Hne Hplain).
  cbn [mbind option_bind].
  rewrite take_app_length.
  replace (length (JS.join [LF] lines) + 5)%nat
    with (length (JS.join [LF] lines ++ (LF :: js "---" ++ [LF])))
    by (rewrite length_app; reflexivity).
  rewrite app_assoc, drop_app_length.
  rewrite split_join_sep; [| exact Hne |].
  - subst lines. rewrite fold_read_lines; [reflexivity |].
    rewrite written_fields_keys. exact field_keys_ok.
  - eapply Forall_impl; [exact Hplain |]. now intros l [Hl _].
Qed.

Lemma trimmed_trim (s : jsstring) : trimmed s -> trim s = s.
Proof.
  intros [Hhead Hlast]. unfold trim, trimEnd, trimStart.
  destruct s as [|c r]; [reflexivity |].
  cbn [drop_while]. rewrite (Hhead c r eq_refl).
  destruct (rev (c :: r)) as [|x l] eqn:E.
  - apply (f_equal (@rev N)) in E. rewrite rev_involutive in E. discriminate.
  - assert (Hs : c :: r = rev l ++ [x]).
    { rewrite <- (rev_involutive (c :: r)), E. reflexivity. }
    cbn [drop_while]. rewrite (Hlast x (rev l) Hs). now rewrite Hs.
Qed.

Lemma strip_quotes_plain (v : jsstring) : ~ In DQUOTE v -> CliRead.strip_quotes v = v.
Proof.
  intros H. unfold CliRead.strip_quotes.
  destruct (startsWith v [DQUOTE]) eqn:E; [| reflexivity].
  apply startsWith_one in E as [r ->]. exfalso. apply H. now left.
Qed.

Lemma quoted_read_back (m : jsstring) :
  CliRead.strip_quotes (trim ([DQUOTE] ++ m ++ [DQUOTE])) = m.
Proof.
  rewrite trimmed_trim.
  - unfold CliRead.strip_quotes, endsWith.
    rewrite !rev_app_distr. cbn [rev app startsWith].
    change (DQUOTE =? DQUOTE) with true. cbn [andb].
    replace (startsWith (rev m ++ [DQUOTE]) []) with true by now destruct (rev m ++ [DQUOTE]).
    replace (startsWith (m ++ [DQUOTE]) []) with true by now destruct (m ++ [DQUOTE]).
    cbn [length drop]. rewrite length_app. cbn [length].
    replace (S (length m + 1) - 2)%nat with (length m) by lia.
    apply take_app_length.
  - split.
    + intros c r [= <- _]. reflexivity.
    + intros c r H. apply (f_equal (@rev N)) in H.
      rewrite (app_assoc [DQUOTE] m [DQUOTE]), !rev_app_distr in H. cbn [rev app] in H.
      injection H as <- _. reflexivity.
Qed.

Lemma replace_char_absent (c : N) (r s : jsstring) : ~ In c s -> replace_char c r s = s.
Proof.
  unfold replace_char. induction s as [|x s IH]; intros H; [reflexivity |].
  cbn [flat_map]. rewrite (proj2 (N.eqb_neq x c)) by (intros ->; apply H; now left).
  cbn [app]. f_equal. apply IH. intros Hin. apply H. now right.
Qed.

Lemma plain_read_back (v : jsstring) : reads_back v -> CliRead.strip_quotes (trim v) = v.
Proof.
  intros (Ht & Hq & _). rewrite (trimmed_trim v Ht). now apply strip_quotes_plain.
Qed.

Lemma yaml_read_back (v : jsstring) :
  reads_back v -> CliRead.strip_quotes (trim (ThreadWriter.yamlSafeValue v)) = v.
Proof.
  intros Hv. unfold ThreadWriter.yamlSafeValue.
  destruct (ThreadWriter.needs_quoting v); [| now apply plain_read_back].
  destruct Hv as (_ & Hq & Hb).
  unfold ThreadWriter.yaml_escape.
  rewrite (replace_char_absent BACKSLASH _ v Hb), (replace_char_absent DQUOTE _ v Hq).
  apply quoted_read_back.
Qed.

Lemma Z_toString_read_back (u : Z) :
  CliRead.strip_quotes (trim (Z_toString u)) = Z_toString u.
Proof.
  pose proof (Z_toString_name_chars u) as H. rewrite forallb_forall in H.
  assert (Hc : forall c, In c (Z_toString u) -> is_space c = false /\ c <> DQUOTE).
  { intros c Hin. specialize (H c Hin). unfold name_char, is_base36, is_digit in H.
    unfold is_space, DQUOTE, DOT in *.
    repeat match goal with
           | H : orb _ _ = true |- _ => apply orb_prop in H as [H | H]
           | H : andb _ _ = true |- _ => apply andb_prop in H as [? ?]
           | H : (_ <=? _) = true |- _ => apply N.leb_le in H
           | H : (_ =? _) = true |- _ => apply N.eqb_eq in H
           end;
      (split; [| lia]);
      repeat (apply orb_false_intro); try (apply andb_false_iff);
      try (apply N.eqb_neq; lia);
      try (left; apply N.leb_gt; lia); try (right; apply N.leb_gt; lia). }
  apply plain_read_back. split; [split |].
  - intros c r Heq. apply Hc. rewrite Heq. now left.
  - intros c r Heq. apply Hc. rewrite Heq. apply in_or_app. right. now left.
  - split.
    + intros Hin. now apply (Hc _ Hin).
    + intros Hin. specialize (H _ Hin). vm_compute in H. discriminate.
Qed.

Section ReadBack.
Variable JSON_stringify : list jsstring -> jsstring.

Local Abbreviation renderMessageMd := (ThreadWriter.renderMessageMd JSON_stringify).

(** [maildeck read] on a message file that [writeMessage] wrote, when no
    line of the front matter holds a line feed. The body comes back
    between two line feeds. The message ids in [rfc822_message_id] and
    [in_reply_to] and the uid come back as they were given, absent when
    they were not written. Every other field comes back as it was given
    when its value has no white space at its ends, no double quote and no
    backslash. *)
Theorem cmdRead_reads_what_was_written (fm : ThreadWriter.MessageFrontmatter)
        (body : jsstring) :
  Forall (fun l => ~ In LF l) (ThreadWriter.frontmatter_lines JSON_stringify fm) ->
  let '(frontmatter, text) := CliRead.parse_message (renderMessageMd fm body) in
  let field := fun key => CliArgs.own key frontmatter in
  text = [LF] ++ body ++ [LF]
  /\ field (js "rfc822_message_id") = ThreadWriter.present (ThreadWriter.fm_rfc822_message_id fm)
  /\ field (js "in_reply_to") = ThreadWriter.present (ThreadWriter.fm_in_reply_to fm)
  /\ field (js "uid") = Z_toString <$> ThreadWriter.fm_uid fm
  /\ (reads_back (ThreadWriter.fm_id fm) -> field (js "id") = Some (ThreadWriter.fm_id fm))
  /\ (reads_back (ThreadWriter.fm_gmail_message_id fm) ->
      field (js "gmail_message_id") = Some (ThreadWriter.fm_gmail_message_id fm))
  /\ (reads_back (ThreadWriter.fm_thread_id fm) ->
      field (js "thread_id") = Some (ThreadWriter.fm_thread_id fm))
  /\ (reads_back (ThreadWriter.fm_from fm) -> field (js "from") = Some (ThreadWriter.fm_from fm))
  /\ (reads_back (ThreadWriter.fm_from_name fm) ->
      field (js "from_name") = Some (ThreadWriter.fm_from_name fm))
  /\ (reads_back (ThreadWriter.fm_to fm) -> field (js "to") = Some (ThreadWriter.fm_to fm))
  /\ (reads_back (ThreadWriter.fm_date fm) -> field (js "date") = Some (ThreadWriter.fm_date fm))
  /\ (match ThreadWriter.fm_cc fm with Some c => reads_back c | None => True end ->
      field (js "cc") = ThreadWriter.present (ThreadWriter.fm_cc fm))
  /\ forall key, CliArgs.own key frontmatter <> None -> In key field_keys.
Proof.
  intros Hlines. rewrite (parse_rendered JSON_stringify fm body Hlines). cbv zeta.
  set (fields := written_fields JSON_stringify fm).
  assert (Hread : forall k o, In (k, o) fields ->
                              CliArgs.own k (fold_left read_field fields [])
                              = (fun v => CliRead.strip_quotes (trim v)) <$> o).
  { intros k o Hin. apply own_read_fields; [| exact Hin | reflexivity].
    subst fields. rewrite written_fields_keys. exact field_keys_NoDup. }
  split; [reflexivity |].
  split.
  { rewrite (Hread (js "rfc822_message_id") _ ltac:(do 3 right; left; reflexivity)).
    destruct (ThreadWriter.present (ThreadWriter.fm_rfc822_message_id fm)); [| reflexivity].
    cbn [fmap option_fmap option_map]. now rewrite quoted_read_back. }
  split.
  { rewrite (Hread (js "in_reply_to") _ ltac:(do 4 right; left; reflexivity)).
    destruct (ThreadWriter.present (ThreadWriter.fm_in_reply_to fm)); [| reflexivity].
    cbn [fmap option_fmap option_map]. now rewrite quoted_read_back. }
  split.
  { rewrite (Hread (js "uid") _ ltac:(do 11 right; left; reflexivity)).
    destruct (ThreadWriter.fm_uid fm); [| reflexivity].
    cbn [fmap option_fmap option_map]. now rewrite Z_toString_read_back. }
  split.
  { intros Hv. rewrite (Hread (js "id") _ ltac:(left; reflexivity)).
    cbn [fmap option_fmap option_map]. now rewrite plain_read_back. }
  split.
  { intros Hv. rewrite (Hread (js "gmail_message_id") _ ltac:(do 1 right; left; reflexivity)).
    cbn [fmap option_fmap option_map]. now rewrite plain_read_back. }
  split.
  { intros Hv. rewrite (Hread (js "thread_id") _ ltac:(do 2 right; left; reflexivity)).
    cbn [fmap option_fmap option_map]. now rewrite plain_read_back. }
  split.
  { intros Hv. rewrite (Hread (js "from") _ ltac:(do 6 right; left; reflexivity)).
    cbn [fmap option_fmap option_map]. now rewrite yaml_read_back. }
  split.
  { intros Hv. rewrite (Hread (js "from_name") _ ltac:(do 7 right; left; reflexivity)).
    cbn [fmap option_fmap option_map]. now rewrite yaml_read_back. }
  split.
  { intros Hv. rewrite (Hread (js "to") _ ltac:(do 8 right; left; reflexivity)).
    cbn [fmap option_fmap option_map]. now rewrite yaml_read_back. }
  split.
  { intros Hv. rewrite (Hread (js "date") _ ltac:(do 10 right; left; reflexivity)).
    cbn [fmap option_fmap option_map]. now rewrite plain_read_back. }
  split.
  { intros Hv. rewrite (Hread (js "cc") _ ltac:(do 9 right; left; reflexivity)).
    unfold ThreadWriter.present in *.
    destruct (ThreadWriter.fm_cc fm) as [[|c r]|]; try reflexivity.
    cbn [fmap option_fmap option_map]. now rewrite yaml_read_back. }
  intros key Hkey.
  destruct (in_dec (@List.list_eq_dec N N.eq_dec) key field_keys) as [Hyes | Hno]; [exact Hyes |].
  exfalso. apply Hkey. rewrite own_read_fields_other; [reflexivity |].
  subst fields. now rewrite written_fields_keys.
Qed.

End ReadBack.

(** ** maildeck.ts: the uid of a message file *)

Lemma uid_match_no_line_start (l s : jsstring) :
  forallb (fun c => negb (is_line_terminator c)) l = true ->
  CliRead.uid_match_from false (l ++ s) = CliRead.uid_match_from false s.
Proof.
  induction l as [|c l IH]; intros H; [reflexivity |].
  cbn [forallb] in H. apply andb_prop in H as [Hc Hl]. apply negb_true_iff in Hc.
  cbn [app CliRead.uid_match_from]. rewrite Hc. now apply IH.
Qed.

(** A line on which the expression finds nothing is passed over. *)
Lemma uid_skip_line (l s : jsstring) :
  forallb (fun c => negb (is_line_terminator c)) l = true ->
  CliRead.uid_at (l ++ LF :: s) = None ->
  CliRead.uid_match_from true (l ++ LF :: s) = CliRead.uid_match_from true s.
Proof.
  intros Hl Hat. destruct l as [|c l].
  - cbn [app] in *. cbn [CliRead.uid_match_from]. now rewrite Hat.
  - cbn [forallb] in Hl. apply andb_prop in Hl as [Hc Hl]. apply negb_true_iff in Hc.
    cbn [app] in *. cbn [CliRead.uid_match_from]. rewrite Hat, Hc.
    now rewrite uid_match_no_line_start.
Qed.

Lemma uid_last_line (l : jsstring) :
  forallb (fun c => negb (is_line_terminator c)) l = true ->
  CliRead.uid_at l = None ->
  CliRead.uid_match_from true l = None.
Proof.
  intros Hl Hat. destruct l as [|c l]; [reflexivity |].
  cbn [forallb] in Hl. apply andb_prop in Hl as [Hc Hl]. apply negb_true_iff in Hc.
  cbn [CliRead.uid_match_from]. rewrite Hat, Hc.
  rewrite <- (app_nil_r l). now rewrite uid_match_no_line_start.
Qed.

Lemma uid_scan_none (lines : list jsstring) :
  Forall no_uid_line lines -> CliRead.uid_match_from true (JS.join [LF] lines) = None.
Proof.
  induction lines as [|l rest IH]; intros H; [reflexivity |].
  inversion H as [|? ? [Hl Hat] Hrest]; subst.
  destruct rest as [|l2 rest].
  - cbn [JS.join]. apply uid_last_line; [exact Hl |].
    specialize (Hat []). now rewrite app_nil_r in Hat.
  - change (JS.join [LF] (l :: l2 :: rest)) with (l ++ LF :: JS.join [LF] (l2 :: rest)).
    rewrite uid_skip_line; [now apply IH | exact Hl | apply Hat].
Qed.

Lemma uid_scan_last (lines : list jsstring) (last : jsstring) :
  Forall no_uid_line lines ->
  CliRead.uid_match_from true (JS.join [LF] (lines ++ [last]))
  = CliRead.uid_match_from true last.
Proof.
  induction lines as [|l rest IH]; intros H; [reflexivity |].
  inversion H as [|? ? [Hl Hat] Hrest]; subst.
  destruct (rest ++ [last]) as [|x xs] eqn:E; [destruct rest; discriminate |].
  change (JS.join [LF] ((l :: rest) ++ [last])) with (JS.join [LF] (l :: (rest ++ [last]))).
  rewrite E.
  change (JS.join [LF] (l :: x :: xs)) with (l ++ LF :: JS.join [LF] (x :: xs)).
  rewrite uid_skip_line; [| exact Hl | apply Hat].
  now apply IH.
Qed.

Lemma toString_fuel_decimal (fuel : nat) (n : N) (acc : jsstring) :
  forallb is_digit acc = true -> acc <> [] \/ fuel <> 0%nat ->
  forallb is_digit (JS.toString_fuel fuel 10 n acc) = true
  /\ JS.toString_fuel fuel 10 n acc <> [].
Proof.
  revert n acc. induction fuel as [|f IH]; intros n acc Hacc Hne; cbn [JS.toString_fuel].
  - split; [exact Hacc |]. destruct Hne; congruence.
  - cbv zeta.
    assert (Hcons : forallb is_digit (digit_char (n mod 10) :: acc) = true).
    { cbn [forallb]. now rewrite (proj2 (digit_char_mod n)), Hacc. }
    destruct (n / 10 =? 0); [split; [exact Hcons | discriminate] |].
    apply IH; [exact Hcons | left; discriminate].
Qed.

Lemma Z_toString_decimal (u : Z) :
  (0 <= u)%Z -> forallb is_digit (Z_toString u) = true /\ Z_toString u <> [].
Proof.
  intros Hu. unfold Z_toString.
  destruct (Z.ltb_spec u 0); [lia |].
  apply toString_fuel_decimal; [reflexivity | right; discriminate].
Qed.

(** The line of the uid gives the digits that were written; a negative
    number gives none. *)
Lemma uid_line_read (u : Z) :
  CliRead.uid_match_from true (js "uid: " ++ Z_toString u)
  = if (0 <=? u)%Z then Some (Z_toString u) else None.
Proof.
  destruct (Z.leb_spec 0 u) as [Hu | Hu].
  - destruct (Z_toString_decimal u Hu) as [Hd Hne].
    destruct (Z_toString u) as [|d ds] eqn:E; [congruence |].
    cbn [forallb] in Hd. apply andb_prop in Hd as [Hd Hds].
    assert (Hsp : is_space d = false).
    { unfold is_digit in Hd. apply andb_prop in Hd as [H1 H2]. apply N.leb_le in H1, H2.
      unfold is_space.
      repeat (apply orb_false_intro); try (apply andb_false_iff);
        try (apply N.eqb_neq; lia);
        try (left; apply N.leb_gt; lia); try (right; apply N.leb_gt; lia). }
    change (js "uid: " ++ d :: ds) with (117 :: js "id: " ++ d :: ds).
    cbn [CliRead.uid_match_from].
    replace (CliRead.uid_at (117 :: js "id: " ++ d :: ds)) with (Some (d :: ds));
      [reflexivity |].
    unfold CliRead.uid_at.
    change (startsWith (117 :: js "id: " ++ d :: ds) (js "uid:")) with true. cbv iota.
    change (drop 4 (117 :: js "id: " ++ d :: ds)) with (SPACE :: d :: ds).
    cbn [drop_while]. change (is_space SPACE) with true. cbv iota. rewrite Hsp.
    cbv zeta.
    assert (Hall : Url.take_while is_digit (d :: ds) = d :: ds).
    { pose proof (take_while_all is_digit (d :: ds) []) as Ht.
      rewrite app_nil_r in Ht. apply Ht; [| exact I].
      cbn [forallb]. now rewrite Hd, Hds. }
    rewrite Hall, drop_all. reflexivity.
  - unfold Z_toString. rewrite (proj2 (Z.ltb_lt u 0) Hu).
    apply uid_last_line.
    + change (js "uid: " ++ js "-" ++ ?x) with (js "uid: -" ++ x).
      rewrite forallb_app. apply andb_true_intro. split; [reflexivity |].
      apply forallb_forall. intros c Hc.
      pose proof (toString_fuel_digits (S (N.to_nat (N.log2 (Z.to_N (- u)))))
                    (Z.to_N (- u)) [] eq_refl) as Hb.
      rewrite forallb_forall in Hb. specialize (Hb c Hc).
      unfold is_base36, is_digit in Hb. unfold is_line_terminator.
      apply negb_true_iff.
      repeat match goal with
             | H : orb _ _ = true |- _ => apply orb_prop in H as [H | H]
             | H : andb _ _ = true |- _ => apply andb_prop in H as [? ?]
             | H : (_ <=? _) = true |- _ => apply N.leb_le in H
             end;
        repeat (apply orb_false_intro); apply N.eqb_neq; lia.
    + reflexivity.
Qed.

Lemma written_fields_uid stringify (fm : ThreadWriter.MessageFrontmatter) :
  written_fields stringify fm
  = take 11 (written_fields stringify fm)
    ++ [(js "uid", Z_toString <$> ThreadWriter.fm_uid fm)].
Proof. reflexivity. Qed.

Lemma other_fields_no_uid stringify (fm : ThreadWriter.MessageFrontmatter) :
  Forall (fun l => forallb (fun c => negb (is_line_terminator c)) l = true)
         (ThreadWriter.frontmatter_lines stringify fm) ->
  Forall no_uid_line (omap field_line (take 11 (written_fields stringify fm))).
Proof.
  rewrite frontmatter_lines_fields. intros H.
  apply Forall_cons in H as [_ H]. rewrite Forall_forall in H.
  apply Forall_forall. intros l Hl.
  assert (Hin : l ∈ omap field_line (written_fields stringify fm)).
  { rewrite written_fields_uid, omap_app. apply elem_of_app. now left. }
  split; [now apply H |].
  apply list_elem_of_omap in Hl as ([k o] & Hk & Hline).
  assert (Hhead : match k with [] => false | c :: _ => negb (c =? 117) end = true).
  { assert (Hkeys : forallb (fun k => match k with [] => false | c :: _ => negb (c =? 117) end)
                            (take 11 field_keys) = true) by (vm_compute; reflexivity).
    rewrite forallb_forall in Hkeys. apply Hkeys.
    rewrite <- (written_fields_keys stringify fm), <- fmap_take.
    apply list_elem_of_In in Hk. change k with (fst (k, o)). now apply in_map. }
  unfold field_line in Hline. cbn [fst snd] in Hline.
  destruct o as [v|]; [| discriminate].
  cbn [fmap option_fmap option_map] in Hline. apply (inj Some) in Hline. subst l.
  destruct k as [|c k]; [discriminate |]. apply negb_true_iff in Hhead.
  intros rest. unfold CliRead.uid_at.
  replace (startsWith (((c :: k) ++ js ": " ++ v) ++ rest) (js "uid:")) with false;
    [reflexivity |].
  change (js "uid:") with (117 :: js "id:"). cbn [app startsWith].
  now rewrite N.eqb_sym, Hhead.
Qed.

Section MarkRead.
Variable JSON_stringify : list jsstring -> jsstring.

(** [maildeck mark-read] finds the uid that [writeMessage] wrote. When no
    line of the front matter holds a line terminator, the digits read
    from the file are those of the uid of the message, provided it is not
    negative; a file written without a uid, or with a negative one,
    gives none. *)
Theorem cmdMarkRead_finds_written_uid (fm : ThreadWriter.MessageFrontmatter)
        (body : jsstring) :
  Forall (fun l => forallb (fun c => negb (is_line_terminator c)) l = true)
         (ThreadWriter.frontmatter_lines JSON_stringify fm) ->
  CliRead.read_uid (ThreadWriter.renderMessageMd JSON_stringify fm body)
  = match ThreadWriter.fm_uid fm with
    | Some u => if (0 <=? u)%Z then Some (Z_toString u) else None
    | None => None
    end.
Proof.
  intros Hlt.
  assert (Hlines : Forall (fun l => ~ In LF l)
                          (ThreadWriter.frontmatter_lines JSON_stringify fm)).
  { eapply Forall_impl; [exact Hlt |]. intros l Hl Hin.
    rewrite forallb_forall in Hl. specialize (Hl LF Hin). discriminate. }
  pose proof (field_lines_plain JSON_stringify fm Hlines) as Hplain.
  pose proof (other_fields_no_uid JSON_stringify fm Hlt) as Hothers.
  set (lines := omap field_line (written_fields JSON_stringify fm)) in *.
  assert (Hne : lines <> []) by (subst lines; discriminate).
  unfold CliRead.read_uid, CliRead.frontmatter_block.
  rewrite renderMessageMd_shape. fold lines.
  replace (startsWith _ (js "---" ++ [LF])) with true
    by (symmetry; apply startsWith_app; eexists; rewrite <- app_assoc; reflexivity).
  change (drop 4 (js "---" ++ [LF] ++ ?x)) with x.
  change ((LF :: js "---" ++ [LF]) ++ [LF] ++ body ++ [LF])
    with ((LF :: js "---" ++ []) ++ [LF] ++ [LF] ++ body ++ [LF]).
  change ([LF] ++ js "---") with (LF :: js "---" ++ []).
  rewrite (find_sub_block [] ([LF] ++ [LF] ++ body ++ [LF]) lines Hne Hplain).
  cbn [mbind option_bind]. rewrite take_app_length.
  subst lines. rewrite written_fields_uid, omap_app.
  destruct (ThreadWriter.fm_uid fm) as [u|].
  - change (omap field_line [(js "uid", Z_toString <$> Some u)])
      with [js "uid: " ++ Z_toString u].
    rewrite (uid_scan_last _ _ Hothers). apply uid_line_read.
  - change (omap field_line [(js "uid", Z_toString <$> None)]) with (@nil jsstring).
    rewrite app_nil_r. now apply uid_scan_none.
Qed.

End MarkRead.

Lemma Forall_forallb {A : Type} (f : A -> bool) (l : list A) :
  forallb f l = true -> Forall (fun x => f x = true) l.
Proof.
  intros H. apply Forall_forall. intros x Hx.
  rewrite forallb_forall in H. apply H. now apply list_elem_of_In.
Qed.

Lemma no_line_feed_check (lines : list jsstring) :
  forallb (fun l => negb (includes_char l LF)) lines = true ->
  Forall (fun l => ~ In LF l) lines.
Proof.
  intros H. apply Forall_forallb in H. eapply Forall_impl; [exact H |].
  intros l Hl Hin. apply includes_char_In in Hin. cbv beta in Hl. now rewrite Hin in Hl.
Qed.

Lemma reads_back_check (v : jsstring) :
  negb (match v with [] => false | c :: _ => is_space c end)
  && negb (match rev v with [] => false | c :: _ => is_space c end)
  && negb (includes_char v DQUOTE) && negb (includes_char v BACKSLASH) = true ->
  reads_back v.
Proof.
  intros H. apply andb_prop in H as [H Hb]. apply andb_prop in H as [H Hq].
  apply andb_prop in H as [Hhead Hlast].
  apply negb_true_iff in Hhead, Hlast, Hq, Hb.
  split; [split |].
  - intros c r ->. exact Hhead.
  - intros c r ->. rewrite rev_app_distr in Hlast. exact Hlast.
  - split; intros Hin; apply includes_char_In in Hin; congruence.
Qed.

(** A message written by the synchronisation and read again. *)
Lemma cmdRead_reads_what_was_written_example :
  let '(frontmatter, text) :=
    CliRead.parse_message
      (ThreadWriter.renderMessageMd (fun _ => []) written_message (js "Hello")) in
  text = [LF] ++ js "Hello" ++ [LF]
  /\ CliArgs.own (js "from_name") frontmatter = Some (js "Chen: Mike")
  /\ CliArgs.own (js "rfc822_message_id") frontmatter = Some (js "<abc@mail.example>")
  /\ CliArgs.own (js "uid") frontmatter = Some (js "4711").
Proof.
  pose proof (cmdRead_reads_what_was_written (fun _ => []) written_message (js "Hello")
                ltac:(apply no_line_feed_check; vm_compute; reflexivity)) as H.
  destruct (CliRead.parse_message _) as [frontmatter text].
  destruct H as (Htext & Hid & _ & Huid & _ & _ & _ & _ & Hname & _).
  split; [exact Htext |]. split; [| split; [exact Hid | exact Huid]].
  apply Hname. apply reads_back_check. vm_compute. reflexivity.
Defined.

(** The uid of that message is found in its file. *)
Lemma cmdMarkRead_finds_written_uid_example :
  CliRead.read_uid (ThreadWriter.renderMessageMd (fun _ => []) written_message (js "Hello"))
  = Some (js "4711").
Proof.
  rewrite (cmdMarkRead_finds_written_uid (fun _ => []) written_message (js "Hello")
             ltac:(apply Forall_forallb; vm_compute; reflexivity)).
  reflexivity.
Defined.

(** ** jsonl.ts: what is written is read *)

Section JsonlRoundTrip.
Context {T : Type}.
Variable JSON_parse : jsstring -> option T.
Variable JSON_stringify : T -> jsstring.

Local Abbreviation line_safe := (line_safe JSON_parse JSON_stringify).

Lemma parse_safe_lines (items : list T) :
  Forall line_safe items ->
  mapM JSON_parse
       (filter (fun line => (0 <? length (trim line))%nat = true) (map JSON_stringify items))
  = Some items.
Proof.
  induction 1 as [|x items (Hparse & _ & Hblank) _ IH]; [reflexivity |].
  cbn [map]. rewrite filter_cons_True.
  - cbn [mapM]. rewrite Hparse. cbn [mbind option_bind]. rewrite IH. reflexivity.
  - apply Nat.ltb_lt. destruct (trim (JSON_stringify x)); [congruence | cbn; lia].
Qed.

(** A JSONL file is read as it was written. When the text of every item
    is one line that is not blank and parses back into the item,
    [readJsonl] after [writeJsonl] gives the items, in their order; the
    other files read as before; and a file that does not exist reads as
    the empty list. *)
Theorem readJsonl_after_writeJsonl (fs : gmap (list N) jsstring) (filePath : jsstring)
        (items : list T) :
  Forall line_safe items ->
  let after := JsonlText.writeJsonl JSON_stringify fs filePath items in
  JsonlText.readJsonl JSON_parse after filePath = Some items
  /\ (forall other, other <> filePath ->
                    JsonlText.readJsonl JSON_parse after other
                    = JsonlText.readJsonl JSON_parse fs other)
  /\ (forall missing, fs !! missing = None ->
                      JsonlText.readJsonl JSON_parse fs missing = Some []).
Proof.
  intros Hsafe after. subst after.
  unfold JsonlText.readJsonl, JsonlText.writeJsonl.
  split; [| split].
  - rewrite lookup_insert_eq. unfold JsonlText.parse_lines, JsonlText.render_lines.
    destruct items as [|x items]; [reflexivity |].
    set (lines := map JSON_stringify (x :: items)).
    assert (Hlines : Forall (fun l => ~ In LF l) lines).
    { subst lines. apply Forall_forall. intros l Hl.
      apply list_elem_of_In, in_map_iff in Hl as (y & <- & Hy).
      rewrite Forall_forall in Hsafe. apply list_elem_of_In in Hy.
      now destruct (Hsafe y Hy) as (_ & Hlf & _). }
    rewrite split_app_sep, split_join_sep by (assumption || (subst lines; discriminate)).
    cbn [split]. rewrite filter_app.
    replace (filter _ [[]]) with (@nil jsstring) by reflexivity.
    rewrite app_nil_r. subst lines. now apply parse_safe_lines.
  - intros other Hother. now rewrite lookup_insert_ne by congruence.
  - intros missing ->. reflexivity.
Qed.

End JsonlRoundTrip.

(** Two lines of quoted text, written and read. *)
Lemma readJsonl_after_writeJsonl_example :
  JsonlText.readJsonl
    (fun line => Some (CliRead.strip_quotes line))
    (JsonlText.writeJsonl (fun item => [DQUOTE] ++ item ++ [DQUOTE]) ∅
                          (js "/home/u/threads.jsonl") [js "first"; js "second"])
    (js "/home/u/threads.jsonl")
  = Some [js "first"; js "second"].
Proof.
  apply (readJsonl_after_writeJsonl
           (fun line => Some (CliRead.strip_quotes line))
           (fun item => [DQUOTE] ++ item ++ [DQUOTE])).
  repeat constructor; try (vm_compute; reflexivity); try discriminate;
    intros Hin; apply includes_char_In in Hin; vm_compute in Hin; discriminate.
Defined.

(** ** imap-scheduler.ts: one sync at a time *)

Section Scheduler.
Import ImapScheduler.
Variable options : ImapSchedulerOptions.

Lemma scheduler_inv_initial : scheduler_inv options initial.
Proof.
  unfold scheduler_inv, initial. cbn.
  repeat split; try lia; try congruence; try contradiction; try discriminate.
Qed.

(** [runSync] starts a call only when none is awaited. *)
Lemma runSync_inv (st : state) :
  scheduler_inv options st ->
  scheduler_inv options (fst (runSync options st))
  /\ (in_flight st <> [] -> fst (runSync options st) = st)
  /\ (forall c, In c (in_flight (fst (runSync options st))) ->
                In c (in_flight st)
                \/ (call_depthDays c = (if firstSyncDone st then 2%Z else depthDays options)
                    /\ call_maxMessages c
                       = (if firstSyncDone st then Some 100%Z else maxMessages options)))
  /\ running (fst (runSync options st)) = running st
  /\ firstSyncDone (fst (runSync options st)) = firstSyncDone st
  /\ intervals (fst (runSync options st)) = intervals st
  /\ timer (fst (runSync options st)) = timer st
  /\ next_timer (fst (runSync options st)) = next_timer st
  /\ starting (fst (runSync options st)) = starting st
  /\ (snd (runSync options st) = None -> next_call st <> 0%nat \/ running st = false)
  /\ (next_call (fst (runSync options st)) = 0%nat -> next_call st = 0%nat).
Proof.
  intros (I1 & I2 & I3 & I4 & I5 & I6). unfold runSync.
  destruct (negb (running st) || syncing st) eqn:E; cbn [fst snd].
  - split; [exact (conj I1 (conj I2 (conj I3 (conj I4 (conj I5 I6))))) |].
    split; [reflexivity |]. split; [now left |].
    repeat (split; [reflexivity |]). split; [| intros H; exact H].
    intros _. apply orb_prop in E as [E | E].
    + right. now apply negb_true_iff.
    + left. apply I2 in E. destruct (in_flight st) as [|c l]; [congruence |].
      specialize (I3 c ltac:(now left)). lia.
  - apply orb_false_elim in E as [_ Hs].
    assert (Hnone : in_flight st = []).
    { destruct (in_flight st) as [|c l] eqn:Ef; [reflexivity |].
      assert (syncing st = true) by (apply I2; discriminate). congruence. }
    rewrite Hnone. cbn.
    split.
    { unfold scheduler_inv. cbn. split; [lia |]. split; [split; congruence |].
      split; [intros c [<- | []]; cbn; lia |].
      split; [exact I4 |]. split; [lia |].
      intros c [<- | []] Hid. cbn in *. destruct (I5 Hid) as [-> _]. now split. }
    split; [congruence |].
    split; [intros c [<- | []]; right; now split |].
    repeat (split; [reflexivity |]). split; [discriminate | lia].
Qed.

Lemma step_inv (st : state) (ev : event) :
  scheduler_inv options st -> scheduler_inv options (step options st ev).
Proof.
  intros Hinv. pose proof Hinv as (I1 & I2 & I3 & I4 & I5 & I6).
  destruct ev as [| | t | call outcome | i]; cbn [step].
  - destruct (running st) eqn:Er; [exact Hinv |].
    set (st1 := {| running := true; syncing := syncing st;
                   firstSyncDone := firstSyncDone st; timer := timer st;
                   intervals := intervals st; next_timer := next_timer st;
                   in_flight := in_flight st; next_call := next_call st;
                   starting := starting st; reports := reports st |}).
    assert (H1 : scheduler_inv options st1) by exact Hinv.
    destruct (runSync_inv st1 H1)
      as (Hr & _ & _ & _ & Hf & Hi & _ & _ & Hs & Hnone & Hz).
    destruct (runSync options st1) as [st' awaited] eqn:E. cbn [fst snd] in *.
    destruct Hr as (J1 & J2 & J3 & J4 & J5 & J6).
    unfold scheduler_inv. cbn.
    repeat (split; [assumption || apply J2 |]).
    split; [| exact J6].
    intros Hzero. exfalso.
    assert (Ha : awaited = None).
    { destruct awaited as [n|]; [| reflexivity].
      unfold runSync in E. destruct (negb (running st1) || syncing st1); [congruence |].
      injection E as <- <-. cbn in Hzero. discriminate. }
    destruct (Hnone Ha) as [Hne | Hrun]; [| discriminate]. apply Hne. now apply Hz.
  - unfold scheduler_inv. cbn.
    repeat (split; [assumption || apply I2 |]).
    split; [| split; [exact I5 | exact I6]].
    intros Hne. apply I4. destruct (timer st); [| exact Hne].
    intros Hnil. rewrite Hnil in Hne. now apply Hne.
  - destruct (bool_decide (t ∈ intervals st)); [| exact Hinv].
    now destruct (runSync_inv st Hinv) as [Hr _].
  - destruct (existsb _ (in_flight st)) eqn:Ex; [| exact Hinv].
    apply existsb_exists in Ex as (c & Hc & Hid). apply Nat.eqb_eq in Hid.
    assert (Hone : in_flight st = [c]).
    { destruct (in_flight st) as [|x [|y l]]; cbn in *; [contradiction | | lia].
      destruct Hc as [-> | []]. reflexivity. }
    unfold scheduler_inv. cbn. rewrite Hone. cbn.
    rewrite decide_False by (intros Hne; now apply Hne).
    split; [cbn; lia |]. split; [split; [discriminate | congruence] |].
    split; [intros ? [] |]. split; [exact I4 |].
    split; [| intros ? []].
    intros Hz. exfalso. specialize (I3 c ltac:(rewrite Hone; now left)). lia.
  - destruct (starting st !! i) as [[n|]|] eqn:Ei; try exact Hinv.
    unfold scheduler_inv. cbn.
    repeat (split; [assumption || apply I2 |]).
    split; [intros _; reflexivity |]. split; [| exact I6].
    intros Hz. destruct (I5 Hz) as [_ Hnil]. rewrite Hnil in Ei. discriminate Ei.
Qed.

Lemma run_inv (events : list event) : scheduler_inv options (run options events).
Proof.
  unfold run. induction events as [|ev events IH] using rev_ind.
  - apply scheduler_inv_initial.
  - rewrite fold_left_app. cbn [fold_left]. now apply step_inv.
Qed.

(** The scheduler never runs two syncs at once. Whatever calls of
    [start] and [stop] were made and whatever intervals fired and calls
    settled, in any order: at most one call of [imapFullSync] is awaited,
    and [syncing] is set exactly while one is; while one is awaited no
    event starts another; the call started first asks for the depth and
    the number of messages of the options; and a call started by the
    firing of an interval asks for 2 days and 100 messages. *)
Theorem ImapScheduler_one_sync_at_a_time (events : list event) :
  let st := run options events in
  (length (in_flight st) <= 1)%nat
  /\ (syncing st = true <-> in_flight st <> [])
  /\ (forall ev c, in_flight st <> [] ->
                   In c (in_flight (step options st ev)) -> In c (in_flight st))
  /\ (forall c, In c (in_flight st) -> call_id c = 0%nat ->
                call_depthDays c = depthDays options
                /\ call_maxMessages c = maxMessages options)
  /\ (forall t c, In c (in_flight (step options st (Tick t))) ->
                  In c (in_flight st)
                  \/ (call_depthDays c = 2%Z /\ call_maxMessages c = Some 100%Z)).
Proof.
  intros st. pose proof (run_inv events) as Hinv. fold st in Hinv.
  pose proof Hinv as (I1 & I2 & I3 & I4 & I5 & I6).
  split; [exact I1 |]. split; [exact I2 |]. split; [| split; [exact I6 |]].
  - intros ev c Hbusy Hc.
    assert (Hs : syncing st = true) by now apply I2.
    destruct ev as [| | t | call outcome | i]; cbn [step] in Hc.
    + destruct (running st); [exact Hc |].
      unfold runSync in Hc. cbn [running syncing negb orb] in Hc.
      rewrite Hs in Hc. exact Hc.
    + exact Hc.
    + destruct (bool_decide (t ∈ intervals st)); [| exact Hc].
      destruct (runSync_inv st Hinv) as (_ & Hsame & _).
      now rewrite (Hsame Hbusy) in Hc.
    + destruct (existsb _ (in_flight st)); [| exact Hc].
      cbn in Hc. apply list_elem_of_In, list_elem_of_filter in Hc as [_ Hc].
      now apply list_elem_of_In.
    + destruct (starting st !! i) as [[n|]|]; exact Hc.
  - intros t c Hc. cbn [step] in Hc.
    destruct (bool_decide (t ∈ intervals st)) eqn:Et; [| now left].
    apply bool_decide_eq_true in Et.
    assert (Hdone : firstSyncDone st = true).
    { apply I4. intros Hnil. rewrite Hnil in Et. now apply elem_of_nil in Et. }
    destruct (runSync_inv st Hinv) as (_ & _ & Hnew & _).
    destruct (Hnew c Hc) as [Hold | Hlight]; [now left | right].
    now rewrite Hdone in Hlight.
Qed.

End Scheduler.

(** A run of the scheduler: the first sync is a full one, the interval
    set after it starts a light one, and a second firing while that is
    awaited starts nothing. *)
Example ImapScheduler_trace :
  let options := {| ImapScheduler.depthDays := 30; ImapScheduler.maxMessages := Some 500%Z |} in
  let st := ImapScheduler.run options
              [ImapScheduler.Start; ImapScheduler.Settled 0 (inl 3%Z);
               ImapScheduler.Resumed 0; ImapScheduler.Tick 0; ImapScheduler.Tick 0] in
  ImapScheduler.in_flight (ImapScheduler.run options [ImapScheduler.Start])
  = [{| ImapScheduler.call_id := 0; ImapScheduler.call_depthDays := 30;
        ImapScheduler.call_maxMessages := Some 500%Z |}]
  /\ ImapScheduler.in_flight st
     = [{| ImapScheduler.call_id := 1; ImapScheduler.call_depthDays := 2;
           ImapScheduler.call_maxMessages := Some 100%Z |}]
  /\ ImapScheduler.reports st = [ImapScheduler.OnSync false 3].
Proof. vm_compute. repeat split. Qed.

(** ** incremental-sync.ts: every changed thread once *)

Lemma set_add_spec (s : list jsstring) (t : jsstring) :
  NoDup s ->
  NoDup (IncrementalSync.set_add s t)
  /\ forall x, In x (IncrementalSync.set_add s t) <-> In x s \/ x = t.
Proof.
  intros Hs. unfold IncrementalSync.set_add.
  destruct (bool_decide (t ∈ s)) eqn:E.
  - apply bool_decide_eq_true in E. split; [exact Hs |].
    intros x. split; [now left |]. intros [H | ->]; [exact H | now apply list_elem_of_In].
  - apply bool_decide_eq_false in E. split.
    + apply NoDup_app. split; [exact Hs |]. split; [| apply NoDup_singleton].
      intros x Hx Hx'. apply list_elem_of_singleton in Hx'. now subst.
    + intros x. rewrite in_app_iff. cbn. intuition.
Qed.

Lemma add_all_spec (s : list jsstring) (messages : option (list (option jsstring))) :
  NoDup s ->
  NoDup (IncrementalSync.add_all s messages)
  /\ forall x, In x (IncrementalSync.add_all s messages)
               <-> In x s
                   \/ In x (omap (fun threadId => match threadId with
                                                  | Some (c :: r) => Some (c :: r)
                                                  | _ => None
                                                  end) (default [] messages)).
Proof.
  destruct messages as [l|]; cbn [IncrementalSync.add_all default].
  - revert s. induction l as [|[[|c r]|] l IH]; intros s Hs.
    + cbn. split; [exact Hs |]. intros x. intuition.
    + cbn [fold_left omap list_omap]. apply (IH s Hs).
    + cbn [fold_left omap list_omap].
      destruct (set_add_spec s (c :: r) Hs) as [Hnd Hin].
      destruct (IH _ Hnd) as [Hnd' Hin']. split; [exact Hnd' |].
      intros x. rewrite Hin', Hin. cbn. intuition.
    + cbn [fold_left omap list_omap]. apply (IH s Hs).
  - cbn. split; [assumption |]. intros x. intuition.
Qed.

Lemma collect_spec (history : option (list IncrementalSync.HistoryRecord)) :
  NoDup (IncrementalSync.collect history)
  /\ forall x, In x (IncrementalSync.collect history) <-> In x (named_threads history).
Proof.
  unfold IncrementalSync.collect, named_threads.
  destruct history as [entries|]; cbn [default];
    [| split; [constructor | intros x; reflexivity]].
  assert (H : forall s, NoDup s ->
            let r := fold_left
                       (fun s entry =>
                          IncrementalSync.add_all
                            (IncrementalSync.add_all
                               (IncrementalSync.add_all s (IncrementalSync.messagesAdded entry))
                               (IncrementalSync.labelsAdded entry))
                            (IncrementalSync.labelsRemoved entry)) entries s in
            NoDup r
            /\ forall x, In x r <-> In x s \/ In x (named_threads (Some entries))).
  { unfold named_threads. cbn [default].
    induction entries as [|e entries IH]; intros s Hs; cbn zeta.
    - cbn. split; [exact Hs |]. intros x. intuition.
    - cbn [fold_left flat_map].
      destruct (add_all_spec s (IncrementalSync.messagesAdded e) Hs) as [N1 M1].
      destruct (add_all_spec _ (IncrementalSync.labelsAdded e) N1) as [N2 M2].
      destruct (add_all_spec _ (IncrementalSync.labelsRemoved e) N2) as [N3 M3].
      destruct (IH _ N3) as [N4 M4]. split; [exact N4 |].
      intros x. cbn zeta in M4. rewrite M4, M3, M2, M1. simpl flat_map.
      rewrite !in_app_iff. cbn [In]. intuition. }
  destruct (H [] (NoDup_nil_2)) as [Hnd Hin]. split; [exact Hnd |].
  intros x. cbn zeta in Hin. rewrite Hin. unfold named_threads. cbn [In default]. intuition.
Qed.

Lemma sync_each_calls syncThread (threadIds : list jsstring) :
  let '(calls, err) := IncrementalSync.sync_each syncThread threadIds in
  (exists rest, threadIds = calls ++ rest)
  /\ (err = None -> calls = threadIds).
Proof.
  induction threadIds as [|t rest IH]; cbn [IncrementalSync.sync_each].
  - split; [now exists [] | reflexivity].
  - destruct (syncThread t) as [e|].
    + split; [now exists rest | discriminate].
    + destruct (IncrementalSync.sync_each syncThread rest) as [calls err].
      destruct IH as [[r Hr] Hall]. split.
      * exists r. cbn. now rewrite <- Hr.
      * intros He. now rewrite (Hall He).
Qed.

Section Incremental.
Variable getProfile : option jsstring + jsstring.
Variable listHistory : jsstring -> IncrementalSync.listed.
Variable syncThread : jsstring -> option jsstring.

(** An incremental sync re-syncs every changed thread once. Whatever the
    client answers: no thread is synced twice in one pass, and only
    threads that a record of the history names; when the pass succeeds
    every thread named was synced, and [threadsUpdated] is their number;
    the history is asked for at most once, and not at all (nor is any
    thread synced) when the history id has not changed or is absent. *)
Theorem incrementalSync_each_thread_once (lastHistoryId : jsstring) :
  let '(result, listed, synced) :=
    IncrementalSync.incrementalSync getProfile listHistory syncThread lastHistoryId in
  NoDup synced
  /\ (length listed <= 1)%nat
  /\ (forall t, In t synced ->
        exists history, listHistory lastHistoryId = IncrementalSync.History history
                        /\ In t (named_threads history) /\ t <> [])
  /\ (forall newHistoryId n history,
        result = IncrementalSync.Synced newHistoryId n ->
        listHistory lastHistoryId = IncrementalSync.History history ->
        listed <> [] ->
        n = length synced /\ forall t, In t (named_threads history) -> In t synced)
  /\ (forall historyId, getProfile = inl historyId ->
                         default lastHistoryId historyId = lastHistoryId ->
      result = IncrementalSync.Synced lastHistoryId 0 /\ listed = [] /\ synced = []).
Proof.
  unfold IncrementalSync.incrementalSync.
  destruct getProfile as [profile_historyId | err].
  2: { split; [constructor |]. split; [cbn; lia |]. split; [intros t [] |].
       split; [intros ? ? ? H; discriminate | intros ? H; discriminate]. }
  destruct (jsstring_eqb (default lastHistoryId profile_historyId) lastHistoryId) eqn:E.
  - apply jsstring_eqb_eq in E. rewrite E.
    split; [constructor |]. split; [cbn; lia |]. split; [intros t [] |].
    split; [intros ? ? ? _ _ H; congruence |]. now intros ? _ _.
  - apply jsstring_eqb_neq in E.
    destruct (listHistory lastHistoryId) as [history | | err] eqn:Eh.
    + destruct (collect_spec history) as [Hnd Hin].
      pose proof (sync_each_calls syncThread (IncrementalSync.collect history)) as Hcalls.
      destruct (IncrementalSync.sync_each syncThread (IncrementalSync.collect history))
        as [calls [err|]]; destruct Hcalls as [[rest Hrest] Hall].
      * split.
        { rewrite Hrest in Hnd. now apply NoDup_app in Hnd as [Hnd _]. }
        split; [cbn; lia |]. split; [| split; [intros ? ? ? H; discriminate | intros ? [= <-]; congruence]].
        intros t Ht. exists history. split; [reflexivity |].
        assert (Hc : In t (IncrementalSync.collect history))
          by (rewrite Hrest; apply in_or_app; now left).
        apply Hin in Hc. split; [exact Hc |].
        unfold named_threads in Hc. apply in_flat_map in Hc as (e & _ & Hc).
        apply in_flat_map in Hc as (m & _ & Hc).
        apply list_elem_of_In, list_elem_of_omap in Hc as (o & _ & Ho).
        destruct o as [[|c r]|]; try discriminate. injection Ho as <-. discriminate.
      * specialize (Hall eq_refl). subst calls.
        split; [exact Hnd |]. split; [cbn; lia |]. split; [| split; [| intros ? [= <-]; congruence]].
        -- intros t Ht. exists history. split; [reflexivity |].
           pose proof (proj1 (Hin t) Ht) as Hc. split; [exact Hc |].
           unfold named_threads in Hc. apply in_flat_map in Hc as (e & _ & Hc).
           apply in_flat_map in Hc as (m & _ & Hc).
           apply list_elem_of_In, list_elem_of_omap in Hc as (o & _ & Ho).
           destruct o as [[|c r]|]; try discriminate. injection Ho as <-. discriminate.
        -- intros newId n history' [= <- <-] [= <-] _.
           split; [reflexivity |]. intros t Ht. now apply Hin.
    + split; [constructor |]. split; [cbn; lia |]. split; [intros t [] |].
      split; [intros ? ? ? H; discriminate | intros ? [= <-]; congruence].
    + split; [constructor |]. split; [cbn; lia |]. split; [intros t [] |].
      split; [intros ? ? ? H; discriminate | intros ? [= <-]; congruence].
Qed.

End Incremental.

(** A history that names the thread [t1] twice and [t2] once. *)
Example incrementalSync_trace :
  IncrementalSync.incrementalSync
    (inl (Some (js "105")))
    (fun _ => IncrementalSync.History
                (Some [ {| IncrementalSync.messagesAdded := Some [Some (js "t1"); None];
                           IncrementalSync.labelsAdded := None;
                           IncrementalSync.labelsRemoved := Some [Some (js "t2")] |};
                        {| IncrementalSync.messagesAdded := None;
                           IncrementalSync.labelsAdded := Some [Some (js "t1"); Some []];
                           IncrementalSync.labelsRemoved := None |} ]))
    (fun _ => None) (js "100")
  = (IncrementalSync.Synced (js "105") 2, [js "100"], [js "t1"; js "t2"]).
Proof. vm_compute. reflexivity. Qed.

(** ** imap-sync.ts: what a full sync writes *)

Lemma set_property_keys {A : Type} (key : jsstring) (v : A) props :
  (In key (map fst props)
   /\ map fst (CliArgs.set_property key v props) = map fst props)
  \/ (~ In key (map fst props)
      /\ map fst (CliArgs.set_property key v props) = map fst props ++ [key]).
Proof.
  induction props as [|[k w] rest IH]; cbn [CliArgs.set_property map fst].
  - right. split; [tauto | reflexivity].
  - destruct (jsstring_eqb key k) eqn:E.
    + apply jsstring_eqb_eq in E. subst. left. split; [now left | reflexivity].
    + apply jsstring_eqb_neq in E. cbn [map fst].
      destruct IH as [[Hin Heq] | [Hnot Heq]]; rewrite Heq.
      * left. split; [now right | reflexivity].
      * right. split; [| reflexivity]. intros [H | H]; [congruence | contradiction].
Qed.

Lemma set_property_Forall {A : Type} (P : jsstring * A -> Prop) (key : jsstring) (v : A) props :
  Forall P props -> P (key, v) -> Forall P (CliArgs.set_property key v props).
Proof.
  intros Hall Hnew. induction Hall as [|[k w] rest Hk Hrest IH];
    cbn [CliArgs.set_property].
  - now constructor.
  - destruct (jsstring_eqb key k) eqn:E.
    + apply jsstring_eqb_eq in E. subst. now constructor.
    + now constructor.
Qed.

Section Writes.
Variable parseQuickHeaders : jsstring -> ImapSync.QuickHeaders.
Variable cleanEmail : jsstring -> jsstring -> jsstring -> ImapFullSync.CleanedEmail.
Variable now : jsstring.
Variable toLowerCase : jsstring -> jsstring.

Local Abbreviation process_messages :=
  (ImapFullSync.process_messages parseQuickHeaders cleanEmail).
Local Abbreviation processThread :=
  (ImapFullSync.processThread parseQuickHeaders cleanEmail now).
Local Abbreviation imapFullSync :=
  (ImapFullSync.imapFullSync parseQuickHeaders cleanEmail now toLowerCase).

Local Abbreviation cleaned := (cleaned cleanEmail).
Local Abbreviation sender := (sender cleanEmail).
Local Abbreviation participants_ok := (participants_ok cleanEmail).

Lemma process_messages_spec (email threadId : jsstring) (messages seen : list ImapSync.ImapMessage)
      (st : ImapFullSync.loop_state) (i : nat) :
  participants_ok email threadId seen (ImapFullSync.participants st) ->
  let st' := process_messages email threadId st i messages in
  participants_ok email threadId (seen ++ messages) (ImapFullSync.participants st')
  /\ message_writes (ImapFullSync.calls st')
     = message_writes (ImapFullSync.calls st)
       ++ map (fun msg => (threadId, ImapFullSync.frontmatter (cleaned threadId msg),
                           ImapFullSync.body (cleaned threadId msg))) messages
  /\ index_upserts (ImapFullSync.calls st') = index_upserts (ImapFullSync.calls st)
  /\ meta_writes (ImapFullSync.calls st') = meta_writes (ImapFullSync.calls st)
  /\ contact_upserts (ImapFullSync.calls st') = contact_upserts (ImapFullSync.calls st).
Proof.
  revert seen st i. induction messages as [|msg rest IH]; intros seen st i Hok; cbn zeta.
  - cbn [ImapFullSync.process_messages map]. rewrite !app_nil_r. repeat split; try apply Hok.
  - cbn [ImapFullSync.process_messages].
    set (st1 := ImapFullSync.process_message parseQuickHeaders cleanEmail email threadId st i msg).
    assert (Hok1 : participants_ok email threadId (seen ++ [msg]) (ImapFullSync.participants st1)).
    { destruct Hok as (Hnd & Hall & Hcover).
      subst st1. unfold ImapFullSync.process_message. cbn [ImapFullSync.participants].
      fold (cleaned threadId msg).
      change (ThreadWriter.fm_from (ImapFullSync.frontmatter (cleaned threadId msg)))
        with (sender threadId msg).
      destruct (sender threadId msg) as [|c r] eqn:Efrom.
      - split; [exact Hnd |]. split.
        + eapply Forall_impl; [exact Hall |]. intros p (H1 & (m & Hm & Hf) & H3).
          split; [exact H1 |]. split; [| exact H3].
          exists m. split; [apply in_or_app; now left | exact Hf].
        + intros m Hm Hne. apply in_app_or in Hm as [Hm | [<- | []]]; [now apply Hcover |].
          congruence.
      - split; [| split].
        + destruct (set_property_keys (c :: r)
                      (ThreadWriter.fm_from_name (ImapFullSync.frontmatter (cleaned threadId msg)),
                       if jsstring_eqb (c :: r) email
                       then ImapFullSync.Self else ImapFullSync.External)
                      (ImapFullSync.participants st)) as [[_ Heq] | [Hnot Heq]];
            rewrite Heq; [exact Hnd |].
          apply NoDup_app. split; [exact Hnd |]. split; [| apply NoDup_singleton].
          intros x Hx Hx'. apply list_elem_of_singleton in Hx'. subst.
          apply Hnot. now apply list_elem_of_In.
        + apply set_property_Forall.
          * eapply Forall_impl; [exact Hall |]. intros p (H1 & (m & Hm & Hf) & H3).
            split; [exact H1 |]. split; [| exact H3].
            exists m. split; [apply in_or_app; now left | exact Hf].
          * cbn [fst snd]. split; [discriminate |]. split; [| reflexivity].
            exists msg. split; [apply in_or_app; right; now left | exact Efrom].
        + intros m Hm Hne.
          destruct (set_property_keys (c :: r)
                      (ThreadWriter.fm_from_name (ImapFullSync.frontmatter (cleaned threadId msg)),
                       if jsstring_eqb (c :: r) email
                       then ImapFullSync.Self else ImapFullSync.External)
                      (ImapFullSync.participants st)) as [[Hin Heq] | [Hnot Heq]];
            rewrite Heq; apply in_app_or in Hm as [Hm | [<- | []]].
          * now apply Hcover.
          * now rewrite Efrom.
          * apply in_or_app. left. now apply Hcover.
          * rewrite Efrom. apply in_or_app. right. now left. }
    destruct (IH (seen ++ [msg]) st1 (S i) Hok1) as (Hp & Hw & Hi & Hm & Hc).
    rewrite <- app_assoc in Hp. split; [exact Hp |].
    assert (Hcalls : ImapFullSync.calls st1
                     = ImapFullSync.calls st
                       ++ [ImapFullSync.WriteMessage threadId
                             (ImapFullSync.frontmatter (cleaned threadId msg))
                             (ImapFullSync.body (cleaned threadId msg))]
                       ++ match ImapFullSync.attachments (cleaned threadId msg) with
                          | [] => []
                          | atts => [ImapFullSync.WriteAttachments threadId atts]
                          end) by reflexivity.
    rewrite Hw, Hi, Hm, Hc, Hcalls.
    unfold message_writes, index_upserts, meta_writes, contact_upserts.
    rewrite !omap_app.
    destruct (ImapFullSync.attachments (cleaned threadId msg));
      cbn [omap list_omap app map]; rewrite ?app_nil_r, <- ?app_assoc; repeat split.
Qed.

Lemma contact_calls_only {A : Type} (g : A -> option ImapFullSync.call) (l : list A) :
  (forall a c, g a = Some c -> exists k, c = ImapFullSync.UpsertContactIndex k) ->
  message_writes (omap g l) = [] /\ index_upserts (omap g l) = []
  /\ meta_writes (omap g l) = [].
Proof.
  intros Hg. induction l as [|a l (I1 & I2 & I3)]; [repeat split |].
  cbn [omap list_omap]. destruct (g a) as [c|] eqn:E; [| repeat split; assumption].
  destruct (Hg a c E) as [k ->].
  unfold message_writes, index_upserts, meta_writes in *. cbn [omap list_omap].
  repeat split; assumption.
Qed.

Lemma contacts_of_participants (email first last : jsstring)
      (l : list (jsstring * (jsstring * ImapFullSync.role))) :
  Forall (fun p => snd (snd p) = (if jsstring_eqb (fst p) email
                                  then ImapFullSync.Self else ImapFullSync.External)) l ->
  map ImapFullSync.c_email
      (omap (fun c => match c with
                      | ImapFullSync.UpsertContactIndex k => Some k
                      | _ => None
                      end)
            (omap (fun p : jsstring * (jsstring * ImapFullSync.role) =>
                     match snd (snd p) with
                     | ImapFullSync.External =>
                         Some (ImapFullSync.UpsertContactIndex
                                 {| ImapFullSync.c_email := fst p;
                                    ImapFullSync.c_name := fst (snd p);
                                    ImapFullSync.c_first_seen := first;
                                    ImapFullSync.c_last_seen := last;
                                    ImapFullSync.c_msg_count := 1;
                                    ImapFullSync.c_labels_common := [js "INBOX"];
                                    ImapFullSync.c_is_frequent := false |})
                     | ImapFullSync.Self => None
                     end) l))
  = filter (fun addr => addr <> email) (map fst l).
Proof.
  induction 1 as [|[a [n r]] l Hrole _ IHl]; [reflexivity |].
  cbn [fst snd] in Hrole. cbn [omap list_omap fst snd map]. rewrite Hrole.
  destruct (jsstring_eqb a email) eqn:E.
  - apply jsstring_eqb_eq in E. rewrite filter_cons_False by (intros H; now apply H).
    exact IHl.
  - apply jsstring_eqb_neq in E. rewrite filter_cons_True by exact E.
    cbn [omap list_omap map ImapFullSync.c_email]. f_equal. exact IHl.
Qed.

(** What [processThread] writes for a thread. *)
Lemma processThread_spec (email threadId : jsstring) (messages : list ImapSync.ImapMessage) :
  let calls := processThread email threadId messages in
  exists meta entry,
    meta_writes calls = [meta] /\ index_upserts calls = [entry]
    /\ message_writes calls
       = map (fun msg => (threadId, ImapFullSync.frontmatter (cleaned threadId msg),
                          ImapFullSync.body (cleaned threadId msg))) messages
    /\ ImapFullSync.tm_id meta = threadId /\ IndexWriter.id entry = threadId
    /\ ImapFullSync.tm_message_count meta = length messages
    /\ IndexWriter.msg_count entry = Z.of_nat (length messages)
    /\ IndexWriter.participants entry = map fst (ImapFullSync.tm_participants meta)
    /\ participants_ok email threadId messages (ImapFullSync.tm_participants meta)
    /\ map ImapFullSync.c_email (contact_upserts calls)
       = filter (fun addr => addr <> email) (map fst (ImapFullSync.tm_participants meta)).
Proof.
  cbn zeta. unfold ImapFullSync.processThread. cbv zeta.
  set (st0 := {| ImapFullSync.participants := []; ImapFullSync.allAttachmentMeta := [];
                 ImapFullSync.totalSize := 0; ImapFullSync.subject_ := js "(no subject)";
                 ImapFullSync.firstDate := now; ImapFullSync.lastDate := now;
                 ImapFullSync.lastSnippet := []; ImapFullSync.isUnread := false;
                 ImapFullSync.calls := [] |}).
  assert (H0 : participants_ok email threadId [] (ImapFullSync.participants st0)).
  { split; [constructor |]. split; [constructor | intros ? []]. }
  destruct (process_messages_spec email threadId messages [] st0 0 H0)
    as (Hp & Hw & Hi & Hm & Hc).
  cbn [app] in Hp.
  set (st := process_messages email threadId st0 0 messages) in *.
  set (contacts := omap _ (ImapFullSync.participants st)).
  destruct (contact_calls_only
              (fun p : jsstring * (jsstring * ImapFullSync.role) =>
                 match snd (snd p) with
                 | ImapFullSync.External =>
                     Some (ImapFullSync.UpsertContactIndex
                             {| ImapFullSync.c_email := fst p;
                                ImapFullSync.c_name := fst (snd p);
                                ImapFullSync.c_first_seen :=
                                  ImapFullSync.date_part (ImapFullSync.firstDate st);
                                ImapFullSync.c_last_seen :=
                                  ImapFullSync.date_part (ImapFullSync.lastDate st);
                                ImapFullSync.c_msg_count := 1;
                                ImapFullSync.c_labels_common := [js "INBOX"];
                                ImapFullSync.c_is_frequent := false |})
                 | ImapFullSync.Self => None
                 end) (ImapFullSync.participants st)) as (C1 & C2 & C3).
  { intros p c Hpc. destruct (snd (snd p)); [discriminate |].
    injection Hpc as <-. eexists. reflexivity. }
  fold contacts in C1, C2, C3.
  eexists. eexists.
  unfold meta_writes, index_upserts, message_writes, contact_upserts in *.
  rewrite !omap_app. rewrite Hw, Hi, Hm, Hc, C1, C2, C3.
  cbn [omap list_omap app ImapFullSync.calls st0].
  split; [reflexivity |]. split; [reflexivity |].
  split; [now rewrite app_nil_r |].
  cbn [ImapFullSync.tm_id IndexWriter.id ImapFullSync.tm_message_count IndexWriter.msg_count
       IndexWriter.participants ImapFullSync.tm_participants].
  repeat (split; [reflexivity |]). split; [exact Hp |].
  destruct Hp as (_ & Hall & _). subst contacts.
  apply contacts_of_participants.
  eapply Forall_impl; [exact Hall |]. now intros p (_ & _ & Hrole).
Qed.

(** [processThread] lists every sender of the thread once and never
    files the account itself as a contact. The thread metadata and the
    index entry written carry the thread id and the number of messages;
    the participants are exactly the non-empty sender addresses of the
    messages, each once, in the order of their first message; and the
    contacts given to the contact index are exactly the participants
    other than the account, each once. *)
Theorem processThread_participants (email threadId : jsstring)
        (messages : list ImapSync.ImapMessage) :
  let calls := processThread email threadId messages in
  exists meta entry,
    meta_writes calls = [meta] /\ index_upserts calls = [entry]
    /\ ImapFullSync.tm_id meta = threadId /\ IndexWriter.id entry = threadId
    /\ ImapFullSync.tm_message_count meta = length messages
    /\ IndexWriter.msg_count entry = Z.of_nat (length messages)
    /\ IndexWriter.participants entry = map fst (ImapFullSync.tm_participants meta)
    /\ NoDup (IndexWriter.participants entry)
    /\ (forall addr, In addr (IndexWriter.participants entry)
                     <-> addr <> [] /\ exists msg, In msg messages
                                                 /\ sender threadId msg = addr)
    /\ NoDup (map ImapFullSync.c_email (contact_upserts calls))
    /\ (forall addr, In addr (map ImapFullSync.c_email (contact_upserts calls))
                     <-> In addr (IndexWriter.participants entry) /\ addr <> email).
Proof.
  cbn zeta.
  destruct (processThread_spec email threadId messages)
    as (meta & entry & Hm & Hi & _ & H1 & H2 & H3 & H4 & H5 & (Hnd & Hall & Hcover) & Hc).
  exists meta, entry. rewrite H5, Hc.
  repeat (split; [assumption || reflexivity |]).
  split.
  { intros addr. split.
    - intros Hin. apply in_map_iff in Hin as (p & <- & Hp).
      rewrite Forall_forall in Hall. apply list_elem_of_In in Hp.
      destruct (Hall p Hp) as (Hne & Hmsg & _). now split.
    - intros (Hne & msg & Hmsg & <-). now apply Hcover. }
  split.
  { apply NoDup_filter. exact Hnd. }
  intros addr. split.
  - intros Hin. apply list_elem_of_In, list_elem_of_filter in Hin as [Hne Hin].
    split; [now apply list_elem_of_In | exact Hne].
  - intros [Hin Hne]. apply list_elem_of_In, list_elem_of_filter.
    split; [exact Hne | now apply list_elem_of_In].
Qed.

Lemma omap_flat_map {A B C : Type} (f : B -> option C) (g : A -> list B) (l : list A) :
  omap f (flat_map g l) = flat_map (fun a => omap f (g a)) l.
Proof.
  induction l as [|a l IH]; [reflexivity |].
  cbn [flat_map]. now rewrite omap_app, IH.
Qed.

(** A full sync writes every fetched message once, in the thread it was
    grouped in. The messages written are the messages fetched, each once,
    cleaned under the id of its thread; every thread gets one metadata
    file and one entry in the thread index, under its own id, and their
    number is the [threadCount] reported; the message counts of the
    entries add up to the number of messages fetched; and the account
    itself is never filed as a contact. *)
Theorem imapFullSync_writes_each_message_once (email : jsstring)
        (messages : list ImapSync.ImapMessage) :
  let '(calls, (lastUid, threadCount)) := imapFullSync email messages in
  let threads := ImapSync.groupIntoThreads toLowerCase parseQuickHeaders messages in
  (exists assignment : list (jsstring * ImapSync.ImapMessage),
      Permutation (map snd assignment) messages
      /\ Forall (fun a => in_thread (fst a) (snd a) threads) assignment
      /\ message_writes calls
         = map (fun a => (fst a, ImapFullSync.frontmatter (cleaned (fst a) (snd a)),
                          ImapFullSync.body (cleaned (fst a) (snd a)))) assignment)
  /\ map IndexWriter.id (index_upserts calls) = map fst threads
  /\ map ImapFullSync.tm_id (meta_writes calls) = map fst threads
  /\ NoDup (map IndexWriter.id (index_upserts calls))
  /\ threadCount = length (index_upserts calls)
  /\ fold_right Z.add 0%Z (map IndexWriter.msg_count (index_upserts calls))
     = Z.of_nat (length messages)
  /\ Forall (fun contact => ImapFullSync.c_email contact <> email
                            /\ ImapFullSync.c_email contact <> [])
            (contact_upserts calls).
Proof.
  unfold ImapFullSync.imapFullSync. cbv zeta.
  pose proof (groupIntoThreads_grouped toLowerCase parseQuickHeaders messages)
    as (Hkeys & _ & Hperm & _).
  set (threads := ImapSync.groupIntoThreads toLowerCase parseQuickHeaders messages) in *.
  set (per_thread := fun th : jsstring * list ImapSync.ImapMessage =>
                        processThread email (fst th) (snd th)).
  replace (message_writes (flat_map per_thread threads))
    with (flat_map (fun th => message_writes (processThread email (fst th) (snd th))) threads)
    by (symmetry; apply omap_flat_map).
  replace (index_upserts (flat_map per_thread threads))
    with (flat_map (fun th => index_upserts (processThread email (fst th) (snd th))) threads)
    by (symmetry; apply omap_flat_map).
  replace (meta_writes (flat_map per_thread threads))
    with (flat_map (fun th => meta_writes (processThread email (fst th) (snd th))) threads)
    by (symmetry; apply omap_flat_map).
  replace (contact_upserts (flat_map per_thread threads))
    with (flat_map (fun th => contact_upserts (processThread email (fst th) (snd th))) threads)
    by (symmetry; apply omap_flat_map).
  clear per_thread.
  assert (Hthreads : forall l : list (jsstring * list ImapSync.ImapMessage),
    flat_map (fun th => message_writes (processThread email (fst th) (snd th))) l
    = map (fun a => (fst a, ImapFullSync.frontmatter (cleaned (fst a) (snd a)),
                     ImapFullSync.body (cleaned (fst a) (snd a))))
          (flat_map (fun th => map (fun msg => (fst th, msg)) (snd th)) l)
    /\ map IndexWriter.id
           (flat_map (fun th => index_upserts (processThread email (fst th) (snd th))) l)
       = map fst l
    /\ map ImapFullSync.tm_id
           (flat_map (fun th => meta_writes (processThread email (fst th) (snd th))) l)
       = map fst l
    /\ length (flat_map (fun th => index_upserts (processThread email (fst th) (snd th))) l)
       = length l
    /\ fold_right Z.add 0%Z
         (map IndexWriter.msg_count
              (flat_map (fun th => index_upserts (processThread email (fst th) (snd th))) l))
       = Z.of_nat (length (concat (map snd l)))
    /\ Forall (fun contact => ImapFullSync.c_email contact <> email
                              /\ ImapFullSync.c_email contact <> [])
              (flat_map (fun th => contact_upserts (processThread email (fst th) (snd th))) l)).
  { induction l as [|[t msgs] l (I1 & I2 & I3 & I4 & I5 & I6)].
    - cbn. repeat split; constructor.
    - cbn [flat_map fst snd map concat].
      destruct (processThread_spec email t msgs)
        as (meta & entry & Hm & Hi & Hw & H1 & H2 & _ & H4 & _ & (_ & Hall & _) & Hc).
      cbn zeta in *. rewrite Hm, Hi, Hw.
      split; [rewrite I1, map_app, map_map; reflexivity |].
      split; [cbn; now rewrite I2, H2 |]. split; [cbn; now rewrite I3, H1 |].
      split; [cbn; now rewrite I4 |].
      split; [cbn [app map fold_right]; rewrite I5, H4, length_app; lia |].
      apply Forall_app. split; [| exact I6].
      apply Forall_forall. intros contact Hin.
      assert (Hin' : In (ImapFullSync.c_email contact)
                        (map ImapFullSync.c_email
                             (contact_upserts (processThread email t msgs)))).
      { apply in_map. now apply list_elem_of_In. }
      rewrite Hc in Hin'. apply list_elem_of_In, list_elem_of_filter in Hin' as [Hne Hp].
      split; [exact Hne |].
      apply list_elem_of_In, in_map_iff in Hp as (p & Hp & Hpin).
      rewrite Forall_forall in Hall. apply list_elem_of_In in Hpin.
      destruct (Hall p Hpin) as (Hnonempty & _). now rewrite <- Hp. }
  destruct (Hthreads threads) as (I1 & I2 & I3 & I4 & I5 & I6).
  split.
  { exists (flat_map (fun th => map (fun msg => (fst th, msg)) (snd th)) threads).
    split; [| split; [| exact I1]].
    - replace (map snd (flat_map (fun th => map (fun msg => (fst th, msg)) (snd th)) threads))
        with (concat (map snd threads)); [exact Hperm |].
      clear. induction threads as [|[t msgs] l IH]; [reflexivity |].
      cbn [map snd concat flat_map fst]. rewrite map_app, map_map. cbn [snd].
      now rewrite map_id, IH.
    - apply Forall_forall. intros [t m] Hin.
      apply list_elem_of_In, in_flat_map in Hin as ([t' msgs] & Hth & Hm).
      apply in_map_iff in Hm as (m' & [= <- <-] & Hm'). cbn [fst snd].
      exists msgs. split; assumption. }
  split; [exact I2 |]. split; [exact I3 |].
  split; [rewrite I2; exact Hkeys |]. split; [now rewrite I4 |].
  split; [| exact I6].
  rewrite I5. f_equal. now apply Permutation_length.
Qed.

End Writes.

(** Three messages of one conversation, the second sent by the account:
    three files are written, one thread is indexed, and the only contact
    filed is the other sender. *)
Example imapFullSync_trace :
  let headers := fun raw : jsstring =>
    {| ImapSync.messageId := []; ImapSync.inReplyTo := []; ImapSync.references := [];
       ImapSync.subject := js "Re: Pricing" |} in
  let clean := fun raw threadId msgId : jsstring =>
    {| ImapFullSync.frontmatter :=
         {| ThreadWriter.fm_id := msgId; ThreadWriter.fm_gmail_message_id := msgId;
            ThreadWriter.fm_thread_id := threadId;
            ThreadWriter.fm_rfc822_message_id := None; ThreadWriter.fm_in_reply_to := None;
            ThreadWriter.fm_references := None;
            ThreadWriter.fm_from := raw; ThreadWriter.fm_from_name := [];
            ThreadWriter.fm_to := []; ThreadWriter.fm_cc := None;
            ThreadWriter.fm_date := js "2026-02-17T09:30:00.000Z";
            ThreadWriter.fm_uid := None |};
       ImapFullSync.body := []; ImapFullSync.snippet := [];
       ImapFullSync.attachments := [] |} in
  let message := fun (uid : Z) (sender : jsstring) =>
    {| ImapSync.uid := uid; ImapSync.raw := sender; ImapSync.flags := [] |} in
  let '(calls, (lastUid, threadCount)) :=
    ImapFullSync.imapFullSync headers clean (js "2026-02-18T00:00:00.000Z")
      ImapSync.ascii_toLowerCase (js "me@gmail.com")
      [message 7%Z (js "mike@acme.com"); message 9%Z (js "me@gmail.com");
       message 8%Z (js "mike@acme.com")] in
  length (message_writes calls) = 3%nat
  /\ map IndexWriter.participants (index_upserts calls)
     = [[js "mike@acme.com"; js "me@gmail.com"]]
  /\ map ImapFullSync.c_email (contact_upserts calls) = [js "mike@acme.com"]
  /\ lastUid = 9%Z /\ threadCount = 1%nat.
Proof. vm_compute. repeat split. Qed.

(** ** part_003: the footer is cut off the end only *)

Section FooterCut.
Variable toLowerCase : jsstring -> jsstring.
Variable isFooterBoundary : jsstring -> bool.
Variable isFooterLine : jsstring -> bool.

Local Abbreviation lowered := (Footer.lowered toLowerCase).
Local Abbreviation boundary_cut := (Footer.boundary_cut toLowerCase isFooterBoundary).
Local Abbreviation blank_or_footer := (Footer.blank_or_footer toLowerCase isFooterLine).
Local Abbreviation trailing_run := (Footer.trailing_run toLowerCase isFooterLine).
Local Abbreviation stripFooter :=
  (Footer.stripFooter toLowerCase isFooterBoundary isFooterLine).

Lemma boundary_cut_spec (text : jsstring) (lines : list jsstring) (i : nat)
      (rest : list jsstring) (stripped : jsstring) :
  drop i lines = rest ->
  boundary_cut text lines i rest = Some stripped ->
  exists k line,
    (i <= k)%nat /\ lines !! k = Some line
    /\ isFooterBoundary (lowered line) = true
    /\ stripped = trim (JS.join [LF] (take k lines))
    /\ (length (trim text) < 5 * length stripped)%nat.
Proof.
  revert i. induction rest as [|line rest IH]; intros i Hdrop Hcut; [discriminate |].
  cbn [Footer.boundary_cut] in Hcut.
  assert (Hline : lines !! i = Some line).
  { change (Some line) with ((line :: rest) !! 0%nat). rewrite <- Hdrop.
    rewrite lookup_drop. f_equal. lia. }
  assert (Hnext : drop (S i) lines = rest).
  { change rest with (drop 1 (line :: rest)). rewrite <- Hdrop.
    rewrite drop_drop. f_equal. lia. }
  destruct (isFooterBoundary (lowered line)
            && (length (trim text) <? 5 * length (trim (JS.join [LF] (take i lines))))%nat)
    eqn:E.
  - injection Hcut as <-. apply andb_prop in E as [Hb Hlen]. apply Nat.ltb_lt in Hlen.
    exists i, line. repeat split; try assumption; lia.
  - destruct (IH (S i) Hnext Hcut) as (k & l & Hk & Hl & Hrest).
    exists k, l. split; [lia |]. split; assumption.
Qed.

Lemma trailing_run_spec (reversed : list jsstring) :
  (trailing_run reversed <= length reversed)%nat
  /\ Forall (fun line => blank_or_footer line = true) (take (trailing_run reversed) reversed).
Proof.
  induction reversed as [|line rest [IH1 IH2]]; cbn [Footer.trailing_run].
  - split; [lia | constructor].
  - destruct (blank_or_footer line) eqn:E; cbn [length take].
    + split; [lia |]. now constructor.
    + split; [lia | constructor].
Qed.

(** The footer is cut off the end, and never from the first two fifths
    of the lines. The result is the text as it is, or its first [k]
    lines with [k] at least two fifths of their number (rounded down):
    either trimmed, when line [k] is a footer boundary and more than a
    fifth of the trimmed text is kept; or as they are, when more than
    two fifths of the lines are kept and every line cut is blank or a
    footer line. *)
Theorem stripFooter_cuts_the_end_only (text : jsstring) :
  let lines := split LF text in
  let result := stripFooter text in
  result = text
  \/ exists k,
      (2 * length lines / 5 <= k < length lines)%nat
      /\ ((result = trim (JS.join [LF] (take k lines))
           /\ (exists line, lines !! k = Some line /\ isFooterBoundary (lowered line) = true)
           /\ (length (trim text) < 5 * length result)%nat)
          \/ (result = JS.join [LF] (take k lines)
              /\ (2 * length lines < 5 * k)%nat
              /\ Forall (fun line => blank_or_footer line = true) (drop k lines))).
Proof.
  intros lines result. subst result. unfold Footer.stripFooter. fold lines.
  destruct (boundary_cut text lines (2 * length lines / 5)
              (drop (2 * length lines / 5) lines)) as [stripped|] eqn:E.
  - right. destruct (boundary_cut_spec _ _ _ _ _ eq_refl E)
      as (k & line & Hk & Hline & Hb & Hs & Hlen).
    exists k. split.
    + split; [exact Hk |]. now apply lookup_lt_Some in Hline.
    + left. split; [exact Hs |]. split; [now exists line | now rewrite Hs in *].
  - destruct (trailing_run_spec (rev lines)) as [Hle Hall]. rewrite length_rev in Hle.
    set (run := trailing_run (rev lines)) in *.
    destruct ((length lines - run <? length lines)%nat
              && (2 * length lines <? 5 * (length lines - run))%nat) eqn:Ec; [| now left].
    apply andb_prop in Ec as [H1 H2]. apply Nat.ltb_lt in H1, H2.
    right. exists (length lines - run)%nat. split.
    + split; [| exact H1].
      pose proof (Nat.Div0.mul_div_le (2 * length lines) 5) as Hd. lia.
    + right. split; [reflexivity |]. split; [exact H2 |].
      rewrite firstn_rev in Hall. apply Forall_rev in Hall.
      now rewrite rev_involutive in Hall.
Qed.

End FooterCut.

(** A footer line at the end is cut; the same line alone is the text. *)
Example stripFooter_trace :
  let strip := Footer.stripFooter ImapSync.ascii_toLowerCase (fun _ => false)
                 (fun line => jsstring_eqb line (js "unsubscribe")) in
  strip (js "Hi" ++ [LF] ++ js "Body" ++ [LF] ++ js "More" ++ [LF] ++ js "Unsubscribe")
  = js "Hi" ++ [LF] ++ js "Body" ++ [LF] ++ js "More"
  /\ strip (js "Unsubscribe") = js "Unsubscribe".
Proof. vm_compute. split; reflexivity. Qed.
